(** * PEFS directory cache: a shallow embedding of [sys/fs/pefs/pefs_dircache.c]

    The kernel memory the file works on is modelled as an explicit store:
    the two UMA zones are finite maps from addresses to records, the
    intrusive [LIST_*] queues of [sys/queue.h] are lists of entry
    addresses, and every function of the C file is a function from a
    store to a result ([Ok], or a fatal outcome).  Locks ([sx], [mtx])
    are not modelled: the embedding is the sequential semantics seen by
    the single writer that holds the directory cache lock.

    A C buffer argument [(char const *name, size_t name_len)] is the
    byte region it denotes: a [list byte] whose length is [name_len]. *)

From Stdlib Require Import ZArith List Lia Strings.Byte Strings.String.
From stdpp Require Import base option list gmap numbers relations.

Local Open Scope Z_scope.

(** ** Results of kernel code *)

Inductive fatal : Type :=
| Panic   (* panic(9), or an MPASS that fails in an INVARIANTS kernel *)
| Fault   (* access through a pointer or an index that is not valid *)
| Spin    (* a loop that did not finish within its bound *)
| Undefined.  (* an operation whose behaviour C leaves undefined *)

Inductive res (A : Type) : Type :=
| Ok (a : A)
| Err (e : fatal).
Arguments Ok {A} a.
Arguments Err {A} e.

#[global] Instance res_ret : MRet res := fun A a => Ok a.
#[global] Instance res_bind : MBind res := fun A B f m =>
  match m with
  | Ok a => f a
  | Err e => Err e
  end.

Definition is_fatal {A} (r : res A) : bool :=
  match r with
  | Ok _ => false
  | Err _ => true
  end.

#[global] Instance byte_eq_decision : EqDecision byte := Byte.byte_eq_dec.

Definition NULL : Z := 0.

Definition u32 (x : Z) : Z := x mod 2 ^ 32.
Definition u_long (x : Z) : Z := x mod 2 ^ 64.

(** ** What the file takes from the rest of the kernel

    [pefs.h], [pefs_dircache.h] and the FreeBSD headers are not part of
    the file; what it uses from them is a parameter of the model. *)

Class Platform : Type := {
  (** key objects of [pefs_key_ref] / [pefs_key_release] *)
  keystate : Type;
  pefs_key_ref : Z -> keystate -> keystate;
  pefs_key_release : Z -> keystate -> keystate;
  (** [pefs_hash_mixptr(pd)] *)
  pefs_hash_mixptr : Z -> Z;
  (** [hash32_buf(buf, len, seed)] of [sys/hash.h], on the region it reads *)
  hash32_buf : list byte -> Z -> Z;
  HASHINIT : Z;
  (** [sizeof(pde->pde_name)] and [sizeof(pde->pde_encname)] *)
  sizeof_pde_name : nat;
  sizeof_pde_encname : nat;
  (** [sizeof(pdp->pdp_tbl[0])], the size in bytes of a list head *)
  sizeof_listhead : Z;
  sizeof_listhead_pos : 0 < sizeof_listhead;
  (** the two flags of [pd_flags] are distinct single bits *)
  PD_UPDATING_bit : Z;
  PD_SWAPEDHEADS_bit : Z;
  PD_UPDATING_bit_nonneg : 0 <= PD_UPDATING_bit;
  PD_SWAPEDHEADS_bit_nonneg : 0 <= PD_SWAPEDHEADS_bit;
  PD_bits_distinct : PD_UPDATING_bit <> PD_SWAPEDHEADS_bit;
  (** kernel built with [options INVARIANTS]: MPASS is checked *)
  INVARIANTS : bool
}.

(** A platform to run the model on: the [hash32_buf] and [HASHINIT] of
    FreeBSD's [sys/hash.h], reference counts for the keys, name arrays of
    16 bytes, list heads of one 8-byte pointer, and a kernel that checks
    its assertions. *)
Definition sample_platform : Platform :=
  {| keystate := gmap Z Z;
     pefs_key_ref := fun k ks => <[k := default 0 (ks !! k) + 1]> ks;
     pefs_key_release := fun k ks => <[k := default 0 (ks !! k) - 1]> ks;
     pefs_hash_mixptr := fun pd => Z.lxor pd (Z.shiftr pd 7);
     hash32_buf := fun buf seed =>
       foldl (fun h c => (Z.shiftl h 5 + h + Z.of_N (Byte.to_N c)) mod 2 ^ 32) seed buf;
     HASHINIT := 5381;
     sizeof_pde_name := 16;
     sizeof_pde_encname := 16;
     sizeof_listhead := 8;
     sizeof_listhead_pos := ltac:(lia);
     PD_UPDATING_bit := 0;
     PD_SWAPEDHEADS_bit := 1;
     PD_UPDATING_bit_nonneg := ltac:(lia);
     PD_SWAPEDHEADS_bit_nonneg := ltac:(lia);
     PD_bits_distinct := ltac:(lia);
     INVARIANTS := true |}.

(** ** Data model *)

Record pefs_tkey : Type := {
  ptk_key : Z;
  ptk_tweak : list byte
}.

Record pefs_dircache_entry : Type := {
  pde_dircache : Z;
  pde_tkey : pefs_tkey;
  pde_gen : Z;
  pde_namehash : Z;
  pde_encnamehash : Z;
  pde_namelen : nat;
  pde_encnamelen : nat;
  pde_name : list byte;
  pde_encname : list byte
}.

(** [pd_heads] is the array of two list heads; the lists hold the
    addresses of the entries linked through [pde_dir_entry]. *)
Record pefs_dircache : Type := {
  pd_heads0 : list Z;
  pd_heads1 : list Z;
  pd_gen : Z;
  pd_flags : Z;
  pd_pool : Z
}.

(** The bucket lists hold the addresses of the entries linked through
    [pde_hash_entry] and [pde_enchash_entry]; a table that is not
    allocated is [None]. *)
Record pefs_dircache_pool : Type := {
  pdp_tbl : option (list (list Z));
  pdp_enctbl : option (list (list Z))
}.

Section Dircache.
Context {P : Platform}.

Record kmem : Type := {
  dircache_zone : gmap Z pefs_dircache;
  dircache_entry_zone : gmap Z pefs_dircache_entry;
  pools : gmap Z pefs_dircache_pool;
  dircache_hashmask : Z;
  dircache_buckets : Z;
  dircache_global_enable : Z;
  dircache_entries : Z;
  keys : keystate
}.

Definition DIRCACHE_SIZE_MIN : Z := 512.
Definition DIRCACHE_SIZE_DEFAULT (desiredvnodes : Z) : Z := Z.quot desiredvnodes 8.

Definition PD_UPDATING : Z := Z.shiftl 1 PD_UPDATING_bit.
Definition PD_SWAPEDHEADS : Z := Z.shiftl 1 PD_SWAPEDHEADS_bit.

(** *** Field updates *)

Definition set_pd_heads0 (l : list Z) (c : pefs_dircache) : pefs_dircache :=
  {| pd_heads0 := l; pd_heads1 := pd_heads1 c; pd_gen := pd_gen c;
     pd_flags := pd_flags c; pd_pool := pd_pool c |}.
Definition set_pd_heads1 (l : list Z) (c : pefs_dircache) : pefs_dircache :=
  {| pd_heads0 := pd_heads0 c; pd_heads1 := l; pd_gen := pd_gen c;
     pd_flags := pd_flags c; pd_pool := pd_pool c |}.
Definition set_pd_gen (g : Z) (c : pefs_dircache) : pefs_dircache :=
  {| pd_heads0 := pd_heads0 c; pd_heads1 := pd_heads1 c; pd_gen := g;
     pd_flags := pd_flags c; pd_pool := pd_pool c |}.
Definition set_pd_flags (f : Z) (c : pefs_dircache) : pefs_dircache :=
  {| pd_heads0 := pd_heads0 c; pd_heads1 := pd_heads1 c; pd_gen := pd_gen c;
     pd_flags := f; pd_pool := pd_pool c |}.

Definition set_pde_gen (g : Z) (e : pefs_dircache_entry) : pefs_dircache_entry :=
  {| pde_dircache := pde_dircache e; pde_tkey := pde_tkey e; pde_gen := g;
     pde_namehash := pde_namehash e; pde_encnamehash := pde_encnamehash e;
     pde_namelen := pde_namelen e; pde_encnamelen := pde_encnamelen e;
     pde_name := pde_name e; pde_encname := pde_encname e |}.

Definition set_pdp_tbl (t : option (list (list Z))) (p : pefs_dircache_pool) :=
  {| pdp_tbl := t; pdp_enctbl := pdp_enctbl p |}.
Definition set_pdp_enctbl (t : option (list (list Z))) (p : pefs_dircache_pool) :=
  {| pdp_tbl := pdp_tbl p; pdp_enctbl := t |}.

Definition with_dircache_zone (z : gmap Z pefs_dircache) (m : kmem) : kmem :=
  {| dircache_zone := z; dircache_entry_zone := dircache_entry_zone m;
     pools := pools m; dircache_hashmask := dircache_hashmask m;
     dircache_buckets := dircache_buckets m;
     dircache_global_enable := dircache_global_enable m;
     dircache_entries := dircache_entries m; keys := keys m |}.
Definition with_dircache_entry_zone (z : gmap Z pefs_dircache_entry) (m : kmem) : kmem :=
  {| dircache_zone := dircache_zone m; dircache_entry_zone := z;
     pools := pools m; dircache_hashmask := dircache_hashmask m;
     dircache_buckets := dircache_buckets m;
     dircache_global_enable := dircache_global_enable m;
     dircache_entries := dircache_entries m; keys := keys m |}.
Definition with_pools (ps : gmap Z pefs_dircache_pool) (m : kmem) : kmem :=
  {| dircache_zone := dircache_zone m; dircache_entry_zone := dircache_entry_zone m;
     pools := ps; dircache_hashmask := dircache_hashmask m;
     dircache_buckets := dircache_buckets m;
     dircache_global_enable := dircache_global_enable m;
     dircache_entries := dircache_entries m; keys := keys m |}.
Definition with_dircache_entries (n : Z) (m : kmem) : kmem :=
  {| dircache_zone := dircache_zone m; dircache_entry_zone := dircache_entry_zone m;
     pools := pools m; dircache_hashmask := dircache_hashmask m;
     dircache_buckets := dircache_buckets m;
     dircache_global_enable := dircache_global_enable m;
     dircache_entries := n; keys := keys m |}.
Definition with_keys (k : keystate) (m : kmem) : kmem :=
  {| dircache_zone := dircache_zone m; dircache_entry_zone := dircache_entry_zone m;
     pools := pools m; dircache_hashmask := dircache_hashmask m;
     dircache_buckets := dircache_buckets m;
     dircache_global_enable := dircache_global_enable m;
     dircache_entries := dircache_entries m; keys := k |}.

(** *** Memory access *)

Definition MPASS (c : bool) : res unit :=
  if INVARIANTS && negb c then Err Panic else Ok tt.

Definition load_pd (m : kmem) (pd : Z) : res pefs_dircache :=
  match dircache_zone m !! pd with
  | Some c => Ok c
  | None => Err Fault
  end.

Definition load_pde (m : kmem) (pde : Z) : res pefs_dircache_entry :=
  match dircache_entry_zone m !! pde with
  | Some e => Ok e
  | None => Err Fault
  end.

Definition load_pool (m : kmem) (pdp : Z) : res pefs_dircache_pool :=
  match pools m !! pdp with
  | Some p => Ok p
  | None => Err Fault
  end.

Definition store_pd (pd : Z) (c : pefs_dircache) (m : kmem) : kmem :=
  with_dircache_zone (<[pd := c]> (dircache_zone m)) m.

Definition store_pde (pde : Z) (e : pefs_dircache_entry) (m : kmem) : kmem :=
  with_dircache_entry_zone (<[pde := e]> (dircache_entry_zone m)) m.

Definition store_pool (pdp : Z) (p : pefs_dircache_pool) (m : kmem) : kmem :=
  with_pools (<[pdp := p]> (pools m)) m.

(** [uma_zalloc(zone, M_WAITOK)]: an address that is not NULL and not in use. *)
Definition uma_zalloc {A} (zone : gmap Z A) : Z := fresh ({[NULL]} ∪ dom zone).

(** *** The macros of the file *)

Definition updating (c : pefs_dircache) : bool :=
  negb (Z.land (pd_flags c) PD_UPDATING =? 0).

(** The bit that [DIRCACHE_HEADOFF] tests. *)
Definition swapped (c : pefs_dircache) : bool :=
  Z.testbit (pd_flags c) PD_SWAPEDHEADS_bit.

Definition DIRCACHE_HEADOFF (c : pefs_dircache) : Z :=
  if Z.land (pd_flags c) PD_SWAPEDHEADS =? 0 then 0 else 1.

(** [pd_heads[i]] *)
Definition pd_heads (c : pefs_dircache) (i : Z) : list Z :=
  if i =? 0 then pd_heads0 c else pd_heads1 c.
Definition set_pd_heads (i : Z) (l : list Z) (c : pefs_dircache) : pefs_dircache :=
  if i =? 0 then set_pd_heads0 l c else set_pd_heads1 l c.

(** The macros give the index into [pd_heads]. *)
Definition DIRCACHE_ACTIVEHEAD (c : pefs_dircache) : Z := Z.lxor (DIRCACHE_HEADOFF c) 0.
Definition DIRCACHE_STALEHEAD (c : pefs_dircache) : Z := Z.lxor (DIRCACHE_HEADOFF c) 1.

Definition active (c : pefs_dircache) : list Z := pd_heads c (DIRCACHE_ACTIVEHEAD c).
Definition stale (c : pefs_dircache) : list Z := pd_heads c (DIRCACHE_STALEHEAD c).

Definition LIST_EMPTY (l : list Z) : bool :=
  match l with
  | [] => true
  | _ :: _ => false
  end.

Definition DIRCACHE_ASSERT (c : pefs_dircache) : res unit :=
  MPASS (LIST_EMPTY (pd_heads c 0) || LIST_EMPTY (pd_heads c 1)).

(** [(hash) & dircache_hashmask], the index of a bucket *)
Definition DIRCACHE_TBL (m : kmem) (hash : Z) : nat :=
  Z.to_nat (Z.land hash (dircache_hashmask m)).

(** [LIST_REMOVE] unlinks an element from the list it is on, whichever
    that is: [unlink pde] is applied to every list threaded through the
    same link field. *)
Definition unlink (pde : Z) (l : list Z) : list Z :=
  filter (fun x => x ≠ pde) l.

Definition LIST_REMOVE_dir_entry (pde : Z) (m : kmem) : kmem :=
  with_dircache_zone
    ((fun c => set_pd_heads1 (unlink pde (pd_heads1 c))
                 (set_pd_heads0 (unlink pde (pd_heads0 c)) c))
       <$> dircache_zone m) m.

Definition LIST_REMOVE_hash_entry (pde : Z) (m : kmem) : kmem :=
  with_pools
    ((fun p => set_pdp_tbl (fmap (M := list) (unlink pde) <$> pdp_tbl p) p)
       <$> pools m) m.

Definition LIST_REMOVE_enchash_entry (pde : Z) (m : kmem) : kmem :=
  with_pools
    ((fun p => set_pdp_enctbl (fmap (M := list) (unlink pde) <$> pdp_enctbl p) p)
       <$> pools m) m.

(** [LIST_INSERT_HEAD(head(pd), pde, pde_dir_entry)], [head] one of the
    two head macros, evaluated on the cache as it is now. *)
Definition LIST_INSERT_HEAD_dir_entry (head : pefs_dircache -> Z) (pd pde : Z)
    (m : kmem) : res kmem :=
  c ← load_pd m pd;
  Ok (store_pd pd (set_pd_heads (head c) (pde :: pd_heads c (head c)) c) m).

Definition bucket_insert_head (tbl : option (list (list Z))) (i : nat) (pde : Z)
    : res (list (list Z)) :=
  match tbl with
  | None => Err Fault
  | Some t =>
      match t !! i with
      | Some b => Ok (<[i := pde :: b]> t)
      | None => Err Fault
      end
  end.

Definition bucket (tbl : option (list (list Z))) (i : nat) : res (list Z) :=
  match tbl with
  | None => Err Fault
  | Some t =>
      match t !! i with
      | Some b => Ok b
      | None => Err Fault
      end
  end.

(** *** [dircache_hashname] *)

Definition dircache_hashname (pd : Z) (buf : list byte) (len : nat) : Z :=
  let h := u32 (pefs_hash_mixptr pd) in
  u32 (Z.lxor h (u32 (hash32_buf (take len buf) (u32 (HASHINIT * Z.of_nat len))))).

(** [memcmp(a, b, n) == 0] *)
Definition memcmp_eq (a b : list byte) (n : nat) : bool :=
  bool_decide (take n a = take n b).

(** *** [dircache_entry_free] *)

Definition dircache_entry_free (pde : Z) (m : kmem) : res kmem :=
  _ ← MPASS (negb (pde =? NULL));
  e ← load_pde m pde;
  c ← load_pd m (pde_dircache e);
  _ ← load_pool m (pd_pool c);
  let m := with_keys (pefs_key_release (ptk_key (pde_tkey e)) (keys m)) m in
  let m := LIST_REMOVE_dir_entry pde m in
  let m := LIST_REMOVE_hash_entry pde m in
  let m := LIST_REMOVE_enchash_entry pde m in
  let m := with_dircache_entries (u_long (dircache_entries m - 1)) m in
  Ok (with_dircache_entry_zone (delete pde (dircache_entry_zone m)) m).

(** [while (!LIST_EMPTY(head(pd))) dircache_entry_free(LIST_FIRST(head(pd)));]
    Every round unlinks the first element, so the number of rounds is
    at most the length of the list at the start, which is the bound the
    callers pass. *)
Fixpoint free_list (head : pefs_dircache -> Z) (pd : Z) (bound : nat)
    (m : kmem) : res kmem :=
  c ← load_pd m pd;
  match pd_heads c (head c) with
  | [] => Ok m
  | pde :: _ =>
      match bound with
      | O => Err Spin
      | S bound' =>
          m ← dircache_entry_free pde m;
          free_list head pd bound' m
      end
  end.

Definition free_all (head : pefs_dircache -> Z) (pd : Z) (m : kmem) : res kmem :=
  c ← load_pd m pd;
  free_list head pd (length (pd_heads c (head c))) m.

(** *** [dircache_expire] *)

Fixpoint expire_list (pd : Z) (bound : nat) (m : kmem) : res kmem :=
  c ← load_pd m pd;
  match active c with
  | [] => Ok m
  | pde :: _ =>
      match bound with
      | O => Err Spin
      | S bound' =>
          e ← load_pde m pde;
          let m := store_pde pde (set_pde_gen 0 e) m in
          let m := LIST_REMOVE_dir_entry pde m in
          m ← LIST_INSERT_HEAD_dir_entry DIRCACHE_STALEHEAD pd pde m;
          expire_list pd bound' m
      end
  end.

Definition dircache_expire (pd : Z) (m : kmem) : res kmem :=
  c ← load_pd m pd;
  let c := set_pd_gen 0 c in
  let m := store_pd pd c m in
  m ← (if LIST_EMPTY (stale c)
       then Ok (store_pd pd (set_pd_flags (Z.lxor (pd_flags c) PD_SWAPEDHEADS) c) m)
       else expire_list pd (length (active c)) m);
  c ← load_pd m pd;
  _ ← MPASS (LIST_EMPTY (active c));
  Ok m.

(** *** [dircache_update] *)

Definition dircache_update (pde : Z) (onlist : Z) (m : kmem) : res kmem :=
  e ← load_pde m pde;
  let pd := pde_dircache e in
  c ← load_pd m pd;
  if updating c then
    let m := store_pde pde (set_pde_gen (pd_gen c) e) m in
    let m := if negb (onlist =? 0) then LIST_REMOVE_dir_entry pde m else m in
    LIST_INSERT_HEAD_dir_entry DIRCACHE_ACTIVEHEAD pd pde m
  else if (pd_gen c =? 0) || negb (pd_gen c =? pde_gen e) then
    m ← dircache_expire pd m;
    e ← load_pde m pde;
    let m := store_pde pde (set_pde_gen 0 e) m in
    if onlist =? 0
    then LIST_INSERT_HEAD_dir_entry DIRCACHE_STALEHEAD pd pde m
    else Ok m
  else Ok m.

Definition pefs_dircache_update (pde : Z) (m : kmem) : res kmem :=
  dircache_update pde 1 m.

(** *** [pefs_dircache_insert] *)

(** The array [pde_name] after [uma_zalloc(.., M_ZERO)], [memcpy] and the
    terminating NUL. *)
Definition name_buffer (size : nat) (name : list byte) : list byte :=
  name ++ replicate (size - length name) x00.

Definition pefs_dircache_insert (pd : Z) (ptk : pefs_tkey)
    (name encname : list byte) (m : kmem) : res (kmem * Z) :=
  let name_len := length name in
  let encname_len := length encname in
  _ ← MPASS (negb (ptk_key ptk =? NULL));
  if (name_len =? 0)%nat || (sizeof_pde_name <=? name_len)%nat ||
     (encname_len =? 0)%nat || (sizeof_pde_encname <=? encname_len)%nat
  then Err Panic
  else
    let pde := uma_zalloc (dircache_entry_zone m) in
    let m := with_keys (pefs_key_ref (ptk_key ptk) (keys m)) m in
    let pde_name := name_buffer sizeof_pde_name name in
    let pde_encname := name_buffer sizeof_pde_encname encname in
    let e :=
      {| pde_dircache := pd; pde_tkey := ptk; pde_gen := 0;
         pde_namehash := dircache_hashname pd pde_name name_len;
         pde_encnamehash := dircache_hashname pd pde_encname encname_len;
         pde_namelen := name_len; pde_encnamelen := encname_len;
         pde_name := pde_name; pde_encname := pde_encname |} in
    let m := store_pde pde e m in
    (* Insert into list and set pge_gen *)
    m ← dircache_update pde 0 m;
    c ← load_pd m pd;
    pdp ← load_pool m (pd_pool c);
    tbl ← bucket_insert_head (pdp_tbl pdp) (DIRCACHE_TBL m (pde_namehash e)) pde;
    let pdp := set_pdp_tbl (Some tbl) pdp in
    enctbl ← bucket_insert_head (pdp_enctbl pdp) (DIRCACHE_TBL m (pde_encnamehash e)) pde;
    let pdp := set_pdp_enctbl (Some enctbl) pdp in
    let m := store_pool (pd_pool c) pdp m in
    let m := with_dircache_entries (u_long (dircache_entries m + 1)) m in
    Ok (m, pde).

(** *** [pefs_dircache_lookup] and [pefs_dircache_enclookup] *)

(** [LIST_FOREACH(pde, bucket, field) if (hit(pde)) return (pde);] and
    [return (NULL)] after the loop. *)
Fixpoint LIST_FOREACH_find (m : kmem) (hit : pefs_dircache_entry -> bool)
    (l : list Z) : res Z :=
  match l with
  | [] => Ok NULL
  | pde :: l' =>
      e ← load_pde m pde;
      if hit e then Ok pde else LIST_FOREACH_find m hit l'
  end.

Definition pefs_dircache_lookup (pd : Z) (name : list byte) (m : kmem) : res Z :=
  let name_len := length name in
  _ ← MPASS (negb (pd =? NULL));
  c ← load_pd m pd;
  _ ← MPASS (negb (updating c));
  _ ← MPASS (LIST_EMPTY (stale c));
  let h := dircache_hashname pd name name_len in
  pdp ← load_pool m (pd_pool c);
  b ← bucket (pdp_tbl pdp) (DIRCACHE_TBL m h);
  LIST_FOREACH_find m
    (fun e => (pde_namehash e =? h) && (pde_dircache e =? pd) &&
              (pde_gen e =? pd_gen c) && (pde_namelen e =? name_len)%nat &&
              memcmp_eq (pde_name e) name name_len) b.

Definition pefs_dircache_enclookup (pd : Z) (encname : list byte) (m : kmem) : res Z :=
  let encname_len := length encname in
  let h := dircache_hashname pd encname encname_len in
  c ← load_pd m pd;
  pdp ← load_pool m (pd_pool c);
  b ← bucket (pdp_enctbl pdp) (DIRCACHE_TBL m h);
  LIST_FOREACH_find m
    (fun e => (pde_encnamehash e =? h) && (pde_dircache e =? pd) &&
              (pde_encnamelen e =? encname_len)%nat &&
              memcmp_eq (pde_encname e) encname encname_len) b.

(** *** The update pass *)

Definition pefs_dircache_beginupdate (pd : Z) (gen : Z) (m : kmem) : res kmem :=
  c ← load_pd m pd;
  if negb (gen =? 0) && negb (pd_gen c =? gen) then
    m ← (if negb (LIST_EMPTY (active c))
         then
           (* Assert consistent state *)
           _ ← MPASS (LIST_EMPTY (stale c));
           dircache_expire pd m
         else Ok m);
    c ← load_pd m pd;
    let c := set_pd_gen gen c in
    let c := set_pd_flags (Z.lor (pd_flags c) PD_UPDATING) c in
    let m := store_pd pd c m in
    _ ← MPASS (LIST_EMPTY (active c));
    Ok m
  else Ok m.

Definition pefs_dircache_abortupdate (pd : Z) (m : kmem) : res kmem :=
  c ← load_pd m pd;
  m ← (if updating c then
         m ← dircache_expire pd m;
         c ← load_pd m pd;
         Ok (store_pd pd (set_pd_flags (Z.land (pd_flags c) (Z.lnot PD_UPDATING)) c) m)
       else Ok m);
  c ← load_pd m pd;
  _ ← DIRCACHE_ASSERT c;
  Ok m.

Definition pefs_dircache_endupdate (pd : Z) (m : kmem) : res kmem :=
  c ← load_pd m pd;
  if negb (updating c) then
    _ ← DIRCACHE_ASSERT c;
    Ok m
  else
    m ← free_all DIRCACHE_STALEHEAD pd m;
    c ← load_pd m pd;
    Ok (store_pd pd (set_pd_flags (Z.land (pd_flags c) (Z.lnot PD_UPDATING)) c) m).

(** *** Creation and destruction *)

Definition pefs_dircache_create (pdp : Z) (m : kmem) : kmem * Z :=
  let pd := uma_zalloc (dircache_zone m) in
  let c := {| pd_heads0 := []; pd_heads1 := []; pd_gen := 0; pd_flags := 0;
              pd_pool := pdp |} in
  (store_pd pd c m, pd).

Definition pefs_dircache_purge (pd : Z) (m : kmem) : res kmem :=
  if pd =? NULL then Ok m
  else
    m ← free_all DIRCACHE_STALEHEAD pd m;
    free_all DIRCACHE_ACTIVEHEAD pd m.

Definition pefs_dircache_free (pd : Z) (m : kmem) : res kmem :=
  if pd =? NULL then Ok m
  else
    m ← pefs_dircache_purge pd m;
    _ ← load_pd m pd;
    Ok (with_dircache_zone (delete pd (dircache_zone m)) m).

(** *** The pool *)

(** [flsl(3)]: the index of the most significant bit set, counted from 1;
    0 when no bit is set. *)
Definition flsl (mask : Z) : Z :=
  if mask =? 0 then 0 else Z.log2 mask + 1.

(** [u_long tbl_size = dircache_hashmask + 1;] *)
Definition tbl_size (m : kmem) : Z := u_long (dircache_hashmask m + 1).

(** [malloc(tbl_size * sizeof(pdp->pdp_tbl[0]), M_PEFSHASH, M_WAITOK)]:
    the byte count is a [size_t] product, which wraps at [2^64]; the
    array that comes back has room for as many list heads as fit in that
    many bytes. *)
Definition malloc_room (tbl_size : Z) : Z :=
  u_long (tbl_size * sizeof_listhead) / sizeof_listhead.

(** Both arrays come from [malloc] and the loop then runs [LIST_INIT] on
    [tbl_size] buckets of each: a write past the end of the arrays when
    the byte count wrapped. *)
Definition pefs_dircache_pool_init (pdp : Z) (m : kmem) : res kmem :=
  let tbl_size := tbl_size m in
  if malloc_room tbl_size <? tbl_size then Err Fault
  else
    let empty := replicate (Z.to_nat tbl_size) ([] : list Z) in
    Ok (store_pool pdp {| pdp_tbl := Some empty; pdp_enctbl := Some empty |} m).

Definition pefs_dircache_pool_uninit (pdp : Z) (m : kmem) : res kmem :=
  _ ← load_pool m pdp;
  Ok (store_pool pdp {| pdp_tbl := None; pdp_enctbl := None |} m).

(** The bucket count [pefs_dircache_init] settles on: what
    [TUNABLE_ULONG_FETCH] found, or [DIRCACHE_SIZE_DEFAULT] when that is
    below [DIRCACHE_SIZE_MIN]. *)
Definition buckets_used (buckets desiredvnodes : Z) : Z :=
  if buckets <? DIRCACHE_SIZE_MIN
  then u_long (DIRCACHE_SIZE_DEFAULT desiredvnodes)
  else buckets.

(** [pefs_dircache_init]: [tunable_buckets] and [tunable_global] are what
    the two [TUNABLE_*_FETCH] find in the kernel environment, [global] is
    the address of [dircache_global], and the store passed in has the
    static initial values of the globals.  The shift [1ULL << 64] that a
    bucket count of [2^63] or more asks for is undefined in C. *)
Definition pefs_dircache_init (tunable_buckets tunable_global : option Z)
    (desiredvnodes : Z) (global : Z) (m : kmem) : res kmem :=
  let buckets := default (dircache_buckets m) tunable_buckets in
  let global_enable := default (dircache_global_enable m) tunable_global in
  let buckets := buckets_used buckets desiredvnodes in
  if 64 <=? flsl buckets then Err Undefined
  else
    let hashmask := u_long (u_long (Z.shiftl 1 (flsl buckets)) - 1) in
    let global_enable := if global_enable =? 0 then 0 else 1 in
    let m :=
      {| dircache_zone := ∅; dircache_entry_zone := ∅; pools := pools m;
         dircache_hashmask := hashmask; dircache_buckets := buckets;
         dircache_global_enable := global_enable;
         dircache_entries := dircache_entries m; keys := keys m |} in
    if negb (global_enable =? 0) then pefs_dircache_pool_init global m else Ok m.

(** [global] is the address of [dircache_global]. *)
Definition pefs_dircache_pool_create (global : Z) (m : kmem) : res (kmem * Z) :=
  if negb (dircache_global_enable m =? 0) then Ok (m, global)
  else
    let pdp := fresh ({[NULL; global]} ∪ dom (pools m)) in
    m ← pefs_dircache_pool_init pdp m;
    Ok (m, pdp).

Definition pefs_dircache_pool_free (pdp : Z) (m : kmem) : res kmem :=
  if negb (dircache_global_enable m =? 0) then Ok m
  else
    m ← pefs_dircache_pool_uninit pdp m;
    Ok (with_pools (delete pdp (pools m)) m).

(** The store before [pefs_dircache_init]: the static initial values. *)
Definition boot (k : keystate) : kmem :=
  {| dircache_zone := ∅; dircache_entry_zone := ∅; pools := ∅;
     dircache_hashmask := 0; dircache_buckets := 0;
     dircache_global_enable := 1; dircache_entries := 0; keys := k |}.

(** The table size as the specification words it: the configured count
    clamped to the minimum, rounded up to a power of two. *)
Definition spec_tbl_size (configured : Z) : Z :=
  2 ^ Z.log2_up (Z.max configured DIRCACHE_SIZE_MIN).

(** ** The operations as commands *)

Inductive op : Type :=
| Create (pdp : Z)
| Purge (pd : Z)
| Free (pd : Z)
| Insert (pd : Z) (ptk : pefs_tkey) (name encname : list byte)
| Lookup (pd : Z) (name : list byte)
| EncLookup (pd : Z) (encname : list byte)
| Update (pde : Z)
| BeginUpdate (pd : Z) (gen : Z)
| AbortUpdate (pd : Z)
| EndUpdate (pd : Z).

Definition run_op (o : op) (m : kmem) : res kmem :=
  match o with
  | Create pdp => Ok (pefs_dircache_create pdp m).1
  | Purge pd => pefs_dircache_purge pd m
  | Free pd => pefs_dircache_free pd m
  | Insert pd ptk name encname =>
      r ← pefs_dircache_insert pd ptk name encname m; Ok r.1
  | Lookup pd name => _ ← pefs_dircache_lookup pd name m; Ok m
  | EncLookup pd encname => _ ← pefs_dircache_enclookup pd encname m; Ok m
  | Update pde => pefs_dircache_update pde m
  | BeginUpdate pd gen => pefs_dircache_beginupdate pd gen m
  | AbortUpdate pd => pefs_dircache_abortupdate pd m
  | EndUpdate pd => pefs_dircache_endupdate pd m
  end.

Fixpoint run_ops (os : list op) (m : kmem) : res kmem :=
  match os with
  | [] => Ok m
  | o :: os' => m ← run_op o m; run_ops os' m
  end.

(** ** Predicates on stores *)

Definition cache (m : kmem) (pd : Z) : option pefs_dircache := dircache_zone m !! pd.
Definition entry (m : kmem) (pde : Z) : option pefs_dircache_entry :=
  dircache_entry_zone m !! pde.

(** [pde] is linked on one of the two lists of the cache. *)
Definition on_dir (c : pefs_dircache) (pde : Z) : Prop :=
  pde ∈ pd_heads0 c ∨ pde ∈ pd_heads1 c.

(** [pde] is linked in some bucket of the table. *)
Definition in_tbl (t : option (list (list Z))) (pde : Z) : Prop :=
  ∃ tt b, t = Some tt ∧ b ∈ tt ∧ pde ∈ b.

(** The table is allocated and every bucket index is within it. *)
Definition tbl_ok (m : kmem) (t : option (list (list Z))) : Prop :=
  ∃ tt, t = Some tt ∧ ∀ h, (DIRCACHE_TBL m h < length tt)%nat.

Definition pool_ok (m : kmem) (pdp : Z) : Prop :=
  ∃ pool, pools m !! pdp = Some pool ∧
          tbl_ok m (pdp_tbl pool) ∧ tbl_ok m (pdp_enctbl pool).

(** The plaintext and the encrypted name an entry holds. *)
Definition entry_name (e : pefs_dircache_entry) : list byte :=
  take (pde_namelen e) (pde_name e).
Definition entry_encname (e : pefs_dircache_entry) : list byte :=
  take (pde_encnamelen e) (pde_encname e).

(** The links of a store are consistent: the lists hold live entries of
    their own cache, every cache has its pool, and what the buckets hold
    is live. *)
Record wf0 (m : kmem) : Prop := {
  wf_null_pd : cache m NULL = None;
  wf_null_pde : entry m NULL = None;
  wf_dir : ∀ pd c p, cache m pd = Some c → on_dir c p →
             ∃ e, entry m p = Some e ∧ pde_dircache e = pd;
  wf_pool : ∀ pd c, cache m pd = Some c → pool_ok m (pd_pool c);
  wf_hash : ∀ pdp pool p, pools m !! pdp = Some pool → in_tbl (pdp_tbl pool) p →
             is_Some (entry m p);
  wf_enchash : ∀ pdp pool p, pools m !! pdp = Some pool → in_tbl (pdp_enctbl pool) p →
             is_Some (entry m p)
}.

(** Moreover every live entry is linked on a list of its cache. *)
Record wf (m : kmem) : Prop := {
  wf_base :> wf0 m;
  wf_live : ∀ p e, entry m p = Some e →
             ∃ c, cache m (pde_dircache e) = Some c ∧ on_dir c p
}.

(** An entry of cache [pd] as [pefs_dircache_insert] leaves it: live,
    owned by [pd], hashed from the names it holds, which fit in their
    arrays, and linked in the two buckets of the pool of [pd] that its
    hashes select. *)
Record cached (m : kmem) (pd pde : Z) (e : pefs_dircache_entry) : Prop := {
  cached_entry : entry m pde = Some e;
  cached_owner : pde_dircache e = pd;
  cached_namehash :
    pde_namehash e = dircache_hashname pd (pde_name e) (pde_namelen e);
  cached_encnamehash :
    pde_encnamehash e = dircache_hashname pd (pde_encname e) (pde_encnamelen e);
  cached_fits : (pde_namelen e ≤ length (pde_name e))%nat ∧
                (pde_encnamelen e ≤ length (pde_encname e))%nat;
  cached_tbl : ∃ c pool b, cache m pd = Some c ∧ pools m !! pd_pool c = Some pool ∧
    bucket (pdp_tbl pool) (DIRCACHE_TBL m (pde_namehash e)) = Ok b ∧ pde ∈ b;
  cached_enctbl : ∃ c pool b, cache m pd = Some c ∧ pools m !! pd_pool c = Some pool ∧
    bucket (pdp_enctbl pool) (DIRCACHE_TBL m (pde_encnamehash e)) = Ok b ∧ pde ∈ b
}.

(** The assertion [DIRCACHE_ASSERT] for the caches that are not updating. *)
Definition dircache_inv (m : kmem) : Prop :=
  ∀ pd c, cache m pd = Some c → updating c = false →
          pd_heads c 0 = [] ∨ pd_heads c 1 = [].

(** What the file expects of its caller: the pool handed to
    [pefs_dircache_create] is one that [pefs_dircache_pool_init] set up. *)
Definition op_pre (o : op) (m : kmem) : Prop :=
  match o with
  | Create pdp => pool_ok m pdp
  | _ => True
  end.

Fixpoint ops_pre (os : list op) (m : kmem) : Prop :=
  match os with
  | [] => True
  | o :: os' => op_pre o m ∧ ∀ m1, run_op o m = Ok m1 -> ops_pre os' m1
  end.

(** *** Two ways a store changes *)

Definition drop (S : list Z) (l : list Z) : list Z := filter (fun x => x ∉ S) l.

Definition drop_dir (S : list Z) (c : pefs_dircache) : pefs_dircache :=
  set_pd_heads1 (drop S (pd_heads1 c)) (set_pd_heads0 (drop S (pd_heads0 c)) c).

Definition drop_pool (S : list Z) (p : pefs_dircache_pool) : pefs_dircache_pool :=
  {| pdp_tbl := fmap (M := list) (drop S) <$> pdp_tbl p;
     pdp_enctbl := fmap (M := list) (drop S) <$> pdp_enctbl p |}.

(** [freed S m m']: [m'] is [m] with the entries [S] freed. *)
Record freed (S : list Z) (m m' : kmem) : Prop := {
  fr_cache : ∀ pd, cache m' pd = drop_dir S <$> cache m pd;
  fr_entry : ∀ p, entry m' p = if decide (p ∈ S) then None else entry m p;
  fr_pools : ∀ pdp, pools m' !! pdp = drop_pool S <$> pools m !! pdp;
  fr_hashmask : dircache_hashmask m' = dircache_hashmask m
}.

(** [relinked pd m m']: [m'] is [m] with entries of the cache [pd] moved
    between its two lists and generation stamps rewritten; nothing is
    allocated or freed, and the buckets and the other caches are as they
    were. *)
Record relinked (pd : Z) (m m' : kmem) : Prop := {
  rl_pools : pools m' = pools m;
  rl_hashmask : dircache_hashmask m' = dircache_hashmask m;
  rl_entry : ∀ p, set_pde_gen 0 <$> entry m' p = set_pde_gen 0 <$> entry m p;
  rl_frame : ∀ pd', pd' ≠ pd → cache m' pd' = cache m pd';
  rl_cache : match cache m pd, cache m' pd with
             | Some c, Some c' =>
                 pd_pool c' = pd_pool c ∧ ∀ q, on_dir c' q ↔ on_dir c q
             | None, None => True
             | _, _ => False
             end
}.

(** *** One step of an update pass on [pd] that neither inserts nor
    reconfirms the name [name] *)

Inductive pass_step (pd : Z) (name : list byte) (m : kmem) : kmem -> Prop :=
| pass_insert ptk name' encname m' pde :
    name' ≠ name ->
    pefs_dircache_insert pd ptk name' encname m = Ok (m', pde) ->
    pass_step pd name m m'
| pass_update pde e m' :
    entry m pde = Some e ->
    pde_dircache e = pd ->
    entry_name e ≠ name ->
    pefs_dircache_update pde m = Ok m' ->
    pass_step pd name m m'.

Inductive pass_steps (pd : Z) (name : list byte) (m : kmem) : kmem -> Prop :=
| pass_nil : pass_steps pd name m m
| pass_cons m1 m2 :
    pass_step pd name m m1 -> pass_steps pd name m1 m2 -> pass_steps pd name m m2.

(** What holds of the store all along such a pass when the entry [p0] of
    [pd] held [name] at its start: [p0] is still on the stale list, and
    no entry on the active list holds [name]. *)
Definition pass_inv (pd : Z) (name : list byte) (p0 : Z) (m : kmem) : Prop :=
  wf m ∧
  ∃ c e0, cache m pd = Some c ∧ updating c = true ∧ p0 ∈ stale c ∧
          entry m p0 = Some e0 ∧ entry_name e0 = name ∧
          ∀ q e, q ∈ active c -> entry m q = Some e -> entry_name e ≠ name.

Definition is_create (o : op) : bool :=
  match o with
  | Create _ => true
  | _ => false
  end.

(** *** Unloading the module *)

(** [pefs_dircache_uninit]: [global] is the address of [dircache_global];
    [uma_zdestroy] gives back every item of its zone. *)
Definition pefs_dircache_uninit (global : Z) (m : kmem) : res kmem :=
  m ← (if negb (dircache_global_enable m =? 0)
       then pefs_dircache_pool_uninit global m
       else Ok m);
  Ok (with_dircache_entry_zone ∅ (with_dircache_zone ∅ m)).

(** *** Further predicates on operations and stores *)

(** The pointer an operation is given is valid: NULL where the function
    checks for it, otherwise the address of a live object. *)
Definition op_live (o : op) (m : kmem) : Prop :=
  match o with
  | Create _ => True
  | Purge pd | Free pd => pd = NULL ∨ is_Some (cache m pd)
  | Insert pd _ _ _ | Lookup pd _ | EncLookup pd _
  | BeginUpdate pd _ | AbortUpdate pd | EndUpdate pd => is_Some (cache m pd)
  | Update pde => is_Some (entry m pde)
  end.

(** The cache an operation works on: its argument, the owner of the
    entry for [pefs_dircache_update], the cache allocated for
    [pefs_dircache_create]. *)
Definition op_cache (o : op) (m : kmem) : Z :=
  match o with
  | Create _ => uma_zalloc (dircache_zone m)
  | Purge pd | Free pd | Insert pd _ _ _ | Lookup pd _ | EncLookup pd _
  | BeginUpdate pd _ | AbortUpdate pd | EndUpdate pd => pd
  | Update pde => default NULL (pde_dircache <$> entry m pde)
  end.

(** When an operation on valid pointers panics: the length check of
    [pefs_dircache_insert], and the assertions of an INVARIANTS kernel. *)
Definition op_panics (o : op) (m : kmem) : bool :=
  match o with
  | Insert pd ptk name encname =>
      (INVARIANTS && (ptk_key ptk =? NULL))
      || ((length name =? 0)%nat || (sizeof_pde_name <=? length name)%nat
          || (length encname =? 0)%nat || (sizeof_pde_encname <=? length encname)%nat)
  | Lookup pd _ =>
      match cache m pd with
      | Some c => INVARIANTS && (updating c || negb (LIST_EMPTY (stale c)))
      | None => false
      end
  | BeginUpdate pd g =>
      match cache m pd with
      | Some c => INVARIANTS && negb (g =? 0) && negb (pd_gen c =? g)
                  && negb (LIST_EMPTY (active c)) && negb (LIST_EMPTY (stale c))
      | None => false
      end
  | AbortUpdate pd | EndUpdate pd =>
      match cache m pd with
      | Some c => INVARIANTS && negb (updating c)
                  && negb (LIST_EMPTY (pd_heads c 0) || LIST_EMPTY (pd_heads c 1))
      | None => false
      end
  | _ => false
  end.

(** The entries of the caches other than [pd] are in [m'] exactly as
    they are in [m], generation stamp included. *)
Definition kept (pd : Z) (m m' : kmem) : Prop :=
  ∀ q e, entry m q = Some e -> pde_dircache e ≠ pd -> entry m' q = Some e.

(** The store a successful [pefs_dircache_insert] leaves, link by link:
    the lists of the cache gain the new entry and nothing else, the
    other entries keep everything but their generation stamp, and the
    new entry is at the head of the two buckets its hashes select. *)
Record linked (m : kmem) (pd : Z) (c : pefs_dircache) (m' : kmem) (pde : Z)
    (e : pefs_dircache_entry) : Prop := {
  lk_fresh : entry m pde = None;
  lk_cache : ∃ c', cache m' pd = Some c' ∧ pd_pool c' = pd_pool c ∧
                   ∀ q, on_dir c' q ↔ q = pde ∨ on_dir c q;
  lk_entry : entry m' pde = Some e;
  lk_entries : ∀ q, q ≠ pde ->
                 set_pde_gen 0 <$> entry m' q = set_pde_gen 0 <$> entry m q;
  lk_kept : kept pd m m';
  lk_pools : ∃ pool tt tt' b b',
      pools m !! pd_pool c = Some pool ∧
      pdp_tbl pool = Some tt ∧ pdp_enctbl pool = Some tt' ∧
      tt !! DIRCACHE_TBL m (pde_namehash e) = Some b ∧
      tt' !! DIRCACHE_TBL m (pde_encnamehash e) = Some b' ∧
      pools m' = <[pd_pool c :=
                     {| pdp_tbl := Some (<[DIRCACHE_TBL m (pde_namehash e) := pde :: b]> tt);
                        pdp_enctbl :=
                          Some (<[DIRCACHE_TBL m (pde_encnamehash e) := pde :: b']> tt') |}]>
                  (pools m)
}.

(** [q] is a live entry of a cache other than [pd]. *)
Definition foreign (pd : Z) (m : kmem) (q : Z) : Prop :=
  match entry m q with
  | Some e => pde_dircache e ≠ pd
  | None => False
  end.

#[global] Instance foreign_dec pd m q : Decision (foreign pd m q).
Proof. unfold foreign. destruct (entry m q); apply _. Defined.

(** What the buckets of a pool hold of the caches other than [pd]. *)
Definition pool_view (pd : Z) (m : kmem) (p : pefs_dircache_pool) : pefs_dircache_pool :=
  {| pdp_tbl := fmap (M := list) (filter (foreign pd m)) <$> pdp_tbl p;
     pdp_enctbl := fmap (M := list) (filter (foreign pd m)) <$> pdp_enctbl p |}.

(** [touches pd m m']: from [m] to [m'] nothing changed but the cache
    [pd], its entries and their links. *)
Record touches (pd : Z) (m m' : kmem) : Prop := {
  tc_hashmask : dircache_hashmask m' = dircache_hashmask m;
  tc_caches : ∀ pd', pd' ≠ pd -> cache m' pd' = cache m pd';
  tc_kept : kept pd m m';
  tc_new : ∀ q e, entry m' q = Some e -> pde_dircache e ≠ pd -> entry m q = Some e;
  tc_pools : ∀ x, pool_view pd m <$> pools m' !! x = pool_view pd m <$> pools m !! x
}.

(** Every allocated entry is linked in the two buckets its hashes
    select, in the pool of its cache. *)
Definition hashed (m : kmem) : Prop :=
  ∀ p e, entry m p = Some e -> cached m (pde_dircache e) p e.

(** What is on the active list of a cache carries the generation of
    that cache. *)
Definition stamped (m : kmem) : Prop :=
  ∀ pd c q e, cache m pd = Some c -> q ∈ active c -> entry m q = Some e ->
              pde_gen e = pd_gen c.

(** The entry that [pefs_dircache_insert] fills in for the cache [pd],
    with the generation stamp [g]. *)
Definition new_entry (pd : Z) (ptk : pefs_tkey) (name encname : list byte) (g : Z)
    : pefs_dircache_entry :=
  {| pde_dircache := pd; pde_tkey := ptk; pde_gen := g;
     pde_namehash := dircache_hashname pd (name_buffer sizeof_pde_name name) (length name);
     pde_encnamehash :=
       dircache_hashname pd (name_buffer sizeof_pde_encname encname) (length encname);
     pde_namelen := length name; pde_encnamelen := length encname;
     pde_name := name_buffer sizeof_pde_name name;
     pde_encname := name_buffer sizeof_pde_encname encname |}.

(** The two names of an entry are strings inside their arrays: the
    arrays have their declared sizes, the lengths are positive and below
    them, and the byte at the length is the terminating NUL. *)
Definition terminated (e : pefs_dircache_entry) : Prop :=
  length (pde_name e) = sizeof_pde_name ∧
  length (pde_encname e) = sizeof_pde_encname ∧
  (0 < pde_namelen e < sizeof_pde_name)%nat ∧
  (0 < pde_encnamelen e < sizeof_pde_encname)%nat ∧
  pde_name e !! pde_namelen e = Some x00 ∧
  pde_encname e !! pde_encnamelen e = Some x00.

Definition names_terminated (m : kmem) : Prop :=
  ∀ p e, entry m p = Some e -> terminated e.

(** No entry is linked twice: the two lists of a cache together hold
    no address twice, and no bucket of a table does. *)
Definition dir_once (c : pefs_dircache) : Prop := NoDup (pd_heads0 c ++ pd_heads1 c).

Definition tbl_once (t : option (list (list Z))) : Prop :=
  ∀ tt b, t = Some tt -> b ∈ tt -> NoDup b.

Definition linked_once (m : kmem) : Prop :=
  (∀ pd c, cache m pd = Some c -> dir_once c) ∧
  (∀ pdp pool, pools m !! pdp = Some pool ->
               tbl_once (pdp_tbl pool) ∧ tbl_once (pdp_enctbl pool)).

(** [q] is linked in the bucket [i] of the table. *)
Definition in_bucket (t : option (list (list Z))) (i : nat) (q : Z) : Prop :=
  ∃ tt b, t = Some tt ∧ tt !! i = Some b ∧ q ∈ b.

(** The bucket [i] of a table of the pool [pdp] is where [q] belongs:
    [q] is an allocated entry of a cache on that pool, and its hash [h]
    selects that bucket. *)
Definition home (h : pefs_dircache_entry -> Z) (m : kmem) (pdp : Z) (i : nat) (q : Z)
    : Prop :=
  ∃ e c, entry m q = Some e ∧ cache m (pde_dircache e) = Some c ∧
         pd_pool c = pdp ∧ i = DIRCACHE_TBL m (h e).

(** A bucket holds only what belongs there. *)
Definition homed (m : kmem) : Prop :=
  ∀ pdp pool i q, pools m !! pdp = Some pool ->
    (in_bucket (pdp_tbl pool) i q -> home pde_namehash m pdp i q) ∧
    (in_bucket (pdp_enctbl pool) i q -> home pde_encnamehash m pdp i q).

(** *** The allocation ledger *)

(** The key an entry holds a reference of. *)
Definition key_of (e : pefs_dircache_entry) : Z := ptk_key (pde_tkey e).

(** The ledger of a store: the key of every allocated entry, the state
    of the key objects, and the counter [dircache_entries]. *)
Definition tkeys (m : kmem) : gmap Z Z := key_of <$> dircache_entry_zone m.

Definition ledger (m : kmem) : gmap Z Z * keystate * Z :=
  (tkeys m, keys m, dircache_entries m).

(** One entry is allocated and a reference of its key taken, or one
    entry is freed and the reference of its key released, or nothing of
    the ledger changes. *)
Inductive ledger_step (m m' : kmem) : Prop :=
| ledger_same : ledger m' = ledger m -> ledger_step m m'
| ledger_alloc p k :
    tkeys m !! p = None ->
    ledger m' = (<[p := k]> (tkeys m), pefs_key_ref k (keys m),
                 u_long (dircache_entries m + 1)) ->
    ledger_step m m'
| ledger_free p k :
    tkeys m !! p = Some k ->
    ledger m' = (delete p (tkeys m), pefs_key_release k (keys m),
                 u_long (dircache_entries m - 1)) ->
    ledger_step m m'.

(** The number of allocated entries that hold the key [k]. *)
Definition held (m : kmem) (k : Z) : nat :=
  size (filter (λ kv : Z * Z, kv.2 = k) (tkeys m)).

(** The counter agrees with the number of allocated entries. *)
Definition entries_counted (m : kmem) : Prop :=
  dircache_entries m = u_long (Z.of_nat (size (dircache_entry_zone m))).

(** With [refs ks k] the number of references of the key [k] in the key
    state [ks]: every key has the references it had when nothing was
    cached ([base]) and one more for every entry that holds it. *)
Definition refs_balanced (refs : keystate -> Z -> Z) (base : Z -> Z) (m : kmem) : Prop :=
  ∀ k, refs (keys m) k = base k + Z.of_nat (held m k).

End Dircache.

(** ** Sample stores on the sample platform

    The kernel boots with no tunable set and [desiredvnodes = 64], which
    gives 8 buckets and a table of 16; [dircache_global] is at address
    100, and one directory cache is created on the global pool. *)

Definition sample_boot : @kmem sample_platform := @boot sample_platform ∅.

Definition sample_init : @kmem sample_platform :=
  match @pefs_dircache_init sample_platform None None 64 100 sample_boot with
  | Ok m => m
  | Err _ => sample_boot
  end.

Definition sample_fresh : @kmem sample_platform :=
  (@pefs_dircache_create sample_platform 100 sample_init).1.

Definition sample_pd : Z := (@pefs_dircache_create sample_platform 100 sample_init).2.

Definition sample_key : pefs_tkey := {| ptk_key := 55; ptk_tweak := [] |}.

Definition foo : list byte := list_byte_of_string "foo".
Definition bar : list byte := list_byte_of_string "bar".
Definition ABC : list byte := list_byte_of_string "ABC".

(** The entry that inserting ["foo"] with encrypted name ["ABC"] in a pass
    of generation 7 allocates. *)
Definition sample_entry : pefs_dircache_entry :=
  {| pde_dircache := sample_pd; pde_tkey := sample_key; pde_gen := 7;
     pde_namehash := @dircache_hashname sample_platform sample_pd foo 3;
     pde_encnamehash := @dircache_hashname sample_platform sample_pd ABC 3;
     pde_namelen := 3; pde_encnamelen := 3;
     pde_name := @name_buffer 16 foo; pde_encname := @name_buffer 16 ABC |}.

(** The store after the operations [os] on [sample_fresh]. *)
Definition sample_after (os : list op) : @kmem sample_platform :=
  match @run_ops sample_platform os sample_fresh with
  | Ok m => m
  | Err _ => sample_fresh
  end.

(** A second directory cache on the global pool, and the store after
    the operations [os] on the two caches. *)
Definition sample_two : @kmem sample_platform :=
  (@pefs_dircache_create sample_platform 100 sample_fresh).1.

Definition sample_pd2 : Z := (@pefs_dircache_create sample_platform 100 sample_fresh).2.

Definition sample_two_after (os : list op) : @kmem sample_platform :=
  match @run_ops sample_platform os sample_two with
  | Ok m => m
  | Err _ => sample_two
  end.

(** The kernel booted with [vfs.pefs.dircache.global=0]: every mount
    gets a pool of its own. *)
Definition sample_private : @kmem sample_platform :=
  match @pefs_dircache_init sample_platform None (Some 0) 64 100 sample_boot with
  | Ok m => m
  | Err _ => sample_boot
  end.

(** The reference count of a key on the sample platform. *)
Definition sample_refs (ks : @keystate sample_platform) (k : Z) : Z := default 0 (ks !! k).

(** * Properties *)

Section Flags.
Context {P : Platform}.

Lemma land_bit (f i : Z) :
  0 <= i -> (Z.land f (Z.shiftl 1 i) =? 0) = negb (Z.testbit f i).
Proof.
  intros Hi.
  assert (E : Z.land f (Z.shiftl 1 i) = Z.shiftl (Z.b2z (Z.testbit f i)) i).
  { apply Z.bits_inj'. intros n Hn.
    rewrite Z.land_spec, !Z.shiftl_spec by lia.
    destruct (Z.eq_dec n i) as [->|Hne].
    - rewrite Z.sub_diag. destruct (Z.testbit f i); reflexivity.
    - destruct (Z.lt_ge_cases n i).
      + rewrite !(Z.testbit_neg_r _ (n - i)) by lia. apply andb_false_r.
      + assert (Z.testbit 1 (n - i) = false) as ->.
        { apply (Z.bits_above_log2 1); simpl; lia. }
        rewrite andb_false_r. symmetry.
        destruct (Z.testbit f i); simpl.
        * apply (Z.bits_above_log2 1); simpl; lia.
        * apply Z.bits_0. }
  rewrite E. destruct (Z.testbit f i); simpl.
  - apply Z.eqb_neq. rewrite Z.shiftl_1_l. apply Z.pow_nonzero; lia.
  - rewrite Z.shiftl_0_l. reflexivity.
Qed.

Lemma updating_testbit c : updating c = Z.testbit (pd_flags c) PD_UPDATING_bit.
Proof.
  unfold updating, PD_UPDATING. rewrite land_bit by apply PD_UPDATING_bit_nonneg.
  apply negb_involutive.
Qed.

Lemma HEADOFF_swapped c : DIRCACHE_HEADOFF c = if swapped c then 1 else 0.
Proof.
  unfold DIRCACHE_HEADOFF, PD_SWAPEDHEADS, swapped.
  rewrite land_bit by apply PD_SWAPEDHEADS_bit_nonneg.
  destruct (Z.testbit _ _); reflexivity.
Qed.

Lemma active_swapped c : active c = if swapped c then pd_heads1 c else pd_heads0 c.
Proof.
  unfold active, DIRCACHE_ACTIVEHEAD. rewrite HEADOFF_swapped.
  destruct (swapped c); reflexivity.
Qed.

Lemma stale_swapped c : stale c = if swapped c then pd_heads0 c else pd_heads1 c.
Proof.
  unfold stale, DIRCACHE_STALEHEAD. rewrite HEADOFF_swapped.
  destruct (swapped c); reflexivity.
Qed.

Lemma testbit_bit (i j : Z) :
  0 <= i -> 0 <= j -> Z.testbit (Z.shiftl 1 i) j = bool_decide (i = j).
Proof.
  intros Hi Hj. rewrite Z.shiftl_spec by lia.
  case_bool_decide as E.
  - subst. rewrite Z.sub_diag. reflexivity.
  - destruct (Z.lt_ge_cases j i).
    + apply Z.testbit_neg_r. lia.
    + apply (Z.bits_above_log2 1); simpl; lia.
Qed.

Lemma swapped_flip c :
  swapped (set_pd_flags (Z.lxor (pd_flags c) PD_SWAPEDHEADS) c) = negb (swapped c).
Proof.
  unfold swapped, PD_SWAPEDHEADS. simpl.
  pose proof PD_SWAPEDHEADS_bit_nonneg.
  rewrite Z.lxor_spec, testbit_bit by lia.
  rewrite bool_decide_eq_true_2 by reflexivity.
  destruct (Z.testbit _ _); reflexivity.
Qed.

Lemma updating_flip c :
  updating (set_pd_flags (Z.lxor (pd_flags c) PD_SWAPEDHEADS) c) = updating c.
Proof.
  rewrite !updating_testbit. unfold PD_SWAPEDHEADS. simpl.
  pose proof PD_SWAPEDHEADS_bit_nonneg. pose proof PD_UPDATING_bit_nonneg.
  pose proof PD_bits_distinct.
  rewrite Z.lxor_spec, testbit_bit by lia.
  rewrite bool_decide_eq_false_2 by congruence.
  apply xorb_false_r.
Qed.

Lemma swapped_set_updating c :
  swapped (set_pd_flags (Z.lor (pd_flags c) PD_UPDATING) c) = swapped c.
Proof.
  unfold swapped, PD_UPDATING. simpl.
  pose proof PD_SWAPEDHEADS_bit_nonneg. pose proof PD_UPDATING_bit_nonneg.
  pose proof PD_bits_distinct.
  rewrite Z.lor_spec, testbit_bit by lia.
  rewrite bool_decide_eq_false_2 by congruence.
  apply orb_false_r.
Qed.

Lemma updating_set_updating c :
  updating (set_pd_flags (Z.lor (pd_flags c) PD_UPDATING) c) = true.
Proof.
  rewrite updating_testbit. unfold PD_UPDATING. simpl.
  pose proof PD_UPDATING_bit_nonneg.
  rewrite Z.lor_spec, testbit_bit by lia.
  rewrite bool_decide_eq_true_2 by reflexivity.
  apply orb_true_r.
Qed.

Lemma swapped_clear_updating c :
  swapped (set_pd_flags (Z.land (pd_flags c) (Z.lnot PD_UPDATING)) c) = swapped c.
Proof.
  unfold swapped, PD_UPDATING. simpl.
  pose proof PD_SWAPEDHEADS_bit_nonneg. pose proof PD_UPDATING_bit_nonneg.
  pose proof PD_bits_distinct.
  rewrite Z.land_spec, Z.lnot_spec, testbit_bit by lia.
  rewrite bool_decide_eq_false_2 by congruence.
  apply andb_true_r.
Qed.

Lemma updating_clear_updating c :
  updating (set_pd_flags (Z.land (pd_flags c) (Z.lnot PD_UPDATING)) c) = false.
Proof.
  rewrite updating_testbit. unfold PD_UPDATING. simpl.
  pose proof PD_UPDATING_bit_nonneg.
  rewrite Z.land_spec, Z.lnot_spec, testbit_bit by lia.
  rewrite bool_decide_eq_true_2 by reflexivity.
  apply andb_false_r.
Qed.

End Flags.

Section Basics.
Context {P : Platform}.
Implicit Types (m : kmem) (c : pefs_dircache) (e : pefs_dircache_entry).

Lemma bind_Ok {A B} (r : res A) (f : A -> res B) (b : B) :
  r ≫= f = Ok b ↔ ∃ a, r = Ok a ∧ f a = Ok b.
Proof.
  destruct r as [a|err]; unfold mbind; simpl; split.
  - eauto.
  - intros (a' & [= <-] & H). exact H.
  - discriminate.
  - intros (a' & [=] & _).
Qed.

Lemma ret_bind {A B} (a : A) (f : A -> res B) : Ok a ≫= f = f a.
Proof. reflexivity. Qed.

(** What a computation that returns, returns. *)
Lemma ok_after {A} (r : res A) (d : A) :
  is_fatal r = false -> r = Ok (match r with Ok a => a | Err _ => d end).
Proof. by destruct r. Qed.

Lemma load_pd_Ok m pd c : load_pd m pd = Ok c ↔ cache m pd = Some c.
Proof. unfold load_pd, cache. destruct (_ !! _); split; congruence. Qed.

Lemma load_pde_Ok m p e : load_pde m p = Ok e ↔ entry m p = Some e.
Proof. unfold load_pde, entry. destruct (_ !! _); split; congruence. Qed.

Lemma load_pool_Ok m pdp pool : load_pool m pdp = Ok pool ↔ pools m !! pdp = Some pool.
Proof. unfold load_pool. destruct (_ !! _); split; congruence. Qed.

Lemma MPASS_Ok b u : MPASS b = Ok u ↔ INVARIANTS = false ∨ b = true.
Proof.
  unfold MPASS. destruct INVARIANTS, b, u; simpl; split;
    intros; try reflexivity; try discriminate; auto.
  destruct H; discriminate.
Qed.

Lemma MPASS_true : MPASS true = Ok tt.
Proof. unfold MPASS. rewrite andb_false_r. reflexivity. Qed.

Lemma MPASS_negb b : MPASS (negb b) = if INVARIANTS && b then Err Panic else Ok tt.
Proof. unfold MPASS. by rewrite negb_involutive. Qed.

Lemma LIST_EMPTY_nil l : LIST_EMPTY l = true ↔ l = [].
Proof. destruct l; simpl; split; congruence. Qed.

Lemma elem_of_unlink p q l : q ∈ unlink p l ↔ q ∈ l ∧ q ≠ p.
Proof. unfold unlink. rewrite list_elem_of_filter. tauto. Qed.

Lemma elem_of_drop S q l : q ∈ drop S l ↔ q ∈ l ∧ q ∉ S.
Proof. unfold drop. rewrite list_elem_of_filter. tauto. Qed.

Lemma unlink_drop p l : unlink p l = drop [p] l.
Proof.
  unfold unlink, drop. apply list_filter_iff. intros x.
  rewrite list_elem_of_singleton. tauto.
Qed.

Lemma drop_drop S1 S2 l : drop S2 (drop S1 l) = drop (S1 ++ S2) l.
Proof.
  unfold drop. induction l as [|x l IH]; [reflexivity|].
  rewrite (filter_cons _ x l). destruct (decide (x ∉ S1)) as [H1|H1].
  - rewrite !filter_cons. destruct (decide (x ∉ S2)) as [H2|H2].
    + rewrite decide_True by (rewrite elem_of_app; tauto). by rewrite IH.
    + rewrite decide_False by (rewrite elem_of_app; tauto). exact IH.
  - rewrite filter_cons, decide_False by (rewrite elem_of_app; tauto). exact IH.
Qed.

Lemma drop_nil l : drop [] l = l.
Proof.
  unfold drop. induction l as [|x l IH]; [reflexivity|].
  rewrite filter_cons, decide_True by apply not_elem_of_nil. by rewrite IH.
Qed.

Lemma length_drop S l : (length (drop S l) ≤ length l)%nat.
Proof. apply length_filter. Qed.

Lemma drop_head_lt S p l : p ∈ S -> (length (drop S (p :: l)) < length (p :: l))%nat.
Proof.
  intros Hp. unfold drop. rewrite filter_cons, decide_False by tauto.
  simpl. pose proof (length_filter (fun x => x ∉ S) l). lia.
Qed.

End Basics.

#[global] Arguments load_pd : simpl never.
#[global] Arguments load_pde : simpl never.
#[global] Arguments load_pool : simpl never.
#[global] Arguments store_pd : simpl never.
#[global] Arguments store_pde : simpl never.
#[global] Arguments store_pool : simpl never.
#[global] Arguments MPASS : simpl never.
#[global] Arguments LIST_REMOVE_dir_entry : simpl never.
#[global] Arguments LIST_INSERT_HEAD_dir_entry : simpl never.
#[global] Arguments dircache_expire : simpl never.
#[global] Arguments dircache_entry_free : simpl never.
#[global] Arguments free_all : simpl never.

Ltac res_inv :=
  repeat match goal with
  | H : (_ ≫= _) = Ok _ |- _ =>
      apply bind_Ok in H; let a := fresh "a" in destruct H as (a & ? & H)
  | H : Ok _ = Ok _ |- _ => injection H as H; try subst
  | H : Err _ = Ok _ |- _ => discriminate H
  | H : load_pd _ _ = Ok _ |- _ => apply load_pd_Ok in H
  | H : load_pde _ _ = Ok _ |- _ => apply load_pde_Ok in H
  | H : load_pool _ _ = Ok _ |- _ => apply load_pool_Ok in H
  end.

Section Freed.
Context {P : Platform}.
Implicit Types (m : kmem) (c : pefs_dircache) (e : pefs_dircache_entry).

Lemma on_dir_drop_dir S c q : on_dir (drop_dir S c) q ↔ on_dir c q ∧ q ∉ S.
Proof. unfold on_dir, drop_dir. simpl. rewrite !elem_of_drop. tauto. Qed.

Lemma pd_heads_drop_dir S c i : pd_heads (drop_dir S c) i = drop S (pd_heads c i).
Proof. unfold pd_heads. destruct (i =? 0); reflexivity. Qed.

Lemma pd_heads_on_dir c i q : q ∈ pd_heads c i -> on_dir c q.
Proof. unfold pd_heads, on_dir. destruct (i =? 0); auto. Qed.

Lemma drop_dir_nil c : drop_dir [] c = c.
Proof. destruct c. unfold drop_dir. simpl. by rewrite !drop_nil. Qed.

Lemma drop_dir_drop_dir S1 S2 c : drop_dir S2 (drop_dir S1 c) = drop_dir (S1 ++ S2) c.
Proof. unfold drop_dir. simpl. by rewrite !drop_drop. Qed.

Lemma fmap_drop_nil (t : list (list Z)) : fmap (M := list) (drop []) t = t.
Proof.
  induction t as [|b t IH]; [reflexivity|].
  rewrite fmap_cons, drop_nil. by rewrite IH.
Qed.

Lemma drop_pool_nil p : drop_pool [] p = p.
Proof.
  destruct p as [[t|] [t'|]]; unfold drop_pool; simpl;
    by rewrite ?fmap_drop_nil.
Qed.

Lemma drop_pool_drop_pool S1 S2 p :
  drop_pool S2 (drop_pool S1 p) = drop_pool (S1 ++ S2) p.
Proof.
  assert (E : ∀ t : list (list Z),
             fmap (M := list) (drop S2) (fmap (M := list) (drop S1) t)
             = fmap (M := list) (drop (S1 ++ S2)) t).
  { intros t. rewrite <- list_fmap_compose. apply list_fmap_ext.
    intros _ b _. simpl. apply drop_drop. }
  destruct p as [[t|] [t'|]]; unfold drop_pool; simpl; by rewrite ?E.
Qed.

Lemma freed_refl m : freed [] m m.
Proof.
  split.
  - intros pd. destruct (cache m pd) as [c|]; simpl; by rewrite ?drop_dir_nil.
  - intros p. rewrite decide_False by apply not_elem_of_nil. reflexivity.
  - intros pdp. destruct (pools m !! pdp) as [p|]; simpl; by rewrite ?drop_pool_nil.
  - reflexivity.
Qed.

Lemma freed_trans S1 S2 m m1 m2 :
  freed S1 m m1 -> freed S2 m1 m2 -> freed (S1 ++ S2) m m2.
Proof.
  intros [C1 E1 P1 H1] [C2 E2 P2 H2]. split.
  - intros pd. rewrite C2, C1. destruct (cache m pd); simpl; by rewrite ?drop_dir_drop_dir.
  - intros p. rewrite E2, E1.
    destruct (decide (p ∈ S2)), (decide (p ∈ S1)), (decide (p ∈ S1 ++ S2)) as [H|H];
      try reflexivity; rewrite elem_of_app in H; tauto.
  - intros pdp. rewrite P2, P1.
    destruct (pools m !! pdp); simpl; by rewrite ?drop_pool_drop_pool.
  - congruence.
Qed.

Lemma in_tbl_drop S t p :
  in_tbl (fmap (M := list) (drop S) <$> t) p ↔ in_tbl t p ∧ p ∉ S.
Proof.
  unfold in_tbl. split.
  - intros (tt & b & Ht & Hb & Hp). destruct t as [t0|]; [|discriminate].
    simpl in Ht. injection Ht as <-.
    apply list_elem_of_fmap in Hb as (b0 & -> & Hb0).
    apply elem_of_drop in Hp as [Hp HS]. eauto 6.
  - intros ((tt & b & -> & Hb & Hp) & HS). simpl.
    exists (drop S <$> tt), (drop S b). split; [reflexivity|]. split.
    + apply list_elem_of_fmap. eauto.
    + apply elem_of_drop. auto.
Qed.

Lemma tbl_ok_drop S m m' t :
  dircache_hashmask m' = dircache_hashmask m ->
  tbl_ok m t -> tbl_ok m' (fmap (M := list) (drop S) <$> t).
Proof.
  intros Hm (tt & -> & Hlen). exists (drop S <$> tt). split; [reflexivity|].
  intros h. rewrite length_fmap. unfold DIRCACHE_TBL. rewrite Hm. apply Hlen.
Qed.

Lemma freed_wf S m m' : wf m -> freed S m m' -> wf m'.
Proof.
  intros W [C E Pl Hm]. split; [split|].
  - rewrite C, (wf_null_pd _ W). reflexivity.
  - rewrite E, (wf_null_pde _ W). by destruct (decide _).
  - intros pd c' p Hc Hp. rewrite C in Hc.
    destruct (cache m pd) as [c|] eqn:Hc0; [|discriminate]. simpl in Hc.
    injection Hc as <-. apply on_dir_drop_dir in Hp as [Hp HS].
    destruct (wf_dir _ W _ _ _ Hc0 Hp) as (e & He & Ho).
    exists e. split; [|exact Ho]. rewrite E. by rewrite decide_False.
  - intros pd c' Hc. rewrite C in Hc.
    destruct (cache m pd) as [c|] eqn:Hc0; [|discriminate]. simpl in Hc.
    injection Hc as <-.
    destruct (wf_pool _ W _ _ Hc0) as (pool & Hpool & Ht & Het).
    exists (drop_pool S pool). simpl. rewrite Pl, Hpool. split; [reflexivity|].
    split; eapply tbl_ok_drop; eauto.
  - intros pdp pool' p Hpool Hin. rewrite Pl in Hpool.
    destruct (pools m !! pdp) as [pool|] eqn:Hp0; [|discriminate].
    simpl in Hpool. injection Hpool as <-. simpl in Hin.
    apply in_tbl_drop in Hin as [Hin HS].
    rewrite E, decide_False by exact HS. eapply (wf_hash _ W); eauto.
  - intros pdp pool' p Hpool Hin. rewrite Pl in Hpool.
    destruct (pools m !! pdp) as [pool|] eqn:Hp0; [|discriminate].
    simpl in Hpool. injection Hpool as <-. simpl in Hin.
    apply in_tbl_drop in Hin as [Hin HS].
    rewrite E, decide_False by exact HS. eapply (wf_enchash _ W); eauto.
  - intros p e He. rewrite E in He. destruct (decide (p ∈ S)) as [|HS]; [discriminate|].
    destruct (wf_live _ W _ _ He) as (c & Hc & Hp).
    exists (drop_dir S c). rewrite C, Hc. split; [reflexivity|].
    apply on_dir_drop_dir. auto.
Qed.

End Freed.

Section FreeEntries.
Context {P : Platform}.
Implicit Types (m : kmem) (c : pefs_dircache) (e : pefs_dircache_entry).

Lemma entry_free_freed p m m' : dircache_entry_free p m = Ok m' -> freed [p] m m'.
Proof.
  unfold dircache_entry_free. intros H. res_inv. split.
  - intros pd. unfold cache. simpl. rewrite lookup_fmap.
    apply option_fmap_ext. intros c. unfold drop_dir. by rewrite !unlink_drop.
  - intros q. unfold entry. simpl. rewrite lookup_delete.
    destruct (decide (p = q)) as [->|Hne].
    + rewrite decide_True by (by apply list_elem_of_singleton). reflexivity.
    + rewrite decide_False; [reflexivity|].
      rewrite list_elem_of_singleton. congruence.
  - intros pdp. simpl. rewrite !lookup_fmap.
    destruct (pools m !! pdp) as [pool|]; [|reflexivity]. simpl. f_equal.
    unfold drop_pool, set_pdp_enctbl, set_pdp_tbl. simpl.
    assert (E : ∀ t : option (list (list Z)),
               fmap (M := list) (unlink p) <$> t = fmap (M := list) (drop [p]) <$> t).
    { intros t. apply option_fmap_ext. intros tt. apply list_fmap_ext.
      intros _ b _. apply unlink_drop. }
    by rewrite !E.
  - reflexivity.
Qed.

Lemma entry_free_total m pd c p :
  wf m -> cache m pd = Some c -> on_dir c p -> ∃ m', dircache_entry_free p m = Ok m'.
Proof.
  intros W Hc Hp. destruct (wf_dir _ W _ _ _ Hc Hp) as (e & He & Ho).
  destruct (wf_pool _ W _ _ Hc) as (pool & Hpool & _).
  assert (p ≠ NULL) as Hnn.
  { intros ->. rewrite (wf_null_pde _ W) in He. discriminate. }
  unfold dircache_entry_free.
  apply Z.eqb_neq in Hnn. rewrite Hnn. simpl. rewrite MPASS_true. simpl.
  apply load_pde_Ok in He. rewrite He. simpl. rewrite Ho.
  apply load_pd_Ok in Hc. rewrite Hc. simpl.
  apply load_pool_Ok in Hpool. rewrite Hpool. simpl. eauto.
Qed.

Lemma drop_all S l : (∀ x, x ∈ l -> x ∈ S) -> drop S l = [].
Proof.
  intros H. unfold drop. induction l as [|x l IH]; [reflexivity|].
  rewrite filter_cons, decide_False.
  - apply IH. intros y Hy. apply H. by right.
  - intros Hn. apply Hn, H. by left.
Qed.

(** The loop that frees a whole list ends within its bound and frees
    exactly the entries of the list. *)
Lemma free_list_spec (head : pefs_dircache -> Z) pd :
  (∀ S c, head (drop_dir S c) = head c) ->
  ∀ bound m c,
    wf m -> cache m pd = Some c ->
    (length (pd_heads c (head c)) ≤ bound)%nat ->
    ∃ m' S, free_list head pd bound m = Ok m' ∧ freed S m m' ∧
            ∀ p, p ∈ S ↔ p ∈ pd_heads c (head c).
Proof.
  intros Hhead. induction bound as [|bound IH]; intros m c W Hc Hlen.
  - destruct (pd_heads c (head c)) as [|p l] eqn:Hl; [|simpl in Hlen; lia].
    exists m, []. simpl. apply load_pd_Ok in Hc. rewrite Hc. simpl. rewrite Hl.
    split; [reflexivity|]. split; [apply freed_refl|]. reflexivity.
  - destruct (pd_heads c (head c)) as [|p l] eqn:Hl.
    + exists m, []. simpl. apply load_pd_Ok in Hc. rewrite Hc. simpl. rewrite Hl.
      split; [reflexivity|]. split; [apply freed_refl|]. reflexivity.
    + assert (on_dir c p) as Hp.
      { apply (pd_heads_on_dir c (head c)). rewrite Hl. by left. }
      destruct (entry_free_total _ _ _ _ W Hc Hp) as (m1 & Hfree).
      pose proof (entry_free_freed _ _ _ Hfree) as F1.
      pose proof (freed_wf _ _ _ W F1) as W1.
      assert (cache m1 pd = Some (drop_dir [p] c)) as Hc1.
      { rewrite (fr_cache _ _ _ F1), Hc. reflexivity. }
      destruct (IH m1 (drop_dir [p] c) W1 Hc1) as (m' & S & Hrun & F2 & HS).
      { rewrite Hhead, pd_heads_drop_dir, Hl.
        assert (p ∈ [p]) as Hin by (by left).
        pose proof (drop_head_lt [p] p l Hin). simpl in *. lia. }
      exists m', ([p] ++ S). split.
      { simpl. apply load_pd_Ok in Hc. rewrite Hc. simpl. rewrite Hl.
        rewrite Hfree. simpl. exact Hrun. }
      split; [eapply freed_trans; eauto|].
      intros q. rewrite elem_of_app, HS, Hhead, pd_heads_drop_dir, Hl, elem_of_drop.
      rewrite list_elem_of_singleton, elem_of_cons.
      destruct (decide (q = p)); tauto.
Qed.

Lemma free_all_spec (head : pefs_dircache -> Z) pd m c :
  (∀ S c, head (drop_dir S c) = head c) ->
  wf m -> cache m pd = Some c ->
  ∃ m' S, free_all head pd m = Ok m' ∧ freed S m m' ∧ wf m' ∧
          (∀ p, p ∈ S ↔ p ∈ pd_heads c (head c)) ∧
          cache m' pd = Some (drop_dir S c) ∧
          pd_heads (drop_dir S c) (head c) = [].
Proof.
  intros Hhead W Hc.
  destruct (free_list_spec head pd Hhead (length (pd_heads c (head c))) m c W Hc)
    as (m' & S & Hrun & F & HS); [lia|].
  exists m', S. unfold free_all. pose proof Hc as Hc'.
  apply load_pd_Ok in Hc'. rewrite Hc'. simpl.
  split; [exact Hrun|]. split; [exact F|]. split; [eapply freed_wf; eauto|].
  split; [exact HS|]. split.
  - rewrite (fr_cache _ _ _ F), Hc. reflexivity.
  - rewrite pd_heads_drop_dir. apply drop_all. intros x. apply HS.
Qed.

Lemma STALEHEAD_drop_dir S c : DIRCACHE_STALEHEAD (drop_dir S c) = DIRCACHE_STALEHEAD c.
Proof. reflexivity. Qed.

Lemma ACTIVEHEAD_drop_dir S c : DIRCACHE_ACTIVEHEAD (drop_dir S c) = DIRCACHE_ACTIVEHEAD c.
Proof. reflexivity. Qed.

End FreeEntries.

Section Heads.
Context {P : Platform}.
Implicit Types (m : kmem) (c : pefs_dircache) (e : pefs_dircache_entry).

Lemma HEADOFF_cases c : DIRCACHE_HEADOFF c = 0 ∨ DIRCACHE_HEADOFF c = 1.
Proof. unfold DIRCACHE_HEADOFF. destruct (_ =? _); auto. Qed.

Lemma HEADOFF_set_pd_heads i l c :
  DIRCACHE_HEADOFF (set_pd_heads i l c) = DIRCACHE_HEADOFF c.
Proof. unfold set_pd_heads. destruct (i =? 0); reflexivity. Qed.

Lemma active_set_stale c l : active (set_pd_heads (DIRCACHE_STALEHEAD c) l c) = active c.
Proof.
  unfold active, DIRCACHE_ACTIVEHEAD, DIRCACHE_STALEHEAD.
  rewrite HEADOFF_set_pd_heads. destruct (HEADOFF_cases c) as [-> | ->]; reflexivity.
Qed.

Lemma stale_set_stale c l : stale (set_pd_heads (DIRCACHE_STALEHEAD c) l c) = l.
Proof.
  unfold stale, DIRCACHE_STALEHEAD.
  rewrite HEADOFF_set_pd_heads. destruct (HEADOFF_cases c) as [-> | ->]; reflexivity.
Qed.

Lemma active_set_active c l : active (set_pd_heads (DIRCACHE_ACTIVEHEAD c) l c) = l.
Proof.
  unfold active, DIRCACHE_ACTIVEHEAD.
  rewrite HEADOFF_set_pd_heads. destruct (HEADOFF_cases c) as [-> | ->]; reflexivity.
Qed.

Lemma stale_set_active c l : stale (set_pd_heads (DIRCACHE_ACTIVEHEAD c) l c) = stale c.
Proof.
  unfold stale, DIRCACHE_ACTIVEHEAD, DIRCACHE_STALEHEAD.
  rewrite HEADOFF_set_pd_heads. destruct (HEADOFF_cases c) as [-> | ->]; reflexivity.
Qed.

Lemma active_drop_dir S c : active (drop_dir S c) = drop S (active c).
Proof. unfold active. apply pd_heads_drop_dir. Qed.

Lemma stale_drop_dir S c : stale (drop_dir S c) = drop S (stale c).
Proof. unfold stale. apply pd_heads_drop_dir. Qed.

Lemma on_dir_active_stale c q : on_dir c q ↔ q ∈ active c ∨ q ∈ stale c.
Proof.
  rewrite active_swapped, stale_swapped. unfold on_dir.
  destruct (swapped c); tauto.
Qed.

Lemma on_dir_set_pd_heads_cons i p c q :
  on_dir (set_pd_heads i (p :: pd_heads c i) c) q ↔ q = p ∨ on_dir c q.
Proof.
  unfold on_dir, set_pd_heads, pd_heads. destruct (i =? 0); simpl;
    rewrite elem_of_cons; tauto.
Qed.

Lemma pd_pool_set_pd_heads i l c : pd_pool (set_pd_heads i l c) = pd_pool c.
Proof. unfold set_pd_heads. destruct (i =? 0); reflexivity. Qed.

Lemma pd_gen_set_pd_heads i l c : pd_gen (set_pd_heads i l c) = pd_gen c.
Proof. unfold set_pd_heads. destruct (i =? 0); reflexivity. Qed.

Lemma pd_flags_set_pd_heads i l c : pd_flags (set_pd_heads i l c) = pd_flags c.
Proof. unfold set_pd_heads. destruct (i =? 0); reflexivity. Qed.

Lemma updating_set_pd_heads i l c : updating (set_pd_heads i l c) = updating c.
Proof. unfold updating. by rewrite pd_flags_set_pd_heads. Qed.

Lemma active_flip c :
  active (set_pd_flags (Z.lxor (pd_flags c) PD_SWAPEDHEADS) c) = stale c.
Proof.
  rewrite active_swapped, stale_swapped, swapped_flip.
  destruct (swapped c); reflexivity.
Qed.

Lemma stale_flip c :
  stale (set_pd_flags (Z.lxor (pd_flags c) PD_SWAPEDHEADS) c) = active c.
Proof.
  rewrite active_swapped, stale_swapped, swapped_flip.
  destruct (swapped c); reflexivity.
Qed.

Lemma active_set_updating c :
  active (set_pd_flags (Z.lor (pd_flags c) PD_UPDATING) c) = active c.
Proof. by rewrite !active_swapped, swapped_set_updating. Qed.

Lemma stale_set_updating c :
  stale (set_pd_flags (Z.lor (pd_flags c) PD_UPDATING) c) = stale c.
Proof. by rewrite !stale_swapped, swapped_set_updating. Qed.

Lemma active_clear_updating c :
  active (set_pd_flags (Z.land (pd_flags c) (Z.lnot PD_UPDATING)) c) = active c.
Proof. by rewrite !active_swapped, swapped_clear_updating. Qed.

Lemma stale_clear_updating c :
  stale (set_pd_flags (Z.land (pd_flags c) (Z.lnot PD_UPDATING)) c) = stale c.
Proof. by rewrite !stale_swapped, swapped_clear_updating. Qed.

End Heads.

Section Relinked.
Context {P : Platform}.
Implicit Types (m : kmem) (c : pefs_dircache) (e : pefs_dircache_entry).

Lemma relinked_refl pd m : relinked pd m m.
Proof.
  split; try reflexivity.
  destruct (cache m pd); [|exact I]. split; [reflexivity|tauto].
Qed.

Lemma relinked_trans pd m m1 m2 :
  relinked pd m m1 -> relinked pd m1 m2 -> relinked pd m m2.
Proof.
  intros [P1 H1 E1 F1 C1] [P2 H2 E2 F2 C2]. split.
  - congruence.
  - congruence.
  - intros p. by rewrite E2, E1.
  - intros pd' Hne. by rewrite F2, F1.
  - destruct (cache m pd), (cache m1 pd), (cache m2 pd); try tauto.
    destruct C1 as [Hp1 Hd1], C2 as [Hp2 Hd2]. split; [congruence|].
    intros q. rewrite Hd2. apply Hd1.
Qed.

Lemma relinked_entry pd m m' p e :
  relinked pd m m' -> entry m p = Some e ->
  ∃ e', entry m' p = Some e' ∧ set_pde_gen 0 e' = set_pde_gen 0 e.
Proof.
  intros R He. pose proof (rl_entry _ _ _ R p) as H. rewrite He in H. simpl in H.
  destruct (entry m' p) as [e'|]; [|discriminate]. simpl in H.
  apply (inj Some) in H. eauto.
Qed.

Lemma relinked_entry_inv pd m m' p e' :
  relinked pd m m' -> entry m' p = Some e' ->
  ∃ e, entry m p = Some e ∧ set_pde_gen 0 e' = set_pde_gen 0 e.
Proof.
  intros R He. pose proof (rl_entry _ _ _ R p) as H. rewrite He in H. simpl in H.
  destruct (entry m p) as [e|]; [|discriminate]. simpl in H.
  apply (inj Some) in H. eauto.
Qed.

Lemma relinked_cache pd0 m m' pd c :
  relinked pd0 m m' -> cache m pd = Some c ->
  ∃ c', cache m' pd = Some c' ∧ pd_pool c' = pd_pool c ∧ ∀ q, on_dir c' q ↔ on_dir c q.
Proof.
  intros R Hc. destruct (decide (pd = pd0)) as [->|Hne].
  - pose proof (rl_cache _ _ _ R) as H. rewrite Hc in H.
    destruct (cache m' pd0) as [c'|]; [|contradiction]. eauto.
  - exists c. rewrite (rl_frame _ _ _ R pd Hne). split; [exact Hc|].
    split; [reflexivity|tauto].
Qed.

Lemma relinked_cache_inv pd0 m m' pd c' :
  relinked pd0 m m' -> cache m' pd = Some c' ->
  ∃ c, cache m pd = Some c ∧ pd_pool c' = pd_pool c ∧ ∀ q, on_dir c' q ↔ on_dir c q.
Proof.
  intros R Hc. destruct (decide (pd = pd0)) as [->|Hne].
  - pose proof (rl_cache _ _ _ R) as H. rewrite Hc in H.
    destruct (cache m pd0) as [c|]; [|contradiction]. eauto.
  - exists c'. rewrite <- (rl_frame _ _ _ R pd Hne). split; [exact Hc|].
    split; [reflexivity|tauto].
Qed.

Lemma relinked_cache_None pd0 m m' pd :
  relinked pd0 m m' -> cache m pd = None -> cache m' pd = None.
Proof.
  intros R Hc. destruct (decide (pd = pd0)) as [->|Hne].
  - pose proof (rl_cache _ _ _ R) as H. rewrite Hc in H.
    by destruct (cache m' pd0).
  - by rewrite (rl_frame _ _ _ R pd Hne).
Qed.

Lemma same_id_owner e e' :
  set_pde_gen 0 e' = set_pde_gen 0 e -> pde_dircache e' = pde_dircache e.
Proof. intros H. apply (f_equal pde_dircache) in H. exact H. Qed.

Lemma tbl_ok_hashmask m m' t :
  dircache_hashmask m' = dircache_hashmask m -> tbl_ok m t -> tbl_ok m' t.
Proof.
  intros Hm (tt & -> & Hlen). exists tt. split; [reflexivity|].
  intros h. unfold DIRCACHE_TBL. rewrite Hm. apply Hlen.
Qed.

Lemma relinked_wf0 pd0 m m' : wf0 m -> relinked pd0 m m' -> wf0 m'.
Proof.
  intros W R. split.
  - exact (relinked_cache_None _ _ _ _ R (wf_null_pd _ W)).
  - pose proof (rl_entry _ _ _ R NULL) as H. rewrite (wf_null_pde _ W) in H.
    by destruct (entry m' NULL).
  - intros pd c' p Hc Hp.
    destruct (relinked_cache_inv _ _ _ _ _ R Hc) as (c & Hc0 & _ & Hd).
    apply Hd in Hp. destruct (wf_dir _ W _ _ _ Hc0 Hp) as (e & He & Ho).
    destruct (relinked_entry _ _ _ _ _ R He) as (e' & He' & Hid).
    exists e'. split; [exact He'|]. rewrite <- Ho. by apply same_id_owner.
  - intros pd c' Hc.
    destruct (relinked_cache_inv _ _ _ _ _ R Hc) as (c & Hc0 & Hpool & _).
    destruct (wf_pool _ W _ _ Hc0) as (pool & Hp & Ht & Het).
    exists pool. rewrite Hpool, (rl_pools _ _ _ R). split; [exact Hp|].
    split; (eapply tbl_ok_hashmask; [apply (rl_hashmask _ _ _ R)|assumption]).
  - intros pdp pool p Hpool Hin. rewrite (rl_pools _ _ _ R) in Hpool.
    destruct (wf_hash _ W _ _ _ Hpool Hin) as (e & He).
    destruct (relinked_entry _ _ _ _ _ R He) as (e' & He' & _). eauto.
  - intros pdp pool p Hpool Hin. rewrite (rl_pools _ _ _ R) in Hpool.
    destruct (wf_enchash _ W _ _ _ Hpool Hin) as (e & He).
    destruct (relinked_entry _ _ _ _ _ R He) as (e' & He' & _). eauto.
Qed.

Lemma relinked_wf pd0 m m' : wf m -> relinked pd0 m m' -> wf m'.
Proof.
  intros W R. split; [eapply relinked_wf0; eauto using wf_base|].
  intros p e' He'.
  destruct (relinked_entry_inv _ _ _ _ _ R He') as (e & He & Hid).
  destruct (wf_live _ W _ _ He) as (c & Hc & Hp).
  destruct (relinked_cache _ _ _ _ _ R Hc) as (c' & Hc' & _ & Hd).
  exists c'. rewrite (same_id_owner _ _ Hid). split; [exact Hc'|]. by apply Hd.
Qed.

Lemma cache_store_pd pd c m pd' :
  cache (store_pd pd c m) pd' = if decide (pd = pd') then Some c else cache m pd'.
Proof.
  unfold cache, store_pd. simpl. destruct (decide (pd = pd')) as [<-|Hne].
  - by rewrite lookup_insert_eq.
  - by rewrite lookup_insert_ne.
Qed.

Lemma entry_store_pde p e m q :
  entry (store_pde p e m) q = if decide (p = q) then Some e else entry m q.
Proof.
  unfold entry, store_pde. simpl. destruct (decide (p = q)) as [<-|Hne].
  - by rewrite lookup_insert_eq.
  - by rewrite lookup_insert_ne.
Qed.

Lemma store_pd_relinked m pd c c' :
  cache m pd = Some c -> pd_pool c' = pd_pool c ->
  (∀ q, on_dir c' q ↔ on_dir c q) ->
  relinked pd m (store_pd pd c' m).
Proof.
  intros Hc Hpool Hd. split; try reflexivity.
  - intros pd' Hne. rewrite cache_store_pd. by rewrite decide_False.
  - rewrite cache_store_pd, decide_True, Hc by reflexivity. auto.
Qed.

Lemma store_pde_relinked pd m p e g :
  entry m p = Some e -> relinked pd m (store_pde p (set_pde_gen g e) m).
Proof.
  intros He. split; try reflexivity.
  - intros q. rewrite entry_store_pde.
    destruct (decide (p = q)) as [<-|Hne]; [|reflexivity].
    rewrite He. reflexivity.
  - change (cache (store_pde p (set_pde_gen g e) m) pd) with (cache m pd).
    destruct (cache m pd); [|exact I]. split; [reflexivity|tauto].
Qed.

Lemma drop_notin S l : (∀ x, x ∈ l -> x ∉ S) -> drop S l = l.
Proof.
  intros H. unfold drop. induction l as [|x l IH]; [reflexivity|].
  rewrite filter_cons, decide_True by (apply H; by left).
  f_equal. apply IH. intros y Hy. apply H. by right.
Qed.

Lemma drop_dir_notin S c : (∀ q, on_dir c q -> q ∉ S) -> drop_dir S c = c.
Proof.
  intros H. destruct c as [h0 h1 g f pl]. unfold drop_dir. simpl.
  rewrite !drop_notin; [reflexivity| |]; intros x Hx; apply H; unfold on_dir; simpl; auto.
Qed.

Lemma cache_LIST_REMOVE_dir_entry p m pd :
  cache (LIST_REMOVE_dir_entry p m) pd = drop_dir [p] <$> cache m pd.
Proof.
  unfold cache, LIST_REMOVE_dir_entry. simpl. rewrite lookup_fmap.
  apply option_fmap_ext. intros c. unfold drop_dir. by rewrite !unlink_drop.
Qed.

(** [LIST_REMOVE(pde, pde_dir_entry)] followed by
    [LIST_INSERT_HEAD(head(pd), pde, pde_dir_entry)] moves a live entry of
    [pd] to the front of a list of [pd]. *)
Lemma move_relinked (head : pefs_dircache -> Z) m pd c p :
  wf0 m -> cache m pd = Some c -> on_dir c p ->
  let c1 := drop_dir [p] c in
  let c' := set_pd_heads (head c1) (p :: pd_heads c1 (head c1)) c1 in
  ∃ m', LIST_INSERT_HEAD_dir_entry head pd p (LIST_REMOVE_dir_entry p m) = Ok m' ∧
        relinked pd m m' ∧ cache m' pd = Some c' ∧
        dircache_entry_zone m' = dircache_entry_zone m.
Proof.
  intros W Hc Hp c1 c'.
  destruct (wf_dir _ W _ _ _ Hc Hp) as (e & He & Ho).
  assert (cache (LIST_REMOVE_dir_entry p m) pd = Some c1) as Hc1.
  { rewrite cache_LIST_REMOVE_dir_entry, Hc. reflexivity. }
  eexists. split.
  { unfold LIST_INSERT_HEAD_dir_entry. apply load_pd_Ok in Hc1. rewrite Hc1.
    simpl. reflexivity. }
  split; [|split]; [| |reflexivity].
  - split; try reflexivity.
    + intros pd' Hne. rewrite cache_store_pd, decide_False by congruence.
      rewrite cache_LIST_REMOVE_dir_entry.
      destruct (cache m pd') as [c2|] eqn:Hc2; simpl; [|reflexivity].
      f_equal. apply drop_dir_notin. intros q Hq.
      rewrite list_elem_of_singleton. intros ->.
      destruct (wf_dir _ W _ _ _ Hc2 Hq) as (e2 & He2 & Ho2). congruence.
    + rewrite cache_store_pd, decide_True, Hc by reflexivity. split.
      * by rewrite pd_pool_set_pd_heads.
      * intros q. fold c1. rewrite on_dir_set_pd_heads_cons.
        unfold c1. rewrite on_dir_drop_dir, list_elem_of_singleton.
        destruct (decide (q = p)) as [->|]; tauto.
  - rewrite cache_store_pd. by rewrite decide_True.
Qed.

End Relinked.

Section Expire.
Context {P : Platform}.
Implicit Types (m : kmem) (c : pefs_dircache) (e : pefs_dircache_entry).

Lemma cache_store_pde p e m pd : cache (store_pde p e m) pd = cache m pd.
Proof. reflexivity. Qed.

Lemma entry_store_pd pd c m p : entry (store_pd pd c m) p = entry m p.
Proof. reflexivity. Qed.

Lemma updating_flags c c' : pd_flags c' = pd_flags c -> updating c' = updating c.
Proof. unfold updating. by intros ->. Qed.

(** The relinking loop of [dircache_expire] ends within its bound with
    the active list empty. *)
Lemma expire_list_spec pd :
  ∀ bound m c,
    wf0 m -> cache m pd = Some c -> (length (active c) ≤ bound)%nat ->
    ∃ m' c', expire_list pd bound m = Ok m' ∧ relinked pd m m' ∧
             cache m' pd = Some c' ∧ active c' = [] ∧
             pd_gen c' = pd_gen c ∧ pd_flags c' = pd_flags c.
Proof.
  induction bound as [|bound IH]; intros m c W Hc Hlen.
  - destruct (active c) as [|p l] eqn:Hl; [|simpl in Hlen; lia].
    exists m, c. simpl. pose proof Hc as Hc'. apply load_pd_Ok in Hc'.
    rewrite Hc'. simpl. rewrite Hl.
    split; [reflexivity|]. split; [apply relinked_refl|]. auto.
  - destruct (active c) as [|p l] eqn:Hl.
    + exists m, c. simpl. pose proof Hc as Hc'. apply load_pd_Ok in Hc'.
      rewrite Hc'. simpl. rewrite Hl.
      split; [reflexivity|]. split; [apply relinked_refl|]. auto.
    + assert (on_dir c p) as Hp.
      { apply on_dir_active_stale. left. rewrite Hl. by left. }
      destruct (wf_dir _ W _ _ _ Hc Hp) as (e & He & Ho).
      set (m1 := store_pde p (set_pde_gen 0 e) m).
      pose proof (store_pde_relinked pd m p e 0 He) as R1. fold m1 in R1.
      pose proof (relinked_wf0 _ _ _ W R1) as W1.
      destruct (move_relinked DIRCACHE_STALEHEAD m1 pd c p W1 Hc Hp)
        as (m2 & Hmove & R2 & Hc2 & _).
      simpl in Hc2.
      pose proof (relinked_wf0 _ _ _ W1 R2) as W2.
      destruct (IH m2 _ W2 Hc2) as (m' & c' & Hrun & R3 & Hc' & Ha & Hg & Hf).
      { fold (stale (drop_dir [p] c)). rewrite active_set_stale, active_drop_dir, Hl.
        assert (p ∈ [p]) as Hin by (by left).
        pose proof (drop_head_lt [p] p l Hin). simpl in *. lia. }
      exists m', c'. split.
      { simpl. pose proof Hc as Hc0. apply load_pd_Ok in Hc0. rewrite Hc0. simpl.
        rewrite Hl. apply load_pde_Ok in He. rewrite He. simpl.
        fold m1. rewrite Hmove. simpl. exact Hrun. }
      split; [eauto using relinked_trans|].
      split; [exact Hc'|]. split; [exact Ha|].
      rewrite Hg, Hf, pd_gen_set_pd_heads, pd_flags_set_pd_heads. auto.
Qed.

(** [dircache_expire] returns, frees nothing, and leaves the active list
    empty and the generation 0. *)
Lemma dircache_expire_spec m pd c :
  wf0 m -> cache m pd = Some c ->
  ∃ m' c', dircache_expire pd m = Ok m' ∧ relinked pd m m' ∧
           cache m' pd = Some c' ∧ active c' = [] ∧ pd_gen c' = 0 ∧
           updating c' = updating c.
Proof.
  intros W Hc.
  set (c0 := set_pd_gen 0 c). set (m0 := store_pd pd c0 m).
  assert (relinked pd m m0) as R0.
  { apply (store_pd_relinked m pd c c0 Hc); [reflexivity|]. intros q. reflexivity. }
  pose proof (relinked_wf0 _ _ _ W R0) as W0.
  assert (cache m0 pd = Some c0) as Hc0.
  { unfold m0. rewrite cache_store_pd. by rewrite decide_True. }
  unfold dircache_expire. pose proof Hc as Hl. apply load_pd_Ok in Hl.
  rewrite Hl, ret_bind. cbv zeta. fold c0. fold m0.
  destruct (LIST_EMPTY (stale c0)) eqn:Hst.
  - apply LIST_EMPTY_nil in Hst.
    set (c1 := set_pd_flags (Z.lxor (pd_flags c0) PD_SWAPEDHEADS) c0).
    assert (cache (store_pd pd c1 m0) pd = Some c1) as Hc1.
    { rewrite cache_store_pd. by rewrite decide_True. }
    assert (active c1 = []) as Ha.
    { unfold c1. rewrite active_flip. exact Hst. }
    exists (store_pd pd c1 m0), c1. rewrite ret_bind.
    pose proof Hc1 as Hl1. apply load_pd_Ok in Hl1. rewrite Hl1, ret_bind.
    rewrite Ha. change (LIST_EMPTY []) with true. rewrite MPASS_true, ret_bind.
    split; [reflexivity|]. split.
    { eapply relinked_trans; [exact R0|].
      apply (store_pd_relinked m0 pd c0 c1 Hc0); [reflexivity|].
      intros q. reflexivity. }
    split; [exact Hc1|]. split; [reflexivity|]. split; [reflexivity|].
    unfold c1. rewrite updating_flip. reflexivity.
  - destruct (expire_list_spec pd (length (active c0)) m0 c0 W0 Hc0)
      as (m' & c' & Hrun & R1 & Hc' & Ha & Hg & Hf); [lia|].
    exists m', c'. rewrite Hrun, ret_bind.
    pose proof Hc' as Hl'. apply load_pd_Ok in Hl'. rewrite Hl', ret_bind.
    rewrite Ha. change (LIST_EMPTY []) with true. rewrite MPASS_true, ret_bind.
    split; [reflexivity|]. split; [eauto using relinked_trans|].
    split; [exact Hc'|]. split; [reflexivity|]. split; [by rewrite Hg|].
    by apply updating_flags.
Qed.

End Expire.

Section UpdatePass.
Context {P : Platform}.
Implicit Types (m : kmem) (c : pefs_dircache) (e : pefs_dircache_entry).

Lemma active_nil_ASSERT c :
  active c = [] -> LIST_EMPTY (pd_heads c 0) || LIST_EMPTY (pd_heads c 1) = true.
Proof.
  rewrite active_swapped. unfold pd_heads. simpl.
  destruct (swapped c); intros ->; simpl; [apply orb_true_r | reflexivity].
Qed.

Lemma stale_nil_ASSERT c :
  stale c = [] -> LIST_EMPTY (pd_heads c 0) || LIST_EMPTY (pd_heads c 1) = true.
Proof.
  rewrite stale_swapped. unfold pd_heads. simpl.
  destruct (swapped c); intros ->; simpl; [reflexivity | apply orb_true_r].
Qed.

Lemma all_stale c c' :
  (∀ q, on_dir c' q ↔ on_dir c q) -> active c' = [] ->
  ∀ q, q ∈ stale c' ↔ on_dir c q.
Proof.
  intros Hd Ha q. rewrite <- Hd, on_dir_active_stale, Ha.
  split; [auto|]. intros [H|H]; [|exact H]. by apply elem_of_nil in H.
Qed.

Lemma all_active c c' :
  (∀ q, on_dir c' q ↔ on_dir c q) -> stale c' = [] ->
  ∀ q, q ∈ active c' ↔ on_dir c q.
Proof.
  intros Hd Ha q. rewrite <- Hd, on_dir_active_stale, Ha.
  split; [auto|]. intros [H|H]; [exact H|]. by apply elem_of_nil in H.
Qed.

Lemma beginupdate_noop m pd c g :
  cache m pd = Some c -> g = 0 ∨ pd_gen c = g ->
  pefs_dircache_beginupdate pd g m = Ok m.
Proof.
  intros Hc Hg. unfold pefs_dircache_beginupdate.
  apply load_pd_Ok in Hc. rewrite Hc, ret_bind.
  destruct Hg as [-> | ->]; [reflexivity|].
  rewrite Z.eqb_refl. simpl. by rewrite andb_false_r.
Qed.

(** [pefs_dircache_beginupdate] with a new generation opens a pass: it
    frees nothing and leaves every entry of the cache on the stale list. *)
Lemma beginupdate_spec m pd c g :
  wf0 m -> cache m pd = Some c -> g ≠ 0 -> pd_gen c ≠ g ->
  INVARIANTS = false ∨ active c = [] ∨ stale c = [] ->
  ∃ m' c', pefs_dircache_beginupdate pd g m = Ok m' ∧ relinked pd m m' ∧
           cache m' pd = Some c' ∧ pd_gen c' = g ∧ updating c' = true ∧
           active c' = [].
Proof.
  intros W Hc Hg0 Hg Hpre. unfold pefs_dircache_beginupdate.
  pose proof Hc as Hl. apply load_pd_Ok in Hl. rewrite Hl, ret_bind.
  apply Z.eqb_neq in Hg0, Hg. rewrite Hg0, Hg. cbn [negb andb].
  assert (∃ m1 c1, (if negb (LIST_EMPTY (active c))
                    then MPASS (LIST_EMPTY (stale c)) ≫= (fun _ => dircache_expire pd m)
                    else Ok m) = Ok m1 ∧ relinked pd m m1 ∧
                   cache m1 pd = Some c1 ∧ active c1 = []) as (m1 & c1 & -> & R1 & Hc1 & Ha1).
  { destruct (LIST_EMPTY (active c)) eqn:Hac; cbn [negb].
    - apply LIST_EMPTY_nil in Hac. exists m, c. auto using relinked_refl.
    - assert (MPASS (LIST_EMPTY (stale c)) = Ok tt) as ->.
      { apply MPASS_Ok. destruct Hpre as [H|[H|H]]; auto.
        - rewrite H in Hac. discriminate.
        - right. by apply LIST_EMPTY_nil. }
      rewrite ret_bind.
      destruct (dircache_expire_spec m pd c W Hc) as (m1 & c1 & Hrun & R & Hc1 & Ha & _).
      exists m1, c1. auto. }
  rewrite ret_bind. pose proof Hc1 as Hl1. apply load_pd_Ok in Hl1.
  rewrite Hl1, ret_bind. cbv zeta.
  set (c2 := set_pd_flags _ _).
  assert (active c2 = []) as Ha2.
  { unfold c2. rewrite active_set_updating. exact Ha1. }
  rewrite Ha2. change (LIST_EMPTY []) with true. rewrite MPASS_true, ret_bind.
  exists (store_pd pd c2 m1), c2. split; [reflexivity|]. split.
  { eapply relinked_trans; [exact R1|].
    apply (store_pd_relinked m1 pd c1 c2 Hc1); [reflexivity|]. intros q. reflexivity. }
  split; [rewrite cache_store_pd; by rewrite decide_True|].
  split; [reflexivity|]. split; [|exact Ha2].
  unfold c2. apply updating_set_updating.
Qed.

(** [pefs_dircache_abortupdate] on an open pass frees nothing: it leaves
    every entry of the cache on the stale list, the generation 0 and the
    pass closed. *)
Lemma abortupdate_spec m pd c :
  wf0 m -> cache m pd = Some c -> updating c = true ->
  ∃ m' c', pefs_dircache_abortupdate pd m = Ok m' ∧ relinked pd m m' ∧
           cache m' pd = Some c' ∧ pd_gen c' = 0 ∧ updating c' = false ∧
           active c' = [].
Proof.
  intros W Hc Hu. unfold pefs_dircache_abortupdate.
  pose proof Hc as Hl. apply load_pd_Ok in Hl. rewrite Hl, ret_bind, Hu.
  destruct (dircache_expire_spec m pd c W Hc) as (m1 & c1 & Hrun & R & Hc1 & Ha & Hg & _).
  rewrite Hrun, ret_bind.
  pose proof Hc1 as Hl1. apply load_pd_Ok in Hl1. rewrite Hl1, !ret_bind.
  set (c2 := set_pd_flags _ c1).
  assert (cache (store_pd pd c2 m1) pd = Some c2) as Hc2.
  { rewrite cache_store_pd. by rewrite decide_True. }
  pose proof Hc2 as Hl2. apply load_pd_Ok in Hl2. rewrite Hl2, ret_bind.
  assert (active c2 = []) as Ha2.
  { unfold c2. rewrite active_clear_updating. exact Ha. }
  unfold DIRCACHE_ASSERT. rewrite (active_nil_ASSERT c2 Ha2), MPASS_true, ret_bind.
  exists (store_pd pd c2 m1), c2. split; [reflexivity|]. split.
  { eapply relinked_trans; [exact R|].
    apply (store_pd_relinked m1 pd c1 c2 Hc1); [reflexivity|]. intros q. reflexivity. }
  split; [exact Hc2|]. split; [exact Hg|]. split; [|exact Ha2].
  unfold c2. apply updating_clear_updating.
Qed.

Lemma abortupdate_idle m pd c :
  cache m pd = Some c -> updating c = false ->
  INVARIANTS = false ∨ pd_heads c 0 = [] ∨ pd_heads c 1 = [] ->
  pefs_dircache_abortupdate pd m = Ok m.
Proof.
  intros Hc Hu Hpre. unfold pefs_dircache_abortupdate.
  apply load_pd_Ok in Hc. rewrite Hc, ret_bind, Hu, ret_bind, Hc, ret_bind.
  assert (DIRCACHE_ASSERT c = Ok tt) as ->; [|reflexivity].
  apply MPASS_Ok. destruct Hpre as [H|[->| ->]]; auto.
  right. apply orb_true_r.
Qed.

(** [pefs_dircache_endupdate] on an open pass frees exactly the stale list
    and closes the pass. *)
Lemma endupdate_spec m pd c :
  wf m -> cache m pd = Some c -> updating c = true ->
  ∃ m1 m' S c',
    pefs_dircache_endupdate pd m = Ok m' ∧ freed S m m1 ∧ relinked pd m1 m' ∧
    (∀ p, p ∈ S ↔ p ∈ stale c) ∧ wf m' ∧
    cache m' pd = Some c' ∧ updating c' = false ∧ stale c' = [] ∧
    active c' = drop S (active c) ∧ pd_gen c' = pd_gen c ∧
    dircache_entry_zone m' = dircache_entry_zone m1.
Proof.
  intros W Hc Hu. unfold pefs_dircache_endupdate.
  pose proof Hc as Hl. apply load_pd_Ok in Hl. rewrite Hl, ret_bind, Hu. cbn [negb].
  destruct (free_all_spec DIRCACHE_STALEHEAD pd m c STALEHEAD_drop_dir W Hc)
    as (m1 & S & Hrun & F & W1 & HS & Hc1 & Hst).
  rewrite Hrun, ret_bind.
  pose proof Hc1 as Hl1. apply load_pd_Ok in Hl1. rewrite Hl1, ret_bind.
  set (c2 := set_pd_flags _ (drop_dir S c)).
  assert (relinked pd m1 (store_pd pd c2 m1)) as R.
  { apply (store_pd_relinked m1 pd (drop_dir S c) c2 Hc1); [reflexivity|].
    intros q. reflexivity. }
  exists m1, (store_pd pd c2 m1), S, c2. split; [reflexivity|].
  split; [exact F|]. split; [exact R|]. split; [exact HS|].
  split; [eapply relinked_wf; eauto|].
  split; [rewrite cache_store_pd; by rewrite decide_True|].
  split; [unfold c2; apply updating_clear_updating|].
  split; [unfold c2; rewrite stale_clear_updating; exact Hst|].
  split; [unfold c2; rewrite active_clear_updating; apply active_drop_dir|].
  split; reflexivity.
Qed.

Lemma endupdate_idle m pd c :
  cache m pd = Some c -> updating c = false ->
  INVARIANTS = false ∨ pd_heads c 0 = [] ∨ pd_heads c 1 = [] ->
  pefs_dircache_endupdate pd m = Ok m.
Proof.
  intros Hc Hu Hpre. unfold pefs_dircache_endupdate.
  apply load_pd_Ok in Hc. rewrite Hc, ret_bind, Hu. cbn [negb].
  assert (DIRCACHE_ASSERT c = Ok tt) as ->; [|reflexivity].
  apply MPASS_Ok. destruct Hpre as [H|[->| ->]]; auto.
  right. apply orb_true_r.
Qed.

(** [pefs_dircache_purge] frees exactly the entries of the cache. *)
Lemma purge_spec m pd c :
  wf m -> cache m pd = Some c ->
  ∃ m' S, pefs_dircache_purge pd m = Ok m' ∧ freed S m m' ∧ wf m' ∧
          (∀ p, p ∈ S ↔ on_dir c p) ∧
          cache m' pd = Some (drop_dir S c) ∧
          pd_heads0 (drop_dir S c) = [] ∧ pd_heads1 (drop_dir S c) = [].
Proof.
  intros W Hc. unfold pefs_dircache_purge.
  assert (pd ≠ NULL) as Hnn.
  { intros ->. rewrite (wf_null_pd _ W) in Hc. discriminate. }
  apply Z.eqb_neq in Hnn. rewrite Hnn.
  destruct (free_all_spec DIRCACHE_STALEHEAD pd m c STALEHEAD_drop_dir W Hc)
    as (m1 & S1 & Hrun1 & F1 & W1 & HS1 & Hc1 & Hst1).
  rewrite Hrun1, ret_bind.
  destruct (free_all_spec DIRCACHE_ACTIVEHEAD pd m1 _ ACTIVEHEAD_drop_dir W1 Hc1)
    as (m2 & S2 & Hrun2 & F2 & W2 & HS2 & Hc2 & Hst2).
  rewrite Hrun2. rewrite drop_dir_drop_dir in Hc2, Hst2.
  assert (∀ p, p ∈ S1 ++ S2 ↔ on_dir c p) as HS.
  { intros p. rewrite elem_of_app, HS1, HS2, on_dir_active_stale.
    fold (stale c). fold (active (drop_dir S1 c)).
    rewrite active_drop_dir, elem_of_drop, HS1. fold (stale c).
    destruct (decide (p ∈ stale c)); tauto. }
  exists m2, (S1 ++ S2). split; [reflexivity|].
  split; [eapply freed_trans; eauto|]. split; [exact W2|].
  split; [exact HS|]. split; [exact Hc2|].
  unfold drop_dir. simpl. split; apply drop_all; intros x Hx; apply HS;
    unfold on_dir; auto.
Qed.

End UpdatePass.

Section Reconfirm.
Context {P : Platform}.
Implicit Types (m : kmem) (c : pefs_dircache) (e : pefs_dircache_entry).

(** [pefs_dircache_update] of a live entry returns and frees nothing; in
    an open pass it stamps the entry and moves it to the front of the
    active list. *)
Lemma update_spec m p e c :
  wf m -> entry m p = Some e -> cache m (pde_dircache e) = Some c ->
  ∃ m', pefs_dircache_update p m = Ok m' ∧ relinked (pde_dircache e) m m' ∧
        (updating c = true ->
         ∃ c', cache m' (pde_dircache e) = Some c' ∧
               pd_gen c' = pd_gen c ∧ pd_flags c' = pd_flags c ∧
               active c' = p :: drop [p] (active c) ∧
               stale c' = drop [p] (stale c) ∧
               dircache_entry_zone m' =
                 <[p := set_pde_gen (pd_gen c) e]> (dircache_entry_zone m)) ∧
        (updating c = false ->
         m' = m ∨ ∃ c', cache m' (pde_dircache e) = Some c' ∧
                        updating c' = false ∧ active c' = []).
Proof.
  intros W He Hc. unfold pefs_dircache_update, dircache_update.
  pose proof He as Hle. apply load_pde_Ok in Hle. rewrite Hle, ret_bind.
  pose proof Hc as Hl. apply load_pd_Ok in Hl. cbv zeta. rewrite Hl, ret_bind.
  destruct (wf_live _ W _ _ He) as (c0 & Hc0 & Hp).
  rewrite Hc in Hc0. injection Hc0 as <-.
  destruct (updating c) eqn:Hu.
  - set (m1 := store_pde p (set_pde_gen (pd_gen c) e) m).
    pose proof (store_pde_relinked (pde_dircache e) m p e (pd_gen c) He) as R1. fold m1 in R1.
    pose proof (relinked_wf0 _ _ _ W R1) as W1.
    change (negb (1 =? 0)) with true. cbv iota.
    destruct (move_relinked DIRCACHE_ACTIVEHEAD m1 _ c p W1 Hc Hp)
      as (m2 & Hmove & R2 & Hc2 & Hez).
    exists m2. split; [exact Hmove|]. split; [eauto using relinked_trans|].
    split; [|discriminate].
    intros _. eexists. split; [exact Hc2|].
    rewrite pd_gen_set_pd_heads, pd_flags_set_pd_heads.
    split; [reflexivity|]. split; [reflexivity|].
    fold (active (drop_dir [p] c)).
    rewrite active_set_active, stale_set_active, active_drop_dir, stale_drop_dir.
    split; [reflexivity|]. split; [reflexivity|]. exact Hez.
  - destruct ((pd_gen c =? 0) || negb (pd_gen c =? pde_gen e)).
    + destruct (dircache_expire_spec m _ c W Hc)
        as (m1 & c1 & Hrun & R1 & Hc1 & Ha1 & _ & Hu1).
      rewrite Hrun, ret_bind.
      destruct (relinked_entry _ _ _ _ _ R1 He) as (e1 & He1 & _).
      pose proof He1 as Hle1. apply load_pde_Ok in Hle1. rewrite Hle1, ret_bind.
      change (1 =? 0) with false. cbv iota zeta.
      eexists. split; [reflexivity|]. split; [|split; [discriminate|]].
      * eapply relinked_trans; [exact R1|]. by apply store_pde_relinked.
      * intros _. right. exists c1. rewrite Hu1. auto.
    + exists m. split; [reflexivity|]. split; [apply relinked_refl|].
      split; [discriminate|auto].
Qed.

End Reconfirm.

Section InsertLink.
Context {P : Platform}.
Implicit Types (m : kmem) (c : pefs_dircache) (e : pefs_dircache_entry).

Lemma uma_zalloc_fresh {A} (zone : gmap Z A) :
  uma_zalloc zone ≠ NULL ∧ zone !! uma_zalloc zone = None.
Proof.
  unfold uma_zalloc. pose proof (is_fresh ({[NULL]} ∪ dom zone)) as H.
  rewrite not_elem_of_union, not_elem_of_singleton, not_elem_of_dom in H.
  exact H.
Qed.

Lemma pool_ok_frame m m' pdp :
  pools m' = pools m -> dircache_hashmask m' = dircache_hashmask m ->
  pool_ok m pdp -> pool_ok m' pdp.
Proof.
  intros Hp Hm (pool & Hpool & Ht & Het). exists pool. rewrite Hp.
  split; [exact Hpool|]. split; eapply tbl_ok_hashmask; eauto.
Qed.

(** The store right after the new entry is allocated and filled in. *)
Lemma store_new_wf0 m pde e0 k :
  wf0 m -> entry m pde = None -> pde ≠ NULL ->
  wf0 (store_pde pde e0 (with_keys k m)).
Proof.
  intros W Hfresh Hnn. split.
  - exact (wf_null_pd _ W).
  - rewrite entry_store_pde, decide_False by exact Hnn. exact (wf_null_pde _ W).
  - intros pd c p Hc Hp. destruct (wf_dir _ W pd c p Hc Hp) as (e & He & Ho).
    exists e. split; [|exact Ho]. rewrite entry_store_pde, decide_False; [exact He|].
    intros ->. unfold entry in *. simpl in He. congruence.
  - intros pd c Hc. apply (pool_ok_frame m); try reflexivity.
    exact (wf_pool _ W pd c Hc).
  - intros pdp pool p Hpool Hin. rewrite entry_store_pde.
    destruct (decide (pde = p)); [eauto|]. exact (wf_hash _ W pdp pool p Hpool Hin).
  - intros pdp pool p Hpool Hin. rewrite entry_store_pde.
    destruct (decide (pde = p)); [eauto|]. exact (wf_enchash _ W pdp pool p Hpool Hin).
Qed.

(** The same store with the new entry linked on a list of its cache. *)
Lemma link_new_wf m pd c pde e0 k i :
  wf m -> entry m pde = None -> pde ≠ NULL ->
  cache m pd = Some c -> pde_dircache e0 = pd ->
  wf (store_pd pd (set_pd_heads i (pde :: pd_heads c i) c)
        (store_pde pde e0 (with_keys k m))).
Proof.
  intros W Hfresh Hnn Hc Ho.
  set (m1 := store_pde pde e0 (with_keys k m)).
  set (c' := set_pd_heads i (pde :: pd_heads c i) c).
  assert (∀ q, entry (store_pd pd c' m1) q = if decide (pde = q) then Some e0 else entry m q)
    as Hent.
  { intros q. rewrite entry_store_pd. unfold m1. by rewrite entry_store_pde. }
  assert (∀ pd', cache (store_pd pd c' m1) pd' = if decide (pd = pd') then Some c' else cache m pd')
    as Hcache.
  { intros pd'. by rewrite cache_store_pd. }
  assert (∀ q e, entry m q = Some e -> pde ≠ q) as Hne.
  { intros q e He ->. congruence. }
  split; [split|].
  - rewrite Hcache. rewrite decide_False; [exact (wf_null_pd _ W)|].
    intros ->. rewrite (wf_null_pd _ W) in Hc. discriminate.
  - rewrite Hent, decide_False by exact Hnn. exact (wf_null_pde _ W).
  - intros pd' c2 p Hc2 Hp. rewrite Hcache in Hc2. rewrite Hent.
    destruct (decide (pd = pd')) as [<-|Hpd].
    + injection Hc2 as <-. apply on_dir_set_pd_heads_cons in Hp as [->|Hp].
      * rewrite decide_True by reflexivity. eauto.
      * destruct (wf_dir _ W _ _ _ Hc Hp) as (e & He & Hoe).
        rewrite decide_False by eauto. eauto.
    + destruct (wf_dir _ W _ _ _ Hc2 Hp) as (e & He & Hoe).
      rewrite decide_False by eauto. eauto.
  - intros pd' c2 Hc2. rewrite Hcache in Hc2.
    apply (pool_ok_frame m); try reflexivity.
    destruct (decide (pd = pd')) as [<-|Hpd].
    + injection Hc2 as <-. unfold c'. rewrite pd_pool_set_pd_heads.
      exact (wf_pool _ W _ _ Hc).
    + exact (wf_pool _ W _ _ Hc2).
  - intros pdp pool p Hpool Hin. rewrite Hent.
    destruct (decide (pde = p)); [eauto|]. exact (wf_hash _ W pdp pool p Hpool Hin).
  - intros pdp pool p Hpool Hin. rewrite Hent.
    destruct (decide (pde = p)); [eauto|]. exact (wf_enchash _ W pdp pool p Hpool Hin).
  - intros q e He. rewrite Hent in He. rewrite Hcache.
    destruct (decide (pde = q)) as [<-|Hq].
    + injection He as <-. rewrite Ho, decide_True by reflexivity.
      exists c'. split; [reflexivity|]. apply on_dir_set_pd_heads_cons. auto.
    + destruct (wf_live _ W _ _ He) as (c0 & Hc0 & Hp).
      destruct (decide (pd = pde_dircache e)) as [Hpd|Hpd].
      * exists c'. split; [reflexivity|]. apply on_dir_set_pd_heads_cons. right.
        rewrite <- Hpd, Hc in Hc0. by injection Hc0 as <-.
      * eauto.
Qed.

Lemma relinked_same_caches pd m m' :
  pools m' = pools m -> dircache_hashmask m' = dircache_hashmask m ->
  (∀ p, set_pde_gen 0 <$> entry m' p = set_pde_gen 0 <$> entry m p) ->
  (∀ pd', cache m' pd' = cache m pd') ->
  relinked pd m m'.
Proof.
  intros Hp Hm He Hc. split; try assumption.
  - intros pd' _. apply Hc.
  - rewrite Hc. destruct (cache m pd); [|exact I].
    split; [reflexivity|tauto].
Qed.

(** [dircache_update(pde, 0)] at the end of [pefs_dircache_insert] links
    the new entry: the result is a relinking of the store in which the
    entry is already on a list of its cache. *)
Lemma update_new m pd c pde e0 k :
  wf m -> entry m pde = None -> pde ≠ NULL ->
  cache m pd = Some c -> pde_dircache e0 = pd -> pde_gen e0 = 0 ->
  let m1 := store_pde pde e0 (with_keys k m) in
  ∃ m3 c3 g3 i,
    dircache_update pde 0 m1 = Ok m3 ∧
    relinked pd (store_pd pd (set_pd_heads i (pde :: pd_heads c i) c) m1) m3 ∧
    cache m3 pd = Some c3 ∧ entry m3 pde = Some (set_pde_gen g3 e0) ∧
    pd_pool c3 = pd_pool c ∧
    (updating c = true ->
       c3 = set_pd_heads (DIRCACHE_ACTIVEHEAD c) (pde :: active c) c ∧
       g3 = pd_gen c ∧
       dircache_entry_zone m3 = <[pde := set_pde_gen g3 e0]> (dircache_entry_zone m)) ∧
    (updating c = false ->
       updating c3 = false ∧ pd_gen c3 = 0 ∧ active c3 = [] ∧ g3 = 0).
Proof.
  intros W Hfresh Hnn Hc Ho Hg0 m1.
  pose proof (store_new_wf0 m pde e0 k W Hfresh Hnn) as W1. fold m1 in W1.
  assert (entry m1 pde = Some e0) as He1.
  { unfold m1. rewrite entry_store_pde. by rewrite decide_True. }
  assert (cache m1 pd = Some c) as Hc1 by exact Hc.
  unfold dircache_update.
  pose proof He1 as Hle. apply load_pde_Ok in Hle. rewrite Hle, ret_bind.
  cbv zeta. rewrite Ho.
  pose proof Hc1 as Hl. apply load_pd_Ok in Hl. rewrite Hl, ret_bind.
  destruct (updating c) eqn:Hu.
  - change (negb (0 =? 0)) with false. cbv iota.
    set (m2 := store_pde pde (set_pde_gen (pd_gen c) e0) m1).
    set (c3 := set_pd_heads (DIRCACHE_ACTIVEHEAD c) (pde :: active c) c).
    assert (LIST_INSERT_HEAD_dir_entry DIRCACHE_ACTIVEHEAD pd pde m2
            = Ok (store_pd pd c3 m2)) as ->.
    { unfold LIST_INSERT_HEAD_dir_entry.
      assert (load_pd m2 pd = Ok c) as -> by exact Hl. reflexivity. }
    exists (store_pd pd c3 m2), c3, (pd_gen c), (DIRCACHE_ACTIVEHEAD c).
    split; [reflexivity|]. split.
    { apply relinked_same_caches; try reflexivity.
      intros q. rewrite !entry_store_pd. unfold m2, m1.
      rewrite !entry_store_pde. by destruct (decide (pde = q)). }
    split; [rewrite cache_store_pd; by rewrite decide_True|].
    split.
    { rewrite entry_store_pd. unfold m2. rewrite entry_store_pde.
      by rewrite decide_True. }
    split; [unfold c3; apply pd_pool_set_pd_heads|].
    split; [|discriminate]. intros _. split; [reflexivity|]. split; [reflexivity|].
    unfold store_pd, m2, m1, store_pde. simpl. apply insert_insert_eq.
  - assert ((pd_gen c =? 0) || negb (pd_gen c =? pde_gen e0) = true) as ->.
    { rewrite Hg0. by destruct (pd_gen c =? 0). }
    destruct (dircache_expire_spec m1 pd c W1 Hc1)
      as (m2 & c2 & Hrun & R12 & Hc2 & Ha2 & Hg2 & Hu2).
    rewrite Hrun, ret_bind.
    destruct (relinked_entry _ _ _ _ _ R12 He1) as (e2 & He2 & Hid).
    pose proof He2 as Hle2. apply load_pde_Ok in Hle2. rewrite Hle2, ret_bind.
    change (0 =? 0) with true. cbv iota zeta.
    set (m2' := store_pde pde (set_pde_gen 0 e2) m2).
    set (c3 := set_pd_heads (DIRCACHE_STALEHEAD c2) (pde :: stale c2) c2).
    assert (LIST_INSERT_HEAD_dir_entry DIRCACHE_STALEHEAD pd pde m2'
            = Ok (store_pd pd c3 m2')) as ->.
    { unfold LIST_INSERT_HEAD_dir_entry.
      assert (load_pd m2' pd = Ok c2) as -> by (by apply load_pd_Ok). reflexivity. }
    destruct (relinked_cache _ _ _ _ _ R12 Hc1) as (c2' & Hc2' & Hpool2 & Hd2).
    rewrite Hc2 in Hc2'. injection Hc2' as <-.
    exists (store_pd pd c3 m2'), c3, 0, 0.
    split; [reflexivity|]. split.
    { split.
      - exact (rl_pools _ _ _ R12).
      - exact (rl_hashmask _ _ _ R12).
      - intros q. rewrite !entry_store_pd. unfold m2'. rewrite entry_store_pde.
        destruct (decide (pde = q)) as [<-|Hq].
        + rewrite He1. simpl. f_equal. exact Hid.
        + apply (rl_entry _ _ _ R12).
      - intros pd' Hne. rewrite !cache_store_pd, !decide_False by congruence.
        apply (rl_frame _ _ _ R12 pd' Hne).
      - rewrite !cache_store_pd, !decide_True by reflexivity.
        split; [unfold c3; by rewrite !pd_pool_set_pd_heads|].
        intros q. unfold c3, stale.
        rewrite !on_dir_set_pd_heads_cons, Hd2. reflexivity. }
    split; [rewrite cache_store_pd; by rewrite decide_True|].
    split.
    { rewrite entry_store_pd. unfold m2'. rewrite entry_store_pde.
      rewrite decide_True by reflexivity. f_equal. exact Hid. }
    split; [unfold c3; by rewrite pd_pool_set_pd_heads|].
    split; [discriminate|]. intros _.
    split; [unfold c3; by rewrite updating_set_pd_heads, Hu2|].
    split; [unfold c3; by rewrite pd_gen_set_pd_heads|].
    split; [|reflexivity]. unfold c3. by rewrite active_set_stale.
Qed.

End InsertLink.

Section Insert.
Context {P : Platform}.
Implicit Types (m : kmem) (c : pefs_dircache) (e : pefs_dircache_entry).

Lemma bucket_Ok m t h pde :
  tbl_ok m t ->
  ∃ tt b, t = Some tt ∧ tt !! DIRCACHE_TBL m h = Some b ∧
          bucket t (DIRCACHE_TBL m h) = Ok b ∧
          bucket_insert_head t (DIRCACHE_TBL m h) pde
            = Ok (<[DIRCACHE_TBL m h := pde :: b]> tt).
Proof.
  intros (tt & -> & Hlen).
  destruct (lookup_lt_is_Some_2 tt _ (Hlen h)) as (b & Hb).
  exists tt, b. unfold bucket, bucket_insert_head. rewrite Hb. auto.
Qed.

Lemma bucket_insert_same (tt : list (list Z)) i x b :
  tt !! i = Some b -> bucket (Some (<[i := x]> tt)) i = Ok x.
Proof.
  intros Hb. unfold bucket. rewrite list_lookup_insert_eq; [reflexivity|].
  eapply lookup_lt_Some; eauto.
Qed.

Lemma in_tbl_insert tt i b pde p :
  in_tbl (Some (<[i := pde :: b]> tt)) p -> tt !! i = Some b ->
  p = pde ∨ in_tbl (Some tt) p.
Proof.
  intros (tt0 & b0 & [= <-] & Hb0 & Hp) Hb.
  apply list_elem_of_lookup in Hb0 as (k & Hk).
  apply list_lookup_insert_Some in Hk as [(<- & <- & _)|(Hne & Hk)].
  - apply elem_of_cons in Hp as [->|Hp]; [by left|]. right.
    exists tt, b. split; [reflexivity|]. split; [|exact Hp].
    apply list_elem_of_lookup. eauto.
  - right. exists tt, b0. split; [reflexivity|]. split; [|exact Hp].
    apply list_elem_of_lookup. eauto.
Qed.

Lemma tbl_ok_insert m m' tt i b :
  dircache_hashmask m' = dircache_hashmask m ->
  tbl_ok m (Some tt) -> tbl_ok m' (Some (<[i := b]> tt)).
Proof.
  intros Hm (tt0 & [= <-] & Hlen). eexists. split; [reflexivity|].
  intros h. rewrite length_insert. unfold DIRCACHE_TBL. rewrite Hm. apply Hlen.
Qed.

(** Linking a live entry at the head of one bucket of each table. *)
Lemma bucket_link_wf m pdp pool tt tt' i j b b' pde n :
  wf m -> is_Some (entry m pde) -> pools m !! pdp = Some pool ->
  pdp_tbl pool = Some tt -> pdp_enctbl pool = Some tt' ->
  tt !! i = Some b -> tt' !! j = Some b' ->
  wf (with_dircache_entries n
        (store_pool pdp {| pdp_tbl := Some (<[i := pde :: b]> tt);
                           pdp_enctbl := Some (<[j := pde :: b']> tt') |} m)).
Proof.
  intros W Hlive Hpool Ht Ht' Hb Hb'.
  set (pool' := {| pdp_tbl := Some (<[i := pde :: b]> tt);
                   pdp_enctbl := Some (<[j := pde :: b']> tt') |}).
  assert (∀ x, pools (with_dircache_entries n (store_pool pdp pool' m)) !! x
               = if decide (pdp = x) then Some pool' else pools m !! x) as Hpools.
  { intros x. unfold store_pool. simpl. destruct (decide (pdp = x)) as [<-|Hne].
    - by rewrite lookup_insert_eq.
    - by rewrite lookup_insert_ne. }
  split; [split|].
  - exact (wf_null_pd _ W).
  - exact (wf_null_pde _ W).
  - exact (wf_dir _ W).
  - intros pd c Hc. destruct (wf_pool _ W pd c Hc) as (pool0 & Hpool0 & Hok & Hok').
    destruct (decide (pdp = pd_pool c)) as [E|Hne].
    + exists pool'. split; [rewrite Hpools; by rewrite decide_True|].
      rewrite <- E, Hpool in Hpool0. injection Hpool0 as <-.
      rewrite Ht in Hok. rewrite Ht' in Hok'.
      split; (eapply tbl_ok_insert; [reflexivity|eassumption]).
    + exists pool0. split; [rewrite Hpools; by rewrite decide_False|].
      split; (eapply tbl_ok_hashmask; [reflexivity|eassumption]).
  - intros x pool0 p Hx Hin. rewrite Hpools in Hx.
    destruct (decide (pdp = x)) as [<-|Hne].
    + injection Hx as <-. simpl in Hin.
      apply in_tbl_insert in Hin as [->|Hin]; [exact Hlive| |exact Hb].
      apply (wf_hash _ W pdp pool p Hpool). by rewrite Ht.
    + exact (wf_hash _ W x pool0 p Hx Hin).
  - intros x pool0 p Hx Hin. rewrite Hpools in Hx.
    destruct (decide (pdp = x)) as [<-|Hne].
    + injection Hx as <-. simpl in Hin.
      apply in_tbl_insert in Hin as [->|Hin]; [exact Hlive| |exact Hb'].
      apply (wf_enchash _ W pdp pool p Hpool). by rewrite Ht'.
    + exact (wf_enchash _ W x pool0 p Hx Hin).
  - exact (wf_live _ W).
Qed.

Lemma take_name_buffer size name : take (length name) (name_buffer size name) = name.
Proof. unfold name_buffer. apply take_app_length. Qed.

Lemma hashname_name_buffer pd size name :
  dircache_hashname pd (name_buffer size name) (length name)
  = dircache_hashname pd name (length name).
Proof.
  unfold dircache_hashname. rewrite take_name_buffer.
  by rewrite (take_ge name) by reflexivity.
Qed.

(** What a successful [pefs_dircache_insert] leaves. *)
Record inserted (m : kmem) (pd : Z) (c : pefs_dircache) (ptk : pefs_tkey)
    (name encname : list byte) (m' : kmem) (pde : Z) : Prop := {
  ins_nonnull : pde ≠ NULL;
  ins_fresh : entry m pde = None;
  ins_wf : wf m';
  ins_hashmask : dircache_hashmask m' = dircache_hashmask m;
  ins_frame : ∀ pd', pd' ≠ pd -> cache m' pd' = cache m pd';
  ins_entry : ∃ e, cached m' pd pde e ∧
                   entry_name e = name ∧ entry_encname e = encname ∧
                   pde_namelen e = length name ∧
                   pde_encnamelen e = length encname ∧
                   pde_tkey e = ptk ∧
                   (updating c = true -> pde_gen e = pd_gen c ∧
                      dircache_entry_zone m' = <[pde := e]> (dircache_entry_zone m)) ∧
                   (updating c = false -> pde_gen e = 0);
  ins_cache : ∃ c', cache m' pd = Some c' ∧
                    (updating c = true ->
                       c' = set_pd_heads (DIRCACHE_ACTIVEHEAD c) (pde :: active c) c) ∧
                    (updating c = false ->
                       updating c' = false ∧ pd_gen c' = 0 ∧ active c' = [])
}.

(** With both lengths in range the panic is not reached and
    [pefs_dircache_insert] returns a new entry. *)
Lemma insert_spec m pd c ptk name encname :
  wf m -> cache m pd = Some c ->
  (0 < length name < sizeof_pde_name)%nat ->
  (0 < length encname < sizeof_pde_encname)%nat ->
  INVARIANTS = false ∨ ptk_key ptk ≠ NULL ->
  ∃ m' pde, pefs_dircache_insert pd ptk name encname m = Ok (m', pde) ∧
            inserted m pd c ptk name encname m' pde.
Proof.
  intros W Hc Hn He Hkey. unfold pefs_dircache_insert.
  assert (MPASS (negb (ptk_key ptk =? NULL)) = Ok tt) as ->.
  { apply MPASS_Ok. destruct Hkey as [H|H]; [by left|right].
    apply Z.eqb_neq in H. by rewrite H. }
  rewrite ret_bind.
  assert ((length name =? 0)%nat || (sizeof_pde_name <=? length name)%nat
          || (length encname =? 0)%nat || (sizeof_pde_encname <=? length encname)%nat
          = false) as ->.
  { rewrite !orb_false_iff, !Nat.eqb_neq, !Nat.leb_gt. lia. }
  cbv zeta.
  destruct (uma_zalloc_fresh (dircache_entry_zone m)) as [Hnn Hfresh].
  set (pde := uma_zalloc (dircache_entry_zone m)) in *.
  set (k := pefs_key_ref (ptk_key ptk) (keys m)).
  set (e0 := {| pde_dircache := pd; pde_tkey := ptk; pde_gen := 0;
                pde_namehash := _; pde_encnamehash := _;
                pde_namelen := length name; pde_encnamelen := length encname;
                pde_name := _; pde_encname := _ |}).
  destruct (update_new m pd c pde e0 k W Hfresh Hnn Hc eq_refl eq_refl)
    as (m3 & c3 & g3 & i & Hrun & R & Hc3 & He3 & Hpool3 & Hupd & Hidle).
  rewrite Hrun, ret_bind.
  pose proof (link_new_wf m pd c pde e0 k i W Hfresh Hnn Hc eq_refl) as W1.
  pose proof (relinked_wf _ _ _ W1 R) as W3.
  pose proof Hc3 as Hl3. apply load_pd_Ok in Hl3. rewrite Hl3, ret_bind.
  destruct (wf_pool _ W3 _ _ Hc3) as (pool & Hpool & Hok & Hok').
  pose proof Hpool as Hlp. apply load_pool_Ok in Hlp. rewrite Hlp, ret_bind.
  destruct (bucket_Ok m3 _ (pde_namehash e0) pde Hok) as (tt & b & Ht & Hb & _ & ->).
  rewrite ret_bind. cbv zeta.
  change (pdp_enctbl (set_pdp_tbl _ pool)) with (pdp_enctbl pool).
  destruct (bucket_Ok m3 _ (pde_encnamehash e0) pde Hok') as (tt' & b' & Ht' & Hb' & _ & ->).
  rewrite ret_bind. cbv zeta.
  eexists _, pde. split; [reflexivity|].
  assert (dircache_hashmask m3 = dircache_hashmask m) as Hmask.
  { exact (rl_hashmask _ _ _ R). }
  split.
  - exact Hnn.
  - exact Hfresh.
  - apply (bucket_link_wf m3 (pd_pool c3) pool tt tt' _ _ b b' pde); eauto.
  - exact Hmask.
  - intros pd' Hne. transitivity (cache m3 pd'); [reflexivity|].
    rewrite (rl_frame _ _ _ R pd' Hne), cache_store_pd. by rewrite decide_False.
  - exists (set_pde_gen g3 e0). split.
    { split.
      - exact He3.
      - reflexivity.
      - reflexivity.
      - reflexivity.
      - simpl. unfold name_buffer. rewrite !length_app. lia.
      - exists c3, {| pdp_tbl := Some (<[DIRCACHE_TBL m3 (pde_namehash e0) := pde :: b]> tt);
                      pdp_enctbl := Some (<[DIRCACHE_TBL m3 (pde_encnamehash e0) := pde :: b']> tt') |},
               (pde :: b).
        split; [exact Hc3|]. split.
        { unfold store_pool. simpl. by rewrite lookup_insert_eq. }
        split; [|by left].
        exact (bucket_insert_same tt _ (pde :: b) b Hb).
      - exists c3, {| pdp_tbl := Some (<[DIRCACHE_TBL m3 (pde_namehash e0) := pde :: b]> tt);
                      pdp_enctbl := Some (<[DIRCACHE_TBL m3 (pde_encnamehash e0) := pde :: b']> tt') |},
               (pde :: b').
        split; [exact Hc3|]. split.
        { unfold store_pool. simpl. by rewrite lookup_insert_eq. }
        split; [|by left].
        exact (bucket_insert_same tt' _ (pde :: b') b' Hb'). }
    split; [apply take_name_buffer|]. split; [apply take_name_buffer|].
    split; [reflexivity|]. split; [reflexivity|]. split; [reflexivity|].
    split.
    + intros Hu. destruct (Hupd Hu) as (_ & -> & Hz). split; [reflexivity|exact Hz].
    + intros Hu. destruct (Hidle Hu) as (_ & _ & _ & ->). reflexivity.
  - exists c3. split; [exact Hc3|]. split.
    + intros Hu. by destruct (Hupd Hu) as (-> & _).
    + intros Hu. destruct (Hidle Hu) as (? & ? & ? & _). auto.
Qed.

End Insert.

Section Lookups.
Context {P : Platform}.
Implicit Types (m : kmem) (c : pefs_dircache) (e : pefs_dircache_entry).

Lemma find_miss m hit l :
  (∀ p, p ∈ l -> ∃ e, entry m p = Some e ∧ hit e = false) ->
  LIST_FOREACH_find m hit l = Ok NULL.
Proof.
  induction l as [|p l IH]; intros H; [reflexivity|]. simpl.
  destruct (H p) as (e & He & Hh); [by left|].
  apply load_pde_Ok in He. rewrite He, ret_bind, Hh.
  apply IH. intros q Hq. apply H. by right.
Qed.

Lemma find_hit m hit l p0 e0 :
  (∀ p, p ∈ l -> is_Some (entry m p)) ->
  p0 ∈ l -> entry m p0 = Some e0 -> hit e0 = true ->
  ∃ p e, LIST_FOREACH_find m hit l = Ok p ∧ p ∈ l ∧ entry m p = Some e ∧ hit e = true.
Proof.
  induction l as [|q l IH]; intros Hlive Hin He0 Hh0.
  - by apply elem_of_nil in Hin.
  - simpl. destruct (Hlive q) as (e & He); [by left|].
    pose proof He as Hl. apply load_pde_Ok in Hl. rewrite Hl, ret_bind.
    destruct (hit e) eqn:Hh.
    + exists q, e. split; [reflexivity|]. split; [by left|]. auto.
    + apply elem_of_cons in Hin as [->|Hin]; [congruence|].
      destruct IH as (p & e' & Hrun & Hp & He' & Hh'); auto.
      { intros x Hx. apply Hlive. by right. }
      exists p, e'. split; [exact Hrun|]. split; [by right|]. auto.
Qed.

Lemma name_hit e h pd g name :
  (pde_namehash e =? h) && (pde_dircache e =? pd) && (pde_gen e =? g) &&
  (pde_namelen e =? length name)%nat && memcmp_eq (pde_name e) name (length name) = true
  ↔ pde_namehash e = h ∧ pde_dircache e = pd ∧ pde_gen e = g ∧
    pde_namelen e = length name ∧ entry_name e = name.
Proof.
  rewrite !andb_true_iff, !Z.eqb_eq, Nat.eqb_eq. unfold memcmp_eq, entry_name.
  rewrite bool_decide_eq_true, (take_ge name) by reflexivity.
  split.
  - intros ((((? & ?) & ?) & Hlen) & ?). rewrite Hlen. auto.
  - intros (? & ? & ? & Hlen & ?). rewrite Hlen in *. auto.
Qed.

Lemma encname_hit e h pd encname :
  (pde_encnamehash e =? h) && (pde_dircache e =? pd) &&
  (pde_encnamelen e =? length encname)%nat &&
  memcmp_eq (pde_encname e) encname (length encname) = true
  ↔ pde_encnamehash e = h ∧ pde_dircache e = pd ∧
    pde_encnamelen e = length encname ∧ entry_encname e = encname.
Proof.
  rewrite !andb_true_iff, !Z.eqb_eq, Nat.eqb_eq. unfold memcmp_eq, entry_encname.
  rewrite bool_decide_eq_true, (take_ge encname) by reflexivity.
  split.
  - intros (((? & ?) & Hlen) & ?). rewrite Hlen. auto.
  - intros (? & ? & Hlen & ?). rewrite Hlen in *. auto.
Qed.

Lemma bucket_in_tbl t i b p : bucket t i = Ok b -> p ∈ b -> in_tbl t p.
Proof.
  unfold bucket. destruct t as [tt|]; [|discriminate].
  destruct (tt !! i) as [b0|] eqn:Hb; [|discriminate]. intros [= <-] Hp.
  exists tt, b0. split; [reflexivity|]. split; [|exact Hp].
  apply list_elem_of_lookup. eauto.
Qed.

Lemma wf_nonnull_pd m pd c : wf0 m -> cache m pd = Some c -> (pd =? NULL) = false.
Proof.
  intros W Hc. apply Z.eqb_neq. intros ->. rewrite (wf_null_pd _ W) in Hc. discriminate.
Qed.

(** A plaintext lookup that no entry of the cache can answer. *)
Lemma lookup_miss m pd c name :
  wf m -> cache m pd = Some c -> stale c = [] ->
  (∀ q e, q ∈ active c -> entry m q = Some e -> pde_gen e = pd_gen c ->
          entry_name e ≠ name) ->
  pefs_dircache_lookup pd name m
  = if INVARIANTS && updating c then Err Panic else Ok NULL.
Proof.
  intros W Hc Hst Hno. unfold pefs_dircache_lookup. cbv zeta.
  rewrite (wf_nonnull_pd m pd c W Hc). change (negb false) with true.
  rewrite MPASS_true, ret_bind.
  pose proof Hc as Hl. apply load_pd_Ok in Hl. rewrite Hl, ret_bind.
  rewrite MPASS_negb.
  destruct (INVARIANTS && updating c); [reflexivity|]. rewrite ret_bind.
  rewrite Hst. change (LIST_EMPTY []) with true. rewrite MPASS_true, ret_bind.
  destruct (wf_pool _ W _ _ Hc) as (pool & Hpool & Hok & _).
  pose proof Hpool as Hlp. apply load_pool_Ok in Hlp. rewrite Hlp, ret_bind.
  destruct (bucket_Ok m _ (dircache_hashname pd name (length name)) 0 Hok)
    as (tt & b & Ht & Hb & -> & _).
  rewrite ret_bind. apply find_miss. intros p Hp.
  assert (in_tbl (pdp_tbl pool) p) as Hin.
  { exists tt, b. split; [exact Ht|]. split; [|exact Hp].
    apply list_elem_of_lookup. eauto. }
  destruct (wf_hash _ W _ _ _ Hpool Hin) as (e & He).
  exists e. split; [exact He|]. apply not_true_is_false. intros Hhit.
  apply name_hit in Hhit as (_ & Ho & Hg & _ & Hname).
  destruct (wf_live _ W _ _ He) as (c0 & Hc0 & Hd).
  rewrite Ho, Hc in Hc0. injection Hc0 as <-.
  apply on_dir_active_stale in Hd as [Hd|Hd].
  - exact (Hno p e Hd He Hg Hname).
  - rewrite Hst in Hd. by apply elem_of_nil in Hd.
Qed.

(** An encrypted-name lookup that no entry of the cache can answer. *)
Lemma enclookup_miss m pd c encname :
  wf m -> cache m pd = Some c ->
  (∀ q e, on_dir c q -> entry m q = Some e -> entry_encname e ≠ encname) ->
  pefs_dircache_enclookup pd encname m = Ok NULL.
Proof.
  intros W Hc Hno. unfold pefs_dircache_enclookup. cbv zeta.
  pose proof Hc as Hl. apply load_pd_Ok in Hl. rewrite Hl, ret_bind.
  destruct (wf_pool _ W _ _ Hc) as (pool & Hpool & _ & Hok).
  pose proof Hpool as Hlp. apply load_pool_Ok in Hlp. rewrite Hlp, ret_bind.
  destruct (bucket_Ok m _ (dircache_hashname pd encname (length encname)) 0 Hok)
    as (tt & b & Ht & Hb & -> & _).
  rewrite ret_bind. apply find_miss. intros p Hp.
  assert (in_tbl (pdp_enctbl pool) p) as Hin.
  { exists tt, b. split; [exact Ht|]. split; [|exact Hp].
    apply list_elem_of_lookup. eauto. }
  destruct (wf_enchash _ W _ _ _ Hpool Hin) as (e & He).
  exists e. split; [exact He|]. apply not_true_is_false. intros Hhit.
  apply encname_hit in Hhit as (_ & Ho & _ & Hname).
  destruct (wf_live _ W _ _ He) as (c0 & Hc0 & Hd).
  rewrite Ho, Hc in Hc0. injection Hc0 as <-.
  exact (Hno p e Hd He Hname).
Qed.

Lemma hashname_take pd buf len :
  dircache_hashname pd (take len buf) len = dircache_hashname pd buf len.
Proof. unfold dircache_hashname. by rewrite take_take, Nat.min_id. Qed.

(** A plaintext lookup finds a current entry of the cache that holds the
    name; it is the entry [p] itself when no other one holds the name. *)
Lemma lookup_hit m pd c p e :
  wf m -> cache m pd = Some c ->
  INVARIANTS = false ∨ updating c = false ∧ stale c = [] ->
  cached m pd p e -> pde_gen e = pd_gen c ->
  ∃ p' e', pefs_dircache_lookup pd (entry_name e) m = Ok p' ∧ p' ≠ NULL ∧
           entry m p' = Some e' ∧ pde_dircache e' = pd ∧
           pde_gen e' = pd_gen c ∧ entry_name e' = entry_name e ∧
           ((∀ q e2, entry m q = Some e2 -> pde_dircache e2 = pd ->
                     pde_gen e2 = pd_gen c -> entry_name e2 = entry_name e -> q = p) ->
            p' = p).
Proof.
  intros W Hc Hpre [He Ho Hh _ [Hfit _] (c0 & pool & b & Hc0 & Hpool & Hb & Hin) _] Hg.
  rewrite Hc in Hc0. injection Hc0 as <-.
  assert (length (entry_name e) = pde_namelen e) as Hlen.
  { unfold entry_name. rewrite length_take. lia. }
  unfold pefs_dircache_lookup. cbv zeta.
  rewrite (wf_nonnull_pd m pd c W Hc). change (negb false) with true.
  rewrite MPASS_true, ret_bind.
  pose proof Hc as Hl. apply load_pd_Ok in Hl. rewrite Hl, ret_bind.
  assert (MPASS (negb (updating c)) = Ok tt) as ->.
  { apply MPASS_Ok. destruct Hpre as [?|[-> _]]; auto. }
  assert (MPASS (LIST_EMPTY (stale c)) = Ok tt) as ->.
  { apply MPASS_Ok. destruct Hpre as [?|[_ ->]]; auto. }
  rewrite !ret_bind.
  pose proof Hpool as Hlp. apply load_pool_Ok in Hlp. rewrite Hlp, ret_bind.
  assert (dircache_hashname pd (entry_name e) (length (entry_name e)) = pde_namehash e)
    as Hhash.
  { rewrite Hlen, Hh. unfold entry_name. apply hashname_take. }
  rewrite Hhash, Hb, ret_bind. rewrite <- Hhash.
  match goal with |- context [LIST_FOREACH_find m ?h b] => set (hit := h) end.
  destruct (find_hit m hit b p e) as (p' & e' & Hrun & Hp' & He' & Hhit); auto.
  { intros q Hq. eapply (wf_hash _ W); eauto using bucket_in_tbl. }
  { unfold hit. apply name_hit. rewrite Hlen.
    split; [rewrite <- Hhash, Hlen; reflexivity|auto]. }
  exists p', e'. split; [exact Hrun|].
  unfold hit in Hhit. apply name_hit in Hhit as (_ & Ho' & Hg' & _ & Hname').
  split. { intros ->. rewrite (wf_null_pde _ W) in He'. discriminate. }
  split; [exact He'|]. split; [exact Ho'|]. split; [exact Hg'|].
  split; [exact Hname'|]. intros Huniq. eauto.
Qed.

(** An encrypted-name lookup finds an entry of the cache that holds the
    name, whatever the generations and the state of the pass; it is the
    entry [p] itself when no other one holds the name. *)
Lemma enclookup_hit m pd p e :
  wf m -> cached m pd p e ->
  ∃ p' e', pefs_dircache_enclookup pd (entry_encname e) m = Ok p' ∧ p' ≠ NULL ∧
           entry m p' = Some e' ∧ pde_dircache e' = pd ∧
           entry_encname e' = entry_encname e ∧
           ((∀ q e2, entry m q = Some e2 -> pde_dircache e2 = pd ->
                     entry_encname e2 = entry_encname e -> q = p) ->
            p' = p).
Proof.
  intros W [He Ho _ Hh [_ Hfit] _ (c & pool & b & Hc & Hpool & Hb & Hin)].
  assert (length (entry_encname e) = pde_encnamelen e) as Hlen.
  { unfold entry_encname. rewrite length_take. lia. }
  unfold pefs_dircache_enclookup. cbv zeta.
  pose proof Hc as Hl. apply load_pd_Ok in Hl. rewrite Hl, ret_bind.
  pose proof Hpool as Hlp. apply load_pool_Ok in Hlp. rewrite Hlp, ret_bind.
  assert (dircache_hashname pd (entry_encname e) (length (entry_encname e))
          = pde_encnamehash e) as Hhash.
  { rewrite Hlen, Hh. unfold entry_encname. apply hashname_take. }
  rewrite Hhash, Hb, ret_bind. rewrite <- Hhash.
  match goal with |- context [LIST_FOREACH_find m ?h b] => set (hit := h) end.
  destruct (find_hit m hit b p e) as (p' & e' & Hrun & Hp' & He' & Hhit); auto.
  { intros q Hq. eapply (wf_enchash _ W); eauto using bucket_in_tbl. }
  { unfold hit. apply encname_hit. rewrite Hlen.
    split; [rewrite <- Hhash, Hlen; reflexivity|auto]. }
  exists p', e'. split; [exact Hrun|].
  unfold hit in Hhit. apply encname_hit in Hhit as (_ & Ho' & _ & Hname').
  split. { intros ->. rewrite (wf_null_pde _ W) in He'. discriminate. }
  split; [exact He'|]. split; [exact Ho'|].
  split; [exact Hname'|]. intros Huniq. eauto.
Qed.

End Lookups.

Section Cached.
Context {P : Platform}.
Implicit Types (m : kmem) (c : pefs_dircache) (e : pefs_dircache_entry).

Lemma bucket_drop S t i b :
  bucket t i = Ok b -> bucket (fmap (M := list) (drop S) <$> t) i = Ok (drop S b).
Proof.
  unfold bucket. destruct t as [tt|]; [|discriminate]. simpl.
  rewrite list_lookup_fmap. destruct (tt !! i); [|discriminate].
  by intros [= <-].
Qed.

Lemma cached_freed S m m' pd p e :
  freed S m m' -> p ∉ S -> cached m pd p e -> cached m' pd p e.
Proof.
  intros F HS [He Ho Hh Hh' Hfit (c & pool & b & Hc & Hpool & Hb & Hin)
                 (c' & pool' & b' & Hc' & Hpool' & Hb' & Hin')].
  split; try assumption.
  - rewrite (fr_entry _ _ _ F). by rewrite decide_False.
  - exists (drop_dir S c), (drop_pool S pool), (drop S b).
    rewrite (fr_cache _ _ _ F), Hc. split; [reflexivity|].
    split; [simpl; by rewrite (fr_pools _ _ _ F), Hpool|].
    split; [|apply elem_of_drop; auto].
    unfold DIRCACHE_TBL. rewrite (fr_hashmask _ _ _ F). by apply bucket_drop.
  - exists (drop_dir S c'), (drop_pool S pool'), (drop S b').
    rewrite (fr_cache _ _ _ F), Hc'. split; [reflexivity|].
    split; [simpl; by rewrite (fr_pools _ _ _ F), Hpool'|].
    split; [|apply elem_of_drop; auto].
    unfold DIRCACHE_TBL. rewrite (fr_hashmask _ _ _ F). by apply bucket_drop.
Qed.

Lemma same_id_eq e e' :
  set_pde_gen 0 e' = set_pde_gen 0 e -> e' = set_pde_gen (pde_gen e') e.
Proof.
  destruct e, e'. unfold set_pde_gen. simpl. intros [=]. by subst.
Qed.

Lemma cached_relinked pd0 m m' pd p e :
  relinked pd0 m m' -> cached m pd p e ->
  ∃ g, cached m' pd p (set_pde_gen g e).
Proof.
  intros R [He Ho Hh Hh' Hfit (c & pool & b & Hc & Hpool & Hb & Hin)
              (c' & pool' & b' & Hc' & Hpool' & Hb' & Hin')].
  destruct (relinked_entry _ _ _ _ _ R He) as (e1 & He1 & Hid).
  apply same_id_eq in Hid. exists (pde_gen e1). rewrite <- Hid.
  destruct (relinked_cache _ _ _ _ _ R Hc) as (c1 & Hc1 & Hp1 & _).
  destruct (relinked_cache _ _ _ _ _ R Hc') as (c1' & Hc1' & Hp1' & _).
  rewrite Hid. split; try assumption.
  - by rewrite <- Hid.
  - exists c1, pool, b. split; [exact Hc1|]. rewrite Hp1, (rl_pools _ _ _ R).
    split; [exact Hpool|]. split; [|exact Hin].
    unfold DIRCACHE_TBL. rewrite (rl_hashmask _ _ _ R). exact Hb.
  - exists c1', pool', b'. split; [exact Hc1'|]. rewrite Hp1', (rl_pools _ _ _ R).
    split; [exact Hpool'|]. split; [|exact Hin'].
    unfold DIRCACHE_TBL. rewrite (rl_hashmask _ _ _ R). exact Hb'.
Qed.

Lemma no_elem_nil (l : list Z) : (∀ x, x ∉ l) -> l = [].
Proof. destruct l as [|x l]; [reflexivity|]. intros H. destruct (H x). by left. Qed.

Lemma active_nil_heads c : active c = [] -> pd_heads c 0 = [] ∨ pd_heads c 1 = [].
Proof. rewrite active_swapped. unfold pd_heads. simpl. destruct (swapped c); auto. Qed.

Lemma stale_nil_heads c : stale c = [] -> pd_heads c 0 = [] ∨ pd_heads c 1 = [].
Proof. rewrite stale_swapped. unfold pd_heads. simpl. destruct (swapped c); auto. Qed.

Lemma create_spec m pdp :
  wf m -> pool_ok m pdp ->
  let m' := (pefs_dircache_create pdp m).1 in
  let pd := (pefs_dircache_create pdp m).2 in
  pd ≠ NULL ∧ cache m pd = None ∧ wf m' ∧
  cache m' pd = Some {| pd_heads0 := []; pd_heads1 := []; pd_gen := 0;
                        pd_flags := 0; pd_pool := pdp |} ∧
  (∀ pd', pd' ≠ pd -> cache m' pd' = cache m pd') ∧
  dircache_entry_zone m' = dircache_entry_zone m.
Proof.
  intros W Hpool. unfold pefs_dircache_create. simpl.
  destruct (uma_zalloc_fresh (dircache_zone m)) as [Hnn Hfresh].
  set (pd := uma_zalloc (dircache_zone m)) in *.
  set (c0 := {| pd_heads0 := []; pd_heads1 := []; pd_gen := 0; pd_flags := 0;
                pd_pool := pdp |}).
  assert (∀ pd', cache (store_pd pd c0 m) pd' = if decide (pd = pd') then Some c0 else cache m pd')
    as Hcache by (intros; apply cache_store_pd).
  split; [exact Hnn|]. split; [exact Hfresh|]. split; [|split; [|split]].
  - split; [split|].
    + rewrite Hcache, decide_False by exact Hnn. exact (wf_null_pd _ W).
    + exact (wf_null_pde _ W).
    + intros pd' c p Hc Hp. rewrite Hcache in Hc.
      destruct (decide (pd = pd')) as [<-|Hne].
      * injection Hc as <-. unfold on_dir in Hp. simpl in Hp.
        destruct Hp as [Hp|Hp]; by apply elem_of_nil in Hp.
      * exact (wf_dir _ W _ _ _ Hc Hp).
    + intros pd' c Hc. rewrite Hcache in Hc.
      apply (pool_ok_frame m); try reflexivity.
      destruct (decide (pd = pd')) as [<-|Hne].
      * injection Hc as <-. exact Hpool.
      * exact (wf_pool _ W _ _ Hc).
    + exact (wf_hash _ W).
    + exact (wf_enchash _ W).
    + intros p e He. destruct (wf_live _ W _ _ He) as (c & Hc & Hp).
      exists c. split; [|exact Hp]. rewrite Hcache, decide_False; [exact Hc|].
      intros E. unfold cache in Hc. rewrite <- E in Hc. congruence.
  - rewrite Hcache. by rewrite decide_True.
  - intros pd' Hne. rewrite Hcache. by rewrite decide_False.
  - reflexivity.
Qed.

End Cached.

Section Steps.
Context {P : Platform}.
Implicit Types (m : kmem) (c : pefs_dircache) (e : pefs_dircache_entry).

Lemma inv_target m m' pd :
  dircache_inv m ->
  (∀ pd', pd' ≠ pd -> cache m' pd' = cache m pd') ->
  (∀ c', cache m' pd = Some c' -> updating c' = false ->
         pd_heads c' 0 = [] ∨ pd_heads c' 1 = []) ->
  dircache_inv m'.
Proof.
  intros I F T pd' c' Hc Hu. destruct (decide (pd' = pd)) as [->|Hne]; [eauto|].
  rewrite (F pd' Hne) in Hc. eauto.
Qed.

Lemma freed_inv S m m' : freed S m m' -> dircache_inv m -> dircache_inv m'.
Proof.
  intros F I pd c' Hc Hu. rewrite (fr_cache _ _ _ F) in Hc.
  destruct (cache m pd) as [c|] eqn:Hc0; [|discriminate]. injection Hc as <-.
  rewrite !pd_heads_drop_dir.
  destruct (I pd c Hc0 Hu) as [-> | ->]; auto.
Qed.

Lemma beginupdate_step m pd g m' :
  wf m -> dircache_inv m -> pefs_dircache_beginupdate pd g m = Ok m' ->
  wf m' ∧ dircache_inv m'.
Proof.
  intros W I H.
  assert (∃ c, cache m pd = Some c) as (c & Hc).
  { unfold pefs_dircache_beginupdate in H. apply bind_Ok in H as (c & Hl & _).
    apply load_pd_Ok in Hl. eauto. }
  destruct (Z.eq_dec g 0) as [Hg0|Hg0].
  { rewrite (beginupdate_noop m pd c g Hc) in H by auto. injection H as <-. auto. }
  destruct (Z.eq_dec (pd_gen c) g) as [Hg|Hg].
  { rewrite (beginupdate_noop m pd c g Hc) in H by auto. injection H as <-. auto. }
  assert (INVARIANTS = false ∨ active c = [] ∨ stale c = []) as Hpre.
  { destruct INVARIANTS eqn:HI; [|by left]. right.
    destruct (active c) as [|a la] eqn:Ha; [by left|].
    destruct (stale c) as [|b lb] eqn:Hs; [by right|]. exfalso.
    unfold pefs_dircache_beginupdate in H.
    pose proof Hc as Hl. apply load_pd_Ok in Hl. rewrite Hl, ret_bind in H.
    apply Z.eqb_neq in Hg0, Hg. rewrite Hg0, Hg, Ha, Hs in H.
    unfold MPASS in H. rewrite HI in H. discriminate H. }
  destruct (beginupdate_spec m pd c g W Hc Hg0 Hg Hpre)
    as (m1 & c1 & Hrun & R & Hc1 & _ & Hu1 & _).
  rewrite H in Hrun. injection Hrun as <-.
  split; [eapply relinked_wf; eauto|].
  apply (inv_target m m' pd I (rl_frame _ _ _ R)).
  intros c' Hc'. rewrite Hc1 in Hc'. injection Hc' as <-. congruence.
Qed.

Lemma abortupdate_step m pd m' :
  wf m -> dircache_inv m -> pefs_dircache_abortupdate pd m = Ok m' ->
  wf m' ∧ dircache_inv m'.
Proof.
  intros W I H.
  assert (∃ c, cache m pd = Some c) as (c & Hc).
  { unfold pefs_dircache_abortupdate in H. apply bind_Ok in H as (c & Hl & _).
    apply load_pd_Ok in Hl. eauto. }
  destruct (updating c) eqn:Hu.
  - destruct (abortupdate_spec m pd c W Hc Hu) as (m1 & c1 & Hrun & R & Hc1 & _ & _ & Ha).
    rewrite H in Hrun. injection Hrun as <-.
    split; [eapply relinked_wf; eauto|].
    apply (inv_target m m' pd I (rl_frame _ _ _ R)).
    intros c' Hc' _. rewrite Hc1 in Hc'. injection Hc' as <-. by apply active_nil_heads.
  - unfold pefs_dircache_abortupdate in H.
    pose proof Hc as Hl. apply load_pd_Ok in Hl.
    rewrite Hl, ret_bind, Hu, ret_bind, Hl, ret_bind in H.
    apply bind_Ok in H as (u & _ & [= <-]). auto.
Qed.

Lemma endupdate_step m pd m' :
  wf m -> dircache_inv m -> pefs_dircache_endupdate pd m = Ok m' ->
  wf m' ∧ dircache_inv m'.
Proof.
  intros W I H.
  assert (∃ c, cache m pd = Some c) as (c & Hc).
  { unfold pefs_dircache_endupdate in H. apply bind_Ok in H as (c & Hl & _).
    apply load_pd_Ok in Hl. eauto. }
  destruct (updating c) eqn:Hu.
  - destruct (endupdate_spec m pd c W Hc Hu)
      as (m1 & m2 & S & c2 & Hrun & F & R & _ & W2 & Hc2 & _ & Hst & _).
    rewrite H in Hrun. injection Hrun as <-. split; [exact W2|].
    apply (inv_target m1 m' pd (freed_inv _ _ _ F I) (rl_frame _ _ _ R)).
    intros c' Hc' _. rewrite Hc2 in Hc'. injection Hc' as <-. by apply stale_nil_heads.
  - unfold pefs_dircache_endupdate in H.
    pose proof Hc as Hl. apply load_pd_Ok in Hl.
    rewrite Hl, ret_bind, Hu in H. cbn [negb] in H.
    apply bind_Ok in H as (u & _ & [= <-]). auto.
Qed.

Lemma purge_step m pd m' :
  wf m -> dircache_inv m -> pefs_dircache_purge pd m = Ok m' ->
  wf m' ∧ dircache_inv m' ∧
  (pd ≠ NULL -> ∃ c, cache m' pd = Some c ∧ pd_heads0 c = [] ∧ pd_heads1 c = []).
Proof.
  intros W I H. destruct (Z.eq_dec pd NULL) as [->|Hnn].
  { unfold pefs_dircache_purge in H. simpl in H. injection H as <-.
    split; [exact W|]. split; [exact I|]. congruence. }
  assert (∃ c, cache m pd = Some c) as (c & Hc).
  { unfold pefs_dircache_purge in H. apply Z.eqb_neq in Hnn. rewrite Hnn in H.
    apply bind_Ok in H as (m1 & H1 & _). unfold free_all in H1.
    apply bind_Ok in H1 as (c & Hl & _). apply load_pd_Ok in Hl. eauto. }
  destruct (purge_spec m pd c W Hc) as (m1 & S & Hrun & F & W1 & _ & Hc1 & H0 & H1).
  rewrite H in Hrun. injection Hrun as <-.
  split; [exact W1|]. split; [eapply freed_inv; eauto|]. eauto.
Qed.

Lemma cache_delete pd m pd' :
  cache (with_dircache_zone (delete pd (dircache_zone m)) m) pd'
  = if decide (pd = pd') then None else cache m pd'.
Proof. unfold cache. simpl. apply lookup_delete. Qed.

Lemma free_step m pd m' :
  wf m -> dircache_inv m -> pefs_dircache_free pd m = Ok m' ->
  wf m' ∧ dircache_inv m'.
Proof.
  intros W I H. unfold pefs_dircache_free in H.
  destruct (pd =? NULL) eqn:Hnn; [injection H as <-; auto|].
  apply Z.eqb_neq in Hnn.
  apply bind_Ok in H as (m1 & Hp & H). apply bind_Ok in H as (c1 & Hl & [= <-]).
  destruct (purge_step m pd m1 W I Hp) as (W1 & I1 & Hempty).
  destruct (Hempty Hnn) as (c & Hc & H0 & H1).
  split.
  - split; [split|].
    + rewrite cache_delete. destruct (decide _); [reflexivity|]. exact (wf_null_pd _ W1).
    + exact (wf_null_pde _ W1).
    + intros pd' c' p Hc' Hp'. rewrite cache_delete in Hc'.
      destruct (decide (pd = pd')); [discriminate|]. exact (wf_dir _ W1 _ _ _ Hc' Hp').
    + intros pd' c' Hc'. rewrite cache_delete in Hc'.
      destruct (decide (pd = pd')); [discriminate|].
      apply (pool_ok_frame m1); try reflexivity. exact (wf_pool _ W1 _ _ Hc').
    + exact (wf_hash _ W1).
    + exact (wf_enchash _ W1).
    + intros p e He. destruct (wf_live _ W1 p e He) as (c' & Hc' & Hd).
      exists c'. split; [|exact Hd]. rewrite cache_delete.
      destruct (decide (pd = pde_dircache e)) as [E|]; [|exact Hc'].
      rewrite <- E, Hc in Hc'. injection Hc' as <-.
      unfold on_dir in Hd. rewrite H0, H1 in Hd.
      destruct Hd as [Hd|Hd]; by apply elem_of_nil in Hd.
  - intros pd' c' Hc' Hu. rewrite cache_delete in Hc'.
    destruct (decide (pd = pd')); [discriminate|]. eauto.
Qed.

Lemma insert_pre m pd ptk name encname r :
  pefs_dircache_insert pd ptk name encname m = Ok r ->
  (∃ c, cache m pd = Some c) ∧
  (0 < length name < sizeof_pde_name)%nat ∧
  (0 < length encname < sizeof_pde_encname)%nat ∧
  (INVARIANTS = false ∨ ptk_key ptk ≠ NULL).
Proof.
  unfold pefs_dircache_insert. intros H. cbv zeta in H.
  apply bind_Ok in H as (u & Hk & H). apply MPASS_Ok in Hk.
  destruct (_ || _) eqn:Hlen in H; [discriminate|].
  rewrite !orb_false_iff, !Nat.eqb_neq, !Nat.leb_gt in Hlen.
  apply bind_Ok in H as (m3 & Hup & H).
  unfold dircache_update in Hup. apply bind_Ok in Hup as (e & Hle & Hup).
  apply load_pde_Ok in Hle. rewrite entry_store_pde, decide_True in Hle by reflexivity.
  injection Hle as <-. cbv zeta in Hup. simpl pde_dircache in Hup.
  apply bind_Ok in Hup as (c & Hl & _). apply load_pd_Ok in Hl.
  split; [exists c; exact Hl|]. split; [lia|]. split; [lia|].
  destruct Hk as [Hk|Hk]; [by left|right].
  apply negb_true_iff, Z.eqb_neq in Hk. exact Hk.
Qed.

Lemma insert_inv m pd c ptk name encname m' pde :
  wf m -> cache m pd = Some c ->
  pefs_dircache_insert pd ptk name encname m = Ok (m', pde) ->
  inserted m pd c ptk name encname m' pde.
Proof.
  intros W Hc H. destruct (insert_pre _ _ _ _ _ _ H) as (_ & Hn & He & Hk).
  destruct (insert_spec m pd c ptk name encname W Hc Hn He Hk) as (m1 & p1 & Hrun & Hins).
  rewrite H in Hrun. by injection Hrun as <- <-.
Qed.

Lemma insert_step m pd ptk name encname m' pde :
  wf m -> dircache_inv m ->
  pefs_dircache_insert pd ptk name encname m = Ok (m', pde) ->
  wf m' ∧ dircache_inv m'.
Proof.
  intros W I H. destruct (insert_pre _ _ _ _ _ _ H) as ((c & Hc) & _).
  destruct (insert_inv m pd c ptk name encname m' pde W Hc H)
    as [_ _ W' _ Hframe _ (c' & Hc' & Hupd & Hidle)].
  split; [exact W'|]. apply (inv_target m m' pd I Hframe).
  intros c2 Hc2 Hu2. rewrite Hc' in Hc2. injection Hc2 as <-.
  destruct (updating c) eqn:Hu.
  - rewrite (Hupd eq_refl), updating_set_pd_heads in Hu2. congruence.
  - destruct (Hidle eq_refl) as (_ & _ & Ha). by apply active_nil_heads.
Qed.

Lemma update_step m p m' :
  wf m -> dircache_inv m -> pefs_dircache_update p m = Ok m' ->
  wf m' ∧ dircache_inv m'.
Proof.
  intros W I H.
  assert (∃ e, entry m p = Some e) as (e & He).
  { unfold pefs_dircache_update, dircache_update in H.
    apply bind_Ok in H as (e & Hl & _). apply load_pde_Ok in Hl. eauto. }
  destruct (wf_live _ W _ _ He) as (c & Hc & _).
  destruct (update_spec m p e c W He Hc) as (m1 & Hrun & R & Hupd & Hidle).
  rewrite H in Hrun. injection Hrun as <-.
  split; [eapply relinked_wf; eauto|].
  apply (inv_target m m' _ I (rl_frame _ _ _ R)).
  intros c' Hc' Hu'. destruct (updating c) eqn:Hu.
  - destruct (Hupd eq_refl) as (c2 & Hc2 & _ & Hf & _).
    rewrite Hc' in Hc2. injection Hc2 as <-.
    rewrite (updating_flags _ _ Hf) in Hu'. congruence.
  - destruct (Hidle eq_refl) as [->|(c2 & Hc2 & _ & Ha)]; [eauto|].
    rewrite Hc' in Hc2. injection Hc2 as <-. by apply active_nil_heads.
Qed.

Lemma create_step m pdp :
  wf m -> dircache_inv m -> pool_ok m pdp ->
  wf (pefs_dircache_create pdp m).1 ∧ dircache_inv (pefs_dircache_create pdp m).1.
Proof.
  intros W I Hpool.
  destruct (create_spec m pdp W Hpool) as (_ & _ & W' & Hc & Hframe & _).
  split; [exact W'|]. apply (inv_target m _ _ I Hframe).
  intros c' Hc' _. rewrite Hc in Hc'. injection Hc' as <-. by left.
Qed.

(** Every operation that returns keeps the links consistent and the
    assertion [DIRCACHE_ASSERT] true of the caches that are not updating. *)
Lemma run_op_step o m m' :
  wf m -> dircache_inv m -> op_pre o m -> run_op o m = Ok m' ->
  wf m' ∧ dircache_inv m'.
Proof.
  intros W I Hpre H. destruct o; simpl in H.
  - injection H as <-. by apply create_step.
  - destruct (purge_step _ _ _ W I H) as (? & ? & _). auto.
  - eapply free_step; eauto.
  - apply bind_Ok in H as ([m1 pde] & Hins & [= <-]). eapply insert_step; eauto.
  - apply bind_Ok in H as (r & _ & [= <-]). auto.
  - apply bind_Ok in H as (r & _ & [= <-]). auto.
  - eapply update_step; eauto.
  - eapply beginupdate_step; eauto.
  - eapply abortupdate_step; eauto.
  - eapply endupdate_step; eauto.
Qed.

Lemma run_ops_steps os :
  ∀ m m', wf m -> dircache_inv m -> ops_pre os m -> run_ops os m = Ok m' ->
          wf m' ∧ dircache_inv m'.
Proof.
  induction os as [|o os IH]; intros m m' W I Hpre H; simpl in H.
  - injection H as <-. auto.
  - apply bind_Ok in H as (m1 & H1 & H). destruct Hpre as [Hpre Hrest].
    destruct (run_op_step o m m1 W I Hpre H1) as [W1 I1]. eauto.
Qed.

End Steps.

Section Init.
Context {P : Platform}.
Implicit Types (m : kmem).

Lemma flsl_range b : 0 <= b < 2 ^ 63 -> 0 <= flsl b <= 63.
Proof.
  intros Hb. unfold flsl. destruct (b =? 0) eqn:E; [lia|].
  apply Z.eqb_neq in E. pose proof (Z.log2_nonneg b).
  assert (Z.log2 b < 63) by (apply Z.log2_lt_pow2; lia). lia.
Qed.

Lemma flsl_above b : 0 <= b -> b < 2 ^ flsl b.
Proof.
  intros Hb. unfold flsl. destruct (b =? 0) eqn:E.
  - apply Z.eqb_eq in E. subst. reflexivity.
  - apply Z.eqb_neq in E. assert (0 < b) as Hpos by lia.
    pose proof (Z.log2_spec b Hpos). replace (Z.log2 b + 1) with (Z.succ (Z.log2 b)) by lia.
    lia.
Qed.

Lemma flsl_below b : 0 < b -> 2 ^ flsl b <= 2 * b.
Proof.
  intros Hb. unfold flsl. assert ((b =? 0) = false) as -> by (apply Z.eqb_neq; lia).
  pose proof (Z.log2_spec b Hb) as [Hlo _]. pose proof (Z.log2_nonneg b).
  rewrite Z.pow_add_r, Z.pow_1_r by lia. lia.
Qed.

Lemma pow2_u_long k : 0 <= k <= 63 -> 0 < 2 ^ k < 2 ^ 64.
Proof.
  intros Hk. split; [apply Z.pow_pos_nonneg; lia|].
  apply Z.pow_lt_mono_r; lia.
Qed.

(** The mask and the table size that [pefs_dircache_init] computes. *)
Lemma hashmask_spec b :
  0 <= b < 2 ^ 63 ->
  u_long (u_long (Z.shiftl 1 (flsl b)) - 1) = Z.ones (flsl b) ∧
  u_long (u_long (u_long (Z.shiftl 1 (flsl b)) - 1) + 1) = 2 ^ flsl b.
Proof.
  intros Hb. pose proof (flsl_range b Hb) as Hk. pose proof (pow2_u_long _ Hk) as Hp.
  unfold u_long. rewrite Z.shiftl_1_l, Z.ones_equiv.
  rewrite (Z.mod_small (2 ^ flsl b)) by lia.
  rewrite (Z.mod_small (2 ^ flsl b - 1)) by lia.
  split; [lia|]. rewrite Z.mod_small by lia. lia.
Qed.

Lemma tbl_ok_replicate m k :
  0 <= k -> dircache_hashmask m = Z.ones k ->
  tbl_ok m (Some (replicate (Z.to_nat (2 ^ k)) [])).
Proof.
  intros Hk Hm. eexists. split; [reflexivity|]. intros h.
  rewrite length_replicate. unfold DIRCACHE_TBL. rewrite Hm, Z.land_ones by exact Hk.
  pose proof (Z.mod_pos_bound h (2 ^ k)) as Hb.
  assert (0 < 2 ^ k) by (apply Z.pow_pos_nonneg; lia). lia.
Qed.

Lemma in_tbl_replicate n p : ¬ in_tbl (Some (replicate n [])) p.
Proof.
  intros (tt & b & [= <-] & Hb & Hp).
  apply elem_of_replicate in Hb as [-> _]. by apply elem_of_nil in Hp.
Qed.

(** A byte count that does not wrap gives room for the whole table, and
    one that wraps does not. *)
Lemma malloc_room_fits n :
  0 <= n -> n * sizeof_listhead < 2 ^ 64 -> malloc_room n = n.
Proof.
  intros Hn Hfit. pose proof sizeof_listhead_pos as Hs. unfold malloc_room, u_long.
  rewrite Z.mod_small by nia. apply Z.div_mul. lia.
Qed.

Lemma malloc_room_wraps n :
  0 <= n -> 2 ^ 64 <= n * sizeof_listhead -> malloc_room n < n.
Proof.
  intros Hn Hwrap. pose proof sizeof_listhead_pos as Hs. unfold malloc_room, u_long.
  apply Z.div_lt_upper_bound; [exact Hs|].
  pose proof (Z.mod_pos_bound (n * sizeof_listhead) (2 ^ 64) ltac:(lia)). lia.
Qed.

Lemma tbl_size_nonneg m : 0 <= tbl_size m.
Proof. unfold tbl_size, u_long. apply Z.mod_pos_bound. lia. Qed.

Lemma pool_init_Ok pdp m :
  tbl_size m * sizeof_listhead < 2 ^ 64 ->
  pefs_dircache_pool_init pdp m
  = Ok (store_pool pdp {| pdp_tbl := Some (replicate (Z.to_nat (tbl_size m)) []);
                          pdp_enctbl := Some (replicate (Z.to_nat (tbl_size m)) []) |} m).
Proof.
  intros Hfit. unfold pefs_dircache_pool_init. cbv zeta.
  rewrite (malloc_room_fits _ (tbl_size_nonneg m) Hfit), Z.ltb_irrefl. reflexivity.
Qed.

Lemma pool_init_Fault pdp m :
  2 ^ 64 <= tbl_size m * sizeof_listhead -> pefs_dircache_pool_init pdp m = Err Fault.
Proof.
  intros Hwrap. unfold pefs_dircache_pool_init. cbv zeta.
  pose proof (malloc_room_wraps _ (tbl_size_nonneg m) Hwrap) as Hlt.
  apply Z.ltb_lt in Hlt. by rewrite Hlt.
Qed.

Lemma pool_init_inv pdp m m1 :
  pefs_dircache_pool_init pdp m = Ok m1 ->
  tbl_size m * sizeof_listhead < 2 ^ 64 ∧
  m1 = store_pool pdp {| pdp_tbl := Some (replicate (Z.to_nat (tbl_size m)) []);
                         pdp_enctbl := Some (replicate (Z.to_nat (tbl_size m)) []) |} m.
Proof.
  intros H. destruct (Z.lt_ge_cases (tbl_size m * sizeof_listhead) (2 ^ 64)) as [Hfit|Hwrap].
  - rewrite (pool_init_Ok pdp m Hfit) in H. injection H as <-. auto.
  - rewrite (pool_init_Fault pdp m Hwrap) in H. discriminate.
Qed.

(** What [pefs_dircache_init] leaves when it returns. *)
Lemma init_inv tb tg dv global k m :
  pefs_dircache_init tb tg dv global (boot k) = Ok m ->
  let b := buckets_used (default 0 tb) dv in
  flsl b < 64 ∧
  dircache_zone m = ∅ ∧ dircache_entry_zone m = ∅ ∧ dircache_entries m = 0 ∧
  dircache_buckets m = b ∧
  dircache_hashmask m = u_long (u_long (Z.shiftl 1 (flsl b)) - 1) ∧
  dircache_global_enable m = (if default 1 tg =? 0 then 0 else 1) ∧
  pools m = (if default 1 tg =? 0 then ∅
             else {[ global := {| pdp_tbl := Some (replicate (Z.to_nat (tbl_size m)) []);
                                  pdp_enctbl := Some (replicate (Z.to_nat (tbl_size m)) []) |} ]}) ∧
  (default 1 tg ≠ 0 -> tbl_size m * sizeof_listhead < 2 ^ 64).
Proof.
  intros H b. unfold pefs_dircache_init in H. cbv zeta in H.
  change (dircache_global_enable (boot k)) with 1 in H.
  change (dircache_buckets (boot k)) with 0 in H. fold b in H.
  destruct (Z.leb_spec 64 (flsl b)) as [|Hlt]; [discriminate|].
  split; [exact Hlt|]. destruct (default 1 tg =? 0) eqn:Hg; simpl in H.
  - injection H as <-. do 7 (split; [reflexivity|]).
    intros Hne. apply Z.eqb_eq in Hg. contradiction.
  - apply pool_init_inv in H as [Hfit ->].
    do 7 (split; [reflexivity|]). intros _. exact Hfit.
Qed.

(** [pefs_dircache_init] returns when the shift is defined and, with
    the global pool enabled, the byte count of a table does not wrap. *)
Lemma init_Ok tb tg dv global k :
  let b := buckets_used (default 0 tb) dv in
  0 <= b < 2 ^ 63 ->
  default 1 tg = 0 ∨ 2 ^ flsl b * sizeof_listhead < 2 ^ 64 ->
  ∃ m, pefs_dircache_init tb tg dv global (boot k) = Ok m ∧ tbl_size m = 2 ^ flsl b ∧
       dircache_hashmask m = Z.ones (flsl b).
Proof.
  intros b Hb Hfit. destruct (hashmask_spec b Hb) as [Hmask Hsize].
  pose proof (flsl_range b Hb) as Hk.
  unfold pefs_dircache_init. cbv zeta.
  change (dircache_global_enable (boot k)) with 1.
  change (dircache_buckets (boot k)) with 0. fold b.
  destruct (Z.leb_spec 64 (flsl b)) as [|_]; [lia|].
  destruct (default 1 tg =? 0) eqn:Hg; simpl.
  - eexists. split; [reflexivity|]. split; [exact Hsize|exact Hmask].
  - apply Z.eqb_neq in Hg. destruct Hfit as [?|Hfit]; [contradiction|].
    rewrite pool_init_Ok; [|unfold tbl_size; simpl; rewrite Hsize; exact Hfit].
    eexists. split; [reflexivity|]. split; [exact Hsize|exact Hmask].
Qed.

(** After [pefs_dircache_init] the store is consistent, with no cache and
    no entry. *)
Lemma init_wf tb tg dv global k m :
  pefs_dircache_init tb tg dv global (boot k) = Ok m ->
  wf m ∧ dircache_inv m.
Proof.
  intros H. destruct (init_inv _ _ _ _ _ _ H) as (_ & Hz & Hez & _ & _ & _ & _ & Hpools & _).
  assert (∀ pdp pool p, pools m !! pdp = Some pool ->
                        ¬ in_tbl (pdp_tbl pool) p ∧ ¬ in_tbl (pdp_enctbl pool) p) as Hp.
  { intros pdp pool p. rewrite Hpools. destruct (default 1 tg =? 0).
    - by rewrite lookup_empty.
    - intros Hx. apply lookup_singleton_Some in Hx as [_ <-]. simpl.
      split; apply in_tbl_replicate. }
  assert (∀ pd, cache m pd = None) as Hc.
  { intros pd. unfold cache. by rewrite Hz, lookup_empty. }
  assert (∀ p, entry m p = None) as He.
  { intros p. unfold entry. by rewrite Hez, lookup_empty. }
  split; [split; [split|]|].
  - apply Hc.
  - apply He.
  - intros pd c p Hcp. rewrite Hc in Hcp. discriminate.
  - intros pd c Hcp. rewrite Hc in Hcp. discriminate.
  - intros pdp pool p Hpool Hin. by destruct (Hp pdp pool p Hpool) as [H0 _].
  - intros pdp pool p Hpool Hin. by destruct (Hp pdp pool p Hpool) as [_ H0].
  - intros p e Hep. rewrite He in Hep. discriminate.
  - intros pd c Hcp. rewrite Hc in Hcp. discriminate.
Qed.

(** With the global pool enabled, [pefs_dircache_init] leaves it ready
    for [pefs_dircache_create]. *)
Lemma init_pool_ok tb tg dv global k m :
  let b := buckets_used (default 0 tb) dv in
  0 <= b < 2 ^ 63 -> default 1 tg ≠ 0 ->
  pefs_dircache_init tb tg dv global (boot k) = Ok m ->
  pool_ok m global.
Proof.
  intros b Hb Hg H. destruct (hashmask_spec b Hb) as [Hmask Hsize].
  destruct (init_inv _ _ _ _ _ _ H) as (_ & _ & _ & _ & _ & Hm & _ & Hpools & _).
  fold b in Hm. rewrite Hmask in Hm.
  assert (tbl_size m = 2 ^ flsl b) as Hts by (unfold tbl_size; rewrite Hm, <- Hmask; exact Hsize).
  apply Z.eqb_neq in Hg. rewrite Hg, Hts in Hpools.
  eexists. split; [rewrite Hpools; apply lookup_singleton_eq|]. simpl.
  pose proof (flsl_range b Hb).
  split; apply tbl_ok_replicate; try lia; exact Hm.
Qed.

End Init.

(** * The claims *)

Section Claims.
Context {P : Platform}.
Implicit Types (m : kmem) (c : pefs_dircache) (e : pefs_dircache_entry).

Lemma not_on_dir_nil c :
  pd_heads0 c = [] -> pd_heads1 c = [] -> ∀ q, ¬ on_dir c q.
Proof.
  intros H0 H1 q [H|H]; [rewrite H0 in H|rewrite H1 in H]; by apply elem_of_nil in H.
Qed.

Lemma no_on_dir_lists c : (∀ q, ¬ on_dir c q) -> active c = [] ∧ stale c = [].
Proof.
  intros H. split; apply no_elem_nil; intros x Hx; apply (H x);
    apply on_dir_active_stale; auto.
Qed.

(** C1: in a consistent store, for every directory cache with no entry,
    every non-zero generation [g1] other than the current one and every
    pair of names within the length limits, [beginupdate], [insert] and
    [endupdate] all return, and the plaintext lookup of the name then
    returns the inserted entry, which holds the encrypted name. *)
Theorem insert_commit_lookup m pd c ptk name encname g1 :
  wf m -> cache m pd = Some c -> pd_heads0 c = [] -> pd_heads1 c = [] ->
  g1 ≠ 0 -> g1 ≠ pd_gen c ->
  (0 < length name < sizeof_pde_name)%nat ->
  (0 < length encname < sizeof_pde_encname)%nat ->
  INVARIANTS = false ∨ ptk_key ptk ≠ NULL ->
  ∃ m1 m2 pde m3 e,
    pefs_dircache_beginupdate pd g1 m = Ok m1 ∧
    pefs_dircache_insert pd ptk name encname m1 = Ok (m2, pde) ∧
    pefs_dircache_endupdate pd m2 = Ok m3 ∧
    pefs_dircache_lookup pd name m3 = Ok pde ∧ pde ≠ NULL ∧
    entry m3 pde = Some e ∧ entry_name e = name ∧ entry_encname e = encname.
Proof.
  intros W Hc H0 H1 Hg0 Hg Hn He Hk.
  pose proof (not_on_dir_nil c H0 H1) as Hnone.
  destruct (no_on_dir_lists c Hnone) as [Hac Hsc].
  (* beginupdate *)
  destruct (beginupdate_spec m pd c g1 W Hc Hg0 (not_eq_sym Hg) (or_intror (or_introl Hac)))
    as (m1 & c1 & Hbegin & R1 & Hc1 & Hg1 & Hu1 & Ha1).
  pose proof (relinked_wf _ _ _ W R1) as W1.
  destruct (relinked_cache _ _ _ _ _ R1 Hc) as (c1' & Hc1' & _ & Hd1).
  rewrite Hc1 in Hc1'. injection Hc1' as <-.
  assert (stale c1 = []) as Hs1.
  { apply no_elem_nil. intros x Hx. apply (Hnone x), Hd1, on_dir_active_stale. auto. }
  (* insert *)
  destruct (insert_spec m1 pd c1 ptk name encname W1 Hc1 Hn He Hk)
    as (m2 & pde & Hins & [Hnn Hfresh W2 _ _ (e & Hcached & Hname & Hencname & _ & _ & _ & Hupd & _)
                              (c2 & Hc2 & Hupd2 & _)]).
  destruct (Hupd Hu1) as (Hge & _). specialize (Hupd2 Hu1).
  assert (updating c2 = true) as Hu2.
  { rewrite Hupd2, updating_set_pd_heads. exact Hu1. }
  assert (stale c2 = [] ∧ active c2 = [pde]) as [Hs2 Ha2].
  { rewrite Hupd2, stale_set_active, active_set_active, Ha1. auto. }
  (* endupdate *)
  destruct (endupdate_spec m2 pd c2 W2 Hc2 Hu2)
    as (m2' & m3 & S & c3 & Hend & F & R3 & HS & W3 & Hc3 & Hu3 & Hs3 & Ha3 & Hg3 & Hez).
  assert (∀ x, x ∉ S) as HSnone.
  { intros x Hx. apply HS in Hx. rewrite Hs2 in Hx. by apply elem_of_nil in Hx. }
  pose proof (cached_freed S m2 m2' pd pde e F (HSnone pde) Hcached) as Hcached'.
  destruct (cached_relinked pd m2' m3 pd pde e R3 Hcached') as (g & Hcached3).
  assert (entry m3 pde = Some e) as He3.
  { unfold entry. rewrite Hez. fold (entry m2' pde).
    rewrite (fr_entry _ _ _ F), decide_False by apply HSnone.
    exact (cached_entry _ _ _ _ Hcached). }
  pose proof (cached_entry _ _ _ _ Hcached3) as He3'. rewrite He3 in He3'.
  injection He3' as He3'. rewrite <- He3' in Hcached3.
  (* lookup *)
  destruct (lookup_hit m3 pd c3 pde e W3 Hc3 (or_intror (conj Hu3 Hs3)) Hcached3)
    as (p' & e' & Hlook & _ & _ & _ & _ & _ & Huniq).
  { rewrite Hg3, Hupd2, pd_gen_set_pd_heads. exact Hge. }
  rewrite Hname in Hlook.
  assert (p' = pde) as ->.
  { apply Huniq. intros q e2 Hq Ho _ _.
    destruct (wf_live _ W3 q e2 Hq) as (c4 & Hc4 & Hd).
    rewrite Ho, Hc3 in Hc4. injection Hc4 as <-.
    apply on_dir_active_stale in Hd. rewrite Hs3, Ha3, Ha2 in Hd.
    destruct Hd as [Hd|Hd]; [|by apply elem_of_nil in Hd].
    apply elem_of_drop in Hd as [Hd _]. by apply list_elem_of_singleton in Hd. }
  exists m1, m2, pde, m3, e. auto 10.
Qed.

(** C6: a second [beginupdate] with the same generation right after a
    first one that returned is a no-op: it returns the store unchanged, so
    no expiry runs and the generation and the lists stay as they are. *)
Theorem beginupdate_idempotent m pd g m1 :
  pefs_dircache_beginupdate pd g m = Ok m1 ->
  pefs_dircache_beginupdate pd g m1 = Ok m1.
Proof.
  intros H. pose proof H as H'. unfold pefs_dircache_beginupdate in H.
  apply bind_Ok in H as (c & Hl & H). apply load_pd_Ok in Hl.
  destruct (negb (g =? 0) && negb (pd_gen c =? g)) eqn:Hcond.
  - apply bind_Ok in H as (mx & _ & H). apply bind_Ok in H as (cx & _ & H).
    cbv zeta in H. apply bind_Ok in H as (u & _ & [= <-]).
    eapply beginupdate_noop.
    + rewrite cache_store_pd. by rewrite decide_True.
    + right. reflexivity.
  - injection H as <-. apply (beginupdate_noop m pd c g Hl).
    apply andb_false_iff in Hcond as [Hc|Hc]; apply negb_false_iff, Z.eqb_eq in Hc; auto.
Qed.

(** C10: [abortupdate] on an open pass returns with the generation of
    the cache 0 and the pass closed; a [beginupdate] with any non-zero
    generation after it, the one of the aborted pass included, is not a
    no-op: it sets the generation and opens a pass. *)
Theorem abortupdate_resets_generation m pd c :
  wf m -> cache m pd = Some c -> updating c = true ->
  ∃ m1 c1,
    pefs_dircache_abortupdate pd m = Ok m1 ∧
    cache m1 pd = Some c1 ∧ pd_gen c1 = 0 ∧ updating c1 = false ∧
    ∀ g, g ≠ 0 ->
      ∃ m2 c2, pefs_dircache_beginupdate pd g m1 = Ok m2 ∧ m2 ≠ m1 ∧
               cache m2 pd = Some c2 ∧ pd_gen c2 = g ∧ updating c2 = true.
Proof.
  intros W Hc Hu.
  destruct (abortupdate_spec m pd c W Hc Hu) as (m1 & c1 & Habort & R & Hc1 & Hg1 & Hu1 & Ha1).
  exists m1, c1. split; [exact Habort|]. split; [exact Hc1|].
  split; [exact Hg1|]. split; [exact Hu1|]. intros g Hg.
  pose proof (relinked_wf0 _ _ _ W R) as W1.
  destruct (beginupdate_spec m1 pd c1 g W1 Hc1 Hg) as (m2 & c2 & Hbegin & _ & Hc2 & Hg2 & Hu2 & _).
  { rewrite Hg1. congruence. }
  { auto. }
  exists m2, c2. split; [exact Hbegin|]. split; [|auto].
  intros ->. rewrite Hc1 in Hc2. injection Hc2 as <-. congruence.
Qed.

(** C4: [abortupdate] on an open pass frees nothing: every entry is still
    allocated with the names it had, the buckets are untouched, every
    entry of the cache is on its stale list and the pass is closed; the
    [beginupdate] of a later pass still frees nothing, and the
    [endupdate] of that pass, when nothing was reconfirmed, frees them. *)
Theorem abortupdate_frees_nothing m pd c :
  wf m -> cache m pd = Some c -> updating c = true ->
  ∃ m1 c1,
    pefs_dircache_abortupdate pd m = Ok m1 ∧
    (∀ q e, entry m q = Some e ->
            ∃ e1, entry m1 q = Some e1 ∧ set_pde_gen 0 e1 = set_pde_gen 0 e) ∧
    pools m1 = pools m ∧
    cache m1 pd = Some c1 ∧ updating c1 = false ∧ active c1 = [] ∧
    (∀ q, on_dir c q ↔ q ∈ stale c1) ∧
    ∀ g, g ≠ 0 ->
      ∃ m2 m3, pefs_dircache_beginupdate pd g m1 = Ok m2 ∧
               (∀ q, on_dir c q -> is_Some (entry m2 q)) ∧
               pefs_dircache_endupdate pd m2 = Ok m3 ∧
               (∀ q, on_dir c q -> entry m3 q = None).
Proof.
  intros W Hc Hu.
  destruct (abortupdate_spec m pd c W Hc Hu) as (m1 & c1 & Habort & R & Hc1 & Hg1 & Hu1 & Ha1).
  destruct (relinked_cache _ _ _ _ _ R Hc) as (c1' & Hc1' & _ & Hd1).
  rewrite Hc1 in Hc1'. injection Hc1' as <-.
  pose proof (all_stale c c1 Hd1 Ha1) as Hst1.
  pose proof (relinked_wf _ _ _ W R) as W1.
  exists m1, c1. split; [exact Habort|].
  split; [intros q e; apply (relinked_entry _ _ _ _ _ R)|].
  split; [exact (rl_pools _ _ _ R)|]. split; [exact Hc1|].
  split; [exact Hu1|]. split; [exact Ha1|].
  split; [intros q; symmetry; apply Hst1|]. intros g Hg.
  destruct (beginupdate_spec m1 pd c1 g W1 Hc1 Hg) as (m2 & c2 & Hbegin & R2 & Hc2 & _ & Hu2 & Ha2).
  { rewrite Hg1. congruence. }
  { auto. }
  destruct (relinked_cache _ _ _ _ _ R2 Hc1) as (c2' & Hc2' & _ & Hd2).
  rewrite Hc2 in Hc2'. injection Hc2' as <-.
  pose proof (all_stale c1 c2 Hd2 Ha2) as Hst2.
  pose proof (relinked_wf _ _ _ W1 R2) as W2.
  destruct (endupdate_spec m2 pd c2 W2 Hc2 Hu2)
    as (m2' & m3 & S & c3 & Hend & F & _ & HS & _ & _ & _ & _ & _ & _ & Hez).
  exists m2, m3. split; [exact Hbegin|]. split; [|split; [exact Hend|]].
  - intros q Hq. apply Hd1, Hd2 in Hq.
    destruct (wf_dir _ W2 _ _ _ Hc2 Hq) as (e & He & _). eauto.
  - intros q Hq. unfold entry. rewrite Hez. fold (entry m2' q).
    rewrite (fr_entry _ _ _ F), decide_True; [reflexivity|].
    apply HS, Hst2, Hd1, Hq.
Qed.

(** C7: [purge] returns, leaves the cache allocated and consistent with
    both lists empty, and frees every entry that was on them: none is
    allocated or linked in a bucket of either table afterwards.  Every
    encrypted-name lookup on the cache then returns NULL, and so does
    every plaintext lookup (which, on a cache purged in the middle of a
    pass, trips its assertion first in an INVARIANTS kernel). *)
Theorem purge_frees_all m pd c :
  wf m -> cache m pd = Some c ->
  ∃ m1 c1,
    pefs_dircache_purge pd m = Ok m1 ∧ wf m1 ∧
    cache m1 pd = Some c1 ∧ pd_heads0 c1 = [] ∧ pd_heads1 c1 = [] ∧
    pd_gen c1 = pd_gen c ∧ pd_flags c1 = pd_flags c ∧ pd_pool c1 = pd_pool c ∧
    (∀ q, on_dir c q ->
          entry m1 q = None ∧
          ∀ pdp pool, pools m1 !! pdp = Some pool ->
                      ¬ in_tbl (pdp_tbl pool) q ∧ ¬ in_tbl (pdp_enctbl pool) q) ∧
    (∀ name, pefs_dircache_enclookup pd name m1 = Ok NULL) ∧
    (∀ name, pefs_dircache_lookup pd name m1
             = if INVARIANTS && updating c then Err Panic else Ok NULL).
Proof.
  intros W Hc.
  destruct (purge_spec m pd c W Hc) as (m1 & S & Hpurge & F & W1 & HS & Hc1 & H0 & H1).
  pose proof (not_on_dir_nil _ H0 H1) as Hnone.
  destruct (no_on_dir_lists _ Hnone) as [Ha1 Hs1].
  exists m1, (drop_dir S c). split; [exact Hpurge|]. split; [exact W1|].
  split; [exact Hc1|]. split; [exact H0|]. split; [exact H1|].
  split; [reflexivity|]. split; [reflexivity|]. split; [reflexivity|].
  split; [|split].
  - intros q Hq. apply HS in Hq. split.
    + rewrite (fr_entry _ _ _ F). by rewrite decide_True.
    + intros pdp pool' Hpool. rewrite (fr_pools _ _ _ F) in Hpool.
      destruct (pools m !! pdp) as [pool|]; [|discriminate]. injection Hpool as <-.
      simpl. split; intros Hin; apply in_tbl_drop in Hin as [_ Hin]; contradiction.
  - intros name. apply (enclookup_miss m1 pd _ name W1 Hc1).
    intros q e Hq. destruct (Hnone q Hq).
  - intros name. rewrite (lookup_miss m1 pd _ name W1 Hc1 Hs1); [reflexivity|].
    intros q e Hq. rewrite Ha1 in Hq. by apply elem_of_nil in Hq.
Qed.

(** C8: [insert] panics when the length of either name is 0 or is not
    below the size of its array; with both lengths in range (and a key,
    which an INVARIANTS kernel asserts) it returns, in a consistent
    store, a newly allocated entry that holds the two names. *)
Theorem insert_length_check :
  (∀ m pd ptk name encname,
     (length name = 0 ∨ sizeof_pde_name ≤ length name ∨
      length encname = 0 ∨ sizeof_pde_encname ≤ length encname)%nat ->
     pefs_dircache_insert pd ptk name encname m = Err Panic) ∧
  (∀ m pd c ptk name encname,
     wf m -> cache m pd = Some c ->
     (0 < length name < sizeof_pde_name)%nat ->
     (0 < length encname < sizeof_pde_encname)%nat ->
     INVARIANTS = false ∨ ptk_key ptk ≠ NULL ->
     ∃ m' pde e,
       pefs_dircache_insert pd ptk name encname m = Ok (m', pde) ∧
       pde ≠ NULL ∧ entry m pde = None ∧ entry m' pde = Some e ∧
       pde_dircache e = pd ∧ entry_name e = name ∧ entry_encname e = encname).
Proof.
  split.
  - intros m pd ptk name encname Hbad. unfold pefs_dircache_insert. cbv zeta.
    unfold MPASS. destruct (INVARIANTS && _); [reflexivity|]. rewrite ret_bind.
    assert ((length name =? 0)%nat || (sizeof_pde_name <=? length name)%nat
            || (length encname =? 0)%nat || (sizeof_pde_encname <=? length encname)%nat
            = true) as ->; [|reflexivity].
    rewrite !orb_true_iff, !Nat.eqb_eq, !Nat.leb_le. tauto.
  - intros m pd c ptk name encname W Hc Hn He Hk.
    destruct (insert_spec m pd c ptk name encname W Hc Hn He Hk)
      as (m' & pde & Hins & [Hnn Hfresh _ _ _ (e & Hcached & Hname & Henc & _) _]).
    exists m', pde, e. split; [exact Hins|]. split; [exact Hnn|]. split; [exact Hfresh|].
    split; [exact (cached_entry _ _ _ _ Hcached)|].
    split; [exact (cached_owner _ _ _ _ Hcached)|]. auto.
Qed.

Lemma inv_active_stale m :
  dircache_inv m ->
  ∀ pd c, cache m pd = Some c -> updating c = false -> active c = [] ∨ stale c = [].
Proof.
  intros I pd c Hc Hu. rewrite active_swapped, stale_swapped.
  destruct (I pd c Hc Hu) as [H|H]; unfold pd_heads in H; simpl in H;
    destruct (swapped c); auto.
Qed.

(** C5: in a consistent store where every cache that is not updating has
    at most one of its two lists non-empty, every operation that returns
    leaves a store where that is so again: whenever the UPDATING flag of
    a cache is clear, its active list or its stale list is empty. *)
Theorem dircache_assert_preserved o m m' :
  wf m -> dircache_inv m -> run_op o m = Ok m' ->
  dircache_inv m' ∧
  ∀ pd c, cache m' pd = Some c -> updating c = false -> active c = [] ∨ stale c = [].
Proof.
  intros W I H.
  assert (dircache_inv m') as I'.
  { destruct o;
      try (match type of H with
           | run_op ?o _ = _ => exact (proj2 (run_op_step o m m' W I Logic.I H))
           end).
    simpl in H. injection H as <-. unfold pefs_dircache_create. simpl.
    apply (inv_target m _ (uma_zalloc (dircache_zone m)) I).
    - intros pd' Hne. rewrite cache_store_pd. by rewrite decide_False.
    - intros c'. rewrite cache_store_pd, decide_True by reflexivity.
      intros [= <-] _. left. reflexivity. }
  split; [exact I'|]. by apply inv_active_stale.
Qed.

Lemma same_id_name e e' :
  set_pde_gen 0 e' = set_pde_gen 0 e -> entry_name e' = entry_name e.
Proof. intros H. apply same_id_eq in H. rewrite H. reflexivity. Qed.

Lemma pass_step_inv pd name p0 m m' :
  pass_inv pd name p0 m -> pass_step pd name m m' -> pass_inv pd name p0 m'.
Proof.
  intros (W & c & e0 & Hc & Hu & Hp0 & He0 & Hn0 & Hact) Hstep.
  destruct Hstep as [ptk name' encname m' pde Hne Hins | pde e m' He Ho Hne Hupd].
  - destruct (insert_inv m pd c ptk name' encname m' pde W Hc Hins)
      as [_ Hfresh W' _ _ (e & Hcached & Hname & _ & _ & _ & _ & Hupd & _)
            (c' & Hc' & Hupd' & _)].
    destruct (Hupd Hu) as (_ & Hez). specialize (Hupd' Hu).
    assert (∀ q, entry m' q = if decide (pde = q) then Some e else entry m q) as Hent.
    { intros q. unfold entry. rewrite Hez. destruct (decide (pde = q)) as [<-|Hq].
      - by rewrite lookup_insert_eq.
      - by rewrite lookup_insert_ne. }
    split; [exact W'|]. exists c', e0. split; [exact Hc'|].
    split; [rewrite Hupd', updating_set_pd_heads; exact Hu|].
    split; [rewrite Hupd', stale_set_active; exact Hp0|].
    split; [rewrite Hent, decide_False; [exact He0|]; intros ->; congruence|].
    split; [exact Hn0|].
    intros q e2 Hq He2. rewrite Hent in He2.
    destruct (decide (pde = q)) as [<-|Hq'].
    + injection He2 as <-. congruence.
    + rewrite Hupd', active_set_active in Hq.
      apply elem_of_cons in Hq as [->|Hq]; [congruence|]. eauto.
  - rewrite <- Ho in Hc.
    destruct (update_spec m pde e c W He Hc) as (m1 & Hrun & R & Hupd' & _).
    rewrite Hupd in Hrun. injection Hrun as <-.
    destruct (Hupd' Hu) as (c' & Hc' & _ & Hf & Ha' & Hs' & Hez).
    assert (p0 ≠ pde) as Hp0ne by (intros ->; congruence).
    assert (∀ q, entry m' q = if decide (pde = q) then Some (set_pde_gen (pd_gen c) e)
                              else entry m q) as Hent.
    { intros q. unfold entry. rewrite Hez. destruct (decide (pde = q)) as [<-|Hq].
      - by rewrite lookup_insert_eq.
      - by rewrite lookup_insert_ne. }
    split; [eapply relinked_wf; eauto|]. exists c', e0.
    rewrite Ho in Hc'. split; [exact Hc'|].
    split; [rewrite (updating_flags _ _ Hf); exact Hu|].
    split; [rewrite Hs'; apply elem_of_drop; split; [exact Hp0|];
            by rewrite list_elem_of_singleton|].
    split; [rewrite Hent, decide_False by congruence; exact He0|].
    split; [exact Hn0|].
    intros q e2 Hq He2. rewrite Hent in He2.
    destruct (decide (pde = q)) as [<-|Hq'].
    + injection He2 as <-. exact Hne.
    + rewrite Ha' in Hq. apply elem_of_cons in Hq as [->|Hq]; [congruence|].
      apply elem_of_drop in Hq as [Hq _]. eauto.
Qed.

Lemma pass_steps_inv pd name p0 m m' :
  pass_inv pd name p0 m -> pass_steps pd name m m' -> pass_inv pd name p0 m'.
Proof.
  intros Hinv Hsteps. induction Hsteps as [|m m1 m2 Hstep _ IH]; [exact Hinv|].
  apply IH. eapply pass_step_inv; eauto.
Qed.

(** C2: in a consistent store, for a cache that is not updating, has an
    empty stale list and holds an entry for a name, and for a generation
    [g2] that runs a second pass, that is, one that is not the current
    generation and that [beginupdate] opens a pass for (it is not 0):
    [beginupdate] returns, and after any steps of the pass that neither
    insert nor reconfirm that name, [endupdate] returns, the entry is
    freed, and the plaintext lookup of the name returns NULL. *)
Theorem eviction_on_non_reconfirmation m pd c p0 e0 name g2 :
  wf m -> cache m pd = Some c -> updating c = false -> stale c = [] ->
  p0 ∈ active c -> entry m p0 = Some e0 -> entry_name e0 = name ->
  g2 ≠ 0 -> g2 ≠ pd_gen c ->
  ∃ m1, pefs_dircache_beginupdate pd g2 m = Ok m1 ∧
        ∀ m2, pass_steps pd name m1 m2 ->
              ∃ m3, pefs_dircache_endupdate pd m2 = Ok m3 ∧
                    entry m3 p0 = None ∧
                    pefs_dircache_lookup pd name m3 = Ok NULL.
Proof.
  intros W Hc Hu Hs Hp0 He0 Hn0 Hg0 Hg.
  destruct (beginupdate_spec m pd c g2 W Hc Hg0 (not_eq_sym Hg) (or_intror (or_intror Hs)))
    as (m1 & c1 & Hbegin & R1 & Hc1 & _ & Hu1 & Ha1).
  exists m1. split; [exact Hbegin|]. intros m2 Hsteps.
  assert (pass_inv pd name p0 m1) as Hinv1.
  { split; [eapply relinked_wf; eauto|].
    destruct (relinked_cache _ _ _ _ _ R1 Hc) as (c1' & Hc1' & _ & Hd1).
    rewrite Hc1 in Hc1'. injection Hc1' as <-.
    destruct (relinked_entry _ _ _ _ _ R1 He0) as (e1 & He1 & Hid).
    exists c1, e1. split; [exact Hc1|]. split; [exact Hu1|].
    split; [apply (all_stale c c1 Hd1 Ha1), on_dir_active_stale; auto|].
    split; [exact He1|]. split; [rewrite <- Hn0; by apply same_id_name|].
    intros q e Hq. rewrite Ha1 in Hq. by apply elem_of_nil in Hq. }
  destruct (pass_steps_inv pd name p0 m1 m2 Hinv1 Hsteps)
    as (W2 & c2 & e2 & Hc2 & Hu2 & Hp2 & He2 & Hn2 & Hact2).
  destruct (endupdate_spec m2 pd c2 W2 Hc2 Hu2)
    as (m2' & m3 & S & c3 & Hend & F & _ & HS & W3 & Hc3 & Hu3 & Hs3 & Ha3 & _ & Hez).
  assert (∀ q, entry m3 q = if decide (q ∈ S) then None else entry m2 q) as Hent.
  { intros q. unfold entry at 1. rewrite Hez. apply (fr_entry _ _ _ F). }
  exists m3. split; [exact Hend|]. split.
  - rewrite Hent, decide_True; [reflexivity|]. by apply HS.
  - rewrite (lookup_miss m3 pd c3 name W3 Hc3 Hs3).
    + by rewrite Hu3, andb_false_r.
    + intros q e Hq He _. rewrite Ha3 in Hq. apply elem_of_drop in Hq as [Hq HqS].
      rewrite Hent, decide_False in He by exact HqS. eauto.
Qed.

(** The loop returns the first element of the list that the test
    accepts. *)
Lemma find_first m hit l p0 e0 :
  (∀ p, p ∈ l -> is_Some (entry m p)) ->
  p0 ∈ l -> entry m p0 = Some e0 -> hit e0 = true ->
  ∃ pre p post e,
    l = pre ++ p :: post ∧ LIST_FOREACH_find m hit l = Ok p ∧
    entry m p = Some e ∧ hit e = true ∧
    ∀ q e2, q ∈ pre -> entry m q = Some e2 -> hit e2 = false.
Proof.
  induction l as [|q l IH]; intros Hlive Hin He0 Hh0.
  - by apply elem_of_nil in Hin.
  - simpl. destruct (Hlive q) as (e & He); [by left|].
    pose proof He as Hl. apply load_pde_Ok in Hl. rewrite Hl, ret_bind.
    destruct (hit e) eqn:Hh.
    + exists [], q, l, e. split; [reflexivity|]. split; [reflexivity|].
      split; [exact He|]. split; [exact Hh|]. intros x e2 Hx. by apply elem_of_nil in Hx.
    + apply elem_of_cons in Hin as [->|Hin]; [congruence|].
      destruct IH as (pre & p & post & e' & -> & Hrun & He' & Hh' & Hpre); auto.
      { intros x Hx. apply Hlive. by right. }
      exists (q :: pre), p, post, e'. split; [reflexivity|]. split; [exact Hrun|].
      split; [exact He'|]. split; [exact Hh'|].
      intros x e2 Hx Hx2. apply elem_of_cons in Hx as [->|Hx]; [congruence|]. eauto.
Qed.

(** C3, as amended: in a consistent store whose entries are as [insert]
    left them, for every entry of a cache, whatever the generation
    stamps and whether or not a pass is open, the encrypted-name lookup
    of the name the entry holds returns the first entry of that cache in
    the bucket that holds that encrypted name: no entry of the cache
    before it in the bucket holds the name, and it is the entry itself
    when no other entry of the cache holds the same encrypted name. *)
Theorem enclookup_ignores_generation m pd p e :
  wf m -> hashed m -> entry m p = Some e -> pde_dircache e = pd ->
  ∃ c pool b pre p' post e',
    cache m pd = Some c ∧ pools m !! pd_pool c = Some pool ∧
    bucket (pdp_enctbl pool) (DIRCACHE_TBL m (pde_encnamehash e)) = Ok b ∧
    p ∈ b ∧ b = pre ++ p' :: post ∧
    pefs_dircache_enclookup pd (entry_encname e) m = Ok p' ∧ p' ≠ NULL ∧
    entry m p' = Some e' ∧ pde_dircache e' = pd ∧
    entry_encname e' = entry_encname e ∧
    (∀ q e2, q ∈ pre -> entry m q = Some e2 -> pde_dircache e2 = pd ->
             entry_encname e2 ≠ entry_encname e) ∧
    ((∀ q e2, entry m q = Some e2 -> pde_dircache e2 = pd ->
              entry_encname e2 = entry_encname e -> q = p) ->
     p' = p).
Proof.
  intros W Hh He Ho. pose proof (Hh p e He) as Hcached. rewrite Ho in Hcached.
  destruct Hcached as [_ _ _ Hhe [_ Hfit] _ (c & pool & b & Hc & Hpool & Hb & Hin)].
  assert (∀ e2, pde_dircache e2 = pd ->
                pde_encnamehash e2
                = dircache_hashname pd (pde_encname e2) (pde_encnamelen e2) ->
                (pde_encnamelen e2 ≤ length (pde_encname e2))%nat ->
                entry_encname e2 = entry_encname e ->
                pde_encnamehash e2 = pde_encnamehash e ∧
                pde_encnamelen e2 = length (entry_encname e)) as Hsame.
  { intros e2 Ho2 Hh2 Hfit2 Hname.
    assert (length (entry_encname e2) = pde_encnamelen e2) as Hl2.
    { unfold entry_encname. rewrite length_take. lia. }
    assert (length (entry_encname e) = pde_encnamelen e) as Hl.
    { unfold entry_encname. rewrite length_take. lia. }
    split; [|congruence].
    rewrite Hh2, Hhe, <- (hashname_take pd (pde_encname e2)),
      <- (hashname_take pd (pde_encname e)).
    fold (entry_encname e2). fold (entry_encname e). rewrite Hname. congruence. }
  destruct (Hsame e Ho Hhe Hfit eq_refl) as [_ Hlen].
  assert (dircache_hashname pd (entry_encname e) (length (entry_encname e))
          = pde_encnamehash e) as Hhash.
  { rewrite <- Hlen, Hhe. unfold entry_encname. apply hashname_take. }
  unfold pefs_dircache_enclookup. cbv zeta.
  pose proof Hc as Hl. apply load_pd_Ok in Hl. rewrite Hl, ret_bind.
  pose proof Hpool as Hlp. apply load_pool_Ok in Hlp. rewrite Hlp, ret_bind.
  rewrite Hhash, Hb, ret_bind.
  match goal with |- context [LIST_FOREACH_find m ?h b] => set (hit := h) end.
  destruct (find_first m hit b p e) as (pre & p' & post & e' & Heq & Hrun & He' & Hhit & Hpre);
    auto.
  { intros q Hq. eapply (wf_enchash _ W); eauto using bucket_in_tbl. }
  { unfold hit. apply encname_hit. auto. }
  exists c, pool, b, pre, p', post, e'.
  unfold hit in Hhit. apply encname_hit in Hhit as (_ & Ho' & _ & Hname').
  split; [exact Hc|]. split; [exact Hpool|]. split; [exact Hb|]. split; [exact Hin|].
  split; [exact Heq|]. split; [exact Hrun|].
  split. { intros ->. rewrite (wf_null_pde _ W) in He'. discriminate. }
  split; [exact He'|]. split; [exact Ho'|]. split; [exact Hname'|]. split.
  - intros q e2 Hq He2 Ho2 Hname2.
    pose proof (Hpre q e2 Hq He2) as Hmiss. apply not_true_iff_false in Hmiss.
    apply Hmiss. unfold hit. apply encname_hit.
    pose proof (Hh q e2 He2) as [_ _ _ Hh2 [_ Hfit2] _ _]. rewrite Ho2 in Hh2.
    destruct (Hsame e2 Ho2 Hh2 Hfit2 Hname2) as [H1 H2]. auto.
  - intros Huniq. eauto.
Qed.

(** C9, as amended: the bucket count [pefs_dircache_init] uses is the
    configured one when that is at least 512 and the default
    [desiredvnodes / 8] otherwise; for a count below [2^63] whose table
    has a byte count below [2^64], the table size is [2 ^ flsl count],
    the least power of two above the count, so above 512 when 512 or
    more are configured; and pool initialisation gives both arrays that
    many empty buckets. *)
Theorem pool_table_size tb tg dv global k :
  let b := buckets_used (default 0 tb) dv in
  0 <= b < 2 ^ 63 ->
  2 ^ flsl b * sizeof_listhead < 2 ^ 64 ->
  (DIRCACHE_SIZE_MIN <= default 0 tb -> b = default 0 tb) ∧
  (default 0 tb < DIRCACHE_SIZE_MIN -> b = u_long (DIRCACHE_SIZE_DEFAULT dv)) ∧
  ∃ m,
    pefs_dircache_init tb tg dv global (boot k) = Ok m ∧
    dircache_buckets m = b ∧
    tbl_size m = 2 ^ flsl b ∧ b < tbl_size m ∧ (0 < b -> tbl_size m <= 2 * b) ∧
    (DIRCACHE_SIZE_MIN <= default 0 tb -> DIRCACHE_SIZE_MIN < tbl_size m) ∧
    (default 1 tg ≠ 0 ->
     pools m !! global
     = Some {| pdp_tbl := Some (replicate (Z.to_nat (tbl_size m)) []);
               pdp_enctbl := Some (replicate (Z.to_nat (tbl_size m)) []) |}) ∧
    (∀ pdp, ∃ m1,
       pefs_dircache_pool_init pdp m = Ok m1 ∧
       pools m1 !! pdp
       = Some {| pdp_tbl := Some (replicate (Z.to_nat (tbl_size m)) []);
                 pdp_enctbl := Some (replicate (Z.to_nat (tbl_size m)) []) |}).
Proof.
  intros b Hb Hfit.
  assert (DIRCACHE_SIZE_MIN <= default 0 tb -> b = default 0 tb) as Hge.
  { intros H. unfold b, buckets_used.
    destruct (Z.ltb_spec (default 0 tb) DIRCACHE_SIZE_MIN); [lia|reflexivity]. }
  split; [exact Hge|]. split.
  { intros H. unfold b, buckets_used.
    destruct (Z.ltb_spec (default 0 tb) DIRCACHE_SIZE_MIN); [reflexivity|lia]. }
  destruct (init_Ok tb tg dv global k Hb (or_intror Hfit)) as (m & Hinit & Htbl & _).
  destruct (init_inv _ _ _ _ _ _ Hinit) as (_ & _ & _ & _ & Hbuckets & _ & _ & Hpools & _).
  fold b in Htbl, Hbuckets.
  exists m. split; [exact Hinit|]. split; [exact Hbuckets|].
  split; [exact Htbl|]. rewrite Htbl.
  split; [apply flsl_above; lia|]. split; [apply flsl_below|].
  split. { intros H. pose proof (flsl_above b (proj1 Hb)) as Ha. pose proof (Hge H) as He.
          lia. }
  split.
  - intros Hg. apply Z.eqb_neq in Hg. rewrite Hg, Htbl in Hpools.
    rewrite Hpools. apply lookup_singleton_eq.
  - intros pdp. rewrite <- Htbl. rewrite <- Htbl in Hfit.
    rewrite (pool_init_Ok pdp m Hfit). eexists. split; [reflexivity|].
    unfold store_pool. simpl. apply lookup_insert_eq.
Qed.

End Claims.

(** * Further properties of the code *)

Section Kept.
Context {P : Platform}.
Implicit Types (m : kmem) (c : pefs_dircache) (e : pefs_dircache_entry).

Lemma kept_refl pd m : kept pd m m.
Proof. intros q e He _. exact He. Qed.

Lemma kept_trans pd m m1 m2 : kept pd m m1 -> kept pd m1 m2 -> kept pd m m2.
Proof. intros H1 H2 q e He Ho. eauto. Qed.

Lemma kept_entries pd m m' : (∀ q, entry m' q = entry m q) -> kept pd m m'.
Proof. intros H q e He _. by rewrite H. Qed.

Lemma kept_stamp pd m p e g :
  entry m p = Some e -> pde_dircache e = pd -> kept pd m (store_pde p (set_pde_gen g e) m).
Proof.
  intros He Ho q e' He' Ho'. rewrite entry_store_pde.
  destruct (decide (p = q)) as [<-|]; [congruence|exact He'].
Qed.

Lemma kept_LIST_INSERT_HEAD head pd0 pd p m m' :
  LIST_INSERT_HEAD_dir_entry head pd p m = Ok m' -> kept pd0 m m'.
Proof.
  unfold LIST_INSERT_HEAD_dir_entry. intros H.
  apply bind_Ok in H as (c & _ & [= <-]). by apply kept_entries.
Qed.

Lemma expire_list_kept pd :
  ∀ bound m c m',
    wf0 m -> cache m pd = Some c -> expire_list pd bound m = Ok m' -> kept pd m m'.
Proof.
  induction bound as [|bound IH]; intros m c m' W Hc H; simpl in H;
    pose proof Hc as Hl; apply load_pd_Ok in Hl; rewrite Hl, ret_bind in H;
    destruct (active c) as [|p l] eqn:Hact;
    try (injection H as <-; apply kept_refl); try discriminate.
  assert (on_dir c p) as Hp.
  { apply on_dir_active_stale. left. rewrite Hact. by left. }
  destruct (wf_dir _ W _ _ _ Hc Hp) as (e & He & Ho).
  pose proof He as Hle. apply load_pde_Ok in Hle. rewrite Hle, ret_bind in H.
  set (m1 := store_pde p (set_pde_gen 0 e) m) in *.
  pose proof (store_pde_relinked pd m p e 0 He) as R1. fold m1 in R1.
  pose proof (relinked_wf0 _ _ _ W R1) as W1.
  destruct (move_relinked DIRCACHE_STALEHEAD m1 pd c p W1 Hc Hp)
    as (m2 & Hmove & R2 & Hc2 & _).
  rewrite Hmove, ret_bind in H.
  pose proof (relinked_wf0 _ _ _ W1 R2) as W2.
  eapply kept_trans; [exact (kept_stamp pd m p e 0 He Ho)|].
  eapply kept_trans; [|exact (IH m2 _ m' W2 Hc2 H)].
  eapply kept_trans; [|exact (kept_LIST_INSERT_HEAD _ pd _ _ _ _ Hmove)].
  by apply kept_entries.
Qed.

Lemma expire_kept pd m c m' :
  wf0 m -> cache m pd = Some c -> dircache_expire pd m = Ok m' -> kept pd m m'.
Proof.
  intros W Hc H. unfold dircache_expire in H.
  pose proof Hc as Hl. apply load_pd_Ok in Hl. rewrite Hl, ret_bind in H.
  cbv zeta in H.
  set (c0 := set_pd_gen 0 c) in *. set (m0 := store_pd pd c0 m) in *.
  assert (relinked pd m m0) as R0.
  { apply (store_pd_relinked m pd c c0 Hc); [reflexivity|]. intros q. reflexivity. }
  pose proof (relinked_wf0 _ _ _ W R0) as W0.
  assert (cache m0 pd = Some c0) as Hc0.
  { unfold m0. rewrite cache_store_pd. by rewrite decide_True. }
  apply bind_Ok in H as (m1 & Hm1 & H). apply bind_Ok in H as (c1 & _ & H).
  apply bind_Ok in H as (u & _ & [= <-]).
  destruct (LIST_EMPTY (stale c0)).
  - injection Hm1 as <-. by apply kept_entries.
  - eapply kept_trans; [|exact (expire_list_kept pd _ m0 c0 m1 W0 Hc0 Hm1)].
    by apply kept_entries.
Qed.

(** What [dircache_update] of a live entry of [pd] changes is within [pd]. *)
Lemma update_inv m p e c onlist m' :
  wf0 m -> entry m p = Some e -> cache m (pde_dircache e) = Some c ->
  dircache_update p onlist m = Ok m' -> kept (pde_dircache e) m m'.
Proof.
  intros W He Hc H. unfold dircache_update in H.
  pose proof He as Hle. apply load_pde_Ok in Hle. rewrite Hle, ret_bind in H.
  cbv zeta in H. pose proof Hc as Hl. apply load_pd_Ok in Hl. rewrite Hl, ret_bind in H.
  destruct (updating c).
  - eapply kept_trans; [exact (kept_stamp _ m p e (pd_gen c) He eq_refl)|].
    eapply kept_trans; [|exact (kept_LIST_INSERT_HEAD _ _ _ _ _ _ H)].
    destruct (negb _); [by apply kept_entries|apply kept_refl].
  - destruct (_ || _); [|injection H as <-; apply kept_refl].
    apply bind_Ok in H as (m1 & Hm1 & H). apply bind_Ok in H as (e1 & He1 & H).
    apply load_pde_Ok in He1.
    pose proof (expire_kept _ m c m1 W Hc Hm1) as K1.
    destruct (dircache_expire_spec m _ c W Hc) as (m1' & c1 & Hrun & R1 & _).
    rewrite Hm1 in Hrun. injection Hrun as <-.
    destruct (relinked_entry_inv _ _ _ _ _ R1 He1) as (e0 & He0 & Hid).
    rewrite He in He0. injection He0 as <-.
    eapply kept_trans; [exact K1|].
    eapply kept_trans;
      [exact (kept_stamp _ m1 p e1 0 He1 (same_id_owner _ _ Hid))|].
    destruct (onlist =? 0); [|injection H as <-; apply kept_refl].
    exact (kept_LIST_INSERT_HEAD _ _ _ _ _ _ H).
Qed.

End Kept.

Section Sound.
Context {P : Platform}.
Implicit Types (m : kmem) (c : pefs_dircache) (e : pefs_dircache_entry).

Lemma find_sound m hit l p :
  LIST_FOREACH_find m hit l = Ok p -> p ≠ NULL ->
  ∃ e, p ∈ l ∧ entry m p = Some e ∧ hit e = true.
Proof.
  induction l as [|q l IH]; simpl; intros H Hp.
  - injection H as <-. by destruct Hp.
  - apply bind_Ok in H as (e & He & H). apply load_pde_Ok in He.
    destruct (hit e) eqn:Hhit.
    + injection H as <-. exists e. split; [apply list_elem_of_here|]. auto.
    + destruct (IH H Hp) as (e' & Hin & He' & Hh). exists e'.
      split; [by apply list_elem_of_further|]. auto.
Qed.

(** X1: a plaintext lookup never returns anything but an entry of the
    cache it was asked about that is stamped with the current generation
    of that cache and holds exactly the name looked up: a result other
    than NULL is an allocated entry, linked in the plaintext table of
    the pool of the cache, with that owner, stamp, length and name. *)
Theorem lookup_sound m pd name p :
  pefs_dircache_lookup pd name m = Ok p -> p ≠ NULL ->
  ∃ c pool e,
    cache m pd = Some c ∧ pools m !! pd_pool c = Some pool ∧
    in_tbl (pdp_tbl pool) p ∧ entry m p = Some e ∧
    pde_dircache e = pd ∧ pde_gen e = pd_gen c ∧
    pde_namelen e = length name ∧ entry_name e = name.
Proof.
  intros H Hp. unfold pefs_dircache_lookup in H. cbv zeta in H.
  apply bind_Ok in H as (_ & _ & H).
  apply bind_Ok in H as (c & Hc & H). apply load_pd_Ok in Hc.
  apply bind_Ok in H as (_ & _ & H).
  apply bind_Ok in H as (_ & _ & H).
  apply bind_Ok in H as (pool & Hpool & H). apply load_pool_Ok in Hpool.
  apply bind_Ok in H as (b & Hb & H).
  destruct (find_sound _ _ _ _ H Hp) as (e & Hin & He & Hhit).
  apply name_hit in Hhit as (_ & Ho & Hg & Hl & Hn).
  exists c, pool, e. split; [exact Hc|]. split; [exact Hpool|].
  split; [exact (bucket_in_tbl _ _ _ _ Hb Hin)|]. auto.
Qed.

(** X2: a lookup by encrypted name never returns anything but an
    entry of the cache it was asked about that holds exactly the
    encrypted name looked up: a result other than NULL is an allocated
    entry, linked in the encrypted-name table of the pool of the cache,
    with that owner, length and encrypted name. *)
Theorem enclookup_sound m pd encname p :
  pefs_dircache_enclookup pd encname m = Ok p -> p ≠ NULL ->
  ∃ c pool e,
    cache m pd = Some c ∧ pools m !! pd_pool c = Some pool ∧
    in_tbl (pdp_enctbl pool) p ∧ entry m p = Some e ∧
    pde_dircache e = pd ∧
    pde_encnamelen e = length encname ∧ entry_encname e = encname.
Proof.
  intros H Hp. unfold pefs_dircache_enclookup in H. cbv zeta in H.
  apply bind_Ok in H as (c & Hc & H). apply load_pd_Ok in Hc.
  apply bind_Ok in H as (pool & Hpool & H). apply load_pool_Ok in Hpool.
  apply bind_Ok in H as (b & Hb & H).
  destruct (find_sound _ _ _ _ H Hp) as (e & Hin & He & Hhit).
  apply encname_hit in Hhit as (_ & Ho & Hl & Hn).
  exists c, pool, e. split; [exact Hc|]. split; [exact Hpool|].
  split; [exact (bucket_in_tbl _ _ _ _ Hb Hin)|]. auto.
Qed.

End Sound.

Section Closing.
Context {P : Platform}.
Implicit Types (m : kmem) (c : pefs_dircache) (e : pefs_dircache_entry).

(** A loop of [dircache_entry_free] that returns has emptied its list
    and freed entries only. *)
Lemma free_list_done (head : pefs_dircache -> Z) pd :
  ∀ bound m m', free_list head pd bound m = Ok m' ->
    ∃ S c', freed S m m' ∧ cache m' pd = Some c' ∧ pd_heads c' (head c') = [].
Proof.
  induction bound as [|bound IH]; intros m m' H; simpl in H;
    apply bind_Ok in H as (c & Hc & H); apply load_pd_Ok in Hc;
    destruct (pd_heads c (head c)) as [|p l] eqn:Hl.
  - injection H as <-. exists [], c. split; [apply freed_refl|]. auto.
  - discriminate.
  - injection H as <-. exists [], c. split; [apply freed_refl|]. auto.
  - apply bind_Ok in H as (m1 & Hfree & H).
    destruct (IH _ _ H) as (S & c' & F & Hc' & Hnil).
    exists ([p] ++ S), c'. split; [|auto].
    eapply freed_trans; [exact (entry_free_freed _ _ _ Hfree)|exact F].
Qed.

Lemma free_all_done (head : pefs_dircache -> Z) pd m m' :
  free_all head pd m = Ok m' ->
  ∃ S c', freed S m m' ∧ cache m' pd = Some c' ∧ pd_heads c' (head c') = [].
Proof.
  unfold free_all. intros H. apply bind_Ok in H as (c & _ & H).
  exact (free_list_done head pd _ _ _ H).
Qed.

Lemma free_all_nil (head : pefs_dircache -> Z) pd m c :
  cache m pd = Some c -> pd_heads c (head c) = [] -> free_all head pd m = Ok m.
Proof.
  intros Hc Hnil. unfold free_all. apply load_pd_Ok in Hc.
  rewrite Hc, ret_bind, Hnil. simpl. by rewrite Hc, ret_bind, Hnil.
Qed.

(** X11: [pefs_dircache_endupdate] is idempotent: called again on the
    store a first call returned, it returns that store unchanged. *)
Theorem endupdate_idempotent m pd m1 :
  pefs_dircache_endupdate pd m = Ok m1 -> pefs_dircache_endupdate pd m1 = Ok m1.
Proof.
  intros H. pose proof H as H0. unfold pefs_dircache_endupdate in H.
  apply bind_Ok in H as (c & Hc & H).
  destruct (updating c) eqn:Hu; simpl in H.
  - apply bind_Ok in H as (m2 & Hfree & H).
    apply bind_Ok in H as (c2 & Hc2 & H). injection H as <-.
    destruct (free_all_done _ _ _ _ Hfree) as (S & c2' & _ & Hc2' & Hnil).
    apply load_pd_Ok in Hc2. rewrite Hc2 in Hc2'. injection Hc2' as <-.
    set (c3 := set_pd_flags (Z.land (pd_flags c2) (Z.lnot PD_UPDATING)) c2).
    unfold pefs_dircache_endupdate.
    assert (load_pd (store_pd pd c3 m2) pd = Ok c3) as ->.
    { apply load_pd_Ok. rewrite cache_store_pd. by rewrite decide_True. }
    rewrite ret_bind. unfold c3 at 1. rewrite updating_clear_updating. simpl.
    unfold DIRCACHE_ASSERT.
    rewrite (stale_nil_ASSERT c3), MPASS_true; [reflexivity|].
    unfold c3. rewrite stale_clear_updating. exact Hnil.
  - apply bind_Ok in H as (u & Hassert & H). injection H as <-. exact H0.
Qed.

(** X12: [pefs_dircache_abortupdate] is idempotent: called again on the
    store a first call returned, it returns that store unchanged. *)
Theorem abortupdate_idempotent m pd m1 :
  pefs_dircache_abortupdate pd m = Ok m1 -> pefs_dircache_abortupdate pd m1 = Ok m1.
Proof.
  intros H. unfold pefs_dircache_abortupdate in H.
  apply bind_Ok in H as (c & Hc & H).
  apply bind_Ok in H as (m2 & Hm2 & H).
  apply bind_Ok in H as (c2 & Hc2 & H).
  apply bind_Ok in H as (u & Hassert & H). injection H as <-.
  assert (updating c2 = false) as Hu2.
  { destruct (updating c) eqn:Hu.
    - apply bind_Ok in Hm2 as (m3 & _ & Hm2).
      apply bind_Ok in Hm2 as (c3 & _ & Hm2). injection Hm2 as <-.
      apply load_pd_Ok in Hc2. rewrite cache_store_pd, decide_True in Hc2 by reflexivity.
      injection Hc2 as <-. apply updating_clear_updating.
    - injection Hm2 as <-. rewrite Hc in Hc2. by injection Hc2 as <-. }
  unfold pefs_dircache_abortupdate. rewrite Hc2, ret_bind, Hu2, ret_bind, Hc2, ret_bind.
  destruct u. by rewrite Hassert.
Qed.

(** X13: [pefs_dircache_purge] is idempotent: called again on the
    store a first call returned, it returns that store unchanged. *)
Theorem purge_idempotent m pd m1 :
  pefs_dircache_purge pd m = Ok m1 -> pefs_dircache_purge pd m1 = Ok m1.
Proof.
  intros H. pose proof H as H0. unfold pefs_dircache_purge in H.
  destruct (pd =? NULL) eqn:Hpd.
  - injection H as <-. exact H0.
  - apply bind_Ok in H as (m2 & Hs & Ha).
    destruct (free_all_done _ _ _ _ Hs) as (S2 & c2 & _ & Hc2 & Hnil2).
    destruct (free_all_done _ _ _ _ Ha) as (S1 & c1 & F & Hc1 & Hnil1).
    pose proof (fr_cache _ _ _ F pd) as Hc. rewrite Hc1, Hc2 in Hc.
    injection Hc as ->.
    assert (stale (drop_dir S1 c2) = []) as Hst.
    { rewrite stale_drop_dir. unfold stale. by rewrite Hnil2. }
    unfold pefs_dircache_purge. rewrite Hpd.
    rewrite (free_all_nil DIRCACHE_STALEHEAD pd m1 _ Hc1 Hst), ret_bind.
    exact (free_all_nil DIRCACHE_ACTIVEHEAD pd m1 _ Hc1 Hnil1).
Qed.

End Closing.

Section Pools.
Context {P : Platform}.
Implicit Types (m : kmem) (c : pefs_dircache) (e : pefs_dircache_entry).

Lemma with_pools_same m : with_pools (pools m) m = m.
Proof. by destruct m. Qed.

Lemma pool_init_uninit pdp m m1 :
  pools m !! pdp = None ->
  pefs_dircache_pool_init pdp m = Ok m1 ->
  pefs_dircache_pool_free pdp m1
  = if negb (dircache_global_enable m =? 0) then Ok m1 else Ok m.
Proof.
  intros Hnone Hinit. apply pool_init_inv in Hinit as [_ ->].
  unfold pefs_dircache_pool_free.
  change (dircache_global_enable (store_pool pdp ?x m)) with (dircache_global_enable m).
  destruct (negb (dircache_global_enable m =? 0)); [reflexivity|].
  unfold pefs_dircache_pool_uninit.
  set (pool := {| pdp_tbl := Some _; pdp_enctbl := _ |}).
  assert (load_pool (store_pool pdp pool m) pdp = Ok pool) as ->.
  { apply load_pool_Ok. unfold store_pool. simpl. apply lookup_insert_eq. }
  rewrite !ret_bind. f_equal. unfold store_pool, with_pools. simpl.
  rewrite insert_insert_eq, delete_insert_eq, delete_id by exact Hnone.
  by destruct m.
Qed.

(** X21: with the global pool enabled [pefs_dircache_pool_create]
    hands out [dircache_global] and changes nothing, and
    [pefs_dircache_pool_free] does nothing; with it disabled, when the
    byte count of a table does not wrap, [pefs_dircache_pool_create]
    allocates a pool that is neither NULL, nor [dircache_global], nor a
    pool in use, with both tables of [dircache_hashmask + 1] empty
    buckets, and [pefs_dircache_pool_free] of that pool gives back the
    store from before the creation; when the byte count wraps, the
    initialisation of the buckets runs past the end of the arrays. *)
Theorem pool_create_free global m :
  (dircache_global_enable m ≠ 0 ->
     pefs_dircache_pool_create global m = Ok (m, global) ∧
     ∀ x, pefs_dircache_pool_free x m = Ok m) ∧
  (dircache_global_enable m = 0 -> tbl_size m * sizeof_listhead < 2 ^ 64 ->
     ∃ m1 pdp,
       pefs_dircache_pool_create global m = Ok (m1, pdp) ∧
       pdp ≠ NULL ∧ pdp ≠ global ∧ pools m !! pdp = None ∧
       pools m1 = <[pdp := {| pdp_tbl := Some (replicate (Z.to_nat (tbl_size m)) []);
                              pdp_enctbl := Some (replicate (Z.to_nat (tbl_size m)) []) |}]>
                    (pools m) ∧
       pefs_dircache_pool_free pdp m1 = Ok m) ∧
  (dircache_global_enable m = 0 -> 2 ^ 64 <= tbl_size m * sizeof_listhead ->
     pefs_dircache_pool_create global m = Err Fault).
Proof.
  unfold pefs_dircache_pool_create. split; [|split].
  - intros Hg. apply Z.eqb_neq in Hg. rewrite Hg. simpl. split; [reflexivity|].
    intros x. unfold pefs_dircache_pool_free. by rewrite Hg.
  - intros Hg Hfit. rewrite Hg. simpl.
    set (x := fresh ({[NULL; global]} ∪ dom (pools m))).
    pose proof (is_fresh ({[NULL; global]} ∪ dom (pools m))) as Hx. fold x in Hx.
    rewrite not_elem_of_union, not_elem_of_union, !not_elem_of_singleton,
      not_elem_of_dom in Hx.
    destruct Hx as ((Hnn & Hng) & Hnone).
    pose proof (pool_init_Ok x m Hfit) as Hinit. rewrite Hinit, ret_bind.
    eexists _, x. split; [reflexivity|].
    split; [exact Hnn|]. split; [exact Hng|]. split; [exact Hnone|].
    split; [reflexivity|].
    rewrite (pool_init_uninit x m _ Hnone Hinit), Hg. reflexivity.
  - intros Hg Hwrap. rewrite Hg. simpl. by rewrite (pool_init_Fault _ m Hwrap).
Qed.

(** X22: when [pefs_dircache_init] returns (the bucket count is below
    [2^63] and, with the global pool enabled, the byte count of a table
    does not wrap), [pefs_dircache_uninit] after it returns: it releases
    the tables of the global pool exactly when [pefs_dircache_init]
    allocated them, so that no bucket table is left allocated, and both
    zones are gone. *)
Theorem init_uninit tb tg dv global k :
  let b := buckets_used (default 0 tb) dv in
  0 <= b < 2 ^ 63 ->
  default 1 tg = 0 ∨ 2 ^ flsl b * sizeof_listhead < 2 ^ 64 ->
  ∃ m m', pefs_dircache_init tb tg dv global (boot k) = Ok m ∧
          pefs_dircache_uninit global m = Ok m' ∧
          (∀ pdp pool, pools m' !! pdp = Some pool ->
                       pdp = global ∧ default 1 tg ≠ 0 ∧
                       pdp_tbl pool = None ∧ pdp_enctbl pool = None) ∧
          dircache_zone m' = ∅ ∧ dircache_entry_zone m' = ∅.
Proof.
  intros b Hb Hfit.
  destruct (init_Ok tb tg dv global k Hb Hfit) as (m & Hinit & _).
  destruct (init_inv _ _ _ _ _ _ Hinit) as (_ & _ & _ & _ & _ & _ & Hge & Hpools & _).
  exists m. unfold pefs_dircache_uninit. rewrite Hge.
  destruct (default 1 tg =? 0) eqn:Hg.
  - simpl. eexists. split; [exact Hinit|]. split; [reflexivity|]. simpl.
    split; [|auto]. intros pdp pool H. rewrite Hpools in H. by rewrite lookup_empty in H.
  - simpl negb. cbv iota. unfold pefs_dircache_pool_uninit.
    assert (is_Some (pools m !! global)) as (pool & Hpool).
    { rewrite Hpools. rewrite lookup_singleton_eq. eauto. }
    pose proof Hpool as Hl. apply load_pool_Ok in Hl. rewrite Hl, !ret_bind.
    eexists. split; [exact Hinit|]. split; [reflexivity|]. simpl. split; [|auto].
    intros pdp pool' H. rewrite Hpools in H.
    apply lookup_insert_Some in H as [(<- & <-)|(Hne & H)].
    + apply Z.eqb_neq in Hg. auto.
    + apply lookup_singleton_Some in H as [? _]. contradiction.
Qed.

End Pools.

Section Safety.
Context {P : Platform}.
Implicit Types (m : kmem) (c : pefs_dircache) (e : pefs_dircache_entry).

Lemma find_total m hit l :
  (∀ p, p ∈ l -> is_Some (entry m p)) -> ∃ p, LIST_FOREACH_find m hit l = Ok p.
Proof.
  induction l as [|q l IH]; intros Hl; simpl; [eauto|].
  destruct (Hl q) as (e & He); [apply list_elem_of_here|].
  apply load_pde_Ok in He. rewrite He, ret_bind.
  destruct (hit e); [eauto|]. apply IH. intros p Hp. apply Hl.
  by apply list_elem_of_further.
Qed.

Lemma bucket_total m t h : tbl_ok m t -> ∃ b, bucket t (DIRCACHE_TBL m h) = Ok b.
Proof.
  intros Hok. destruct (bucket_Ok m t h NULL Hok) as (tt & b & _ & _ & Hb & _). eauto.
Qed.

Lemma MPASS_cases b : MPASS b = if INVARIANTS && negb b then Err Panic else Ok tt.
Proof. reflexivity. Qed.

Lemma lookup_outcome m pd c name :
  wf m -> cache m pd = Some c ->
  if INVARIANTS && (updating c || negb (LIST_EMPTY (stale c)))
  then pefs_dircache_lookup pd name m = Err Panic
  else ∃ p, pefs_dircache_lookup pd name m = Ok p.
Proof.
  intros W Hc. unfold pefs_dircache_lookup. cbv zeta.
  rewrite (wf_nonnull_pd m pd c W Hc). simpl negb. rewrite MPASS_true, ret_bind.
  pose proof Hc as Hl. apply load_pd_Ok in Hl. rewrite Hl, ret_bind, !MPASS_cases.
  destruct INVARIANTS; simpl.
  - destruct (updating c); simpl; [reflexivity|].
    destruct (LIST_EMPTY (stale c)); simpl; [|reflexivity].
    destruct (wf_pool _ W _ _ Hc) as (pool & Hpool & Hok & _).
    pose proof Hpool as Hlp. apply load_pool_Ok in Hlp. rewrite Hlp, ret_bind.
    destruct (bucket_total m _ (dircache_hashname pd name (length name)) Hok) as (b & Hb).
    rewrite Hb, ret_bind. apply find_total. intros p Hp.
    exact (wf_hash _ W _ _ _ Hpool (bucket_in_tbl _ _ _ _ Hb Hp)).
  - destruct (wf_pool _ W _ _ Hc) as (pool & Hpool & Hok & _).
    pose proof Hpool as Hlp. apply load_pool_Ok in Hlp. rewrite Hlp, ret_bind.
    destruct (bucket_total m _ (dircache_hashname pd name (length name)) Hok) as (b & Hb).
    rewrite Hb, ret_bind. apply find_total. intros p Hp.
    exact (wf_hash _ W _ _ _ Hpool (bucket_in_tbl _ _ _ _ Hb Hp)).
Qed.

Lemma enclookup_total m pd c encname :
  wf m -> cache m pd = Some c -> ∃ p, pefs_dircache_enclookup pd encname m = Ok p.
Proof.
  intros W Hc. unfold pefs_dircache_enclookup. cbv zeta.
  pose proof Hc as Hl. apply load_pd_Ok in Hl. rewrite Hl, ret_bind.
  destruct (wf_pool _ W _ _ Hc) as (pool & Hpool & _ & Hok).
  pose proof Hpool as Hlp. apply load_pool_Ok in Hlp. rewrite Hlp, ret_bind.
  destruct (bucket_total m _ (dircache_hashname pd encname (length encname)) Hok)
    as (b & Hb).
  rewrite Hb, ret_bind. apply find_total. intros p Hp.
  exact (wf_enchash _ W _ _ _ Hpool (bucket_in_tbl _ _ _ _ Hb Hp)).
Qed.

Lemma insert_outcome m pd c ptk name encname :
  wf m -> cache m pd = Some c ->
  if (INVARIANTS && (ptk_key ptk =? NULL))
     || ((length name =? 0)%nat || (sizeof_pde_name <=? length name)%nat
         || (length encname =? 0)%nat || (sizeof_pde_encname <=? length encname)%nat)
  then pefs_dircache_insert pd ptk name encname m = Err Panic
  else ∃ r, pefs_dircache_insert pd ptk name encname m = Ok r.
Proof.
  intros W Hc.
  destruct (INVARIANTS && (ptk_key ptk =? NULL)) eqn:Hk; simpl.
  { unfold pefs_dircache_insert. cbv zeta. by rewrite MPASS_negb, Hk. }
  destruct ((length name =? 0)%nat || (sizeof_pde_name <=? length name)%nat
            || (length encname =? 0)%nat || (sizeof_pde_encname <=? length encname)%nat)
    eqn:Hlen.
  { unfold pefs_dircache_insert. cbv zeta. by rewrite MPASS_negb, Hk, ret_bind, Hlen. }
  rewrite !orb_false_iff, !Nat.eqb_neq, !Nat.leb_gt in Hlen.
  destruct (insert_spec m pd c ptk name encname W Hc) as (m' & pde & -> & _);
    [lia|lia| |eauto].
  apply andb_false_iff in Hk as [Hk|Hk]; [by left|right]. by apply Z.eqb_neq.
Qed.

Lemma purge_total m pd :
  wf m -> pd = NULL ∨ is_Some (cache m pd) ->
  ∃ m', pefs_dircache_purge pd m = Ok m' ∧ (pd ≠ NULL -> is_Some (cache m' pd)).
Proof.
  intros W [->|(c & Hc)].
  - exists m. split; [reflexivity|]. by intros [].
  - destruct (purge_spec m pd c W Hc) as (m' & S & Hrun & _ & _ & _ & Hc' & _).
    exists m'. split; [exact Hrun|]. eauto.
Qed.

Lemma free_total m pd :
  wf m -> pd = NULL ∨ is_Some (cache m pd) -> ∃ m', pefs_dircache_free pd m = Ok m'.
Proof.
  intros W Hpd. unfold pefs_dircache_free. destruct (pd =? NULL) eqn:E; [eauto|].
  apply Z.eqb_neq in E.
  destruct (purge_total m pd W Hpd) as (m' & -> & Hc'). rewrite ret_bind.
  destruct (Hc' E) as (c' & Hc). apply load_pd_Ok in Hc. rewrite Hc, ret_bind. eauto.
Qed.

Lemma beginupdate_outcome m pd c g :
  wf m -> cache m pd = Some c ->
  if INVARIANTS && negb (g =? 0) && negb (pd_gen c =? g)
     && negb (LIST_EMPTY (active c)) && negb (LIST_EMPTY (stale c))
  then pefs_dircache_beginupdate pd g m = Err Panic
  else ∃ m', pefs_dircache_beginupdate pd g m = Ok m'.
Proof.
  intros W Hc.
  destruct (decide (g = 0 ∨ pd_gen c = g)) as [Hg|Hg].
  { rewrite (beginupdate_noop m pd c g Hc Hg).
    assert (negb (g =? 0) && negb (pd_gen c =? g) = false) as Hf.
    { destruct Hg as [-> | ->]; [reflexivity|]. rewrite Z.eqb_refl. apply andb_false_r. }
    rewrite <- (andb_assoc INVARIANTS), Hf, andb_false_r. simpl. eauto. }
  assert (g ≠ 0 ∧ pd_gen c ≠ g) as [Hg0 Hg'] by (split; intros ?; apply Hg; auto).
  clear Hg. rename Hg' into Hg.
  pose proof Hg0 as Hb0. pose proof Hg as Hb. apply Z.eqb_neq in Hb0, Hb.
  rewrite Hb0, Hb. simpl negb. rewrite !andb_true_r.
  destruct (INVARIANTS && negb (LIST_EMPTY (active c)) && negb (LIST_EMPTY (stale c)))
    eqn:Hpanic.
  - apply andb_true_iff in Hpanic as [Hpanic Hs].
    apply andb_true_iff in Hpanic as [Hi Ha].
    unfold pefs_dircache_beginupdate. apply load_pd_Ok in Hc. rewrite Hc, ret_bind.
    rewrite Hb0, Hb. simpl. rewrite Ha.
    unfold MPASS. by rewrite Hi, Hs.
  - destruct (beginupdate_spec m pd c g W Hc Hg0 Hg) as (m' & c' & -> & _); [|eauto].
    destruct INVARIANTS; [|by left]. right. simpl in Hpanic.
    apply andb_false_iff in Hpanic as [H|H]; apply negb_false_iff, LIST_EMPTY_nil in H; auto.
Qed.

Lemma abortupdate_outcome m pd c :
  wf m -> cache m pd = Some c ->
  if INVARIANTS && negb (updating c)
     && negb (LIST_EMPTY (pd_heads c 0) || LIST_EMPTY (pd_heads c 1))
  then pefs_dircache_abortupdate pd m = Err Panic
  else ∃ m', pefs_dircache_abortupdate pd m = Ok m'.
Proof.
  intros W Hc. destruct (updating c) eqn:Hu.
  - destruct (abortupdate_spec m pd c W Hc Hu) as (m' & c' & -> & _).
    rewrite andb_false_r. simpl. eauto.
  - unfold pefs_dircache_abortupdate. apply load_pd_Ok in Hc.
    rewrite Hc, ret_bind, Hu, ret_bind, Hc, ret_bind.
    unfold DIRCACHE_ASSERT. rewrite MPASS_cases. simpl negb at 1. rewrite andb_true_r.
    destruct (INVARIANTS && _); simpl; eauto.
Qed.

Lemma endupdate_outcome m pd c :
  wf m -> cache m pd = Some c ->
  if INVARIANTS && negb (updating c)
     && negb (LIST_EMPTY (pd_heads c 0) || LIST_EMPTY (pd_heads c 1))
  then pefs_dircache_endupdate pd m = Err Panic
  else ∃ m', pefs_dircache_endupdate pd m = Ok m'.
Proof.
  intros W Hc. destruct (updating c) eqn:Hu.
  - destruct (endupdate_spec m pd c W Hc Hu) as (m1 & m' & S & c' & -> & _).
    rewrite andb_false_r. simpl. eauto.
  - unfold pefs_dircache_endupdate. apply load_pd_Ok in Hc.
    rewrite Hc, ret_bind, Hu. simpl negb.
    unfold DIRCACHE_ASSERT. rewrite MPASS_cases, andb_true_r.
    destruct (INVARIANTS && _); simpl; eauto.
Qed.

Lemma update_total m p e :
  wf m -> entry m p = Some e -> ∃ m', pefs_dircache_update p m = Ok m'.
Proof.
  intros W He. destruct (wf_live _ W _ _ He) as (c & Hc & _).
  destruct (update_spec m p e c W He Hc) as (m' & Hrun & _). eauto.
Qed.

Lemma map_outcome {A B} (r : res A) (f : A -> B) (b : bool) :
  (if b then r = Err Panic else ∃ a, r = Ok a) ->
  if b then (r ≫= λ a, Ok (f a)) = Err Panic else ∃ x, (r ≫= λ a, Ok (f a)) = Ok x.
Proof. destruct b; [by intros ->|]. intros (a & ->). eauto. Qed.

(** X17: in a consistent store an operation on valid pointers never
    touches freed memory and every loop ends: it panics exactly when
    [op_panics] says so (a name length out of range in
    [pefs_dircache_insert], or an assertion of an INVARIANTS kernel),
    and returns otherwise. *)
Theorem operations_panic_or_return o m :
  wf m -> op_live o m ->
  if op_panics o m then run_op o m = Err Panic else ∃ m', run_op o m = Ok m'.
Proof.
  intros W Hlive. destruct o as [pdp|pd|pd|pd ptk name encname|pd name|pd encname
                                 |pde|pd g|pd|pd]; simpl in *.
  - eauto.
  - destruct (purge_total m pd W Hlive) as (m' & -> & _). eauto.
  - exact (free_total m pd W Hlive).
  - destruct Hlive as (c & Hc).
    exact (map_outcome _ fst _ (insert_outcome m pd c ptk name encname W Hc)).
  - destruct Hlive as (c & Hc). rewrite Hc.
    exact (map_outcome _ (λ _, m) _ (lookup_outcome m pd c name W Hc)).
  - destruct Hlive as (c & Hc).
    destruct (enclookup_total m pd c encname W Hc) as (p & ->). eauto.
  - destruct Hlive as (e & He). exact (update_total m pde e W He).
  - destruct Hlive as (c & Hc). rewrite Hc. exact (beginupdate_outcome m pd c g W Hc).
  - destruct Hlive as (c & Hc). rewrite Hc. exact (abortupdate_outcome m pd c W Hc).
  - destruct Hlive as (c & Hc). rewrite Hc. exact (endupdate_outcome m pd c W Hc).
Qed.

End Safety.

Section InsertShape.
Context {P : Platform}.
Implicit Types (m : kmem) (c : pefs_dircache) (e : pefs_dircache_entry).

Lemma insert_linked m pd c ptk name encname m' pde :
  wf m -> cache m pd = Some c ->
  pefs_dircache_insert pd ptk name encname m = Ok (m', pde) ->
  ∃ e, linked m pd c m' pde e ∧ ∃ g, e = new_entry pd ptk name encname g.
Proof.
  intros W Hc H. destruct (insert_pre _ _ _ _ _ _ H) as (_ & Hn & He & Hkey).
  revert H. unfold pefs_dircache_insert.
  assert (MPASS (negb (ptk_key ptk =? NULL)) = Ok tt) as ->.
  { apply MPASS_Ok. destruct Hkey as [H|H]; [by left|right].
    apply Z.eqb_neq in H. by rewrite H. }
  rewrite ret_bind.
  assert ((length name =? 0)%nat || (sizeof_pde_name <=? length name)%nat
          || (length encname =? 0)%nat || (sizeof_pde_encname <=? length encname)%nat
          = false) as ->.
  { rewrite !orb_false_iff, !Nat.eqb_neq, !Nat.leb_gt. lia. }
  cbv zeta.
  destruct (uma_zalloc_fresh (dircache_entry_zone m)) as [Hnn Hfresh].
  set (p := uma_zalloc (dircache_entry_zone m)) in *.
  set (k := pefs_key_ref (ptk_key ptk) (keys m)).
  set (e0 := {| pde_dircache := pd; pde_tkey := ptk; pde_gen := 0;
                pde_namehash := _; pde_encnamehash := _;
                pde_namelen := length name; pde_encnamelen := length encname;
                pde_name := _; pde_encname := _ |}).
  destruct (update_new m pd c p e0 k W Hfresh Hnn Hc eq_refl eq_refl)
    as (m3 & c3 & g3 & i & Hrun & R & Hc3 & He3 & Hpool3 & _ & _).
  assert (kept pd m m3) as Hkept.
  { pose proof (store_new_wf0 m p e0 k W Hfresh Hnn) as W0.
    apply (kept_trans pd m (store_pde p e0 (with_keys k m)) m3).
    - intros q e1 He1 _. rewrite entry_store_pde.
      destruct (decide (p = q)) as [<-|]; [|exact He1].
      unfold entry in He1. congruence.
    - apply (update_inv _ p e0 c 0 m3 W0); [|exact Hc|exact Hrun].
      rewrite entry_store_pde. by rewrite decide_True. }
  rewrite Hrun, ret_bind.
  pose proof (link_new_wf m pd c p e0 k i W Hfresh Hnn Hc eq_refl) as W1.
  pose proof (relinked_wf _ _ _ W1 R) as W3.
  pose proof Hc3 as Hl3. apply load_pd_Ok in Hl3. rewrite Hl3, ret_bind.
  destruct (wf_pool _ W3 _ _ Hc3) as (pool & Hpool & Hok & Hok').
  pose proof Hpool as Hlp. apply load_pool_Ok in Hlp. rewrite Hlp, ret_bind.
  destruct (bucket_Ok m3 _ (pde_namehash e0) p Hok) as (tt & b & Ht & Hb & _ & ->).
  rewrite ret_bind. cbv zeta.
  change (pdp_enctbl (set_pdp_tbl _ pool)) with (pdp_enctbl pool).
  destruct (bucket_Ok m3 _ (pde_encnamehash e0) p Hok') as (tt' & b' & Ht' & Hb' & _ & ->).
  rewrite ret_bind. cbv zeta. intros [= <- <-].
  assert (∀ h, DIRCACHE_TBL m3 h = DIRCACHE_TBL m h) as Hidx.
  { intros h. unfold DIRCACHE_TBL. by rewrite (rl_hashmask _ _ _ R). }
  rewrite !Hidx in *.
  assert (pools m3 = pools m) as Hpools by exact (rl_pools _ _ _ R).
  exists (set_pde_gen g3 e0). split; [|by exists g3]. split.
  - exact Hfresh.
  - exists c3. split; [exact Hc3|]. split; [exact Hpool3|]. intros q.
    pose proof (rl_cache _ _ _ R) as Hrc. rewrite Hc3 in Hrc.
    rewrite cache_store_pd, decide_True in Hrc by reflexivity. destruct Hrc as [_ Hd].
    rewrite Hd, on_dir_set_pd_heads_cons. reflexivity.
  - exact He3.
  - intros q Hq. transitivity (set_pde_gen 0 <$> entry m3 q); [reflexivity|].
    rewrite (rl_entry _ _ _ R q), entry_store_pd, entry_store_pde.
    by rewrite decide_False by congruence.
  - exact Hkept.
  - exists pool, tt, tt', b, b'. rewrite <- Hpool3, <- Hpools.
    split; [exact Hpool|]. split; [exact Ht|]. split; [exact Ht'|].
    split; [exact Hb|]. split; [exact Hb'|]. reflexivity.
Qed.

Lemma linked_bucket_enc m pd c m' pde e :
  linked m pd c m' pde e -> dircache_hashmask m' = dircache_hashmask m ->
  ∃ c' pool' b',
    cache m' pd = Some c' ∧ pools m' !! pd_pool c' = Some pool' ∧
    bucket (pdp_enctbl pool') (DIRCACHE_TBL m' (pde_encnamehash e)) = Ok (pde :: b').
Proof.
  intros [_ (c' & Hc' & Hpool & _) _ _ _ (pool & tt & tt' & b & b' & _ & _ & _ & _ & Hb' & Hp)] Hm.
  exists c'. eexists _, b'. split; [exact Hc'|]. rewrite Hpool, Hp. split.
  - apply lookup_insert_eq.
  - unfold DIRCACHE_TBL. rewrite Hm. exact (bucket_insert_same tt' _ (pde :: b') b' Hb').
Qed.

Lemma linked_bucket m pd c m' pde e :
  linked m pd c m' pde e -> dircache_hashmask m' = dircache_hashmask m ->
  ∃ c' pool' b,
    cache m' pd = Some c' ∧ pools m' !! pd_pool c' = Some pool' ∧
    bucket (pdp_tbl pool') (DIRCACHE_TBL m' (pde_namehash e)) = Ok (pde :: b).
Proof.
  intros [_ (c' & Hc' & Hpool & _) _ _ _ (pool & tt & tt' & b & b' & _ & _ & _ & Hb & _ & Hp)] Hm.
  exists c'. eexists _, b. split; [exact Hc'|]. rewrite Hpool, Hp. split.
  - apply lookup_insert_eq.
  - unfold DIRCACHE_TBL. rewrite Hm. exact (bucket_insert_same tt _ (pde :: b) b Hb).
Qed.

(** The lookup by encrypted name of an entry that heads its bucket. *)
Lemma enclookup_head m pd c pool b p e :
  cache m pd = Some c -> pools m !! pd_pool c = Some pool ->
  entry m p = Some e -> pde_dircache e = pd ->
  pde_encnamehash e = dircache_hashname pd (pde_encname e) (pde_encnamelen e) ->
  (pde_encnamelen e ≤ length (pde_encname e))%nat ->
  bucket (pdp_enctbl pool) (DIRCACHE_TBL m (pde_encnamehash e)) = Ok (p :: b) ->
  pefs_dircache_enclookup pd (entry_encname e) m = Ok p.
Proof.
  intros Hc Hpool He Ho Hh Hfit Hb. unfold pefs_dircache_enclookup. cbv zeta.
  assert (length (entry_encname e) = pde_encnamelen e) as Hlen.
  { unfold entry_encname. rewrite length_take. lia. }
  assert (dircache_hashname pd (entry_encname e) (length (entry_encname e))
          = pde_encnamehash e) as Hhash.
  { rewrite Hlen, Hh. unfold entry_encname. apply hashname_take. }
  apply load_pd_Ok in Hc. rewrite Hc, ret_bind.
  apply load_pool_Ok in Hpool. rewrite Hpool, ret_bind.
  rewrite Hhash, Hb, ret_bind. simpl.
  apply load_pde_Ok in He. rewrite He, ret_bind.
  assert ((pde_encnamehash e =? pde_encnamehash e) && (pde_dircache e =? pd) &&
          (pde_encnamelen e =? length (entry_encname e))%nat &&
          memcmp_eq (pde_encname e) (entry_encname e) (length (entry_encname e)) = true)
    as Hhit.
  { apply (encname_hit e (pde_encnamehash e) pd (entry_encname e)). auto. }
  by rewrite Hhit.
Qed.

(** The lookup by name of an entry of the current generation that heads
    its bucket, on a cache that may be looked up. *)
Lemma lookup_head m pd c pool b p e :
  cache m pd = Some c -> pools m !! pd_pool c = Some pool ->
  pd ≠ NULL -> INVARIANTS = false ∨ updating c = false ∧ stale c = [] ->
  entry m p = Some e -> pde_dircache e = pd -> pde_gen e = pd_gen c ->
  pde_namehash e = dircache_hashname pd (pde_name e) (pde_namelen e) ->
  (pde_namelen e ≤ length (pde_name e))%nat ->
  bucket (pdp_tbl pool) (DIRCACHE_TBL m (pde_namehash e)) = Ok (p :: b) ->
  pefs_dircache_lookup pd (entry_name e) m = Ok p.
Proof.
  intros Hc Hpool Hnn Hpre He Ho Hg Hh Hfit Hb. unfold pefs_dircache_lookup. cbv zeta.
  assert (length (entry_name e) = pde_namelen e) as Hlen.
  { unfold entry_name. rewrite length_take. lia. }
  assert (dircache_hashname pd (entry_name e) (length (entry_name e))
          = pde_namehash e) as Hhash.
  { rewrite Hlen, Hh. unfold entry_name. apply hashname_take. }
  assert (MPASS (negb (pd =? NULL)) = Ok tt) as ->.
  { apply MPASS_Ok. right. apply Z.eqb_neq in Hnn. by rewrite Hnn. }
  rewrite ret_bind. apply load_pd_Ok in Hc. rewrite Hc, ret_bind.
  assert (MPASS (negb (updating c)) = Ok tt) as ->.
  { apply MPASS_Ok. destruct Hpre as [H|[-> _]]; auto. }
  rewrite ret_bind.
  assert (MPASS (LIST_EMPTY (stale c)) = Ok tt) as ->.
  { apply MPASS_Ok. destruct Hpre as [H|[_ ->]]; auto. }
  rewrite ret_bind.
  apply load_pool_Ok in Hpool. rewrite Hpool, ret_bind.
  rewrite Hhash, Hb, ret_bind. simpl.
  apply load_pde_Ok in He. rewrite He, ret_bind.
  assert ((pde_namehash e =? pde_namehash e) && (pde_dircache e =? pd) &&
          (pde_gen e =? pd_gen c) && (pde_namelen e =? length (entry_name e))%nat &&
          memcmp_eq (pde_name e) (entry_name e) (length (entry_name e)) = true)
    as Hhit.
  { apply (name_hit e (pde_namehash e) pd (pd_gen c) (entry_name e)). auto. }
  by rewrite Hhit.
Qed.

End InsertShape.

Section RoundTrips.
Context {P : Platform}.
Implicit Types (m : kmem) (c : pefs_dircache) (e : pefs_dircache_entry).

Lemma cached_names m pd p e :
  cached m pd p e ->
  length (entry_name e) = pde_namelen e ∧ length (entry_encname e) = pde_encnamelen e.
Proof.
  intros [_ _ _ _ [H1 H2] _ _]. unfold entry_name, entry_encname.
  rewrite !length_take. lia.
Qed.

(** X5: whether or not a pass is open, and whatever the cache holds,
    the lookup by encrypted name right after a
    [pefs_dircache_insert] returns the entry just inserted: new entries
    go to the head of their bucket. *)
Theorem insert_then_enclookup m pd c ptk name encname :
  wf m -> cache m pd = Some c ->
  (0 < length name < sizeof_pde_name)%nat ->
  (0 < length encname < sizeof_pde_encname)%nat ->
  INVARIANTS = false ∨ ptk_key ptk ≠ NULL ->
  ∃ m' pde, pefs_dircache_insert pd ptk name encname m = Ok (m', pde) ∧
            pefs_dircache_enclookup pd encname m' = Ok pde.
Proof.
  intros W Hc Hn He Hk.
  destruct (insert_spec m pd c ptk name encname W Hc Hn He Hk)
    as (m' & pde & Hins & [_ _ _ Hmask _ (e & Hcached & _ & Henc & _) _]).
  destruct (insert_linked m pd c ptk name encname m' pde W Hc Hins) as (e' & L & _).
  assert (e' = e) as ->.
  { pose proof (lk_entry _ _ _ _ _ _ L) as H1.
    rewrite (cached_entry _ _ _ _ Hcached) in H1. by injection H1. }
  destruct (linked_bucket_enc _ _ _ _ _ _ L Hmask) as (c' & pool' & b' & Hc' & Hpool' & Hb').
  exists m', pde. split; [exact Hins|]. rewrite <- Henc.
  destruct Hcached as [Hent Ho _ Hh [_ Hfit] _ _].
  exact (enclookup_head m' pd c' pool' b' pde e Hc' Hpool' Hent Ho Hh Hfit Hb').
Qed.

(** X6: an entry inserted in an open pass, whatever else the cache
    holds, is the entry that both lookups return once
    [pefs_dircache_endupdate] has closed the pass. *)
Theorem insert_then_commit m pd c ptk name encname :
  wf m -> cache m pd = Some c -> updating c = true ->
  (0 < length name < sizeof_pde_name)%nat ->
  (0 < length encname < sizeof_pde_encname)%nat ->
  INVARIANTS = false ∨ ptk_key ptk ≠ NULL ->
  ∃ m1 pde m2,
    pefs_dircache_insert pd ptk name encname m = Ok (m1, pde) ∧
    pefs_dircache_endupdate pd m1 = Ok m2 ∧
    pefs_dircache_lookup pd name m2 = Ok pde ∧
    pefs_dircache_enclookup pd encname m2 = Ok pde.
Proof.
  intros W Hc Hu Hn He Hk.
  destruct (insert_spec m pd c ptk name encname W Hc Hn He Hk)
    as (m1 & pde & Hins & [Hnn Hfresh W1 Hmask _ (e & Hcached & Hname & Henc & _ & _ & _ & Hgen & _)
                             (c1 & Hc1 & Hupd & _)]).
  destruct (Hgen Hu) as [Hg _]. pose proof (Hupd Hu) as Hc1eq.
  destruct (insert_linked m pd c ptk name encname m1 pde W Hc Hins) as (e' & L & _).
  assert (e' = e) as ->.
  { pose proof (lk_entry _ _ _ _ _ _ L) as H1.
    rewrite (cached_entry _ _ _ _ Hcached) in H1. by injection H1. }
  destruct (linked_bucket _ _ _ _ _ _ L Hmask) as (c1' & pool1 & b & Hc1' & Hpool1 & Hb).
  destruct (linked_bucket_enc _ _ _ _ _ _ L Hmask) as (c1'' & pool1' & b' & Hc1'' & Hpool1' & Hb').
  rewrite Hc1 in Hc1', Hc1''. injection Hc1' as <-. injection Hc1'' as <-.
  rewrite Hpool1 in Hpool1'. injection Hpool1' as <-.
  assert (updating c1 = true) as Hu1.
  { rewrite Hc1eq, updating_set_pd_heads. exact Hu. }
  destruct (endupdate_spec m1 pd c1 W1 Hc1 Hu1)
    as (mx & m2 & S & c2 & Hend & F & R & HS & W2 & Hc2 & Hu2 & Hst2 & _ & Hg2 & Hzone).
  assert (pde ∉ S) as HnS.
  { rewrite HS, Hc1eq, stale_set_active. intros Hin.
    destruct (wf_dir _ W pd c pde Hc) as (e0 & He0 & _).
    { apply on_dir_active_stale. by right. }
    congruence. }
  assert (entry m2 pde = Some e) as He2.
  { transitivity (entry mx pde); [unfold entry; by rewrite Hzone|].
    rewrite (fr_entry _ _ _ F), decide_False by exact HnS.
    exact (cached_entry _ _ _ _ Hcached). }
  assert (pd_pool c2 = pd_pool c1) as Hpool2.
  { destruct (relinked_cache _ _ _ _ _ R (eq_trans (fr_cache _ _ _ F pd)
                (f_equal (fmap (drop_dir S)) Hc1))) as (c2' & Hc2' & Hp & _).
    rewrite Hc2 in Hc2'. injection Hc2' as <-. exact Hp. }
  assert (pools m2 !! pd_pool c2 = Some (drop_pool S pool1)) as Hp2.
  { rewrite Hpool2, (rl_pools _ _ _ R), (fr_pools _ _ _ F), Hpool1. reflexivity. }
  assert (∀ h, DIRCACHE_TBL m2 h = DIRCACHE_TBL m1 h) as Hidx.
  { intros h. unfold DIRCACHE_TBL.
    by rewrite (rl_hashmask _ _ _ R), (fr_hashmask _ _ _ F). }
  assert (drop S (pde :: b) = pde :: drop S b) as Hd.
  { unfold drop. by rewrite filter_cons, decide_True. }
  assert (drop S (pde :: b') = pde :: drop S b') as Hd'.
  { unfold drop. by rewrite filter_cons, decide_True. }
  exists m1, pde, m2. split; [exact Hins|]. split; [exact Hend|].
  destruct Hcached as [_ Ho Hh Hh' [Hfit Hfit'] _ _]. split.
  - rewrite <- Hname.
    apply (lookup_head m2 pd c2 (drop_pool S pool1) (drop S b) pde e); auto.
    + intros ->. rewrite (wf_null_pd _ W) in Hc. discriminate.
    + rewrite Hg2, Hc1eq, pd_gen_set_pd_heads. exact Hg.
    + rewrite Hidx, <- Hd. apply bucket_drop. exact Hb.
  - rewrite <- Henc.
    apply (enclookup_head m2 pd c2 (drop_pool S pool1) (drop S b') pde e); auto.
    rewrite Hidx, <- Hd'. apply bucket_drop. exact Hb'.
Qed.

(** X7: [pefs_dircache_insert] on a cache with no pass open
    invalidates the cache: the new entry is stamped 0, the generation of
    the cache is reset to 0, every entry of the cache, the new one
    included, is on the stale list, and no entry is freed; in the store
    the insert returns, an INVARIANTS kernel panics on a plaintext
    lookup of any name on that cache. *)
Theorem insert_outside_pass m pd c ptk name encname :
  wf m -> cache m pd = Some c -> updating c = false ->
  (0 < length name < sizeof_pde_name)%nat ->
  (0 < length encname < sizeof_pde_encname)%nat ->
  INVARIANTS = false ∨ ptk_key ptk ≠ NULL ->
  ∃ m' pde e c',
    pefs_dircache_insert pd ptk name encname m = Ok (m', pde) ∧
    entry m' pde = Some e ∧ pde_gen e = 0 ∧
    cache m' pd = Some c' ∧ updating c' = false ∧ pd_gen c' = 0 ∧
    active c' = [] ∧ (∀ q, q ∈ stale c' ↔ q = pde ∨ on_dir c q) ∧
    (∀ q, is_Some (entry m q) -> is_Some (entry m' q)) ∧
    (INVARIANTS = true -> ∀ n, pefs_dircache_lookup pd n m' = Err Panic).
Proof.
  intros W Hc Hu Hn He Hk.
  destruct (insert_spec m pd c ptk name encname W Hc Hn He Hk)
    as (m' & pde & Hins & [Hnn Hfresh W1 Hmask _ (e & Hcached & _ & _ & _ & _ & _ & _ & Hgen)
                             (c' & Hc' & _ & Hidle)]).
  destruct (Hidle Hu) as (Hu' & Hg' & Ha').
  destruct (insert_linked m pd c ptk name encname m' pde W Hc Hins) as (e' & L & _).
  destruct (lk_cache _ _ _ _ _ _ L) as (c2 & Hc2 & _ & Hd).
  rewrite Hc' in Hc2. injection Hc2 as <-.
  assert (∀ q, q ∈ stale c' ↔ q = pde ∨ on_dir c q) as Hst.
  { intros q. rewrite <- Hd, on_dir_active_stale, Ha'. split; [auto|].
    intros [H|H]; [by apply elem_of_nil in H|exact H]. }
  exists m', pde, e, c'. split; [exact Hins|].
  split; [exact (cached_entry _ _ _ _ Hcached)|]. split; [exact (Hgen Hu)|].
  split; [exact Hc'|]. split; [exact Hu'|]. split; [exact Hg'|].
  split; [exact Ha'|]. split; [exact Hst|]. split.
  - intros q (e0 & He0). destruct (decide (q = pde)) as [->|Hq]; [congruence|].
    pose proof (lk_entries _ _ _ _ _ _ L q Hq) as H. rewrite He0 in H.
    destruct (entry m' q); [eauto|discriminate].
  - intros HI n. unfold pefs_dircache_lookup. cbv zeta.
    assert (MPASS (negb (pd =? NULL)) = Ok tt) as ->.
    { apply MPASS_Ok. right. by rewrite (wf_nonnull_pd m pd c W Hc). }
    rewrite ret_bind. apply load_pd_Ok in Hc'. rewrite Hc', ret_bind, Hu'.
    rewrite MPASS_true, ret_bind.
    destruct (stale c') as [|x l] eqn:Hl.
    + exfalso. apply (elem_of_nil pde). apply Hst. by left.
    + unfold MPASS. by rewrite HI.
Qed.

(** X8: an entry reconfirmed by [pefs_dircache_update] during a pass
    survives the pass: after [beginupdate] with a new generation,
    [update] of the entry and [endupdate], the entry is allocated and
    stamped with the new generation, every other entry the cache had is
    freed, and the plaintext lookup of its name returns it. *)
Theorem reconfirmed_entry_survives m pd c p e g2 :
  wf m -> cache m pd = Some c -> updating c = false -> stale c = [] ->
  cached m pd p e -> g2 ≠ 0 -> g2 ≠ pd_gen c ->
  ∃ m1 m2 m3,
    pefs_dircache_beginupdate pd g2 m = Ok m1 ∧
    pefs_dircache_update p m1 = Ok m2 ∧
    pefs_dircache_endupdate pd m2 = Ok m3 ∧
    entry m3 p = Some (set_pde_gen g2 e) ∧
    (∀ q, on_dir c q -> q ≠ p -> entry m3 q = None) ∧
    pefs_dircache_lookup pd (entry_name e) m3 = Ok p.
Proof.
  intros W Hc Hu Hst Hcached Hg0 Hg.
  pose proof (cached_entry _ _ _ _ Hcached) as He.
  pose proof (cached_owner _ _ _ _ Hcached) as Ho.
  destruct (beginupdate_spec m pd c g2 W Hc Hg0 (not_eq_sym Hg) (or_intror (or_intror Hst)))
    as (m1 & c1 & Hbegin & R1 & Hc1 & Hg1 & Hu1 & Ha1).
  pose proof (relinked_wf _ _ _ W R1) as W1.
  destruct (relinked_cache _ _ _ _ _ R1 Hc) as (c1' & Hc1' & _ & Hd1).
  rewrite Hc1 in Hc1'. injection Hc1' as <-.
  destruct (cached_relinked _ _ _ _ _ _ R1 Hcached) as (g & Hcached1).
  pose proof (cached_entry _ _ _ _ Hcached1) as He1.
  set (e1 := set_pde_gen g e) in *.
  assert (cache m1 (pde_dircache e1) = Some c1) as Hc1o by (simpl; by rewrite Ho).
  destruct (update_spec m1 p e1 c1 W1 He1 Hc1o) as (m2 & Hupd & R2 & Hopen & _).
  destruct (Hopen Hu1) as (c2 & Hc2 & Hg2 & Hf2 & Ha2 & Hs2 & Hz2).
  simpl pde_dircache in *. rewrite Ho in *.
  pose proof (relinked_wf _ _ _ W1 R2) as W2.
  assert (updating c2 = true) as Hu2 by (by rewrite (updating_flags _ _ Hf2)).
  destruct (endupdate_spec m2 pd c2 W2 Hc2 Hu2)
    as (mx & m3 & S & c3 & Hend & F & R3 & HS & W3 & Hc3 & Hu3 & Hst3 & Ha3 & Hg3 & Hz3).
  assert (p ∉ S) as HnS.
  { rewrite HS, Hs2, elem_of_drop. intros [_ H]. apply H. by left. }
  assert (∀ q, entry m3 q = if decide (q ∈ S) then None else entry m2 q) as Hent3.
  { intros q. transitivity (entry mx q); [unfold entry; by rewrite Hz3|].
    apply (fr_entry _ _ _ F). }
  assert (entry m2 p = Some (set_pde_gen g2 e)) as He2.
  { unfold entry. rewrite Hz2, lookup_insert_eq, Hg1. reflexivity. }
  assert (entry m3 p = Some (set_pde_gen g2 e)) as He3.
  { rewrite Hent3, decide_False by exact HnS. exact He2. }
  assert (active c3 = [p]) as Hact3.
  { rewrite Ha3, Ha2, Ha1. unfold drop at 2. simpl.
    unfold drop. by rewrite filter_cons, decide_True. }
  exists m1, m2, m3. split; [exact Hbegin|]. split; [exact Hupd|]. split; [exact Hend|].
  split; [exact He3|]. split.
  - intros q Hq Hne. rewrite Hent3, decide_True; [reflexivity|].
    rewrite HS, Hs2, elem_of_drop, list_elem_of_singleton. split; [|exact Hne].
    apply (all_stale c c1 Hd1 Ha1). exact Hq.
  - assert (cached mx pd p (set_pde_gen g2 e)) as Hcx.
    { apply (cached_freed S m2 mx pd p (set_pde_gen g2 e) F HnS).
      destruct (cached_relinked _ _ _ _ _ _ R2 Hcached1) as (g' & Hc').
      pose proof (cached_entry _ _ _ _ Hc') as H. rewrite He2 in H.
      injection H as H. unfold e1 in Hc'. simpl in Hc'.
      replace (set_pde_gen g2 e) with (set_pde_gen g' (set_pde_gen g e)); [exact Hc'|].
      by rewrite H. }
    destruct (cached_relinked _ _ _ _ _ _ R3 Hcx) as (g' & Hcached3).
    pose proof (cached_entry _ _ _ _ Hcached3) as H. rewrite He3 in H. injection H as H.
    rewrite <- H in Hcached3.
    destruct (lookup_hit m3 pd c3 p (set_pde_gen g2 e) W3 Hc3)
      as (p' & e' & Hlook & _ & _ & _ & _ & _ & Huniq); auto.
    { simpl. by rewrite Hg3, Hg2, Hg1. }
    change (entry_name (set_pde_gen g2 e)) with (entry_name e) in *.
    rewrite Hlook. f_equal. apply Huniq. intros q e2 Hq Hoq _ _.
    destruct (wf_live _ W3 q e2 Hq) as (cq & Hcq & Hdq).
    rewrite Hoq, Hc3 in Hcq. injection Hcq as <-.
    apply on_dir_active_stale in Hdq. rewrite Hact3, Hst3 in Hdq.
    destruct Hdq as [Hdq|Hdq]; [by apply list_elem_of_singleton in Hdq|].
    by apply elem_of_nil in Hdq.
Qed.

End RoundTrips.

Section Ledger.
Context {P : Platform}.
Implicit Types (m : kmem) (c : pefs_dircache) (e : pefs_dircache_entry).

Lemma tkeys_lookup m p : tkeys m !! p = key_of <$> entry m p.
Proof. unfold tkeys, entry. apply lookup_fmap. Qed.

Lemma ledger_store_pd pd c m : ledger (store_pd pd c m) = ledger m.
Proof. reflexivity. Qed.

Lemma ledger_LIST_REMOVE_dir_entry p m : ledger (LIST_REMOVE_dir_entry p m) = ledger m.
Proof. reflexivity. Qed.

Lemma ledger_stamp p e g m :
  entry m p = Some e -> ledger (store_pde p (set_pde_gen g e) m) = ledger m.
Proof.
  intros He. unfold ledger. f_equal. f_equal. unfold tkeys, store_pde. simpl.
  rewrite fmap_insert. apply insert_id. rewrite lookup_fmap.
  unfold entry in He. by rewrite He.
Qed.

Lemma ledger_LIST_INSERT_HEAD head pd p m m' :
  LIST_INSERT_HEAD_dir_entry head pd p m = Ok m' -> ledger m' = ledger m.
Proof.
  unfold LIST_INSERT_HEAD_dir_entry. intros H.
  apply bind_Ok in H as (c & _ & [= <-]). reflexivity.
Qed.

Lemma ledger_expire_list pd :
  ∀ bound m m', expire_list pd bound m = Ok m' -> ledger m' = ledger m.
Proof.
  induction bound as [|bound IH]; intros m m' H; simpl in H;
    apply bind_Ok in H as (c & _ & H); destruct (active c) as [|p l];
    try (by injection H as <-); try discriminate.
  apply bind_Ok in H as (e & He & H). apply load_pde_Ok in He.
  apply bind_Ok in H as (m1 & Hm1 & H).
  rewrite (IH _ _ H), (ledger_LIST_INSERT_HEAD _ _ _ _ _ Hm1),
    ledger_LIST_REMOVE_dir_entry.
  by apply ledger_stamp.
Qed.

Lemma ledger_expire pd m m' : dircache_expire pd m = Ok m' -> ledger m' = ledger m.
Proof.
  unfold dircache_expire. intros H. apply bind_Ok in H as (c & _ & H). cbv zeta in H.
  apply bind_Ok in H as (m1 & Hm1 & H). apply bind_Ok in H as (c1 & _ & H).
  apply bind_Ok in H as (u & _ & [= <-]).
  destruct (LIST_EMPTY _).
  - by injection Hm1 as <-.
  - by rewrite (ledger_expire_list _ _ _ _ Hm1).
Qed.

Lemma ledger_update p onlist m m' :
  dircache_update p onlist m = Ok m' -> ledger m' = ledger m.
Proof.
  unfold dircache_update. intros H. apply bind_Ok in H as (e & He & H).
  apply load_pde_Ok in He. cbv zeta in H. apply bind_Ok in H as (c & _ & H).
  destruct (updating c).
  - rewrite (ledger_LIST_INSERT_HEAD _ _ _ _ _ H).
    destruct (negb (onlist =? 0)); [rewrite ledger_LIST_REMOVE_dir_entry|];
      by apply ledger_stamp.
  - destruct (_ || _); [|by injection H as <-].
    apply bind_Ok in H as (m1 & Hm1 & H). apply bind_Ok in H as (e1 & He1 & H).
    apply load_pde_Ok in He1.
    rewrite <- (ledger_expire _ _ _ Hm1), <- (ledger_stamp p e1 0 m1 He1).
    destruct (onlist =? 0); [|by injection H as <-].
    exact (ledger_LIST_INSERT_HEAD _ _ _ _ _ H).
Qed.

Lemma ledger_beginupdate pd g m m' :
  pefs_dircache_beginupdate pd g m = Ok m' -> ledger m' = ledger m.
Proof.
  unfold pefs_dircache_beginupdate. intros H. apply bind_Ok in H as (c & _ & H).
  destruct (_ && _); [|by injection H as <-].
  apply bind_Ok in H as (m1 & Hm1 & H). apply bind_Ok in H as (c1 & _ & H).
  cbv zeta in H. apply bind_Ok in H as (u & _ & [= <-]).
  rewrite ledger_store_pd. destruct (negb _); [|by injection Hm1 as <-].
  apply bind_Ok in Hm1 as (u' & _ & Hm1). exact (ledger_expire _ _ _ Hm1).
Qed.

Lemma ledger_abortupdate pd m m' :
  pefs_dircache_abortupdate pd m = Ok m' -> ledger m' = ledger m.
Proof.
  unfold pefs_dircache_abortupdate. intros H. apply bind_Ok in H as (c & _ & H).
  apply bind_Ok in H as (m1 & Hm1 & H). apply bind_Ok in H as (c1 & _ & H).
  apply bind_Ok in H as (u & _ & [= <-]).
  destruct (updating c); [|by injection Hm1 as <-].
  apply bind_Ok in Hm1 as (m2 & Hm2 & Hm1). apply bind_Ok in Hm1 as (c2 & _ & [= <-]).
  rewrite ledger_store_pd. exact (ledger_expire _ _ _ Hm2).
Qed.

Lemma ledger_entry_free p m m' :
  dircache_entry_free p m = Ok m' -> ledger_step m m'.
Proof.
  unfold dircache_entry_free. intros H. apply bind_Ok in H as (u & _ & H).
  apply bind_Ok in H as (e & He & H). apply load_pde_Ok in He.
  apply bind_Ok in H as (c & _ & H). apply bind_Ok in H as (pool & _ & [= <-]).
  apply (ledger_free _ _ p (key_of e)).
  - rewrite tkeys_lookup, He. reflexivity.
  - unfold ledger. f_equal. f_equal. unfold tkeys. simpl. apply fmap_delete.
Qed.

Lemma ledger_free_list head pd :
  ∀ bound m m', free_list head pd bound m = Ok m' -> rtc ledger_step m m'.
Proof.
  induction bound as [|bound IH]; intros m m' H; simpl in H;
    apply bind_Ok in H as (c & _ & H); destruct (pd_heads c (head c)) as [|p l];
    try (injection H as <-; apply rtc_refl); try discriminate.
  apply bind_Ok in H as (m1 & Hm1 & H).
  eapply rtc_l; [exact (ledger_entry_free _ _ _ Hm1)|]. eauto.
Qed.

Lemma ledger_free_all head pd m m' : free_all head pd m = Ok m' -> rtc ledger_step m m'.
Proof.
  unfold free_all. intros H. apply bind_Ok in H as (c & _ & H).
  exact (ledger_free_list _ _ _ _ _ H).
Qed.

Lemma ledger_purge pd m m' : pefs_dircache_purge pd m = Ok m' -> rtc ledger_step m m'.
Proof.
  unfold pefs_dircache_purge. intros H. destruct (pd =? NULL).
  - injection H as <-. apply rtc_refl.
  - apply bind_Ok in H as (m1 & H1 & H).
    etrans; [exact (ledger_free_all _ _ _ _ H1)|exact (ledger_free_all _ _ _ _ H)].
Qed.

Lemma ledger_insert pd ptk name encname m m' pde :
  pefs_dircache_insert pd ptk name encname m = Ok (m', pde) -> ledger_step m m'.
Proof.
  unfold pefs_dircache_insert. intros H. cbv zeta in H.
  apply bind_Ok in H as (u & _ & H).
  destruct (_ || _) in H; [discriminate|].
  apply bind_Ok in H as (m3 & Hup & H). apply bind_Ok in H as (c & _ & H).
  apply bind_Ok in H as (pool & _ & H). apply bind_Ok in H as (t & _ & H).
  apply bind_Ok in H as (t' & _ & [= <- <-]).
  destruct (uma_zalloc_fresh (dircache_entry_zone m)) as [_ Hfresh].
  apply (ledger_alloc _ _ (uma_zalloc (dircache_entry_zone m)) (ptk_key ptk)).
  - rewrite tkeys_lookup. unfold entry. by rewrite Hfresh.
  - apply ledger_update in Hup. unfold ledger in Hup. injection Hup as Hk Hks He.
    unfold ledger.
    change (tkeys (with_dircache_entries ?n (store_pool ?x ?y m3))) with (tkeys m3).
    change (keys (with_dircache_entries ?n (store_pool ?x ?y m3))) with (keys m3).
    change (dircache_entries (with_dircache_entries ?n (store_pool ?x ?y m3))) with n.
    change (dircache_entries (store_pool ?x ?y m3)) with (dircache_entries m3).
    rewrite Hk, Hks, He. f_equal. f_equal.
    unfold tkeys, store_pde. simpl. by rewrite fmap_insert.
Qed.

(** Every operation that returns changes the ledger by allocating or
    freeing entries one at a time, each with its key reference. *)
Lemma ledger_run_op o m m' : run_op o m = Ok m' -> rtc ledger_step m m'.
Proof.
  intros H. destruct o; simpl in H.
  - injection H as <-. apply rtc_once, ledger_same. reflexivity.
  - by apply ledger_purge in H.
  - unfold pefs_dircache_free in H. destruct (_ =? NULL).
    + injection H as <-. apply rtc_refl.
    + apply bind_Ok in H as (m1 & H1 & H). apply bind_Ok in H as (c & _ & [= <-]).
      eapply rtc_r; [exact (ledger_purge _ _ _ H1)|]. by apply ledger_same.
  - apply bind_Ok in H as ([m1 pde] & H1 & [= <-]).
    apply rtc_once. exact (ledger_insert _ _ _ _ _ _ _ H1).
  - apply bind_Ok in H as (r & _ & [= <-]). apply rtc_refl.
  - apply bind_Ok in H as (r & _ & [= <-]). apply rtc_refl.
  - apply rtc_once, ledger_same. exact (ledger_update _ 1 _ _ H).
  - apply rtc_once, ledger_same. exact (ledger_beginupdate _ _ _ _ H).
  - apply rtc_once, ledger_same. exact (ledger_abortupdate _ _ _ H).
  - unfold pefs_dircache_endupdate in H. apply bind_Ok in H as (c & _ & H).
    destruct (negb (updating c)).
    + apply bind_Ok in H as (u & _ & [= <-]). apply rtc_refl.
    + apply bind_Ok in H as (m1 & H1 & H). apply bind_Ok in H as (c1 & _ & [= <-]).
      eapply rtc_r; [exact (ledger_free_all _ _ _ _ H1)|]. by apply ledger_same.
Qed.

Lemma ledger_run_ops os : ∀ m m', run_ops os m = Ok m' -> rtc ledger_step m m'.
Proof.
  induction os as [|o os IH]; intros m m' H; simpl in H.
  - injection H as <-. apply rtc_refl.
  - apply bind_Ok in H as (m1 & H1 & H).
    etrans; [exact (ledger_run_op _ _ _ H1)|eauto].
Qed.

Lemma size_tkeys m : size (tkeys m) = size (dircache_entry_zone m).
Proof. unfold tkeys. apply map_size_fmap. Qed.

Lemma counted_step m m' : ledger_step m m' -> entries_counted m -> entries_counted m'.
Proof.
  unfold entries_counted. rewrite <- !size_tkeys. unfold ledger, u_long.
  intros [H|p k Hp H|p k Hp H] Hm; injection H as Hk _ He; rewrite Hk, He;
    unfold u_long.
  - exact Hm.
  - rewrite (map_size_insert_None _ _ _ Hp), Hm, Nat2Z.inj_succ.
    rewrite Zplus_mod_idemp_l. f_equal; lia.
  - assert (size (tkeys m) ≠ 0%nat) as Hpos.
    { intros H0. apply map_size_empty_inv in H0. rewrite H0 in Hp.
      by rewrite lookup_empty in Hp. }
    rewrite map_size_delete_Some, Hm by eauto.
    rewrite Zminus_mod_idemp_l. f_equal; lia.
Qed.

Lemma held_insert (t : gmap Z Z) p k0 k :
  t !! p = None ->
  size (filter (λ kv : Z * Z, kv.2 = k) (<[p := k0]> t))
  = (size (filter (λ kv : Z * Z, kv.2 = k) t) + if decide (k0 = k) then 1 else 0)%nat.
Proof.
  intros Hp. destruct (decide (k0 = k)) as [E|E].
  - rewrite map_filter_insert_True by exact E.
    rewrite map_size_insert_None; [lia|]. by apply map_lookup_filter_None_2; left.
  - rewrite map_filter_insert_False, delete_id by (simpl; congruence). lia.
Qed.

Lemma held_delete (t : gmap Z Z) p k0 k :
  t !! p = Some k0 ->
  (size (filter (λ kv : Z * Z, kv.2 = k) (delete p t)) + if decide (k0 = k) then 1 else 0)%nat
  = size (filter (λ kv : Z * Z, kv.2 = k) t).
Proof.
  intros Hp. rewrite <- (insert_delete_id t p k0 Hp) at 2.
  rewrite held_insert by apply lookup_delete_eq. reflexivity.
Qed.

Section Refs.
Variable refs : keystate -> Z -> Z.
Variable base : Z -> Z.
Hypothesis refs_ref : ∀ k ks k',
  refs (pefs_key_ref k ks) k' = refs ks k' + (if decide (k = k') then 1 else 0).
Hypothesis refs_release : ∀ k ks k',
  refs (pefs_key_release k ks) k' = refs ks k' - (if decide (k = k') then 1 else 0).

Lemma balanced_step m m' :
  ledger_step m m' -> refs_balanced refs base m -> refs_balanced refs base m'.
Proof.
  unfold refs_balanced, held, ledger.
  intros [H|p k Hp H|p k Hp H] Hm k'; injection H as Hk Hks _; rewrite Hk, Hks.
  - apply Hm.
  - rewrite refs_ref, Hm, (held_insert _ p k k' Hp). destruct (decide (k = k')); lia.
  - rewrite refs_release, Hm, <- (held_delete _ p k k' Hp). destruct (decide (k = k')); lia.
Qed.

End Refs.

(** X19: the counter [dircache_entries] stays equal (modulo [2^64])
    to the number of allocated entries through every sequence of
    operations that returns. *)
Theorem entries_counter_exact os m m' :
  entries_counted m -> run_ops os m = Ok m' -> entries_counted m'.
Proof.
  intros Hm H. apply ledger_run_ops in H.
  induction H as [|m1 m2 m3 Hstep _ IH]; [exact Hm|].
  apply IH. exact (counted_step _ _ Hstep Hm).
Qed.

(** X20: every allocated entry holds exactly one reference of its key:
    if [pefs_key_ref] adds one reference of its key and
    [pefs_key_release] removes one, then through every sequence of
    operations that returns, the references of every key stay its
    references from outside the cache plus the number of allocated
    entries that hold it. *)
Theorem key_references_balanced (refs : keystate -> Z -> Z) (base : Z -> Z) os m m' :
  (∀ k ks k', refs (pefs_key_ref k ks) k'
              = refs ks k' + (if decide (k = k') then 1 else 0)) ->
  (∀ k ks k', refs (pefs_key_release k ks) k'
              = refs ks k' - (if decide (k = k') then 1 else 0)) ->
  refs_balanced refs base m -> run_ops os m = Ok m' -> refs_balanced refs base m'.
Proof.
  intros Href Hrel Hm H. apply ledger_run_ops in H.
  induction H as [|m1 m2 m3 Hstep _ IH]; [exact Hm|].
  apply IH. exact (balanced_step refs base Href Hrel _ _ Hstep Hm).
Qed.

End Ledger.

Section Touches.
Context {P : Platform}.
Implicit Types (m : kmem) (c : pefs_dircache) (e : pefs_dircache_entry).

Lemma foreign_entry pd m q :
  foreign pd m q ↔ ∃ e, entry m q = Some e ∧ pde_dircache e ≠ pd.
Proof.
  unfold foreign. destruct (entry m q) as [e|].
  - split; [eauto|]. by intros (e' & [= <-] & H).
  - split; [tauto|]. by intros (e' & [=] & _).
Qed.

Lemma touches_refl pd m : touches pd m m.
Proof. split; auto. apply kept_refl. Qed.

Lemma touches_foreign pd m m' q : touches pd m m' -> foreign pd m' q ↔ foreign pd m q.
Proof.
  intros T. rewrite !foreign_entry. split; intros (e & He & Ho); exists e.
  - split; [exact (tc_new _ _ _ T q e He Ho)|exact Ho].
  - split; [exact (tc_kept _ _ _ T q e He Ho)|exact Ho].
Qed.

Lemma pool_view_ext pd m m' p :
  (∀ q, foreign pd m' q ↔ foreign pd m q) -> pool_view pd m' p = pool_view pd m p.
Proof.
  intros H. unfold pool_view.
  assert (∀ l : list Z, filter (foreign pd m') l = filter (foreign pd m) l) as Hf.
  { intros l. by apply list_filter_iff. }
  f_equal; apply option_fmap_ext; intros t; apply list_fmap_ext; intros; apply Hf.
Qed.

Lemma touches_trans pd m m1 m2 : touches pd m m1 -> touches pd m1 m2 -> touches pd m m2.
Proof.
  intros T1 T2. split.
  - by rewrite (tc_hashmask _ _ _ T2), (tc_hashmask _ _ _ T1).
  - intros pd' Hne. by rewrite (tc_caches _ _ _ T2 pd' Hne), (tc_caches _ _ _ T1 pd' Hne).
  - exact (kept_trans _ _ _ _ (tc_kept _ _ _ T1) (tc_kept _ _ _ T2)).
  - intros q e He Ho. apply (tc_new _ _ _ T1); [|exact Ho].
    by apply (tc_new _ _ _ T2).
  - intros x. rewrite <- (tc_pools _ _ _ T1 x).
    pose proof (tc_pools _ _ _ T2 x) as H.
    destruct (pools m2 !! x) as [p2|], (pools m1 !! x) as [p1|]; try discriminate;
      [|reflexivity].
    apply (inj Some) in H. simpl. f_equal.
    rewrite <- !(pool_view_ext pd m m1) by (intros q; by apply touches_foreign).
    exact H.
Qed.

(** Freeing entries of [pd]. *)
Lemma freed_touches pd S m m' :
  wf m -> freed S m m' ->
  (∀ q, q ∈ S -> ∃ e, entry m q = Some e ∧ pde_dircache e = pd) ->
  touches pd m m'.
Proof.
  intros W F HS.
  assert (∀ q, foreign pd m q -> q ∉ S) as Hfor.
  { intros q Hq Hin. apply foreign_entry in Hq as (e & He & Ho).
    destruct (HS q Hin) as (e' & He' & Ho'). congruence. }
  split.
  - exact (fr_hashmask _ _ _ F).
  - intros pd' Hne. rewrite (fr_cache _ _ _ F).
    destruct (cache m pd') as [c'|] eqn:Hc'; [|reflexivity]. simpl. f_equal.
    apply drop_dir_notin. intros q Hq Hin.
    destruct (wf_dir _ W _ _ _ Hc' Hq) as (e & He & Ho).
    destruct (HS q Hin) as (e' & He' & Ho'). congruence.
  - intros q e He Ho. rewrite (fr_entry _ _ _ F), decide_False; [exact He|].
    apply Hfor, foreign_entry. eauto.
  - intros q e He _. rewrite (fr_entry _ _ _ F) in He.
    by destruct (decide (q ∈ S)).
  - intros x. rewrite (fr_pools _ _ _ F).
    destruct (pools m !! x) as [p|]; [|reflexivity]. simpl. f_equal.
    assert (∀ l, filter (foreign pd m) (drop S l) = filter (foreign pd m) l) as Hf.
    { intros l. unfold drop. rewrite list_filter_filter. apply list_filter_iff.
      intros q. split; [tauto|]. intros Hq. split; [exact Hq|by apply Hfor]. }
    unfold pool_view, drop_pool. simpl.
    f_equal; destruct (_ p) as [t|]; simpl; try reflexivity; f_equal;
      rewrite <- list_fmap_compose; apply list_fmap_ext; intros; apply Hf.
Qed.

(** Moving entries of [pd] between its lists and stamping them. *)
Lemma relinked_touches pd m m' : relinked pd m m' -> kept pd m m' -> touches pd m m'.
Proof.
  intros R K. split.
  - exact (rl_hashmask _ _ _ R).
  - exact (rl_frame _ _ _ R).
  - exact K.
  - intros q e' He' Ho'. destruct (relinked_entry_inv _ _ _ _ _ R He') as (e & He & Hid).
    pose proof (same_id_owner _ _ Hid) as Ho.
    assert (entry m' q = Some e) as H by (apply (K q e He); congruence).
    congruence.
  - intros x. by rewrite (rl_pools _ _ _ R).
Qed.

Lemma linked_touches m pd c m' pde e :
  wf m -> cache m pd = Some c -> pde_dircache e = pd ->
  dircache_hashmask m' = dircache_hashmask m ->
  (∀ pd', pd' ≠ pd -> cache m' pd' = cache m pd') ->
  linked m pd c m' pde e -> touches pd m m'.
Proof.
  intros W Hc Ho Hmask Hframe L. split.
  - exact Hmask.
  - exact Hframe.
  - exact (lk_kept _ _ _ _ _ _ L).
  - intros q e' He' Ho'. destruct (decide (q = pde)) as [->|Hq].
    { rewrite (lk_entry _ _ _ _ _ _ L) in He'. congruence. }
    pose proof (lk_entries _ _ _ _ _ _ L q Hq) as H. rewrite He' in H.
    destruct (entry m q) as [e0|] eqn:He0; [|discriminate].
    apply (inj Some) in H. pose proof (same_id_owner _ _ H) as Hoo.
    assert (entry m' q = Some e0) as H1.
    { apply (lk_kept _ _ _ _ _ _ L q e0 He0). congruence. }
    congruence.
  - intros x.
    destruct (lk_pools _ _ _ _ _ _ L) as (pool & tt & tt' & b & b' & Hpool & Ht & Ht' & Hb & Hb' & ->).
    destruct (decide (x = pd_pool c)) as [->|Hx];
      [|by rewrite lookup_insert_ne by congruence].
    rewrite lookup_insert_eq, Hpool. simpl. f_equal.
    assert (∀ l, filter (foreign pd m) (pde :: l) = filter (foreign pd m) l) as Hf.
    { intros l. rewrite filter_cons, decide_False; [reflexivity|].
      rewrite foreign_entry, (lk_fresh _ _ _ _ _ _ L). by intros (e0 & [=] & _). }
    unfold pool_view. simpl. rewrite Ht, Ht'. simpl.
    rewrite !list_fmap_insert, !Hf.
    rewrite !list_insert_id; [reflexivity| |]; rewrite list_lookup_fmap.
    + by rewrite Hb'.
    + by rewrite Hb.
Qed.

End Touches.

Section OpTouches.
Context {P : Platform}.
Implicit Types (m : kmem) (c : pefs_dircache) (e : pefs_dircache_entry).

Lemma touches_same pd m m' :
  dircache_hashmask m' = dircache_hashmask m ->
  (∀ pd', pd' ≠ pd -> cache m' pd' = cache m pd') ->
  (∀ q, entry m' q = entry m q) -> pools m' = pools m ->
  touches pd m m'.
Proof.
  intros Hm Hc He Hp. split; auto.
  - by apply kept_entries.
  - intros q e H _. by rewrite <- He.
  - intros x. by rewrite Hp.
Qed.

Lemma beginupdate_touches m pd g m' :
  wf m -> pefs_dircache_beginupdate pd g m = Ok m' -> touches pd m m'.
Proof.
  intros W H. pose proof H as H0. unfold pefs_dircache_beginupdate in H.
  apply bind_Ok in H as (c & Hc & H). apply load_pd_Ok in Hc.
  destruct (_ && _); [|injection H as <-; apply touches_refl].
  apply bind_Ok in H as (m1 & Hm1 & H). apply bind_Ok in H as (c1 & Hc1 & H).
  cbv zeta in H. apply bind_Ok in H as (u & _ & [= <-]).
  apply load_pd_Ok in Hc1.
  assert (touches pd m m1) as T1.
  { destruct (negb _); [|injection Hm1 as <-; apply touches_refl].
    apply bind_Ok in Hm1 as (u' & _ & Hm1).
    destruct (dircache_expire_spec m pd c W Hc) as (m1' & c1' & Hrun & R & _).
    rewrite Hm1 in Hrun. injection Hrun as <-.
    apply (relinked_touches _ _ _ R). exact (expire_kept pd m c m1 W Hc Hm1). }
  eapply touches_trans; [exact T1|]. apply touches_same; try reflexivity.
  intros pd' Hne. rewrite cache_store_pd. by rewrite decide_False by congruence.
Qed.

Lemma abortupdate_touches m pd m' :
  wf m -> pefs_dircache_abortupdate pd m = Ok m' -> touches pd m m'.
Proof.
  intros W H. unfold pefs_dircache_abortupdate in H.
  apply bind_Ok in H as (c & Hc & H). apply load_pd_Ok in Hc.
  apply bind_Ok in H as (m1 & Hm1 & H). apply bind_Ok in H as (c1 & _ & H).
  apply bind_Ok in H as (u & _ & [= <-]).
  destruct (updating c); [|injection Hm1 as <-; apply touches_refl].
  apply bind_Ok in Hm1 as (m2 & Hm2 & Hm1). apply bind_Ok in Hm1 as (c2 & _ & [= <-]).
  destruct (dircache_expire_spec m pd c W Hc) as (m2' & c2' & Hrun & R & _).
  rewrite Hm2 in Hrun. injection Hrun as <-.
  eapply touches_trans;
    [exact (relinked_touches _ _ _ R (expire_kept pd m c m2 W Hc Hm2))|].
  apply touches_same; try reflexivity.
  intros pd' Hne. rewrite cache_store_pd. by rewrite decide_False by congruence.
Qed.

Lemma update_touches m p e m' :
  wf m -> entry m p = Some e -> pefs_dircache_update p m = Ok m' ->
  touches (pde_dircache e) m m'.
Proof.
  intros W He H. destruct (wf_live _ W _ _ He) as (c & Hc & _).
  destruct (update_spec m p e c W He Hc) as (m1 & Hrun & R & _).
  rewrite H in Hrun. injection Hrun as <-.
  apply (relinked_touches _ _ _ R). exact (update_inv m p e c 1 m' W He Hc H).
Qed.

Lemma owned_on_dir m pd c (S : list Z) :
  wf m -> cache m pd = Some c -> (∀ q, q ∈ S -> on_dir c q) ->
  ∀ q, q ∈ S -> ∃ e, entry m q = Some e ∧ pde_dircache e = pd.
Proof. intros W Hc HS q Hq. exact (wf_dir _ W _ _ _ Hc (HS q Hq)). Qed.

Lemma endupdate_touches m pd m' :
  wf m -> pefs_dircache_endupdate pd m = Ok m' -> touches pd m m'.
Proof.
  intros W H.
  assert (∃ c, cache m pd = Some c) as (c & Hc).
  { unfold pefs_dircache_endupdate in H. apply bind_Ok in H as (c & Hl & _).
    apply load_pd_Ok in Hl. eauto. }
  destruct (updating c) eqn:Hu.
  - destruct (endupdate_spec m pd c W Hc Hu)
      as (m1 & m2 & S & c2 & Hrun & F & R & HS & _ & _ & _ & _ & _ & _ & Hz).
    rewrite H in Hrun. injection Hrun as <-.
    eapply touches_trans.
    + apply (freed_touches pd S m m1 W F). apply (owned_on_dir m pd c S W Hc).
      intros q Hq. apply on_dir_active_stale. right. by apply HS.
    + apply (relinked_touches _ _ _ R). apply kept_entries. intros q.
      unfold entry. by rewrite Hz.
  - unfold pefs_dircache_endupdate in H.
    pose proof Hc as Hl. apply load_pd_Ok in Hl.
    rewrite Hl, ret_bind, Hu in H. cbn [negb] in H.
    apply bind_Ok in H as (u & _ & [= <-]). apply touches_refl.
Qed.

Lemma purge_touches m pd m' :
  wf m -> pefs_dircache_purge pd m = Ok m' -> touches pd m m'.
Proof.
  intros W H. destruct (Z.eq_dec pd NULL) as [->|Hnn].
  { unfold pefs_dircache_purge in H. simpl in H. injection H as <-. apply touches_refl. }
  assert (∃ c, cache m pd = Some c) as (c & Hc).
  { unfold pefs_dircache_purge in H. apply Z.eqb_neq in Hnn. rewrite Hnn in H.
    apply bind_Ok in H as (m1 & H1 & _). unfold free_all in H1.
    apply bind_Ok in H1 as (c & Hl & _). apply load_pd_Ok in Hl. eauto. }
  destruct (purge_spec m pd c W Hc) as (m1 & S & Hrun & F & _ & HS & _).
  rewrite H in Hrun. injection Hrun as <-.
  apply (freed_touches pd S m m' W F). apply (owned_on_dir m pd c S W Hc).
  intros q Hq. by apply HS.
Qed.

Lemma free_touches m pd m' :
  wf m -> pefs_dircache_free pd m = Ok m' -> touches pd m m'.
Proof.
  intros W H. unfold pefs_dircache_free in H.
  destruct (pd =? NULL); [injection H as <-; apply touches_refl|].
  apply bind_Ok in H as (m1 & Hp & H). apply bind_Ok in H as (c1 & _ & [= <-]).
  eapply touches_trans; [exact (purge_touches m pd m1 W Hp)|].
  apply touches_same; try reflexivity.
  intros pd' Hne. rewrite cache_delete. by rewrite decide_False by congruence.
Qed.

Lemma insert_touches m pd ptk name encname m' pde :
  wf m -> pefs_dircache_insert pd ptk name encname m = Ok (m', pde) -> touches pd m m'.
Proof.
  intros W H. destruct (insert_pre _ _ _ _ _ _ H) as ((c & Hc) & _).
  destruct (insert_inv m pd c ptk name encname m' pde W Hc H)
    as [_ _ _ Hmask Hframe (e & Hcached & _) _].
  destruct (insert_linked m pd c ptk name encname m' pde W Hc H) as (e' & L & _).
  assert (e' = e) as ->.
  { pose proof (lk_entry _ _ _ _ _ _ L) as H1.
    rewrite (cached_entry _ _ _ _ Hcached) in H1. by injection H1. }
  exact (linked_touches m pd c m' pde e W Hc (cached_owner _ _ _ _ Hcached) Hmask Hframe L).
Qed.

Lemma create_touches m pdp :
  touches (pefs_dircache_create pdp m).2 m (pefs_dircache_create pdp m).1.
Proof.
  apply touches_same; try reflexivity. intros pd' Hne.
  unfold pefs_dircache_create in *. simpl in *.
  rewrite cache_store_pd. by rewrite decide_False by congruence.
Qed.

(** Every operation that returns changes nothing but the cache it works
    on, the entries of that cache and their links. *)
Lemma run_op_touches o m m' :
  wf m -> run_op o m = Ok m' -> touches (op_cache o m) m m'.
Proof.
  intros W H. destruct o; simpl in *.
  - injection H as <-. apply create_touches.
  - by apply purge_touches.
  - by apply free_touches.
  - apply bind_Ok in H as ([m1 pde] & H1 & [= <-]). eapply insert_touches; eauto.
  - apply bind_Ok in H as (r & _ & [= <-]). apply touches_refl.
  - apply bind_Ok in H as (r & _ & [= <-]). apply touches_refl.
  - assert (∃ e, entry m pde = Some e) as (e & He).
    { unfold pefs_dircache_update, dircache_update in H.
      apply bind_Ok in H as (e & Hl & _). apply load_pde_Ok in Hl. eauto. }
    rewrite He. simpl. exact (update_touches m pde e m' W He H).
  - by apply beginupdate_touches in H.
  - by apply abortupdate_touches.
  - by apply endupdate_touches.
Qed.

(** *** Lookups see only the entries of their own cache *)

Lemma find_skip m hit pd l :
  (∀ q, q ∈ l -> is_Some (entry m q)) ->
  (∀ e, hit e = true -> pde_dircache e ≠ pd) ->
  LIST_FOREACH_find m hit l = LIST_FOREACH_find m hit (filter (foreign pd m) l).
Proof.
  intros Hlive Hhit. induction l as [|q l IH]; [reflexivity|].
  assert (LIST_FOREACH_find m hit l = LIST_FOREACH_find m hit (filter (foreign pd m) l))
    as IH'.
  { apply IH. intros x Hx. apply Hlive. by right. }
  destruct (Hlive q) as (e & He); [by left|].
  rewrite filter_cons. destruct (decide (foreign pd m q)) as [Hf|Hf]; simpl.
  - apply load_pde_Ok in He. rewrite He, !ret_bind. by rewrite IH'.
  - pose proof He as Hl. apply load_pde_Ok in Hl. rewrite Hl, ret_bind.
    destruct (hit e) eqn:Hh; [|exact IH']. exfalso. apply Hf.
    apply foreign_entry. exists e. split; [exact He|]. by apply Hhit.
Qed.

Lemma find_ext m m' hit l :
  (∀ q, q ∈ l -> entry m' q = entry m q) ->
  LIST_FOREACH_find m' hit l = LIST_FOREACH_find m hit l.
Proof.
  intros H. induction l as [|q l IH]; [reflexivity|]. simpl.
  assert (load_pde m' q = load_pde m q) as ->.
  { unfold load_pde. unfold entry in H. rewrite (H q); [reflexivity|by left]. }
  destruct (load_pde m q) as [e|]; [|reflexivity]. simpl.
  destruct (hit e); [reflexivity|]. apply IH. intros x Hx. apply H. by right.
Qed.

Lemma find_touches pd m m' hit l l' :
  touches pd m m' ->
  (∀ q, q ∈ l -> is_Some (entry m q)) -> (∀ q, q ∈ l' -> is_Some (entry m' q)) ->
  (∀ e, hit e = true -> pde_dircache e ≠ pd) ->
  filter (foreign pd m) l' = filter (foreign pd m) l ->
  LIST_FOREACH_find m' hit l' = LIST_FOREACH_find m hit l.
Proof.
  intros T Hl Hl' Hhit Hf.
  rewrite (find_skip m hit pd l Hl Hhit), (find_skip m' hit pd l' Hl' Hhit).
  rewrite (list_filter_iff (foreign pd m') (foreign pd m) l')
    by (intros q; by apply touches_foreign).
  rewrite Hf. apply find_ext. intros q Hq.
  apply list_elem_of_filter in Hq as [Hq _]. apply foreign_entry in Hq as (e & He & Ho).
  rewrite He. exact (tc_kept _ _ _ T q e He Ho).
Qed.

Lemma bucket_view pd m (t t' : option (list (list Z))) i :
  fmap (M := list) (filter (foreign pd m)) <$> t' = fmap (M := list) (filter (foreign pd m)) <$> t ->
  match bucket t' i, bucket t i with
  | Ok b', Ok b => filter (foreign pd m) b' = filter (foreign pd m) b
  | Err e', Err e => e' = e
  | _, _ => False
  end.
Proof.
  intros H. unfold bucket. destruct t' as [tt'|], t as [tt|]; try discriminate;
    [|reflexivity].
  apply (inj Some) in H.
  pose proof (f_equal (λ l, l !! i) H) as Hi. simpl in Hi.
  rewrite !list_lookup_fmap in Hi.
  destruct (tt' !! i), (tt !! i); try discriminate; [|reflexivity].
  by injection Hi.
Qed.

Lemma lookup_touches pd m m' pd' name :
  wf m -> wf m' -> touches pd m m' -> pd' ≠ pd ->
  pefs_dircache_lookup pd' name m' = pefs_dircache_lookup pd' name m.
Proof.
  intros W W' T Hne. unfold pefs_dircache_lookup. cbv zeta.
  destruct (MPASS (negb (pd' =? NULL))); [|reflexivity]. rewrite !ret_bind.
  assert (load_pd m' pd' = load_pd m pd') as ->.
  { unfold load_pd. pose proof (tc_caches _ _ _ T pd' Hne) as H. unfold cache in H.
    by rewrite H. }
  destruct (load_pd m pd') as [c|] eqn:Hc; [|reflexivity]. rewrite !ret_bind.
  destruct (MPASS (negb (updating c))); [|reflexivity]. rewrite !ret_bind.
  destruct (MPASS (LIST_EMPTY (stale c))); [|reflexivity]. rewrite !ret_bind.
  pose proof (tc_pools _ _ _ T (pd_pool c)) as Hp. unfold load_pool.
  destruct (pools m' !! pd_pool c) as [p'|] eqn:Hp', (pools m !! pd_pool c) as [p|] eqn:Hp0;
    try discriminate; [|reflexivity].
  rewrite !ret_bind. apply (inj Some) in Hp. injection Hp as Ht _.
  assert (∀ h, DIRCACHE_TBL m' h = DIRCACHE_TBL m h) as Hidx.
  { intros h. unfold DIRCACHE_TBL. by rewrite (tc_hashmask _ _ _ T). }
  rewrite Hidx.
  pose proof (bucket_view pd m (pdp_tbl p) (pdp_tbl p')
                (DIRCACHE_TBL m (dircache_hashname pd' name (length name))) Ht) as Hb.
  destruct (bucket (pdp_tbl p') _) as [b'|] eqn:Hb', (bucket (pdp_tbl p) _) as [b|] eqn:Hb0;
    try (by destruct Hb).
  rewrite !ret_bind. apply (find_touches pd m m' _ b b' T); [| | |exact Hb].
  - intros q Hq. exact (wf_hash _ W _ _ _ Hp0 (bucket_in_tbl _ _ _ _ Hb0 Hq)).
  - intros q Hq. exact (wf_hash _ W' _ _ _ Hp' (bucket_in_tbl _ _ _ _ Hb' Hq)).
  - intros e He. apply name_hit in He as (_ & Ho & _). congruence.
Qed.

Lemma enclookup_touches pd m m' pd' encname :
  wf m -> wf m' -> touches pd m m' -> pd' ≠ pd ->
  pefs_dircache_enclookup pd' encname m' = pefs_dircache_enclookup pd' encname m.
Proof.
  intros W W' T Hne. unfold pefs_dircache_enclookup. cbv zeta.
  assert (load_pd m' pd' = load_pd m pd') as ->.
  { unfold load_pd. pose proof (tc_caches _ _ _ T pd' Hne) as H. unfold cache in H.
    by rewrite H. }
  destruct (load_pd m pd') as [c|] eqn:Hc; [|reflexivity]. rewrite !ret_bind.
  pose proof (tc_pools _ _ _ T (pd_pool c)) as Hp. unfold load_pool.
  destruct (pools m' !! pd_pool c) as [p'|] eqn:Hp', (pools m !! pd_pool c) as [p|] eqn:Hp0;
    try discriminate; [|reflexivity].
  rewrite !ret_bind. apply (inj Some) in Hp. injection Hp as _ Ht.
  assert (∀ h, DIRCACHE_TBL m' h = DIRCACHE_TBL m h) as Hidx.
  { intros h. unfold DIRCACHE_TBL. by rewrite (tc_hashmask _ _ _ T). }
  rewrite Hidx.
  pose proof (bucket_view pd m (pdp_enctbl p) (pdp_enctbl p')
                (DIRCACHE_TBL m (dircache_hashname pd' encname (length encname))) Ht) as Hb.
  destruct (bucket (pdp_enctbl p') _) as [b'|] eqn:Hb', (bucket (pdp_enctbl p) _) as [b|] eqn:Hb0;
    try (by destruct Hb).
  rewrite !ret_bind. apply (find_touches pd m m' _ b b' T); [| | |exact Hb].
  - intros q Hq. exact (wf_enchash _ W _ _ _ Hp0 (bucket_in_tbl _ _ _ _ Hb0 Hq)).
  - intros q Hq. exact (wf_enchash _ W' _ _ _ Hp' (bucket_in_tbl _ _ _ _ Hb' Hq)).
  - intros e He. apply encname_hit in He as (_ & Ho & _). congruence.
Qed.

(** X16: caches that share a pool do not see each other: an operation
    that returns leaves every cache other than the one it works on as it
    was, with its entries unchanged, and every lookup on such a cache,
    by name or by encrypted name, gives the result it gave before. *)
Theorem caches_isolated o m m' pd' :
  wf m -> dircache_inv m -> op_pre o m -> run_op o m = Ok m' ->
  pd' ≠ op_cache o m ->
  cache m' pd' = cache m pd' ∧
  (∀ q e, entry m q = Some e -> pde_dircache e = pd' -> entry m' q = Some e) ∧
  ∀ name,
    pefs_dircache_lookup pd' name m' = pefs_dircache_lookup pd' name m ∧
    pefs_dircache_enclookup pd' name m' = pefs_dircache_enclookup pd' name m.
Proof.
  intros W I Hpre H Hne.
  destruct (run_op_step o m m' W I Hpre H) as [W' _].
  pose proof (run_op_touches o m m' W H) as T.
  split; [exact (tc_caches _ _ _ T pd' Hne)|]. split.
  - intros q e He Ho. apply (tc_kept _ _ _ T q e He). congruence.
  - intros name. split.
    + exact (lookup_touches _ m m' pd' name W W' T Hne).
    + exact (enclookup_touches _ m m' pd' name W W' T Hne).
Qed.

End OpTouches.

Section Hashed.
Context {P : Platform}.
Implicit Types (m : kmem) (c : pefs_dircache) (e : pefs_dircache_entry).

Lemma hashed_freed S m m' : hashed m -> freed S m m' -> hashed m'.
Proof.
  intros Hh F p e He. rewrite (fr_entry _ _ _ F) in He.
  destruct (decide (p ∈ S)) as [|Hp]; [discriminate|].
  exact (cached_freed S m m' _ p e F Hp (Hh p e He)).
Qed.

Lemma hashed_relinked pd m m' : hashed m -> relinked pd m m' -> hashed m'.
Proof.
  intros Hh R p e' He'. destruct (relinked_entry_inv _ _ _ _ _ R He') as (e & He & Hid).
  destruct (cached_relinked _ _ _ _ _ _ R (Hh p e He)) as (g & Hc).
  pose proof (cached_entry _ _ _ _ Hc) as H. rewrite He' in H. injection H as ->.
  exact Hc.
Qed.

(** A change of the caches that keeps the cache of the entry. *)
Lemma cached_cache_frame m m' pd p e :
  (∀ q, entry m' q = entry m q) -> pools m' = pools m ->
  dircache_hashmask m' = dircache_hashmask m ->
  (∀ c, cache m pd = Some c -> ∃ c', cache m' pd = Some c' ∧ pd_pool c' = pd_pool c) ->
  cached m pd p e -> cached m' pd p e.
Proof.
  intros He Hp Hm Hc [H1 H2 H3 H4 H5 (c & pool & b & Hc1 & Hpool & Hb & Hin)
                        (c2 & pool2 & b2 & Hc2 & Hpool2 & Hb2 & Hin2)].
  assert (∀ h, DIRCACHE_TBL m' h = DIRCACHE_TBL m h) as Hidx.
  { intros h. unfold DIRCACHE_TBL. by rewrite Hm. }
  split; auto.
  - by rewrite He.
  - destruct (Hc c Hc1) as (c' & Hc' & Hpp). exists c', pool, b.
    rewrite Hpp, Hp, Hidx. auto.
  - destruct (Hc c2 Hc2) as (c' & Hc' & Hpp). exists c', pool2, b2.
    rewrite Hpp, Hp, Hidx. auto.
Qed.

Lemma hashed_create m pdp : hashed m -> hashed (pefs_dircache_create pdp m).1.
Proof.
  intros Hh p e He. apply (cached_cache_frame m); try reflexivity; [|exact (Hh p e He)].
  intros c Hc. exists c. split; [|reflexivity]. simpl.
  rewrite cache_store_pd, decide_False; [exact Hc|].
  intros E. destruct (uma_zalloc_fresh (dircache_zone m)) as [_ Hfresh].
  unfold cache in Hc. rewrite <- E in Hc. congruence.
Qed.

Lemma bucket_insert_mem (tt : list (list Z)) i j b b0 pde q :
  tt !! i = Some b -> bucket (Some tt) j = Ok b0 -> q ∈ b0 ->
  ∃ b1, bucket (Some (<[i := pde :: b]> tt)) j = Ok b1 ∧ q ∈ b1.
Proof.
  intros Hb Hb0 Hq. unfold bucket in *.
  destruct (tt !! j) as [bj|] eqn:Hj; [|discriminate]. injection Hb0 as ->.
  destruct (decide (i = j)) as [<-|Hne].
  - rewrite list_lookup_insert_eq by (eapply lookup_lt_Some; eauto).
    exists (pde :: b). split; [reflexivity|]. right. congruence.
  - rewrite list_lookup_insert_ne by exact Hne. rewrite Hj. eauto.
Qed.

Lemma hashed_insert m pd ptk name encname m' pde :
  wf m -> hashed m ->
  pefs_dircache_insert pd ptk name encname m = Ok (m', pde) -> hashed m'.
Proof.
  intros W Hh H. destruct (insert_pre _ _ _ _ _ _ H) as ((c & Hc) & _).
  destruct (insert_inv m pd c ptk name encname m' pde W Hc H)
    as [_ _ _ Hmask Hframe (e & Hcached & _) _].
  destruct (insert_linked m pd c ptk name encname m' pde W Hc H) as (e' & L & _).
  assert (e' = e) as ->.
  { pose proof (lk_entry _ _ _ _ _ _ L) as H1.
    rewrite (cached_entry _ _ _ _ Hcached) in H1. by injection H1. }
  pose proof (cached_owner _ _ _ _ Hcached) as Ho.
  destruct (lk_cache _ _ _ _ _ _ L) as (c' & Hc' & Hpool' & _).
  destruct (lk_pools _ _ _ _ _ _ L)
    as (pool & tt & tt' & b & b' & Hpool & Ht & Ht' & Hb & Hb' & Hpools).
  assert (∀ h, DIRCACHE_TBL m' h = DIRCACHE_TBL m h) as Hidx.
  { intros h. unfold DIRCACHE_TBL. by rewrite Hmask. }
  intros q e1 He1. destruct (decide (q = pde)) as [->|Hq].
  { rewrite (cached_entry _ _ _ _ Hcached) in He1. injection He1 as <-.
    by rewrite Ho. }
  pose proof (lk_entries _ _ _ _ _ _ L q Hq) as Hid. rewrite He1 in Hid.
  destruct (entry m q) as [e0|] eqn:He0; [|discriminate]. apply (inj Some) in Hid.
  destruct (Hh q e0 He0) as [_ _ H3 H4 H5 (c1 & pool1 & b1 & Hc1 & Hpool1 & Hb1 & Hin1)
                              (c2 & pool2 & b2 & Hc2 & Hpool2 & Hb2 & Hin2)].
  rewrite (same_id_eq _ _ Hid) in *. simpl in *.
  assert (∀ c0, cache m (pde_dircache e0) = Some c0 ->
                ∃ c0', cache m' (pde_dircache e0) = Some c0' ∧ pd_pool c0' = pd_pool c0)
    as Hcache.
  { intros c0 Hc0. destruct (decide (pde_dircache e0 = pd)) as [E|E].
    - rewrite E in *. rewrite Hc in Hc0. injection Hc0 as <-. eauto.
    - rewrite (Hframe _ E). eauto. }
  assert (∀ x pl (t : pefs_dircache_pool -> option (list (list Z))) j b0,
            t = pdp_tbl ∨ t = pdp_enctbl ->
            pools m !! x = Some pl -> bucket (t pl) j = Ok b0 -> q ∈ b0 ->
            ∃ pl' b1, pools m' !! x = Some pl' ∧ bucket (t pl') j = Ok b1 ∧ q ∈ b1)
    as Hbucket.
  { intros x pl t j b0 Ht0 Hx Hb0 Hin. rewrite Hpools.
    destruct (decide (x = pd_pool c)) as [->|Hx'].
    - rewrite lookup_insert_eq. rewrite Hpool in Hx. injection Hx as <-.
      destruct Ht0 as [-> | ->].
      + rewrite Ht in Hb0.
        destruct (bucket_insert_mem _ _ j _ b0 pde q Hb Hb0 Hin) as (b1' & Hb1' & Hin1').
        eexists _, b1'. split; [reflexivity|]. simpl. auto.
      + rewrite Ht' in Hb0.
        destruct (bucket_insert_mem _ _ j _ b0 pde q Hb' Hb0 Hin) as (b1' & Hb1' & Hin1').
        eexists _, b1'. split; [reflexivity|]. simpl. auto.
    - rewrite lookup_insert_ne by congruence. eauto. }
  split; auto.
  - destruct (Hcache c1 Hc1) as (c1' & Hc1' & Hpp).
    destruct (Hbucket (pd_pool c1) pool1 pdp_tbl _ b1 (or_introl eq_refl) Hpool1 Hb1 Hin1)
      as (pl' & b1' & ? & ? & ?).
    exists c1', pl', b1'. rewrite Hpp, Hidx. auto.
  - destruct (Hcache c2 Hc2) as (c2' & Hc2' & Hpp).
    destruct (Hbucket (pd_pool c2) pool2 pdp_enctbl _ b2 (or_intror eq_refl) Hpool2 Hb2 Hin2)
      as (pl' & b1' & ? & ? & ?).
    exists c2', pl', b1'. rewrite Hpp, Hidx. auto.
Qed.

Lemma beginupdate_relinked m pd g m' :
  wf m -> pefs_dircache_beginupdate pd g m = Ok m' -> relinked pd m m'.
Proof.
  intros W H.
  assert (∃ c, cache m pd = Some c) as (c & Hc).
  { unfold pefs_dircache_beginupdate in H. apply bind_Ok in H as (c & Hl & _).
    apply load_pd_Ok in Hl. eauto. }
  destruct (Z.eq_dec g 0) as [Hg0|Hg0].
  { rewrite (beginupdate_noop m pd c g Hc) in H by auto. injection H as <-.
    apply relinked_refl. }
  destruct (Z.eq_dec (pd_gen c) g) as [Hg|Hg].
  { rewrite (beginupdate_noop m pd c g Hc) in H by auto. injection H as <-.
    apply relinked_refl. }
  assert (INVARIANTS = false ∨ active c = [] ∨ stale c = []) as Hpre.
  { destruct INVARIANTS eqn:HI; [|by left]. right.
    destruct (active c) as [|a la] eqn:Ha; [by left|].
    destruct (stale c) as [|b lb] eqn:Hs; [by right|]. exfalso.
    unfold pefs_dircache_beginupdate in H.
    pose proof Hc as Hl. apply load_pd_Ok in Hl. rewrite Hl, ret_bind in H.
    apply Z.eqb_neq in Hg0, Hg. rewrite Hg0, Hg, Ha, Hs in H.
    unfold MPASS in H. rewrite HI in H. discriminate H. }
  destruct (beginupdate_spec m pd c g W Hc Hg0 Hg Hpre) as (m1 & c1 & Hrun & R & _).
  rewrite H in Hrun. by injection Hrun as <-.
Qed.

Lemma abortupdate_relinked m pd m' :
  wf m -> pefs_dircache_abortupdate pd m = Ok m' -> relinked pd m m'.
Proof.
  intros W H.
  assert (∃ c, cache m pd = Some c) as (c & Hc).
  { unfold pefs_dircache_abortupdate in H. apply bind_Ok in H as (c & Hl & _).
    apply load_pd_Ok in Hl. eauto. }
  destruct (updating c) eqn:Hu.
  - destruct (abortupdate_spec m pd c W Hc Hu) as (m1 & c1 & Hrun & R & _).
    rewrite H in Hrun. by injection Hrun as <-.
  - unfold pefs_dircache_abortupdate in H.
    pose proof Hc as Hl. apply load_pd_Ok in Hl.
    rewrite Hl, ret_bind, Hu, ret_bind, Hl, ret_bind in H.
    apply bind_Ok in H as (u & _ & [= <-]). apply relinked_refl.
Qed.

Lemma hashed_run_op o m m' :
  wf m -> hashed m -> run_op o m = Ok m' -> hashed m'.
Proof.
  intros W Hh H. destruct o; simpl in H.
  - injection H as <-. by apply hashed_create.
  - unfold pefs_dircache_purge in H. destruct (_ =? NULL); [by injection H as <-|].
    apply bind_Ok in H as (m1 & H1 & H).
    destruct (free_all_done _ _ _ _ H1) as (S1 & c1 & F1 & _).
    destruct (free_all_done _ _ _ _ H) as (S2 & c2 & F2 & _).
    eauto using hashed_freed.
  - unfold pefs_dircache_free in H. destruct (pd =? NULL) eqn:Hnn; [by injection H as <-|].
    apply bind_Ok in H as (m1 & Hp & H). apply bind_Ok in H as (c1 & Hl & [= <-]).
    assert (∃ c, cache m pd = Some c) as (c & Hc).
    { unfold pefs_dircache_purge in Hp. rewrite Hnn in Hp.
      apply bind_Ok in Hp as (m0 & H1 & _). unfold free_all in H1.
      apply bind_Ok in H1 as (c & Hl0 & _). apply load_pd_Ok in Hl0. eauto. }
    destruct (purge_spec m pd c W Hc) as (m1' & S & Hrun & F & W1 & _ & Hc1 & H0 & H1).
    rewrite Hp in Hrun. injection Hrun as <-.
    pose proof (hashed_freed _ _ _ Hh F) as Hh1.
    intros p e He. apply (cached_cache_frame m1); try reflexivity; [|exact (Hh1 p e He)].
    intros c0 Hc0. exists c0. split; [|reflexivity].
    rewrite cache_delete, decide_False; [exact Hc0|]. intros E.
    destruct (wf_live _ W1 p e He) as (c2 & Hc2 & Hd).
    rewrite <- E, Hc1 in Hc2. injection Hc2 as <-.
    unfold on_dir in Hd. rewrite H0, H1 in Hd.
    destruct Hd as [Hd|Hd]; by apply elem_of_nil in Hd.
  - apply bind_Ok in H as ([m1 pde] & Hins & [= <-]). eapply hashed_insert; eauto.
  - by apply bind_Ok in H as (r & _ & [= <-]).
  - by apply bind_Ok in H as (r & _ & [= <-]).
  - assert (∃ e, entry m pde = Some e) as (e & He).
    { unfold pefs_dircache_update, dircache_update in H.
      apply bind_Ok in H as (e & Hl & _). apply load_pde_Ok in Hl. eauto. }
    destruct (wf_live _ W _ _ He) as (c & Hc & _).
    destruct (update_spec m pde e c W He Hc) as (m1 & Hrun & R & _).
    rewrite H in Hrun. injection Hrun as <-. eapply hashed_relinked; eauto.
  - eapply hashed_relinked; eauto using beginupdate_relinked.
  - eapply hashed_relinked; eauto using abortupdate_relinked.
  - assert (∃ c, cache m pd = Some c) as (c & Hc).
    { unfold pefs_dircache_endupdate in H. apply bind_Ok in H as (c & Hl & _).
      apply load_pd_Ok in Hl. eauto. }
    destruct (updating c) eqn:Hu.
    + destruct (endupdate_spec m pd c W Hc Hu) as (m1 & m2 & S & c2 & Hrun & F & R & _).
      rewrite H in Hrun. injection Hrun as <-.
      eapply hashed_relinked; [|exact R]. eapply hashed_freed; eauto.
    + unfold pefs_dircache_endupdate in H.
      pose proof Hc as Hl. apply load_pd_Ok in Hl.
      rewrite Hl, ret_bind, Hu in H. cbn [negb] in H.
      by apply bind_Ok in H as (u & _ & [= <-]).
Qed.

Lemma hashed_run_ops os :
  ∀ m m', wf m -> dircache_inv m -> hashed m -> ops_pre os m ->
          run_ops os m = Ok m' -> wf m' ∧ hashed m'.
Proof.
  induction os as [|o os IH]; intros m m' W I Hh Hpre H; simpl in H.
  - injection H as <-. auto.
  - apply bind_Ok in H as (m1 & H1 & H). destruct Hpre as [Hpre Hrest].
    destruct (run_op_step o m m1 W I Hpre H1) as [W1 I1].
    apply (IH m1 m' W1 I1); [exact (hashed_run_op o m m1 W Hh H1)|exact (Hrest m1 H1)|exact H].
Qed.

(** X4: through every sequence of operations that returns, every
    allocated entry stays linked in the two buckets its hashes select,
    so the lookup by encrypted name of its encrypted name in its cache
    finds an entry of that cache with that encrypted name. *)
Theorem every_entry_is_found os m m' :
  wf m -> dircache_inv m -> hashed m -> ops_pre os m -> run_ops os m = Ok m' ->
  hashed m' ∧
  ∀ p e, entry m' p = Some e ->
    ∃ p' e', pefs_dircache_enclookup (pde_dircache e) (entry_encname e) m' = Ok p' ∧
             p' ≠ NULL ∧ entry m' p' = Some e' ∧
             pde_dircache e' = pde_dircache e ∧ entry_encname e' = entry_encname e.
Proof.
  intros W I Hh Hpre H.
  destruct (hashed_run_ops os m m' W I Hh Hpre H) as [W' Hh'].
  split; [exact Hh'|]. intros p e He.
  destruct (enclookup_hit m' _ p e W' (Hh' p e He)) as (p' & e' & H1 & H2 & H3 & H4 & H5 & _).
  eauto 10.
Qed.

(** X18: no sequence of operations that returns leaves a dangling
    link or a leaked entry: every address on a list of a cache is an
    allocated entry of that cache, every address in a bucket is an
    allocated entry, every allocated entry is on a list of its cache,
    and the pool of every cache has both tables with every bucket index
    in range. *)
Theorem links_stay_valid os m m' :
  wf m -> dircache_inv m -> ops_pre os m -> run_ops os m = Ok m' ->
  (∀ pd c p, cache m' pd = Some c -> on_dir c p ->
             ∃ e, entry m' p = Some e ∧ pde_dircache e = pd) ∧
  (∀ pdp pool p, pools m' !! pdp = Some pool ->
                 in_tbl (pdp_tbl pool) p ∨ in_tbl (pdp_enctbl pool) p ->
                 is_Some (entry m' p)) ∧
  (∀ p e, entry m' p = Some e ->
          ∃ c, cache m' (pde_dircache e) = Some c ∧ on_dir c p) ∧
  (∀ pd c, cache m' pd = Some c -> pool_ok m' (pd_pool c)).
Proof.
  intros W I Hpre H. destruct (run_ops_steps os m m' W I Hpre H) as [W' _].
  split; [exact (wf_dir _ W')|]. split.
  - intros pdp pool p Hpool [Hin|Hin].
    + exact (wf_hash _ W' _ _ _ Hpool Hin).
    + exact (wf_enchash _ W' _ _ _ Hpool Hin).
  - split; [exact (wf_live _ W')|exact (wf_pool _ W')].
Qed.

End Hashed.

Section Lifecycle.
Context {P : Platform}.
Implicit Types (m : kmem) (c : pefs_dircache) (e : pefs_dircache_entry).

(** X14: [pefs_dircache_create] returns a new cache, not NULL, and
    leaves the other caches and all entries as they were; every lookup
    on the new cache, by name or by encrypted name, returns NULL. *)
Theorem create_then_lookup m pdp :
  wf m -> pool_ok m pdp ->
  let m' := (pefs_dircache_create pdp m).1 in
  let pd := (pefs_dircache_create pdp m).2 in
  pd ≠ NULL ∧ cache m pd = None ∧ wf m' ∧
  (∀ pd', pd' ≠ pd -> cache m' pd' = cache m pd') ∧
  (∀ q, entry m' q = entry m q) ∧
  ∀ name, pefs_dircache_lookup pd name m' = Ok NULL ∧
          pefs_dircache_enclookup pd name m' = Ok NULL.
Proof.
  intros W Hpool m' pd.
  destruct (create_spec m pdp W Hpool) as (Hnn & Hfresh & W' & Hc & Hframe & _).
  fold m' pd in Hnn, Hfresh, W', Hc, Hframe.
  split; [exact Hnn|]. split; [exact Hfresh|]. split; [exact W'|].
  split; [exact Hframe|]. split; [reflexivity|]. intros name. split.
  - rewrite (lookup_miss m' pd _ name W' Hc); [|reflexivity|].
    + unfold updating. simpl. by rewrite andb_false_r.
    + intros q e Hq. by apply elem_of_nil in Hq.
  - apply (enclookup_miss m' pd _ name W' Hc).
    intros q e [Hq|Hq]; by apply elem_of_nil in Hq.
Qed.

Lemma delete_cache_wf m pd c :
  wf m -> cache m pd = Some c -> pd_heads0 c = [] -> pd_heads1 c = [] ->
  wf (with_dircache_zone (delete pd (dircache_zone m)) m).
Proof.
  intros W1 Hc H0 H1. split; [split|].
  - rewrite cache_delete. destruct (decide _); [reflexivity|]. exact (wf_null_pd _ W1).
  - exact (wf_null_pde _ W1).
  - intros pd' c' p Hc' Hp'. rewrite cache_delete in Hc'.
    destruct (decide (pd = pd')); [discriminate|]. exact (wf_dir _ W1 _ _ _ Hc' Hp').
  - intros pd' c' Hc'. rewrite cache_delete in Hc'.
    destruct (decide (pd = pd')); [discriminate|].
    apply (pool_ok_frame m); try reflexivity. exact (wf_pool _ W1 _ _ Hc').
  - exact (wf_hash _ W1).
  - exact (wf_enchash _ W1).
  - intros p e He. destruct (wf_live _ W1 p e He) as (c' & Hc' & Hd).
    exists c'. split; [|exact Hd]. rewrite cache_delete.
    destruct (decide (pd = pde_dircache e)) as [E|]; [|exact Hc'].
    rewrite <- E, Hc in Hc'. injection Hc' as <-.
    unfold on_dir in Hd. rewrite H0, H1 in Hd.
    destruct Hd as [Hd|Hd]; by apply elem_of_nil in Hd.
Qed.

(** X15: [pefs_dircache_free] of a cache returns, releases the cache
    and exactly its entries, which it unlinks from every bucket, and
    leaves the other caches and their entries as they were, in a store
    that is consistent again. *)
Theorem free_releases_cache m pd c :
  wf m -> cache m pd = Some c ->
  ∃ m', pefs_dircache_free pd m = Ok m' ∧ wf m' ∧ cache m' pd = None ∧
        (∀ q, on_dir c q ->
              entry m' q = None ∧
              ∀ pdp pool, pools m' !! pdp = Some pool ->
                          ¬ in_tbl (pdp_tbl pool) q ∧ ¬ in_tbl (pdp_enctbl pool) q) ∧
        (∀ q e, entry m q = Some e -> pde_dircache e ≠ pd -> entry m' q = Some e) ∧
        (∀ pd', pd' ≠ pd -> cache m' pd' = cache m pd').
Proof.
  intros W Hc.
  destruct (purge_spec m pd c W Hc) as (m1 & S & Hrun & F & W1 & HS & Hc1 & H0 & H1).
  assert (pefs_dircache_free pd m
          = Ok (with_dircache_zone (delete pd (dircache_zone m1)) m1)) as Hfree.
  { unfold pefs_dircache_free. rewrite (wf_nonnull_pd m pd c W Hc), Hrun, ret_bind.
    apply load_pd_Ok in Hc1. by rewrite Hc1, ret_bind. }
  pose proof (free_touches m pd _ W Hfree) as T.
  eexists. split; [exact Hfree|].
  split; [exact (delete_cache_wf m1 pd _ W1 Hc1 H0 H1)|].
  split; [rewrite cache_delete; by rewrite decide_True|]. split.
  - intros q Hq. apply HS in Hq. split.
    + transitivity (entry m1 q); [reflexivity|].
      rewrite (fr_entry _ _ _ F). by rewrite decide_True.
    + intros pdp pool Hpool.
      assert (pools m1 !! pdp = Some pool) as Hpool1 by exact Hpool.
      rewrite (fr_pools _ _ _ F) in Hpool1.
      destruct (pools m !! pdp) as [pool0|]; [|discriminate].
      injection Hpool1 as <-. simpl. rewrite !in_tbl_drop. tauto.
  - split; [exact (tc_kept _ _ _ T)|exact (tc_caches _ _ _ T)].
Qed.

(** X9: [pefs_dircache_update] on a cache with no pass open does
    nothing when the entry carries the current, non-zero generation of
    the cache; otherwise it invalidates the cache: the generation is
    reset to 0, every entry of the cache is on the stale list, the entry
    is stamped 0, and no entry is allocated or freed. *)
Theorem update_outside_pass m p e c :
  wf m -> entry m p = Some e -> cache m (pde_dircache e) = Some c ->
  updating c = false ->
  (pd_gen c ≠ 0 -> pde_gen e = pd_gen c -> pefs_dircache_update p m = Ok m) ∧
  (pd_gen c = 0 ∨ pde_gen e ≠ pd_gen c ->
   ∃ m' c',
     pefs_dircache_update p m = Ok m' ∧
     cache m' (pde_dircache e) = Some c' ∧ pd_gen c' = 0 ∧ updating c' = false ∧
     active c' = [] ∧ (∀ q, q ∈ stale c' ↔ on_dir c q) ∧
     entry m' p = Some (set_pde_gen 0 e) ∧
     ∀ q, is_Some (entry m' q) ↔ is_Some (entry m q)).
Proof.
  intros W He Hc Hu. pose proof He as Hle. apply load_pde_Ok in Hle.
  pose proof Hc as Hl. apply load_pd_Ok in Hl. split.
  - intros Hg0 Hg. unfold pefs_dircache_update, dircache_update.
    rewrite Hle, ret_bind. cbv zeta. rewrite Hl, ret_bind, Hu.
    apply Z.eqb_neq in Hg0. rewrite Hg0, Hg, Z.eqb_refl. reflexivity.
  - intros Hg. unfold pefs_dircache_update, dircache_update.
    rewrite Hle, ret_bind. cbv zeta. rewrite Hl, ret_bind, Hu.
    assert ((pd_gen c =? 0) || negb (pd_gen c =? pde_gen e) = true) as ->.
    { apply orb_true_iff. destruct Hg as [Hg|Hg]; [left; by apply Z.eqb_eq|right].
      apply negb_true_iff, Z.eqb_neq. congruence. }
    destruct (dircache_expire_spec m _ c W Hc)
      as (m1 & c1 & Hrun & R1 & Hc1 & Ha1 & Hg1 & Hu1).
    rewrite Hrun, ret_bind.
    destruct (relinked_entry _ _ _ _ _ R1 He) as (e1 & He1 & Hid).
    pose proof He1 as Hle1. apply load_pde_Ok in Hle1. rewrite Hle1, ret_bind.
    change (1 =? 0) with false. cbv iota zeta.
    destruct (relinked_cache _ _ _ _ _ R1 Hc) as (c1' & Hc1' & _ & Hd1).
    rewrite Hc1 in Hc1'. injection Hc1' as <-.
    eexists _, c1. split; [reflexivity|]. split; [exact Hc1|].
    split; [exact Hg1|]. split; [by rewrite Hu1|]. split; [exact Ha1|].
    split; [exact (all_stale c c1 Hd1 Ha1)|]. split.
    + rewrite entry_store_pde, decide_True by reflexivity. f_equal. exact Hid.
    + intros q. rewrite entry_store_pde. destruct (decide (p = q)) as [<-|Hq].
      * split; eauto.
      * pose proof (rl_entry _ _ _ R1 q) as H.
        destruct (entry m1 q), (entry m q); try discriminate; split; eauto;
          intros (? & [=]).
Qed.

Lemma empty_store_ok m :
  dircache_zone m = ∅ -> dircache_entry_zone m = ∅ ->
  (∀ pdp pool p, pools m !! pdp = Some pool ->
                 ¬ in_tbl (pdp_tbl pool) p ∧ ¬ in_tbl (pdp_enctbl pool) p) ->
  wf m ∧ dircache_inv m ∧ hashed m.
Proof.
  intros Hz Hez Hp.
  assert (∀ pd, cache m pd = None) as Hc.
  { intros pd. unfold cache. by rewrite Hz, lookup_empty. }
  assert (∀ p, entry m p = None) as He.
  { intros p. unfold entry. by rewrite Hez, lookup_empty. }
  split; [split; [split|]|split].
  - apply Hc.
  - apply He.
  - intros pd c p Hcp. rewrite Hc in Hcp. discriminate.
  - intros pd c Hcp. rewrite Hc in Hcp. discriminate.
  - intros pdp pool p Hpool Hin. by destruct (Hp pdp pool p Hpool) as [H _].
  - intros pdp pool p Hpool Hin. by destruct (Hp pdp pool p Hpool) as [_ H].
  - intros p e Hep. rewrite He in Hep. discriminate.
  - intros pd c Hcp. rewrite Hc in Hcp. discriminate.
  - intros p e Hep. rewrite He in Hep. discriminate.
Qed.

(** The store after [pefs_dircache_init] and
    [pefs_dircache_pool_create] has no cache, no entry and nothing in
    a bucket, and the pool handed out is set up. *)
Lemma init_pool_empty tb tg dv global k :
  let b := buckets_used (default 0 tb) dv in
  0 <= b < 2 ^ 63 ->
  2 ^ flsl b * sizeof_listhead < 2 ^ 64 ->
  ∃ m m1 pdp,
    pefs_dircache_init tb tg dv global (boot k) = Ok m ∧
    pefs_dircache_pool_create global m = Ok (m1, pdp) ∧
    (dircache_zone m1 = ∅ ∧ dircache_entry_zone m1 = ∅ ∧
     ∀ x pool p, pools m1 !! x = Some pool ->
                 ¬ in_tbl (pdp_tbl pool) p ∧ ¬ in_tbl (pdp_enctbl pool) p) ∧
    entries_counted m1 ∧ pool_ok m1 pdp ∧
    (default 1 tg ≠ 0 -> pdp = global ∧ m1 = m) ∧
    (default 1 tg = 0 -> pdp ≠ global ∧ pdp ≠ NULL).
Proof.
  intros b Hb Hfit. pose proof (flsl_range b Hb) as Hk.
  destruct (init_Ok tb tg dv global k Hb (or_intror Hfit)) as (m & Hinit & Hts & Hmask).
  destruct (init_inv _ _ _ _ _ _ Hinit)
    as (_ & Hz & Hez & Hn & _ & _ & Hge & Hpools & _).
  fold b in Hts, Hmask. rewrite Hts in Hpools.
  assert (∃ m1 pdp,
            pefs_dircache_pool_create global m = Ok (m1, pdp) ∧
            dircache_zone m1 = ∅ ∧ dircache_entry_zone m1 = ∅ ∧ dircache_entries m1 = 0 ∧
            dircache_hashmask m1 = Z.ones (flsl b) ∧
            pools m1 = {[ pdp := {| pdp_tbl := Some (replicate (Z.to_nat (2 ^ flsl b)) []);
                                    pdp_enctbl := Some (replicate (Z.to_nat (2 ^ flsl b)) []) |} ]} ∧
            (default 1 tg ≠ 0 -> pdp = global ∧ m1 = m) ∧
            (default 1 tg = 0 -> pdp ≠ global ∧ pdp ≠ NULL))
    as (m1 & pdp & Hcreate & Hz1 & Hez1 & Hn1 & Hm1 & Hp1 & Hglobal & Hprivate).
  { unfold pefs_dircache_pool_create. rewrite Hge.
    destruct (default 1 tg =? 0) eqn:Hg; simpl negb; cbv iota.
    - rewrite pool_init_Ok by (rewrite Hts; exact Hfit). rewrite ret_bind, Hts.
      eexists _, _. split; [reflexivity|]. unfold store_pool. simpl.
      rewrite Hpools. do 5 (split; [assumption || reflexivity|]).
      apply Z.eqb_eq in Hg. split; [intros ?; contradiction|]. intros _.
      pose proof (is_fresh ({[NULL; global]} ∪ dom (pools m))) as Hx.
      rewrite not_elem_of_union, not_elem_of_union, !not_elem_of_singleton in Hx.
      destruct Hx as ((Hnn & Hng) & _). rewrite Hpools in Hnn, Hng. auto.
    - exists m, global. split; [reflexivity|]. do 5 (split; [assumption|]).
      apply Z.eqb_neq in Hg. split; [auto|]. intros ?. contradiction. }
  exists m, m1, pdp. split; [exact Hinit|]. split; [exact Hcreate|]. split.
  { split; [exact Hz1|]. split; [exact Hez1|]. intros x pool p. rewrite Hp1. intros Hx.
    apply lookup_singleton_Some in Hx as [_ <-]. simpl. split; apply in_tbl_replicate. }
  split.
  { unfold entries_counted. rewrite Hn1, Hez1. reflexivity. }
  split.
  { eexists. split; [rewrite Hp1; apply lookup_singleton_eq|]. simpl.
    split; apply tbl_ok_replicate; try lia; exact Hm1. }
  split; [exact Hglobal|exact Hprivate].
Qed.

(** X23: after [pefs_dircache_init] and [pefs_dircache_pool_create],
    for a bucket count below [2^63] whose table has a byte count below
    [2^64], in both pool modes, both return and the store is consistent,
    with no entry, the counter exact, and the pool handed out has both
    tables with every bucket index in range: it is ready for
    [pefs_dircache_create]. *)
Theorem init_then_pool_create tb tg dv global k :
  let b := buckets_used (default 0 tb) dv in
  0 <= b < 2 ^ 63 ->
  2 ^ flsl b * sizeof_listhead < 2 ^ 64 ->
  ∃ m m1 pdp,
    pefs_dircache_init tb tg dv global (boot k) = Ok m ∧
    pefs_dircache_pool_create global m = Ok (m1, pdp) ∧
    wf m1 ∧ dircache_inv m1 ∧ hashed m1 ∧ entries_counted m1 ∧ pool_ok m1 pdp ∧
    (default 1 tg ≠ 0 -> pdp = global ∧ m1 = m) ∧
    (default 1 tg = 0 -> pdp ≠ global ∧ pdp ≠ NULL).
Proof.
  intros b Hb Hfit.
  destruct (init_pool_empty tb tg dv global k Hb Hfit)
    as (m & m1 & pdp & Hinit & Hcreate & (Hz & Hez & Hp) & Hn & Hrest).
  destruct (empty_store_ok _ Hz Hez Hp) as (W & I & Hh).
  exists m, m1, pdp. split; [exact Hinit|]. split; [exact Hcreate|].
  split; [exact W|]. split; [exact I|]. split; [exact Hh|]. split; [exact Hn|].
  exact Hrest.
Qed.

End Lifecycle.

Section More.
Context {P : Platform}.
Implicit Types (m : kmem) (c : pefs_dircache) (e : pefs_dircache_entry).

(** X3: in a consistent store whose entries are all hashed, the
    plaintext lookup finds what is committed: for an entry of a cache
    that has no pass open and an empty stale list, stamped with the
    current generation, the lookup of its name returns an entry of that
    cache with that stamp and name, the entry itself when no other such
    entry holds the name. *)
Theorem committed_entry_is_found m pd c p e :
  wf m -> hashed m -> cache m pd = Some c -> updating c = false -> stale c = [] ->
  entry m p = Some e -> pde_dircache e = pd -> pde_gen e = pd_gen c ->
  ∃ p' e', pefs_dircache_lookup pd (entry_name e) m = Ok p' ∧ p' ≠ NULL ∧
           entry m p' = Some e' ∧ pde_dircache e' = pd ∧
           pde_gen e' = pd_gen c ∧ entry_name e' = entry_name e ∧
           ((∀ q e2, entry m q = Some e2 -> pde_dircache e2 = pd ->
                     pde_gen e2 = pd_gen c -> entry_name e2 = entry_name e -> q = p) ->
            p' = p).
Proof.
  intros W Hh Hc Hu Hst He Ho Hg. pose proof (Hh p e He) as Hcached.
  rewrite Ho in Hcached.
  exact (lookup_hit m pd c p e W Hc (or_intror (conj Hu Hst)) Hcached Hg).
Qed.

(** X10: [pefs_dircache_beginupdate] with another non-zero generation
    inside an open pass restarts the pass: everything inserted or
    reconfirmed so far goes back to the stale list, nothing is freed,
    and an [endupdate] right after it frees every entry of the cache. *)
Theorem beginupdate_restarts_pass m pd c g :
  wf m -> cache m pd = Some c -> updating c = true ->
  INVARIANTS = false ∨ active c = [] ∨ stale c = [] ->
  g ≠ 0 -> g ≠ pd_gen c ->
  ∃ m1 c1,
    pefs_dircache_beginupdate pd g m = Ok m1 ∧
    cache m1 pd = Some c1 ∧ updating c1 = true ∧ pd_gen c1 = g ∧
    active c1 = [] ∧ (∀ q, q ∈ stale c1 ↔ on_dir c q) ∧
    (∀ q, is_Some (entry m1 q) ↔ is_Some (entry m q)) ∧
    ∃ m2, pefs_dircache_endupdate pd m1 = Ok m2 ∧
          ∀ q, on_dir c q -> entry m2 q = None.
Proof.
  intros W Hc Hu Hpre Hg0 Hg.
  destruct (beginupdate_spec m pd c g W Hc Hg0 (not_eq_sym Hg) Hpre)
    as (m1 & c1 & Hbegin & R & Hc1 & Hg1 & Hu1 & Ha1).
  pose proof (relinked_wf _ _ _ W R) as W1.
  destruct (relinked_cache _ _ _ _ _ R Hc) as (c1' & Hc1' & _ & Hd).
  rewrite Hc1 in Hc1'. injection Hc1' as <-.
  pose proof (all_stale c c1 Hd Ha1) as Hst.
  destruct (endupdate_spec m1 pd c1 W1 Hc1 Hu1)
    as (mx & m2 & S & c2 & Hend & F & R2 & HS & _ & _ & _ & _ & _ & _ & Hz).
  exists m1, c1. split; [exact Hbegin|]. split; [exact Hc1|]. split; [exact Hu1|].
  split; [exact Hg1|]. split; [exact Ha1|]. split; [exact Hst|]. split.
  - intros q. pose proof (rl_entry _ _ _ R q) as H.
    destruct (entry m1 q), (entry m q); try discriminate; split; eauto; intros (? & [=]).
  - exists m2. split; [exact Hend|]. intros q Hq.
    transitivity (entry mx q); [unfold entry; by rewrite Hz|].
    rewrite (fr_entry _ _ _ F), decide_True; [reflexivity|]. apply HS, Hst, Hq.
Qed.

End More.

Section Stamped.
Context {P : Platform}.
Implicit Types (m : kmem) (c : pefs_dircache) (e : pefs_dircache_entry).

Lemma active_heads_nil c : pd_heads0 c = [] -> pd_heads1 c = [] -> active c = [].
Proof.
  intros H0 H1. unfold active, pd_heads. rewrite H0, H1. by destruct (_ =? 0).
Qed.

(** An operation on the cache [pd] keeps the stamps of the active lists
    when it keeps those of the active list of [pd]. *)
Lemma stamped_touches pd m m' :
  wf m' -> touches pd m m' -> stamped m ->
  (∀ c q e, cache m' pd = Some c -> q ∈ active c -> entry m' q = Some e ->
            pde_gen e = pd_gen c) ->
  stamped m'.
Proof.
  intros W' T Hs Hpd pd0 c q e Hc Hq He.
  destruct (decide (pd0 = pd)) as [->|Hne]; [eauto|].
  assert (on_dir c q) as Hd by (apply on_dir_active_stale; auto).
  destruct (wf_dir _ W' _ _ _ Hc Hd) as (e' & He' & Ho).
  rewrite He in He'. injection He' as <-.
  rewrite (tc_caches _ _ _ T pd0 Hne) in Hc.
  apply (Hs pd0 c q e Hc Hq). apply (tc_new _ _ _ T q e He). congruence.
Qed.

Lemma stamped_run_op o m m' :
  wf m -> dircache_inv m -> op_pre o m -> stamped m -> run_op o m = Ok m' -> stamped m'.
Proof.
  intros W I Hpre Hs H.
  destruct (run_op_step o m m' W I Hpre H) as [W' _].
  apply (stamped_touches (op_cache o m) m m' W' (run_op_touches o m m' W H) Hs).
  intros c' q e' Hc' Hq He'. destruct o; cbn [op_cache run_op op_pre] in *.
  - destruct (create_spec m pdp W Hpre) as (_ & _ & _ & Hc & _).
    injection H as <-.
    assert (Some c' = Some {| pd_heads0 := []; pd_heads1 := []; pd_gen := 0;
                              pd_flags := 0; pd_pool := pdp |}) as [= ->].
    { rewrite <- Hc'. exact Hc. }
    inversion Hq.
  - destruct (Z.eq_dec pd NULL) as [->|Hnn].
    { injection H as <-. eauto. }
    destruct (purge_step m pd m' W I H) as (_ & _ & Hempty).
    destruct (Hempty Hnn) as (c & Hc & H0 & H1). rewrite Hc in Hc'. injection Hc' as <-.
    rewrite (active_heads_nil c H0 H1) in Hq. inversion Hq.
  - unfold pefs_dircache_free in H. destruct (pd =? NULL) eqn:Hnn.
    { injection H as <-. eauto. }
    apply bind_Ok in H as (m1 & _ & H). apply bind_Ok in H as (c1 & _ & [= <-]).
    rewrite cache_delete, decide_True in Hc' by reflexivity. discriminate.
  - apply bind_Ok in H as ([m1 pde] & Hins & H). simpl in H. injection H as ->.
    destruct (insert_pre _ _ _ _ _ _ Hins) as ((c & Hc) & _).
    destruct (insert_inv m pd c ptk name encname m' pde W Hc Hins)
      as [_ Hfresh _ _ _ (e & _ & _ & _ & _ & _ & _ & Hupd & _) (c2 & Hc2 & Hu2 & Hi2)].
    rewrite Hc2 in Hc'. injection Hc' as <-.
    destruct (updating c) eqn:Hu.
    + destruct (Hupd eq_refl) as [Hg Hz]. rewrite (Hu2 eq_refl) in Hq |- *.
      rewrite pd_gen_set_pd_heads, active_set_active in *.
      unfold entry in He'. rewrite Hz in He'.
      apply elem_of_cons in Hq as [->|Hq].
      * rewrite lookup_insert_eq in He'. injection He' as <-. exact Hg.
      * rewrite lookup_insert_ne in He'.
        -- exact (Hs pd c q e' Hc Hq He').
        -- intros ->.
           destruct (wf_dir _ W _ _ _ Hc (proj2 (on_dir_active_stale c _) (or_introl Hq)))
             as (e0 & He0 & _).
           congruence.
    + destruct (Hi2 eq_refl) as (_ & _ & Ha). rewrite Ha in Hq. inversion Hq.
  - apply bind_Ok in H as (r & _ & [= <-]). eauto.
  - apply bind_Ok in H as (r & _ & [= <-]). eauto.
  - assert (∃ e, entry m pde = Some e) as (e & He).
    { unfold pefs_dircache_update, dircache_update in H.
      apply bind_Ok in H as (e & Hl & _). apply load_pde_Ok in Hl. eauto. }
    rewrite He in Hc'. simpl in Hc'.
    destruct (wf_live _ W _ _ He) as (c & Hc & _).
    destruct (update_spec m pde e c W He Hc) as (m1 & Hrun & _ & Hupd & Hidle).
    rewrite H in Hrun. injection Hrun as <-.
    destruct (updating c) eqn:Hu.
    + destruct (Hupd eq_refl) as (c2 & Hc2 & Hg2 & _ & Ha2 & _ & Hz).
      rewrite Hc2 in Hc'. injection Hc' as <-. rewrite Hg2, Ha2 in *.
      unfold entry in He'. rewrite Hz in He'.
      apply elem_of_cons in Hq as [->|Hq].
      * rewrite lookup_insert_eq in He'. by injection He' as <-.
      * apply elem_of_drop in Hq as [Hq Hne].
        rewrite lookup_insert_ne in He'.
        -- exact (Hs _ c q e' Hc Hq He').
        -- intros ->. apply Hne. apply list_elem_of_here.
    + destruct (Hidle eq_refl) as [->|(c2 & Hc2 & _ & Ha2)]; [eauto|].
      rewrite Hc2 in Hc'. injection Hc' as <-. rewrite Ha2 in Hq. inversion Hq.
  - assert (∃ c, cache m pd = Some c) as (c & Hc).
    { unfold pefs_dircache_beginupdate in H. apply bind_Ok in H as (c & Hl & _).
      apply load_pd_Ok in Hl. eauto. }
    destruct (Z.eq_dec gen 0) as [Hg0|Hg0].
    { rewrite (beginupdate_noop m pd c gen Hc) in H by auto. injection H as <-. eauto. }
    destruct (Z.eq_dec (pd_gen c) gen) as [Hg|Hg].
    { rewrite (beginupdate_noop m pd c gen Hc) in H by auto. injection H as <-. eauto. }
    pose proof (beginupdate_outcome m pd c gen W Hc) as Hout. rewrite H in Hout.
    destruct (INVARIANTS && _ && _ && _ && _) eqn:Hb in Hout; [discriminate|].
    assert (INVARIANTS = false ∨ active c = [] ∨ stale c = []) as Hok.
    { apply Z.eqb_neq in Hg0, Hg. rewrite Hg0, Hg in Hb. simpl in Hb.
      rewrite !andb_true_r in Hb.
      destruct INVARIANTS; [|by left]. right. simpl in Hb.
      destruct (active c); [by left|]. destruct (stale c); [by right|]. discriminate. }
    destruct (beginupdate_spec m pd c gen W Hc Hg0 Hg Hok)
      as (m1 & c1 & Hrun & _ & Hc1 & _ & _ & Ha1).
    rewrite H in Hrun. injection Hrun as <-.
    rewrite Hc1 in Hc'. injection Hc' as <-. rewrite Ha1 in Hq. inversion Hq.
  - assert (∃ c, cache m pd = Some c) as (c & Hc).
    { unfold pefs_dircache_abortupdate in H. apply bind_Ok in H as (c & Hl & _).
      apply load_pd_Ok in Hl. eauto. }
    destruct (updating c) eqn:Hu.
    + destruct (abortupdate_spec m pd c W Hc Hu) as (m1 & c1 & Hrun & _ & Hc1 & _ & _ & Ha1).
      rewrite H in Hrun. injection Hrun as <-.
      rewrite Hc1 in Hc'. injection Hc' as <-. rewrite Ha1 in Hq. inversion Hq.
    + unfold pefs_dircache_abortupdate in H.
      pose proof Hc as Hl. apply load_pd_Ok in Hl.
      rewrite Hl, ret_bind, Hu, ret_bind, Hl, ret_bind in H.
      apply bind_Ok in H as (u & _ & [= <-]). eauto.
  - assert (∃ c, cache m pd = Some c) as (c & Hc).
    { unfold pefs_dircache_endupdate in H. apply bind_Ok in H as (c & Hl & _).
      apply load_pd_Ok in Hl. eauto. }
    destruct (updating c) eqn:Hu.
    + destruct (endupdate_spec m pd c W Hc Hu)
        as (m1 & m2 & S & c2 & Hrun & F & _ & _ & _ & Hc2 & _ & _ & Ha2 & Hg2 & Hz).
      rewrite H in Hrun. injection Hrun as <-.
      rewrite Hc2 in Hc'. injection Hc' as <-. rewrite Hg2, Ha2 in *.
      apply elem_of_drop in Hq as [Hq HnS].
      assert (entry m q = Some e') as He.
      { rewrite <- He'. transitivity (entry m1 q); [|unfold entry; by rewrite Hz].
        rewrite (fr_entry _ _ _ F), decide_False by exact HnS. reflexivity. }
      exact (Hs pd c q e' Hc Hq He).
    + unfold pefs_dircache_endupdate in H.
      pose proof Hc as Hl. apply load_pd_Ok in Hl.
      rewrite Hl, ret_bind, Hu in H. simpl negb in H. cbv iota in H.
      apply bind_Ok in H as (u & _ & [= <-]). eauto.
Qed.

Lemma stamped_run_ops os :
  ∀ m m', wf m -> dircache_inv m -> stamped m -> ops_pre os m ->
          run_ops os m = Ok m' -> stamped m'.
Proof.
  induction os as [|o os IH]; intros m m' W I Hs Hpre H; simpl in H.
  - by injection H as <-.
  - apply bind_Ok in H as (m1 & H1 & H). destruct Hpre as [Hpre Hrest].
    destruct (run_op_step o m m1 W I Hpre H1) as [W1 I1].
    apply (IH m1 m' W1 I1); [|exact (Hrest m1 H1)|exact H].
    exact (stamped_run_op o m m1 W I Hpre Hs H1).
Qed.

(** X24: through every sequence of operations that returns, what is on
    an active list carries the generation of its cache; so a cache that
    has no pass open and an empty stale list, as [pefs_dircache_endupdate]
    leaves it, serves every entry it holds: each of them carries the
    current generation, and the lookup of its name finds an entry of the
    cache with that name. *)
Theorem closed_pass_serves_every_entry os m m' :
  wf m -> dircache_inv m -> hashed m -> stamped m -> ops_pre os m ->
  run_ops os m = Ok m' ->
  stamped m' ∧
  ∀ pd c p e, cache m' pd = Some c -> updating c = false -> stale c = [] ->
    entry m' p = Some e -> pde_dircache e = pd ->
    p ∈ active c ∧ pde_gen e = pd_gen c ∧
    ∃ p' e', pefs_dircache_lookup pd (entry_name e) m' = Ok p' ∧ p' ≠ NULL ∧
             entry m' p' = Some e' ∧ pde_dircache e' = pd ∧
             pde_gen e' = pd_gen c ∧ entry_name e' = entry_name e.
Proof.
  intros W I Hh Hs Hpre H.
  destruct (hashed_run_ops os m m' W I Hh Hpre H) as [W' Hh'].
  pose proof (stamped_run_ops os m m' W I Hs Hpre H) as Hs'.
  split; [exact Hs'|]. intros pd c p e Hc Hu Hst He Ho.
  destruct (wf_live _ W' _ _ He) as (c0 & Hc0 & Hd).
  rewrite Ho, Hc in Hc0. injection Hc0 as <-.
  apply on_dir_active_stale in Hd as [Ha|Hd]; [|rewrite Hst in Hd; inversion Hd].
  pose proof (Hs' pd c p e Hc Ha He) as Hg.
  split; [exact Ha|]. split; [exact Hg|].
  pose proof (Hh' p e He) as Hcached. rewrite Ho in Hcached.
  destruct (lookup_hit m' pd c p e W' Hc (or_intror (conj Hu Hst)) Hcached Hg)
    as (p' & e' & Hl & Hnn & He2 & Ho2 & Hg2 & Hn2 & _).
  exists p', e'. repeat (split; [assumption|]). assumption.
Qed.

End Stamped.

Section Names.
Context {P : Platform}.
Implicit Types (m : kmem) (c : pefs_dircache) (e : pefs_dircache_entry).

Lemma name_buffer_length size name :
  (length name < size)%nat -> length (name_buffer size name) = size.
Proof. intros H. unfold name_buffer. rewrite length_app, length_replicate. lia. Qed.

Lemma name_buffer_NUL size name :
  (length name < size)%nat -> name_buffer size name !! length name = Some x00.
Proof.
  intros H. unfold name_buffer. rewrite lookup_app_r, Nat.sub_diag by lia.
  destruct (size - length name)%nat eqn:E; [lia|reflexivity].
Qed.

Lemma new_entry_terminated pd ptk name encname g :
  (0 < length name < sizeof_pde_name)%nat ->
  (0 < length encname < sizeof_pde_encname)%nat ->
  terminated (new_entry pd ptk name encname g).
Proof.
  intros Hn He. unfold terminated, new_entry. simpl.
  rewrite !name_buffer_length, !name_buffer_NUL by lia.
  repeat split; try reflexivity; lia.
Qed.

Lemma terminated_stamp e e' :
  set_pde_gen 0 e' = set_pde_gen 0 e -> terminated e -> terminated e'.
Proof.
  destruct e, e'. unfold set_pde_gen, terminated. simpl. intros [= -> -> -> -> -> -> -> ->].
  auto.
Qed.

Lemma terminated_freed S m m' : names_terminated m -> freed S m m' -> names_terminated m'.
Proof.
  intros Hn F p e He. rewrite (fr_entry _ _ _ F) in He.
  destruct (decide (p ∈ S)); [discriminate|]. eauto.
Qed.

Lemma terminated_relinked pd m m' :
  names_terminated m -> relinked pd m m' -> names_terminated m'.
Proof.
  intros Hn R p e' He'. pose proof (rl_entry _ _ _ R p) as H. rewrite He' in H.
  destruct (entry m p) as [e|] eqn:He; [|discriminate].
  apply (inj Some) in H. exact (terminated_stamp e e' H (Hn p e He)).
Qed.

Lemma terminated_insert m pd ptk name encname m' pde :
  wf m -> names_terminated m ->
  pefs_dircache_insert pd ptk name encname m = Ok (m', pde) -> names_terminated m'.
Proof.
  intros W Hn H. destruct (insert_pre _ _ _ _ _ _ H) as ((c & Hc) & Hln & Hle & _).
  destruct (insert_linked m pd c ptk name encname m' pde W Hc H) as (e & L & g & ->).
  intros q e' He'. destruct (decide (q = pde)) as [->|Hne].
  - rewrite (lk_entry _ _ _ _ _ _ L) in He'. injection He' as <-.
    by apply new_entry_terminated.
  - pose proof (lk_entries _ _ _ _ _ _ L q Hne) as Hq. rewrite He' in Hq.
    destruct (entry m q) as [e0|] eqn:He0; [|discriminate].
    apply (inj Some) in Hq. exact (terminated_stamp e0 e' Hq (Hn q e0 He0)).
Qed.

Lemma terminated_run_op o m m' :
  wf m -> names_terminated m -> run_op o m = Ok m' -> names_terminated m'.
Proof.
  intros W Hn H. destruct o; simpl in H.
  - by injection H as <-.
  - unfold pefs_dircache_purge in H. destruct (_ =? NULL); [by injection H as <-|].
    apply bind_Ok in H as (m1 & H1 & H).
    destruct (free_all_done _ _ _ _ H1) as (S1 & c1 & F1 & _).
    destruct (free_all_done _ _ _ _ H) as (S2 & c2 & F2 & _).
    eauto using terminated_freed.
  - unfold pefs_dircache_free in H. destruct (pd =? NULL) eqn:Hnn; [by injection H as <-|].
    apply bind_Ok in H as (m1 & Hp & H). apply bind_Ok in H as (c1 & Hl & [= <-]).
    unfold pefs_dircache_purge in Hp. rewrite Hnn in Hp.
    apply bind_Ok in Hp as (m0 & H1 & H2).
    destruct (free_all_done _ _ _ _ H1) as (S1 & c2 & F1 & _).
    destruct (free_all_done _ _ _ _ H2) as (S2 & c3 & F2 & _).
    intros p e He. exact (terminated_freed _ _ _ (terminated_freed _ _ _ Hn F1) F2 p e He).
  - apply bind_Ok in H as ([m1 pde] & Hins & [= <-]). eapply terminated_insert; eauto.
  - by apply bind_Ok in H as (r & _ & [= <-]).
  - by apply bind_Ok in H as (r & _ & [= <-]).
  - assert (∃ e, entry m pde = Some e) as (e & He).
    { unfold pefs_dircache_update, dircache_update in H.
      apply bind_Ok in H as (e & Hl & _). apply load_pde_Ok in Hl. eauto. }
    destruct (wf_live _ W _ _ He) as (c & Hc & _).
    destruct (update_spec m pde e c W He Hc) as (m1 & Hrun & R & _).
    rewrite H in Hrun. injection Hrun as <-. eapply terminated_relinked; eauto.
  - eapply terminated_relinked; eauto using beginupdate_relinked.
  - eapply terminated_relinked; eauto using abortupdate_relinked.
  - assert (∃ c, cache m pd = Some c) as (c & Hc).
    { unfold pefs_dircache_endupdate in H. apply bind_Ok in H as (c & Hl & _).
      apply load_pd_Ok in Hl. eauto. }
    destruct (updating c) eqn:Hu.
    + destruct (endupdate_spec m pd c W Hc Hu) as (m1 & m2 & S & c2 & Hrun & F & R & _).
      rewrite H in Hrun. injection Hrun as <-.
      eapply terminated_relinked; [|exact R]. eapply terminated_freed; eauto.
    + unfold pefs_dircache_endupdate in H.
      pose proof Hc as Hl. apply load_pd_Ok in Hl.
      rewrite Hl, ret_bind, Hu in H. cbn [negb] in H.
      by apply bind_Ok in H as (u & _ & [= <-]).
Qed.

(** X25: the names in the cache stay strings inside their arrays.
    [pefs_dircache_insert] stores each name in an array of the declared
    size with the NUL right after it, and no operation writes a name
    again: through every sequence of operations that returns, every
    allocated entry has arrays of the declared sizes, lengths that are
    positive and below them, and the NUL at the length. *)
Theorem names_stay_terminated os :
  ∀ m m', wf m -> dircache_inv m -> names_terminated m -> ops_pre os m ->
          run_ops os m = Ok m' -> names_terminated m'.
Proof.
  induction os as [|o os IH]; intros m m' W I Hn Hpre H; simpl in H.
  - by injection H as <-.
  - apply bind_Ok in H as (m1 & H1 & H). destruct Hpre as [Hpre Hrest].
    destruct (run_op_step o m m1 W I Hpre H1) as [W1 I1].
    apply (IH m1 m' W1 I1); [|exact (Hrest m1 H1)|exact H].
    exact (terminated_run_op o m m1 W Hn H1).
Qed.

End Names.

Section Aborted.
Context {P : Platform}.
Implicit Types (m : kmem) (c : pefs_dircache) (e : pefs_dircache_entry).

(** The relinking loop of [dircache_expire] stamps 0 what was on the
    active list and leaves the other entries as they were. *)
Lemma expire_list_zeroed pd :
  ∀ bound m c m',
    wf0 m -> cache m pd = Some c -> expire_list pd bound m = Ok m' ->
    ∀ q, entry m' q
         = (if decide (q ∈ active c) then set_pde_gen 0 else id) <$> entry m q.
Proof.
  induction bound as [|bound IH]; intros m c m' W Hc H q; simpl in H;
    pose proof Hc as Hl; apply load_pd_Ok in Hl; rewrite Hl, ret_bind in H;
    destruct (active c) as [|p l] eqn:Hact;
    try (injection H as <-; rewrite decide_False by apply not_elem_of_nil;
         by destruct (entry m q));
    try discriminate.
  assert (on_dir c p) as Hp.
  { apply on_dir_active_stale. left. rewrite Hact. by left. }
  destruct (wf_dir _ W _ _ _ Hc Hp) as (e & He & Ho).
  pose proof He as Hle. apply load_pde_Ok in Hle. rewrite Hle, ret_bind in H.
  set (m1 := store_pde p (set_pde_gen 0 e) m) in *.
  pose proof (store_pde_relinked pd m p e 0 He) as R1. fold m1 in R1.
  pose proof (relinked_wf0 _ _ _ W R1) as W1.
  destruct (move_relinked DIRCACHE_STALEHEAD m1 pd c p W1 Hc Hp)
    as (m2 & Hmove & R2 & Hc2 & Hz2).
  rewrite Hmove, ret_bind in H.
  pose proof (relinked_wf0 _ _ _ W1 R2) as W2.
  rewrite (IH m2 _ m' W2 Hc2 H q).
  rewrite active_set_stale, active_drop_dir, Hact.
  assert (entry m2 q = if decide (p = q) then Some (set_pde_gen 0 e) else entry m q) as ->.
  { unfold entry at 1. rewrite Hz2. exact (entry_store_pde p (set_pde_gen 0 e) m q). }
  destruct (decide (p = q)) as [<-|Hne].
  - rewrite decide_False, decide_True, He; [reflexivity|apply list_elem_of_here|].
    rewrite elem_of_drop. intros [_ Hn]. apply Hn, list_elem_of_here.
  - destruct (decide (q ∈ drop [p] (p :: l))) as [Hin|Hin];
      destruct (decide (q ∈ p :: l)) as [Hin'|Hin']; try reflexivity; exfalso.
    + apply elem_of_drop in Hin as [Hin _]. contradiction.
    + apply Hin, elem_of_drop. split; [exact Hin'|].
      rewrite list_elem_of_singleton. congruence.
Qed.

(** [dircache_expire] with the stale list not empty stamps 0 what was on
    the active list. *)
Lemma expire_zeroed pd m c m' :
  wf0 m -> cache m pd = Some c -> stale c ≠ [] -> dircache_expire pd m = Ok m' ->
  ∀ q, entry m' q
       = (if decide (q ∈ active c) then set_pde_gen 0 else id) <$> entry m q.
Proof.
  intros W Hc Hst H. unfold dircache_expire in H.
  pose proof Hc as Hl. apply load_pd_Ok in Hl. rewrite Hl, ret_bind in H.
  cbv zeta in H.
  set (c0 := set_pd_gen 0 c) in *. set (m0 := store_pd pd c0 m) in *.
  assert (relinked pd m m0) as R0.
  { apply (store_pd_relinked m pd c c0 Hc); [reflexivity|]. intros q. reflexivity. }
  pose proof (relinked_wf0 _ _ _ W R0) as W0.
  assert (cache m0 pd = Some c0) as Hc0.
  { unfold m0. rewrite cache_store_pd. by rewrite decide_True. }
  apply bind_Ok in H as (m1 & Hm1 & H). apply bind_Ok in H as (c1 & _ & H).
  apply bind_Ok in H as (u & _ & [= <-]).
  change (stale c0) with (stale c) in Hm1.
  destruct (stale c) as [|s ls] eqn:Hs; [done|]. simpl in Hm1.
  exact (expire_list_zeroed pd _ m0 c0 m1 W0 Hc0 Hm1).
Qed.

(** X26: what a plaintext lookup sees after an aborted pass. When
    [pefs_dircache_abortupdate] ends a pass that had entries on both
    lists, what the pass had inserted or reconfirmed is kept, stamped 0
    and put on the stale list, and the generation of the cache is 0. A
    kernel with INVARIANTS then panics on every plaintext lookup in that
    cache; a kernel without them finds such an entry again under its
    name, its stamp 0 being the generation of the cache. *)
Theorem abortupdate_then_lookup m pd c p e :
  wf m -> hashed m -> cache m pd = Some c -> updating c = true ->
  stale c ≠ [] -> p ∈ active c -> entry m p = Some e ->
  ∃ m' c',
    pefs_dircache_abortupdate pd m = Ok m' ∧
    cache m' pd = Some c' ∧ updating c' = false ∧ pd_gen c' = 0 ∧
    p ∈ stale c' ∧ entry m' p = Some (set_pde_gen 0 e) ∧
    if INVARIANTS
    then ∀ name, pefs_dircache_lookup pd name m' = Err Panic
    else ∃ p' e', pefs_dircache_lookup pd (entry_name e) m' = Ok p' ∧ p' ≠ NULL ∧
                  entry m' p' = Some e' ∧ pde_dircache e' = pd ∧ pde_gen e' = 0 ∧
                  entry_name e' = entry_name e.
Proof.
  intros W Hh Hc Hu Hst Hp He.
  destruct (abortupdate_spec m pd c W Hc Hu) as (m' & c' & Hrun & R & Hc' & Hg' & Hu' & Ha').
  pose proof (relinked_wf _ _ _ W R) as W'.
  pose proof (hashed_relinked _ _ _ Hh R) as Hh'.
  assert (on_dir c p) as Hd by (apply on_dir_active_stale; auto).
  destruct (wf_dir _ W _ _ _ Hc Hd) as (e0 & He0 & Ho).
  rewrite He in He0. injection He0 as <-.
  assert (p ∈ stale c') as Hps.
  { destruct (relinked_cache _ _ _ _ _ R Hc) as (c2 & Hc2 & _ & Hd2).
    rewrite Hc' in Hc2. injection Hc2 as <-.
    apply Hd2, on_dir_active_stale in Hd as [Hd|Hd]; [|exact Hd].
    rewrite Ha' in Hd. inversion Hd. }
  assert (entry m' p = Some (set_pde_gen 0 e)) as He'.
  { pose proof Hrun as H. unfold pefs_dircache_abortupdate in H.
    pose proof Hc as Hl. apply load_pd_Ok in Hl. rewrite Hl, ret_bind, Hu in H.
    apply bind_Ok in H as (m2 & H2 & H). apply bind_Ok in H as (c2 & _ & H).
    apply bind_Ok in H as (u & _ & [= <-]).
    apply bind_Ok in H2 as (m1 & Hexp & H2). apply bind_Ok in H2 as (c1 & _ & [= <-]).
    rewrite entry_store_pd, (expire_zeroed pd m c m1 W Hc Hst Hexp p), He.
    by rewrite decide_True. }
  exists m', c'. split; [exact Hrun|]. split; [exact Hc'|]. split; [exact Hu'|].
  split; [exact Hg'|]. split; [exact Hps|]. split; [exact He'|].
  destruct INVARIANTS eqn:HI.
  - intros name. unfold pefs_dircache_lookup. cbv zeta.
    rewrite (wf_nonnull_pd m' pd c' W' Hc'). change (negb false) with true.
    rewrite MPASS_true, ret_bind.
    pose proof Hc' as Hl. apply load_pd_Ok in Hl. rewrite Hl, ret_bind.
    rewrite Hu'. change (negb false) with true. rewrite MPASS_true, ret_bind.
    destruct (stale c') as [|s ls]; [inversion Hps|].
    unfold MPASS. rewrite HI. reflexivity.
  - pose proof (Hh' p _ He') as Hcached. simpl in Hcached. rewrite Ho in Hcached.
    destruct (lookup_hit m' pd c' p (set_pde_gen 0 e) W' Hc' (or_introl HI) Hcached)
      as (p' & e' & Hl & Hnn & He2 & Ho2 & Hg2 & Hn2 & _).
    { by rewrite Hg'. }
    exists p', e'. rewrite Hg' in Hg2. repeat (split; [assumption|]). exact Hn2.
Qed.

End Aborted.

Section Preserved.
Context {P : Platform}.
Implicit Types (m : kmem) (c : pefs_dircache) (e : pefs_dircache_entry).

(** What freeing entries, relinking them, an insertion, the creation
    of a cache and the release of an empty one keep, every operation
    keeps. *)
Lemma run_op_preserves (Q : kmem -> Prop) :
  (∀ S m m', freed S m m' -> Q m -> Q m') ->
  (∀ pd m m', relinked pd m m' -> Q m -> Q m') ->
  (∀ m pd c ptk name encname m' pde,
     wf m -> cache m pd = Some c ->
     pefs_dircache_insert pd ptk name encname m = Ok (m', pde) -> Q m -> Q m') ->
  (∀ m pdp, Q m -> Q (pefs_dircache_create pdp m).1) ->
  (∀ m pd c, wf m -> cache m pd = Some c -> pd_heads0 c = [] -> pd_heads1 c = [] ->
             Q m -> Q (with_dircache_zone (delete pd (dircache_zone m)) m)) ->
  ∀ o m m', wf m -> run_op o m = Ok m' -> Q m -> Q m'.
Proof.
  intros Hfreed Hrel Hins Hcreate Hdel o m m' W H HQ. destruct o; simpl in H.
  - injection H as <-. by apply Hcreate.
  - unfold pefs_dircache_purge in H. destruct (_ =? NULL); [by injection H as <-|].
    apply bind_Ok in H as (m1 & H1 & H).
    destruct (free_all_done _ _ _ _ H1) as (S1 & c1 & F1 & _).
    destruct (free_all_done _ _ _ _ H) as (S2 & c2 & F2 & _).
    eauto.
  - unfold pefs_dircache_free in H. destruct (pd =? NULL) eqn:Hnn; [by injection H as <-|].
    apply bind_Ok in H as (m1 & Hp & H). apply bind_Ok in H as (c1 & Hl & [= <-]).
    assert (∃ c, cache m pd = Some c) as (c & Hc).
    { unfold pefs_dircache_purge in Hp. rewrite Hnn in Hp.
      apply bind_Ok in Hp as (m0 & H1 & _). unfold free_all in H1.
      apply bind_Ok in H1 as (c & Hl0 & _). apply load_pd_Ok in Hl0. eauto. }
    destruct (purge_spec m pd c W Hc) as (m1' & S & Hrun & F & W1 & _ & Hc1 & H0 & H1).
    rewrite Hp in Hrun. injection Hrun as <-.
    apply (Hdel m1 pd _ W1 Hc1 H0 H1). eauto.
  - apply bind_Ok in H as ([m1 pde] & Hins' & [= <-]).
    destruct (insert_pre _ _ _ _ _ _ Hins') as ((c & Hc) & _). eauto.
  - by apply bind_Ok in H as (r & _ & [= <-]).
  - by apply bind_Ok in H as (r & _ & [= <-]).
  - assert (∃ e, entry m pde = Some e) as (e & He).
    { unfold pefs_dircache_update, dircache_update in H.
      apply bind_Ok in H as (e & Hl & _). apply load_pde_Ok in Hl. eauto. }
    destruct (wf_live _ W _ _ He) as (c & Hc & _).
    destruct (update_spec m pde e c W He Hc) as (m1 & Hrun & R & _).
    rewrite H in Hrun. injection Hrun as <-. eauto.
  - eauto using beginupdate_relinked.
  - eauto using abortupdate_relinked.
  - assert (∃ c, cache m pd = Some c) as (c & Hc).
    { unfold pefs_dircache_endupdate in H. apply bind_Ok in H as (c & Hl & _).
      apply load_pd_Ok in Hl. eauto. }
    destruct (updating c) eqn:Hu.
    + destruct (endupdate_spec m pd c W Hc Hu) as (m1 & m2 & S & c2 & Hrun & F & R & _).
      rewrite H in Hrun. injection Hrun as <-. eauto.
    + unfold pefs_dircache_endupdate in H.
      pose proof Hc as Hl. apply load_pd_Ok in Hl.
      rewrite Hl, ret_bind, Hu in H. cbn [negb] in H.
      by apply bind_Ok in H as (u & _ & [= <-]).
Qed.

End Preserved.

Section Once.
Context {P : Platform}.
Implicit Types (m : kmem) (c : pefs_dircache) (e : pefs_dircache_entry).

Lemma NoDup_drop S l : NoDup l -> NoDup (drop S l).
Proof. apply NoDup_filter. Qed.

Lemma dir_once_same c c' :
  pd_heads0 c' = pd_heads0 c -> pd_heads1 c' = pd_heads1 c -> dir_once c -> dir_once c'.
Proof. unfold dir_once. by intros -> ->. Qed.

Lemma dir_once_drop S c : dir_once c -> dir_once (drop_dir S c).
Proof.
  unfold dir_once, drop_dir, drop. simpl. rewrite <- filter_app. apply NoDup_filter.
Qed.

Lemma dir_once_cons i c p :
  dir_once c -> ¬ on_dir c p -> dir_once (set_pd_heads i (p :: pd_heads c i) c).
Proof.
  unfold dir_once, on_dir, set_pd_heads, pd_heads. intros Hn Hp.
  destruct (i =? 0); simpl.
  - apply NoDup_cons. split; [|exact Hn]. rewrite elem_of_app. tauto.
  - apply NoDup_app in Hn as (H0 & Hdis & H1). apply NoDup_app.
    split; [exact H0|]. split.
    + intros x Hx. rewrite elem_of_cons. intros [->|Hx1]; [tauto|]. by apply (Hdis x).
    + apply NoDup_cons. tauto.
Qed.

Lemma once_store_pd m pd c' :
  (∀ pd0 c, cache m pd0 = Some c -> dir_once c) -> dir_once c' ->
  ∀ pd0 c, cache (store_pd pd c' m) pd0 = Some c -> dir_once c.
Proof.
  intros Hm Hc' pd0 c. rewrite cache_store_pd.
  destruct (decide (pd = pd0)); [by intros [= <-]|apply Hm].
Qed.

Lemma once_remove p m :
  (∀ pd c, cache m pd = Some c -> dir_once c) ->
  ∀ pd c, cache (LIST_REMOVE_dir_entry p m) pd = Some c -> dir_once c ∧ ¬ on_dir c p.
Proof.
  intros Hm pd c. rewrite cache_LIST_REMOVE_dir_entry.
  destruct (cache m pd) as [c0|] eqn:Hc0; [|discriminate]. simpl. intros [= <-].
  split; [apply dir_once_drop; eauto|].
  rewrite on_dir_drop_dir, list_elem_of_singleton. tauto.
Qed.

Lemma once_insert_head head pd p m m' :
  LIST_INSERT_HEAD_dir_entry head pd p m = Ok m' ->
  (∀ pd0 c, cache m pd0 = Some c -> dir_once c) ->
  (∀ c, cache m pd = Some c -> ¬ on_dir c p) ->
  ∀ pd0 c, cache m' pd0 = Some c -> dir_once c.
Proof.
  unfold LIST_INSERT_HEAD_dir_entry. intros H Hm Hp.
  apply bind_Ok in H as (c0 & Hc0 & [= <-]). apply load_pd_Ok in Hc0.
  apply once_store_pd; [exact Hm|]. apply dir_once_cons; eauto.
Qed.

Lemma expire_list_once pd :
  ∀ bound m m',
    expire_list pd bound m = Ok m' ->
    (∀ pd0 c, cache m pd0 = Some c -> dir_once c) ->
    ∀ pd0 c, cache m' pd0 = Some c -> dir_once c.
Proof.
  induction bound as [|bound IH]; intros m m' H Hm; simpl in H;
    apply bind_Ok in H as (c0 & Hc0 & H);
    destruct (active c0) as [|p l]; try (by injection H as <-); try discriminate.
  apply bind_Ok in H as (e & _ & H). apply bind_Ok in H as (m2 & Hmove & H).
  apply (IH m2 m' H).
  apply (once_insert_head _ _ _ _ _ Hmove).
  - intros pd0 c Hc. apply (once_remove p _ Hm pd0 c Hc).
  - intros c Hc. apply (once_remove p _ Hm pd c Hc).
Qed.

Lemma expire_once pd m m' :
  dircache_expire pd m = Ok m' ->
  (∀ pd0 c, cache m pd0 = Some c -> dir_once c) ->
  ∀ pd0 c, cache m' pd0 = Some c -> dir_once c.
Proof.
  unfold dircache_expire. intros H Hm.
  apply bind_Ok in H as (c0 & Hc0 & H). apply load_pd_Ok in Hc0. cbv zeta in H.
  apply bind_Ok in H as (m1 & Hm1 & H). apply bind_Ok in H as (c1 & _ & H).
  apply bind_Ok in H as (u & _ & [= <-]).
  assert (∀ pd0 c, cache (store_pd pd (set_pd_gen 0 c0) m) pd0 = Some c -> dir_once c) as H0.
  { apply once_store_pd; [exact Hm|]. apply (dir_once_same c0); eauto. }
  destruct (LIST_EMPTY _).
  - injection Hm1 as <-. apply once_store_pd; [exact H0|].
    apply (dir_once_same c0); eauto.
  - exact (expire_list_once pd _ _ _ Hm1 H0).
Qed.

Lemma update_once p onlist m m' :
  wf0 m -> dircache_update p onlist m = Ok m' ->
  (∀ pd0 c, cache m pd0 = Some c -> dir_once c) ->
  (onlist = 0 -> ∀ pd0 c, cache m pd0 = Some c -> ¬ on_dir c p) ->
  ∀ pd0 c, cache m' pd0 = Some c -> dir_once c.
Proof.
  unfold dircache_update. intros W H Hm Hoff.
  apply bind_Ok in H as (e & He & H). cbv zeta in H.
  apply bind_Ok in H as (c0 & Hc0 & H). apply load_pd_Ok in Hc0.
  destruct (updating c0).
  - apply (once_insert_head _ _ _ _ _ H).
    + destruct (onlist =? 0); simpl; [exact Hm|].
      intros pd0 c Hc. apply (once_remove p _ Hm pd0 c Hc).
    + destruct (onlist =? 0) eqn:Ho; simpl.
      * apply Z.eqb_eq in Ho. intros c. apply Hoff. exact Ho.
      * intros c Hc. apply (once_remove p _ Hm _ c Hc).
  - destruct (_ || _); [|by injection H as <-].
    apply bind_Ok in H as (m1 & Hexp & H). apply bind_Ok in H as (e1 & _ & H).
    pose proof (expire_once _ _ _ Hexp Hm) as H1.
    destruct (onlist =? 0) eqn:Ho; [|by injection H as <-].
    apply Z.eqb_eq in Ho. apply (once_insert_head _ _ _ _ _ H); [exact H1|].
    intros c Hc. change (cache m1 (pde_dircache e) = Some c) in Hc.
    destruct (dircache_expire_spec m _ c0 W Hc0) as (m1' & c1 & Hrun & R & _).
    rewrite Hexp in Hrun. injection Hrun as <-.
    destruct (relinked_cache _ _ _ _ _ R Hc0) as (c2 & Hc2 & _ & Hd).
    rewrite Hc in Hc2. injection Hc2 as <-. rewrite Hd. exact (Hoff Ho _ c0 Hc0).
Qed.

End Once.

Section OnceOps.
Context {P : Platform}.
Implicit Types (m : kmem) (c : pefs_dircache) (e : pefs_dircache_entry).

Lemma dirs_once_freed S m m' :
  freed S m m' ->
  (∀ pd c, cache m pd = Some c -> dir_once c) ->
  ∀ pd c, cache m' pd = Some c -> dir_once c.
Proof.
  intros F Hm pd c. rewrite (fr_cache _ _ _ F).
  destruct (cache m pd) as [c0|] eqn:Hc0; [|discriminate]. intros [= <-].
  apply dir_once_drop. eauto.
Qed.

Lemma dirs_once_insert m pd ptk name encname m' pde :
  wf m -> pefs_dircache_insert pd ptk name encname m = Ok (m', pde) ->
  (∀ pd0 c, cache m pd0 = Some c -> dir_once c) ->
  ∀ pd0 c, cache m' pd0 = Some c -> dir_once c.
Proof.
  intros W H Hm. unfold pefs_dircache_insert in H. cbv zeta in H.
  apply bind_Ok in H as (u & _ & H). destruct (_ || _) in H; [discriminate|].
  destruct (uma_zalloc_fresh (dircache_entry_zone m)) as [Hnn Hfresh].
  set (p := uma_zalloc (dircache_entry_zone m)) in *.
  apply bind_Ok in H as (m3 & Hup & H).
  apply bind_Ok in H as (c3 & _ & H). apply bind_Ok in H as (pool & _ & H).
  apply bind_Ok in H as (t & _ & H). apply bind_Ok in H as (t' & _ & [= <- <-]).
  change (∀ pd0 c, cache m3 pd0 = Some c -> dir_once c).
  refine (update_once p 0 _ m3 _ Hup Hm _).
  - exact (store_new_wf0 m p _ _ (wf_base _ W) Hfresh Hnn).
  - intros _ pd0 c Hc Hd. destruct (wf_dir _ W _ _ _ Hc Hd) as (e & He & _).
    unfold entry in He. congruence.
Qed.

Lemma dirs_once_beginupdate m pd g m' :
  pefs_dircache_beginupdate pd g m = Ok m' ->
  (∀ pd0 c, cache m pd0 = Some c -> dir_once c) ->
  ∀ pd0 c, cache m' pd0 = Some c -> dir_once c.
Proof.
  unfold pefs_dircache_beginupdate. intros H Hm.
  apply bind_Ok in H as (c0 & Hc0 & H).
  destruct (_ && _); [|by injection H as <-].
  apply bind_Ok in H as (m1 & Hm1 & H). apply bind_Ok in H as (c1 & Hc1 & H).
  cbv zeta in H. apply bind_Ok in H as (u & _ & [= <-]). apply load_pd_Ok in Hc1.
  assert (∀ pd0 c, cache m1 pd0 = Some c -> dir_once c) as H1.
  { destruct (negb _); [|by injection Hm1 as <-].
    apply bind_Ok in Hm1 as (u' & _ & Hexp). exact (expire_once _ _ _ Hexp Hm). }
  apply once_store_pd; [exact H1|]. apply (dir_once_same c1); eauto.
Qed.

Lemma dirs_once_abortupdate m pd m' :
  pefs_dircache_abortupdate pd m = Ok m' ->
  (∀ pd0 c, cache m pd0 = Some c -> dir_once c) ->
  ∀ pd0 c, cache m' pd0 = Some c -> dir_once c.
Proof.
  unfold pefs_dircache_abortupdate. intros H Hm.
  apply bind_Ok in H as (c0 & Hc0 & H). apply bind_Ok in H as (m2 & H2 & H).
  apply bind_Ok in H as (c2 & _ & H). apply bind_Ok in H as (u & _ & [= <-]).
  destruct (updating c0); [|by injection H2 as <-].
  apply bind_Ok in H2 as (m1 & Hexp & H2). apply bind_Ok in H2 as (c1 & Hc1 & [= <-]).
  apply load_pd_Ok in Hc1. pose proof (expire_once _ _ _ Hexp Hm) as H1.
  apply once_store_pd; [exact H1|]. apply (dir_once_same c1); eauto.
Qed.

Lemma dirs_once_endupdate m pd m' :
  pefs_dircache_endupdate pd m = Ok m' ->
  (∀ pd0 c, cache m pd0 = Some c -> dir_once c) ->
  ∀ pd0 c, cache m' pd0 = Some c -> dir_once c.
Proof.
  unfold pefs_dircache_endupdate. intros H Hm.
  apply bind_Ok in H as (c0 & Hc0 & H). destruct (negb _).
  - by apply bind_Ok in H as (u & _ & [= <-]).
  - apply bind_Ok in H as (m1 & H1 & H). apply bind_Ok in H as (c1 & Hc1 & [= <-]).
    apply load_pd_Ok in Hc1.
    destruct (free_all_done _ _ _ _ H1) as (S1 & c2 & F1 & _).
    pose proof (dirs_once_freed _ _ _ F1 Hm) as Hm1.
    apply once_store_pd; [exact Hm1|]. apply (dir_once_same c1); eauto.
Qed.

Lemma dirs_once_run_op o m m' :
  wf m -> run_op o m = Ok m' ->
  (∀ pd c, cache m pd = Some c -> dir_once c) ->
  ∀ pd c, cache m' pd = Some c -> dir_once c.
Proof.
  intros W H Hm. destruct o; simpl in H.
  - injection H as <-. unfold pefs_dircache_create. simpl.
    apply once_store_pd; [exact Hm|]. apply NoDup_nil_2.
  - unfold pefs_dircache_purge in H. destruct (_ =? NULL); [by injection H as <-|].
    apply bind_Ok in H as (m1 & H1 & H).
    destruct (free_all_done _ _ _ _ H1) as (S1 & c1 & F1 & _).
    destruct (free_all_done _ _ _ _ H) as (S2 & c2 & F2 & _).
    eauto using dirs_once_freed.
  - unfold pefs_dircache_free in H. destruct (pd =? NULL) eqn:Hnn; [by injection H as <-|].
    apply bind_Ok in H as (m1 & Hp & H). apply bind_Ok in H as (c1 & Hl & [= <-]).
    unfold pefs_dircache_purge in Hp. rewrite Hnn in Hp.
    apply bind_Ok in Hp as (m0 & H1 & H2).
    destruct (free_all_done _ _ _ _ H1) as (S1 & c2 & F1 & _).
    destruct (free_all_done _ _ _ _ H2) as (S2 & c3 & F2 & _).
    intros pd0 c. rewrite cache_delete. destruct (decide _); [discriminate|].
    exact (dirs_once_freed _ _ _ F2 (dirs_once_freed _ _ _ F1 Hm) pd0 c).
  - apply bind_Ok in H as ([m1 pde] & Hins & [= <-]). eapply dirs_once_insert; eauto.
  - by apply bind_Ok in H as (r & _ & [= <-]).
  - by apply bind_Ok in H as (r & _ & [= <-]).
  - refine (update_once pde 1 m m' W H Hm _). discriminate.
  - eapply dirs_once_beginupdate; eauto.
  - eapply dirs_once_abortupdate; eauto.
  - eapply dirs_once_endupdate; eauto.
Qed.

End OnceOps.

Section Buckets.
Context {P : Platform}.
Implicit Types (m : kmem) (c : pefs_dircache) (e : pefs_dircache_entry).

Lemma tbl_once_drop S t : tbl_once t -> tbl_once (fmap (M := list) (drop S) <$> t).
Proof.
  intros Ht tt' b' Htt Hb. destruct t as [tt|]; [|discriminate]. injection Htt as <-.
  apply list_elem_of_fmap in Hb as (b & -> & Hb). apply NoDup_drop. eauto.
Qed.

Lemma tbl_once_insert tt i b p :
  tt !! i = Some b -> tbl_once (Some tt) -> p ∉ b ->
  tbl_once (Some (<[i := p :: b]> tt)).
Proof.
  intros Hi Ht Hp tt' b' [= <-] Hb. apply list_elem_of_lookup in Hb as (j & Hj).
  apply list_lookup_insert_Some in Hj as [(<- & <- & _)|(Hne & Hj)].
  - apply NoDup_cons. split; [exact Hp|]. apply (Ht tt b eq_refl).
    apply list_elem_of_lookup. eauto.
  - apply (Ht tt b' eq_refl). apply list_elem_of_lookup. eauto.
Qed.

Lemma in_bucket_in_tbl t i q : in_bucket t i q -> in_tbl t q.
Proof.
  intros (tt & b & Ht & Hb & Hq). exists tt, b. split; [exact Ht|].
  split; [|exact Hq]. apply list_elem_of_lookup. eauto.
Qed.

Lemma in_bucket_drop S t i q :
  in_bucket (fmap (M := list) (drop S) <$> t) i q -> in_bucket t i q ∧ q ∉ S.
Proof.
  intros (tt' & b' & Ht & Hb & Hq). destruct t as [tt|]; [|discriminate].
  injection Ht as <-. rewrite list_lookup_fmap in Hb.
  destruct (tt !! i) as [b|] eqn:Hi; [|discriminate]. injection Hb as <-.
  apply elem_of_drop in Hq as [Hq HS]. split; [|exact HS]. exists tt, b. auto.
Qed.

Lemma in_bucket_insert tt i0 b p i q :
  tt !! i0 = Some b -> in_bucket (Some (<[i0 := p :: b]> tt)) i q ->
  (i = i0 ∧ q = p) ∨ in_bucket (Some tt) i q.
Proof.
  intros Hi (tt' & b' & [= <-] & Hb & Hq).
  apply list_lookup_insert_Some in Hb as [(<- & <- & _)|(Hne & Hb)].
  - apply elem_of_cons in Hq as [->|Hq]; [by left|]. right. exists tt, b. auto.
  - right. exists tt, b'. auto.
Qed.

(** *** The buckets hold no entry twice *)

Lemma buckets_once_run_op o m m' :
  wf m -> run_op o m = Ok m' ->
  (∀ pdp pool, pools m !! pdp = Some pool ->
               tbl_once (pdp_tbl pool) ∧ tbl_once (pdp_enctbl pool)) ->
  ∀ pdp pool, pools m' !! pdp = Some pool ->
              tbl_once (pdp_tbl pool) ∧ tbl_once (pdp_enctbl pool).
Proof.
  intros W H. revert o m m' W H.
  apply (run_op_preserves
           (λ m, ∀ pdp pool, pools m !! pdp = Some pool ->
                             tbl_once (pdp_tbl pool) ∧ tbl_once (pdp_enctbl pool))).
  - intros S m m' F Hm pdp pool'. rewrite (fr_pools _ _ _ F).
    destruct (pools m !! pdp) as [pool|] eqn:Hpool; [|discriminate]. intros [= <-].
    destruct (Hm pdp pool Hpool) as [H1 H2]. simpl. split; by apply tbl_once_drop.
  - intros pd m m' R Hm pdp pool. rewrite (rl_pools _ _ _ R). apply Hm.
  - intros m pd c ptk name encname m' pde W Hc Hins Hm pdp pool'.
    destruct (insert_linked m pd c ptk name encname m' pde W Hc Hins) as (e & L & _).
    destruct (lk_pools _ _ _ _ _ _ L) as (pool & tt & tt' & b & b' & Hpool & Ht & Ht' & Hb & Hb' & ->).
    destruct (decide (pd_pool c = pdp)) as [<-|Hne].
    + rewrite lookup_insert_eq. intros [= <-]. simpl.
      destruct (Hm _ pool Hpool) as [H1 H2]. rewrite Ht in H1. rewrite Ht' in H2.
      assert (∀ t bb j, (t = pdp_tbl pool ∨ t = pdp_enctbl pool) -> t = Some bb ->
                        ∀ l, bb !! j = Some l -> pde ∉ l) as Hnot.
      { intros t bb j Hsel Hbb l Hl Hin.
        assert (in_tbl t pde) as Hin'.
        { exists bb, l. split; [exact Hbb|]. split; [|exact Hin].
          apply list_elem_of_lookup. eauto. }
        assert (is_Some (entry m pde)) as (e0 & He0).
        { destruct Hsel as [-> | ->].
          - exact (wf_hash _ W _ _ _ Hpool Hin').
          - exact (wf_enchash _ W _ _ _ Hpool Hin'). }
        rewrite (lk_fresh _ _ _ _ _ _ L) in He0. discriminate. }
      split.
      * apply (tbl_once_insert tt _ b pde Hb H1).
        exact (Hnot (pdp_tbl pool) tt _ (or_introl eq_refl) Ht b Hb).
      * apply (tbl_once_insert tt' _ b' pde Hb' H2).
        exact (Hnot (pdp_enctbl pool) tt' _ (or_intror eq_refl) Ht' b' Hb').
    + rewrite lookup_insert_ne by exact Hne. apply Hm.
  - intros m pdp Hm. exact Hm.
  - intros m pd c W Hc H0 H1 Hm. exact Hm.
Qed.

(** *** The buckets hold only what belongs there *)

Lemma home_freed h S m m' pdp i q :
  freed S m m' -> q ∉ S -> home h m pdp i q -> home h m' pdp i q.
Proof.
  intros F HS (e & c & He & Hc & Hp & Hi). exists e, (drop_dir S c).
  rewrite (fr_entry _ _ _ F), decide_False by exact HS.
  rewrite (fr_cache _ _ _ F), Hc. unfold DIRCACHE_TBL. rewrite (fr_hashmask _ _ _ F).
  auto.
Qed.

Lemma home_relinked h pd m m' pdp i q :
  (∀ e e', set_pde_gen 0 e' = set_pde_gen 0 e -> h e' = h e) ->
  relinked pd m m' -> home h m pdp i q -> home h m' pdp i q.
Proof.
  intros Hh R (e & c & He & Hc & Hp & Hi).
  destruct (relinked_entry _ _ _ _ _ R He) as (e' & He' & Hid).
  assert (pde_dircache e' = pde_dircache e) as Ho.
  { change (pde_dircache (set_pde_gen 0 e') = pde_dircache (set_pde_gen 0 e)).
    by rewrite Hid. }
  destruct (relinked_cache _ _ _ _ _ R Hc) as (c' & Hc' & Hp' & _).
  exists e', c'. rewrite Ho. split; [exact He'|]. split; [exact Hc'|].
  split; [congruence|]. unfold DIRCACHE_TBL. rewrite (rl_hashmask _ _ _ R), (Hh e e' Hid).
  exact Hi.
Qed.

Lemma hash_stamp e e' :
  set_pde_gen 0 e' = set_pde_gen 0 e ->
  pde_namehash e' = pde_namehash e ∧ pde_encnamehash e' = pde_encnamehash e ∧
  pde_dircache e' = pde_dircache e.
Proof. destruct e, e'. unfold set_pde_gen. simpl. by intros [= -> -> -> -> -> -> -> ->]. Qed.

Lemma home_insert h m pd c ptk name encname m' pde pdp i q :
  (∀ e e', set_pde_gen 0 e' = set_pde_gen 0 e -> h e' = h e) ->
  wf m -> cache m pd = Some c ->
  pefs_dircache_insert pd ptk name encname m = Ok (m', pde) ->
  home h m pdp i q -> home h m' pdp i q.
Proof.
  intros Hh W Hc Hins (e & c0 & He & Hc0 & Hp & Hi).
  destruct (insert_linked m pd c ptk name encname m' pde W Hc Hins) as (e1 & L & _).
  destruct (insert_inv m pd c ptk name encname m' pde W Hc Hins)
    as [_ Hfresh _ Hmask Hframe _ _].
  assert (q ≠ pde) as Hne by congruence.
  pose proof (lk_entries _ _ _ _ _ _ L q Hne) as Hq. rewrite He in Hq.
  destruct (entry m' q) as [e'|] eqn:He' in Hq; [|discriminate]. apply (inj Some) in Hq.
  destruct (hash_stamp e e' Hq) as (_ & _ & Ho).
  assert (∃ c', cache m' (pde_dircache e) = Some c' ∧ pd_pool c' = pd_pool c0) as (c' & Hc' & Hp').
  { destruct (decide (pde_dircache e = pd)) as [E|E].
    - destruct (lk_cache _ _ _ _ _ _ L) as (c' & Hc' & Hp' & _).
      rewrite E in *. rewrite Hc in Hc0. injection Hc0 as <-. eauto.
    - rewrite (Hframe _ E). eauto. }
  exists e', c'. rewrite Ho. split; [exact He'|]. split; [exact Hc'|].
  split; [congruence|]. unfold DIRCACHE_TBL. rewrite Hmask, (Hh e e' Hq). exact Hi.
Qed.

Lemma homed_run_op o m m' : wf m -> run_op o m = Ok m' -> homed m -> homed m'.
Proof.
  intros W H. revert o m m' W H. apply (run_op_preserves homed).
  - intros S m m' F Hm pdp pool' i q. rewrite (fr_pools _ _ _ F).
    destruct (pools m !! pdp) as [pool|] eqn:Hpool; [|discriminate]. intros [= <-].
    destruct (Hm pdp pool i q Hpool) as [H1 H2]. simpl.
    split; intros [Hin HS]%in_bucket_drop; eapply home_freed; eauto.
  - intros pd m m' R Hm pdp pool i q. rewrite (rl_pools _ _ _ R). intros Hpool.
    destruct (Hm pdp pool i q Hpool) as [H1 H2].
    split; intros Hin; eapply home_relinked; eauto; intros e e' Hid;
      by destruct (hash_stamp e e' Hid) as (? & ? & _).
  - intros m pd c ptk name encname m' pde W Hc Hins Hm pdp pool' i q.
    assert (∀ h pdp i q, (∀ e e', set_pde_gen 0 e' = set_pde_gen 0 e -> h e' = h e) ->
                         home h m pdp i q -> home h m' pdp i q) as Hold.
    { intros h pdp0 i0 q0 Hh. exact (home_insert h m pd c _ _ _ m' pde pdp0 i0 q0 Hh W Hc Hins). }
    assert (∀ e e', set_pde_gen 0 e' = set_pde_gen 0 e -> pde_namehash e' = pde_namehash e)
      as Hn by (intros e e' Hid; by destruct (hash_stamp e e' Hid) as (? & ? & _)).
    assert (∀ e e', set_pde_gen 0 e' = set_pde_gen 0 e ->
                    pde_encnamehash e' = pde_encnamehash e)
      as Hen by (intros e e' Hid; by destruct (hash_stamp e e' Hid) as (? & ? & _)).
    destruct (insert_linked m pd c ptk name encname m' pde W Hc Hins) as (e & L & g & Heq).
    destruct (insert_inv m pd c ptk name encname m' pde W Hc Hins)
      as [_ _ _ Hmask _ _ _].
    pose proof (lk_entry _ _ _ _ _ _ L) as He.
    destruct (lk_cache _ _ _ _ _ _ L) as (c' & Hc' & Hp' & _).
    assert (pde_dircache e = pd) as Ho by (by rewrite Heq).
    assert (∀ h, home h m' (pd_pool c) (DIRCACHE_TBL m (h e)) pde) as Hnew.
    { intros h. exists e, c'. rewrite Ho. split; [exact He|]. split; [exact Hc'|].
      split; [exact Hp'|]. unfold DIRCACHE_TBL. by rewrite Hmask. }
    destruct (lk_pools _ _ _ _ _ _ L)
      as (pool & tt & tt' & b & b' & Hpool & Ht & Ht' & Hb & Hb' & Hpools).
    rewrite Hpools. destruct (decide (pd_pool c = pdp)) as [<-|Hne].
    + rewrite lookup_insert_eq. intros [= <-]. simpl.
      destruct (Hm _ pool i q Hpool) as [H1 H2]. rewrite Ht in H1. rewrite Ht' in H2.
      split.
      * intros [[-> ->]|Hin]%(in_bucket_insert _ _ _ _ _ _ Hb); auto.
      * intros [[-> ->]|Hin]%(in_bucket_insert _ _ _ _ _ _ Hb'); auto.
    + rewrite lookup_insert_ne by exact Hne. intros Hpool'.
      destruct (Hm _ pool' i q Hpool') as [H1 H2]. split; auto.
  - intros m pdp0 Hm pdp pool i q Hpool.
    destruct (uma_zalloc_fresh (dircache_zone m)) as [_ Hfresh].
    assert (∀ h, home h m pdp i q -> home h (pefs_dircache_create pdp0 m).1 pdp i q) as Hk.
    { intros h (e & c & He & Hc & Hp & Hi). exists e, c. split; [exact He|].
      split; [|auto]. unfold pefs_dircache_create. simpl.
      rewrite cache_store_pd, decide_False; [exact Hc|].
      intros E. unfold cache in Hc. rewrite <- E in Hc. congruence. }
    destruct (Hm pdp pool i q Hpool) as [H1 H2]. split; auto.
  - intros m pd c W Hc H0 H1 Hm pdp pool i q Hpool.
    assert (∀ h, home h m pdp i q ->
                 home h (with_dircache_zone (delete pd (dircache_zone m)) m) pdp i q) as Hk.
    { intros h (e & c0 & He & Hc0 & Hp & Hi). exists e, c0. split; [exact He|].
      split; [|auto]. rewrite cache_delete, decide_False; [exact Hc0|]. intros E.
      destruct (wf_live _ W q e He) as (c2 & Hc2 & Hd).
      rewrite <- E, Hc in Hc2. injection Hc2 as <-.
      unfold on_dir in Hd. rewrite H0, H1 in Hd.
      destruct Hd as [Hd|Hd]; by apply elem_of_nil in Hd. }
    destruct (Hm pdp pool i q Hpool) as [Ha Hb]. split; auto.
Qed.

End Buckets.

Section LinkedOnce.
Context {P : Platform}.
Implicit Types (m : kmem) (c : pefs_dircache) (e : pefs_dircache_entry).

Lemma linked_once_run_ops os :
  ∀ m m', wf m -> dircache_inv m -> linked_once m -> ops_pre os m ->
          run_ops os m = Ok m' -> linked_once m'.
Proof.
  induction os as [|o os IH]; intros m m' W I Hn Hpre H; simpl in H.
  - by injection H as <-.
  - apply bind_Ok in H as (m1 & H1 & H). destruct Hpre as [Hpre Hrest].
    destruct (run_op_step o m m1 W I Hpre H1) as [W1 I1].
    apply (IH m1 m' W1 I1); [|exact (Hrest m1 H1)|exact H].
    destruct Hn as [Hd Hb]. split.
    + exact (dirs_once_run_op o m m1 W H1 Hd).
    + exact (buckets_once_run_op o m m1 W H1 Hb).
Qed.

Lemma homed_run_ops os :
  ∀ m m', wf m -> dircache_inv m -> homed m -> ops_pre os m ->
          run_ops os m = Ok m' -> homed m'.
Proof.
  induction os as [|o os IH]; intros m m' W I Hn Hpre H; simpl in H.
  - by injection H as <-.
  - apply bind_Ok in H as (m1 & H1 & H). destruct Hpre as [Hpre Hrest].
    destruct (run_op_step o m m1 W I Hpre H1) as [W1 I1].
    apply (IH m1 m' W1 I1); [|exact (Hrest m1 H1)|exact H].
    exact (homed_run_op o m m1 W H1 Hn).
Qed.

(** A store with no cache, no entry and nothing in a bucket. *)
Lemma empty_store_quiet m :
  dircache_zone m = ∅ -> dircache_entry_zone m = ∅ ->
  (∀ pdp pool p, pools m !! pdp = Some pool ->
                 ¬ in_tbl (pdp_tbl pool) p ∧ ¬ in_tbl (pdp_enctbl pool) p) ->
  stamped m ∧ names_terminated m ∧ linked_once m ∧ homed m.
Proof.
  intros Hz Hez Hp.
  assert (∀ pd, cache m pd = None) as Hc.
  { intros pd. unfold cache. by rewrite Hz, lookup_empty. }
  assert (∀ p, entry m p = None) as He.
  { intros p. unfold entry. by rewrite Hez, lookup_empty. }
  assert (∀ t, (∀ p, ¬ in_tbl t p) -> tbl_once t) as Hempty.
  { intros t Ht tt b Htt Hb. destruct b as [|p l]; [apply NoDup_nil_2|].
    destruct (Ht p). exists tt, (p :: l). split; [exact Htt|].
    split; [exact Hb|apply list_elem_of_here]. }
  split; [|split; [|split; [split|]]].
  - intros pd c q e Hcp. rewrite Hc in Hcp. discriminate.
  - intros p e Hep. rewrite He in Hep. discriminate.
  - intros pd c Hcp. rewrite Hc in Hcp. discriminate.
  - intros pdp pool Hpool.
    split; apply Hempty; intros p; by destruct (Hp pdp pool p Hpool).
  - intros pdp pool i q Hpool. destruct (Hp pdp pool q Hpool) as [H1 H2].
    split; intros Hin%in_bucket_in_tbl; contradiction.
Qed.

(** X27: no entry is ever linked twice. Through every sequence of
    operations that returns, the two lists of a cache together hold no
    address twice, so no entry is both active and stale, and no bucket
    of a table holds an address twice: what [LIST_REMOVE] unlinks is
    linked in one place. *)
Theorem entries_linked_once os m m' :
  wf m -> dircache_inv m -> linked_once m -> ops_pre os m -> run_ops os m = Ok m' ->
  linked_once m' ∧
  ∀ pd c q, cache m' pd = Some c -> q ∈ active c -> q ∉ stale c.
Proof.
  intros W I Hn Hpre H.
  pose proof (linked_once_run_ops os m m' W I Hn Hpre H) as Hn'.
  split; [exact Hn'|]. intros pd c q Hc Ha Hs.
  pose proof (proj1 Hn' pd c Hc) as Hd. unfold dir_once in Hd.
  apply NoDup_app in Hd as (_ & Hdis & _).
  rewrite active_swapped in Ha. rewrite stale_swapped in Hs.
  destruct (swapped c); eapply Hdis; eauto.
Qed.

(** X28: a bucket holds only what belongs there. Through every
    sequence of operations that returns, what is linked in a bucket of
    a table is an allocated entry of a cache on that pool whose hash
    selects that bucket; so an entry is in no second bucket of the
    plaintext tables, nor of the encrypted-name tables, of any pool. *)
Theorem buckets_hold_their_own os m m' :
  wf m -> dircache_inv m -> homed m -> ops_pre os m -> run_ops os m = Ok m' ->
  homed m' ∧
  ∀ pdp pool i pdp' pool' j q,
    pools m' !! pdp = Some pool -> pools m' !! pdp' = Some pool' ->
    (in_bucket (pdp_tbl pool) i q -> in_bucket (pdp_tbl pool') j q ->
     pdp = pdp' ∧ i = j) ∧
    (in_bucket (pdp_enctbl pool) i q -> in_bucket (pdp_enctbl pool') j q ->
     pdp = pdp' ∧ i = j).
Proof.
  intros W I Hn Hpre H.
  pose proof (homed_run_ops os m m' W I Hn Hpre H) as Hn'.
  split; [exact Hn'|]. intros pdp pool i pdp' pool' j q Hpool Hpool'.
  destruct (Hn' pdp pool i q Hpool) as [H1 H2].
  destruct (Hn' pdp' pool' j q Hpool') as [H1' H2'].
  assert (∀ h, home h m' pdp i q -> home h m' pdp' j q -> pdp = pdp' ∧ i = j) as Hsame.
  { intros h (e & c & He & Hc & Hp & Hi) (e' & c' & He' & Hc' & Hp' & Hi').
    rewrite He in He'. injection He' as <-. rewrite Hc in Hc'. injection Hc' as <-.
    split; congruence. }
  split; intros Hin Hin'; eapply Hsame; eauto.
Qed.

End LinkedOnce.

Section Protocol.
Context {P : Platform}.
Implicit Types (m : kmem) (c : pefs_dircache) (e : pefs_dircache_entry).

Lemma updating_drop_dir S c : updating (drop_dir S c) = updating c.
Proof. reflexivity. Qed.

(** X29: only [pefs_dircache_beginupdate] opens a pass and only
    [pefs_dircache_abortupdate] and [pefs_dircache_endupdate] close one.
    Whatever operation returns, a cache that is there before and after
    it keeps its pool; if its [PD_UPDATING] flag went up, the operation
    was a [beginupdate] of that cache with a non-zero generation, which
    is now its generation, and its active list is empty; if the flag
    went down, the operation was an [abortupdate] or an [endupdate] of
    that cache. *)
Theorem pass_flag_protocol o m m' pd c c' :
  wf m -> run_op o m = Ok m' -> cache m pd = Some c -> cache m' pd = Some c' ->
  pd_pool c' = pd_pool c ∧
  (updating c = false -> updating c' = true ->
   ∃ g, o = BeginUpdate pd g ∧ g ≠ 0 ∧ pd_gen c' = g ∧ active c' = []) ∧
  (updating c = true -> updating c' = false ->
   o = AbortUpdate pd ∨ o = EndUpdate pd).
Proof.
  intros W H Hc Hc'.
  assert (c' = c -> pd_pool c' = pd_pool c ∧
          (updating c = false -> updating c' = true ->
           ∃ g, o = BeginUpdate pd g ∧ g ≠ 0 ∧ pd_gen c' = g ∧ active c' = []) ∧
          (updating c = true -> updating c' = false ->
           o = AbortUpdate pd ∨ o = EndUpdate pd)) as Hsame.
  { intros ->. split; [reflexivity|]. split; congruence. }
  assert (m' = m -> c' = c) as Hnop by (intros ->; congruence).
  destruct (decide (pd = op_cache o m)) as [Hpd|Hpd].
  2: { apply Hsame. pose proof (run_op_touches o m m' W H) as T.
       rewrite (tc_caches _ _ _ T pd Hpd), Hc in Hc'. congruence. }
  destruct o; cbn [op_cache run_op] in *.
  - destruct (uma_zalloc_fresh (dircache_zone m)) as [_ Hfresh].
    unfold cache in Hc. rewrite Hpd in Hc. congruence.
  - subst pd0. destruct (purge_spec m pd c W Hc) as (m1 & S & Hrun & _ & _ & _ & Hc1 & _).
    rewrite H in Hrun. injection Hrun as <-. rewrite Hc1 in Hc'. injection Hc' as <-.
    split; [reflexivity|]. rewrite updating_drop_dir. split; congruence.
  - subst pd0. unfold pefs_dircache_free in H. rewrite (wf_nonnull_pd m pd c W Hc) in H.
    apply bind_Ok in H as (m1 & _ & H). apply bind_Ok in H as (c1 & _ & [= <-]).
    rewrite cache_delete, decide_True in Hc' by reflexivity. discriminate.
  - subst pd0. apply bind_Ok in H as ([m1 pde] & Hins & H). simpl in H. injection H as ->.
    destruct (insert_linked m pd c ptk name encname m' pde W Hc Hins) as (e & L & _).
    destruct (lk_cache _ _ _ _ _ _ L) as (c2 & Hc2 & Hp2 & _).
    rewrite Hc' in Hc2. injection Hc2 as <-. split; [exact Hp2|].
    destruct (insert_inv m pd c ptk name encname m' pde W Hc Hins)
      as [_ _ _ _ _ _ (c2 & Hc2 & Hu2 & Hi2)].
    rewrite Hc' in Hc2. injection Hc2 as <-.
    destruct (updating c) eqn:Hu.
    + rewrite (Hu2 eq_refl), updating_set_pd_heads, Hu. split; congruence.
    + destruct (Hi2 eq_refl) as (Hu' & _). rewrite Hu'. split; congruence.
  - apply bind_Ok in H as (r & _ & [= <-]). auto.
  - apply bind_Ok in H as (r & _ & [= <-]). auto.
  - assert (∃ e, entry m pde = Some e) as (e & He).
    { unfold pefs_dircache_update, dircache_update in H.
      apply bind_Ok in H as (e & Hl & _). apply load_pde_Ok in Hl. eauto. }
    rewrite He in Hpd. simpl in Hpd. subst pd.
    destruct (update_spec m pde e c W He Hc) as (m1 & Hrun & R & Hupd & Hidle).
    rewrite H in Hrun. injection Hrun as <-.
    destruct (relinked_cache _ _ _ _ _ R Hc) as (c2 & Hc2 & Hp2 & _).
    rewrite Hc' in Hc2. injection Hc2 as <-. split; [exact Hp2|].
    destruct (updating c) eqn:Hu.
    + destruct (Hupd eq_refl) as (c2 & Hc2 & _ & Hf & _).
      rewrite Hc' in Hc2. injection Hc2 as <-.
      rewrite (updating_flags c c' Hf), Hu. split; congruence.
    + destruct (Hidle eq_refl) as [E|(c2 & Hc2 & Hu2 & _)].
      * rewrite (Hnop E), Hu. split; congruence.
      * rewrite Hc' in Hc2. injection Hc2 as <-. rewrite Hu2. split; congruence.
  - subst pd0.
    destruct (Z.eq_dec gen 0) as [Hg0|Hg0].
    { rewrite (beginupdate_noop m pd c gen Hc) in H by auto. injection H as <-. auto. }
    destruct (Z.eq_dec (pd_gen c) gen) as [Hg|Hg].
    { rewrite (beginupdate_noop m pd c gen Hc) in H by auto. injection H as <-. auto. }
    pose proof (beginupdate_outcome m pd c gen W Hc) as Hout. rewrite H in Hout.
    destruct (INVARIANTS && _ && _ && _ && _) eqn:Hb in Hout; [discriminate|].
    assert (INVARIANTS = false ∨ active c = [] ∨ stale c = []) as Hok.
    { pose proof Hg0 as Hb0. pose proof Hg as Hb1. apply Z.eqb_neq in Hb0, Hb1.
      rewrite Hb0, Hb1 in Hb. simpl in Hb. rewrite !andb_true_r in Hb.
      destruct INVARIANTS; [|by left]. right. simpl in Hb.
      destruct (active c); [by left|]. destruct (stale c); [by right|]. discriminate. }
    destruct (beginupdate_spec m pd c gen W Hc Hg0 Hg Hok)
      as (m1 & c1 & Hrun & R & Hc1 & Hg1 & Hu1 & Ha1).
    rewrite H in Hrun. injection Hrun as <-.
    rewrite Hc' in Hc1. injection Hc1 as <-.
    destruct (relinked_cache _ _ _ _ _ R Hc) as (c2 & Hc2 & Hp2 & _).
    rewrite Hc' in Hc2. injection Hc2 as <-. split; [exact Hp2|]. split.
    + intros _ _. exists gen. auto.
    + congruence.
  - subst pd0. pose proof (abortupdate_relinked m pd m' W H) as R.
    destruct (relinked_cache _ _ _ _ _ R Hc) as (c2 & Hc2 & Hp2 & _).
    rewrite Hc' in Hc2. injection Hc2 as <-. split; [exact Hp2|].
    destruct (updating c) eqn:Hu; [split; [congruence|auto]|].
    unfold pefs_dircache_abortupdate in H.
    pose proof Hc as Hl. apply load_pd_Ok in Hl.
    rewrite Hl, ret_bind, Hu, ret_bind, Hl, ret_bind in H.
    apply bind_Ok in H as (u & _ & [= <-]). rewrite (Hnop eq_refl), Hu. split; congruence.
  - subst pd0. destruct (updating c) eqn:Hu.
    + destruct (endupdate_spec m pd c W Hc Hu)
        as (m1 & m2 & S & c2 & Hrun & F & R & _ & _ & Hc2 & _).
      rewrite H in Hrun. injection Hrun as <-. rewrite Hc' in Hc2. injection Hc2 as <-.
      pose proof (fr_cache _ _ _ F pd) as Hc1. rewrite Hc in Hc1. simpl in Hc1.
      destruct (relinked_cache _ _ _ _ _ R Hc1) as (c3 & Hc3 & Hp3 & _).
      rewrite Hc' in Hc3. injection Hc3 as <-. split; [exact Hp3|]. split; [congruence|auto].
    + unfold pefs_dircache_endupdate in H.
      pose proof Hc as Hl. apply load_pd_Ok in Hl.
      rewrite Hl, ret_bind, Hu in H. cbn [negb] in H.
      apply bind_Ok in H as (u & _ & [= <-]). auto.
Qed.

End Protocol.

Section Runs.
Context {P : Platform}.
Implicit Types (m : kmem).

Lemma run_ops_app os1 os2 m : run_ops (os1 ++ os2) m = run_ops os1 m ≫= run_ops os2.
Proof.
  revert m. induction os1 as [|o os1 IH]; intros m; simpl; [reflexivity|].
  destruct (run_op o m) as [m1|err]; simpl; [apply IH|reflexivity].
Qed.

(** The store a sequence of operations that returns leaves. *)
Lemma run_after m0 os :
  is_fatal (run_ops os m0) = false ->
  run_ops os m0 = Ok (match run_ops os m0 with Ok m => m | Err _ => m0 end).
Proof. by destruct (run_ops os m0). Qed.

Lemma step_after m0 os o :
  is_fatal (run_ops (os ++ [o]) m0) = false ->
  run_op o (match run_ops os m0 with Ok m => m | Err _ => m0 end)
  = Ok (match run_ops (os ++ [o]) m0 with Ok m => m | Err _ => m0 end).
Proof.
  rewrite run_ops_app. destruct (run_ops os m0) as [m|err]; simpl; [|discriminate].
  by destruct (run_op o m).
Qed.

End Runs.

(** * The claims on the sample stores *)

#[local] Existing Instance sample_platform.

(** Equations between stores are checked by evaluating their two sides. *)
Ltac by_evaluation :=
  match goal with
  | |- @eq ?T ?x ?y => exact (@eq_refl T y <: @eq T x y)
  end.

Lemma sample_init_Ok :
  @pefs_dircache_init sample_platform None None 64 100 sample_boot = Ok sample_init.
Proof. apply (ok_after _ sample_boot). vm_compute. reflexivity. Qed.

Lemma sample_init_ok :
  @wf sample_platform sample_init ∧ @dircache_inv sample_platform sample_init ∧
  @pool_ok sample_platform sample_init 100.
Proof.
  destruct (@init_wf sample_platform None None 64 100 ∅ sample_init sample_init_Ok)
    as [W I].
  split; [exact W|]. split; [exact I|].
  apply (@init_pool_ok sample_platform None None 64 100 ∅ sample_init).
  - vm_compute. split; [discriminate|reflexivity].
  - discriminate.
  - exact sample_init_Ok.
Qed.

Lemma sample_fresh_ok :
  @wf sample_platform sample_fresh ∧ @dircache_inv sample_platform sample_fresh.
Proof.
  destruct sample_init_ok as (W & I & Hpool).
  exact (@create_step sample_platform sample_init 100 W I Hpool).
Qed.

Lemma ops_pre_no_create {P : Platform} os :
  forallb (fun o => negb (is_create o)) os = true -> ∀ m, ops_pre os m.
Proof.
  induction os as [|o os IH]; intros H m; [exact I|].
  simpl in H. apply andb_true_iff in H as [Ho Hos]. split.
  - destruct o; try exact I. discriminate.
  - intros m1 _. by apply IH.
Qed.

Lemma sample_after_ok os :
  forallb (fun o => negb (is_create o)) os = true ->
  @wf sample_platform (sample_after os) ∧ @dircache_inv sample_platform (sample_after os).
Proof.
  intros Hos. unfold sample_after.
  destruct (@run_ops sample_platform os sample_fresh) as [m|err] eqn:Hrun.
  - destruct sample_fresh_ok as [W I].
    exact (@run_ops_steps sample_platform os sample_fresh m W I
             (ops_pre_no_create os Hos sample_fresh) Hrun).
  - exact sample_fresh_ok.
Qed.

Lemma sample_init_empty :
  (dircache_zone sample_init = ∅ ∧ dircache_entry_zone sample_init = ∅ ∧
   ∀ x pool p, pools sample_init !! x = Some pool ->
               ¬ in_tbl (pdp_tbl pool) p ∧ ¬ in_tbl (pdp_enctbl pool) p) ∧
  @entries_counted sample_platform sample_init.
Proof.
  destruct (@init_pool_empty sample_platform None None 64 100 ∅)
    as (m & m1 & pdp & Hinit & _ & Hempty & Hn & _ & Hglobal & _).
  { vm_compute. split; [discriminate|reflexivity]. }
  { vm_compute. reflexivity. }
  destruct Hglobal as [_ ->]; [discriminate|].
  assert (Ok m = Ok sample_init) as [= ->] by (rewrite <- Hinit; exact sample_init_Ok).
  split; [exact Hempty|exact Hn].
Qed.

Lemma sample_fresh_hashed :
  @hashed sample_platform sample_fresh ∧ @entries_counted sample_platform sample_fresh.
Proof.
  destruct sample_init_empty as ((Hz & Hez & Hp) & Hn).
  destruct (@empty_store_ok sample_platform _ Hz Hez Hp) as (_ & _ & Hh).
  split; [|exact Hn]. exact (@hashed_create sample_platform _ 100 Hh).
Qed.

Lemma sample_after_hashed os :
  forallb (fun o => negb (is_create o)) os = true ->
  @hashed sample_platform (sample_after os).
Proof.
  intros Hos. unfold sample_after.
  destruct (@run_ops sample_platform os sample_fresh) as [m|err] eqn:Hrun.
  - destruct sample_fresh_ok as [W I].
    exact (proj2 (@hashed_run_ops sample_platform os sample_fresh m W I
                    (proj1 sample_fresh_hashed)
                    (ops_pre_no_create os Hos sample_fresh) Hrun)).
  - exact (proj1 sample_fresh_hashed).
Qed.

Lemma insert_commit_lookup_witness :
  @wf sample_platform sample_fresh ∧
  ∃ m1 m2 pde m3 e,
    @pefs_dircache_beginupdate sample_platform sample_pd 7 sample_fresh = Ok m1 ∧
    @pefs_dircache_insert sample_platform sample_pd sample_key foo ABC m1 = Ok (m2, pde) ∧
    @pefs_dircache_endupdate sample_platform sample_pd m2 = Ok m3 ∧
    @pefs_dircache_lookup sample_platform sample_pd foo m3 = Ok pde ∧ pde ≠ NULL ∧
    @entry sample_platform m3 pde = Some e ∧
    entry_name e = foo ∧ entry_encname e = ABC.
Proof.
  split; [exact (proj1 sample_fresh_ok)|].
  apply (@insert_commit_lookup sample_platform sample_fresh sample_pd
           {| pd_heads0 := []; pd_heads1 := []; pd_gen := 0; pd_flags := 0;
              pd_pool := 100 |} sample_key foo ABC 7).
  - exact (proj1 sample_fresh_ok).
  - vm_compute. reflexivity.
  - reflexivity.
  - reflexivity.
  - discriminate.
  - discriminate.
  - simpl. lia.
  - simpl. lia.
  - right. discriminate.
Defined.

Lemma beginupdate_idempotent_witness :
  @pefs_dircache_beginupdate sample_platform sample_pd 7
    (sample_after [BeginUpdate sample_pd 7])
  = Ok (sample_after [BeginUpdate sample_pd 7]).
Proof.
  apply (@beginupdate_idempotent sample_platform sample_fresh sample_pd 7).
  by_evaluation.
Defined.

Lemma abortupdate_resets_generation_witness :
  ∃ m1 c1,
    @pefs_dircache_abortupdate sample_platform sample_pd
      (sample_after [BeginUpdate sample_pd 7; Insert sample_pd sample_key foo ABC]) = Ok m1 ∧
    @cache sample_platform m1 sample_pd = Some c1 ∧ pd_gen c1 = 0 ∧ updating c1 = false ∧
    ∀ g, g ≠ 0 ->
      ∃ m2 c2, @pefs_dircache_beginupdate sample_platform sample_pd g m1 = Ok m2 ∧ m2 ≠ m1 ∧
               @cache sample_platform m2 sample_pd = Some c2 ∧ pd_gen c2 = g ∧
               updating c2 = true.
Proof.
  apply (@abortupdate_resets_generation sample_platform _ sample_pd
           {| pd_heads0 := [1]; pd_heads1 := []; pd_gen := 7; pd_flags := 1;
              pd_pool := 100 |}).
  - apply sample_after_ok. reflexivity.
  - vm_compute. reflexivity.
  - vm_compute. reflexivity.
Defined.

Lemma abortupdate_frees_nothing_witness :
  let m := sample_after [BeginUpdate sample_pd 7; Insert sample_pd sample_key foo ABC] in
  let c := {| pd_heads0 := [1]; pd_heads1 := []; pd_gen := 7; pd_flags := 1;
              pd_pool := 100 |} in
  ∃ m1 c1,
    @pefs_dircache_abortupdate sample_platform sample_pd m = Ok m1 ∧
    (∀ q e, @entry sample_platform m q = Some e ->
            ∃ e1, @entry sample_platform m1 q = Some e1 ∧
                  set_pde_gen 0 e1 = set_pde_gen 0 e) ∧
    pools m1 = pools m ∧
    @cache sample_platform m1 sample_pd = Some c1 ∧ updating c1 = false ∧
    active c1 = [] ∧
    (∀ q, on_dir c q ↔ q ∈ stale c1) ∧
    ∀ g, g ≠ 0 ->
      ∃ m2 m3, @pefs_dircache_beginupdate sample_platform sample_pd g m1 = Ok m2 ∧
               (∀ q, on_dir c q -> is_Some (@entry sample_platform m2 q)) ∧
               @pefs_dircache_endupdate sample_platform sample_pd m2 = Ok m3 ∧
               (∀ q, on_dir c q -> @entry sample_platform m3 q = None).
Proof.
  intros m c.
  apply (@abortupdate_frees_nothing sample_platform m sample_pd c).
  - apply sample_after_ok. reflexivity.
  - vm_compute. reflexivity.
  - vm_compute. reflexivity.
Defined.

Lemma purge_frees_all_witness :
  let m := sample_after [BeginUpdate sample_pd 7; Insert sample_pd sample_key foo ABC;
                         EndUpdate sample_pd] in
  let c := {| pd_heads0 := [1]; pd_heads1 := []; pd_gen := 7; pd_flags := 0;
              pd_pool := 100 |} in
  ∃ m1 c1,
    @pefs_dircache_purge sample_platform sample_pd m = Ok m1 ∧ @wf sample_platform m1 ∧
    @cache sample_platform m1 sample_pd = Some c1 ∧ pd_heads0 c1 = [] ∧ pd_heads1 c1 = [] ∧
    pd_gen c1 = pd_gen c ∧ pd_flags c1 = pd_flags c ∧ pd_pool c1 = pd_pool c ∧
    (∀ q, on_dir c q ->
          @entry sample_platform m1 q = None ∧
          ∀ pdp pool, pools m1 !! pdp = Some pool ->
                      ¬ in_tbl (pdp_tbl pool) q ∧ ¬ in_tbl (pdp_enctbl pool) q) ∧
    (∀ name, @pefs_dircache_enclookup sample_platform sample_pd name m1 = Ok NULL) ∧
    (∀ name, @pefs_dircache_lookup sample_platform sample_pd name m1
             = if @INVARIANTS sample_platform && updating c then Err Panic else Ok NULL).
Proof.
  intros m c.
  apply (@purge_frees_all sample_platform m sample_pd c).
  - apply sample_after_ok. reflexivity.
  - vm_compute. reflexivity.
Defined.

Lemma insert_length_check_witness :
  @pefs_dircache_insert sample_platform sample_pd sample_key [] ABC sample_fresh = Err Panic ∧
  ∃ m' pde e,
    @pefs_dircache_insert sample_platform sample_pd sample_key foo ABC sample_fresh
    = Ok (m', pde) ∧
    pde ≠ NULL ∧ @entry sample_platform sample_fresh pde = None ∧
    @entry sample_platform m' pde = Some e ∧
    pde_dircache e = sample_pd ∧ entry_name e = foo ∧ entry_encname e = ABC.
Proof.
  destruct (@insert_length_check sample_platform) as [Hbad Hgood]. split.
  - apply Hbad. left. reflexivity.
  - apply (Hgood sample_fresh sample_pd
             {| pd_heads0 := []; pd_heads1 := []; pd_gen := 0; pd_flags := 0;
                pd_pool := 100 |}).
    + exact (proj1 sample_fresh_ok).
    + vm_compute. reflexivity.
    + simpl. lia.
    + simpl. lia.
    + right. discriminate.
Defined.

Lemma dircache_assert_preserved_witness :
  let m := sample_after [BeginUpdate sample_pd 7; Insert sample_pd sample_key foo ABC] in
  let m' := sample_after [BeginUpdate sample_pd 7; Insert sample_pd sample_key foo ABC;
                          AbortUpdate sample_pd] in
  @dircache_inv sample_platform m' ∧
  ∀ pd c, @cache sample_platform m' pd = Some c -> updating c = false ->
          active c = [] ∨ stale c = [].
Proof.
  intros m m'.
  apply (@dircache_assert_preserved sample_platform (AbortUpdate sample_pd) m m').
  - apply sample_after_ok. reflexivity.
  - apply sample_after_ok. reflexivity.
  - by_evaluation.
Defined.


Lemma eviction_on_non_reconfirmation_witness :
  let m := sample_after [BeginUpdate sample_pd 7; Insert sample_pd sample_key foo ABC;
                         EndUpdate sample_pd] in
  ∃ m1, @pefs_dircache_beginupdate sample_platform sample_pd 9 m = Ok m1 ∧
        ∀ m2, @pass_steps sample_platform sample_pd foo m1 m2 ->
              ∃ m3, @pefs_dircache_endupdate sample_platform sample_pd m2 = Ok m3 ∧
                    @entry sample_platform m3 1 = None ∧
                    @pefs_dircache_lookup sample_platform sample_pd foo m3 = Ok NULL.
Proof.
  intros m.
  apply (@eviction_on_non_reconfirmation sample_platform m sample_pd
           {| pd_heads0 := [1]; pd_heads1 := []; pd_gen := 7; pd_flags := 0;
              pd_pool := 100 |} 1 sample_entry foo 9).
  - apply sample_after_ok. reflexivity.
  - vm_compute. reflexivity.
  - vm_compute. reflexivity.
  - vm_compute. reflexivity.
  - vm_compute. apply list_elem_of_here.
  - vm_compute. reflexivity.
  - vm_compute. reflexivity.
  - discriminate.
  - discriminate.
Defined.

(** C3 as stated fails when two entries of a cache hold the same
    encrypted name: with ["foo"] and then ["bar"] inserted under ["ABC"],
    the lookup of the encrypted name of the first entry returns the
    second. *)
Lemma enclookup_counterexample :
  let m := sample_after [BeginUpdate sample_pd 7; Insert sample_pd sample_key foo ABC;
                         Insert sample_pd sample_key bar ABC] in
  ∃ c e,
    @wf sample_platform m ∧
    @cache sample_platform m sample_pd = Some c ∧ active c = [2; 1] ∧
    @entry sample_platform m 1 = Some e ∧ pde_dircache e = sample_pd ∧
    entry_encname e = ABC ∧
    @pefs_dircache_enclookup sample_platform sample_pd (entry_encname e) m = Ok 2 ∧
    @pefs_dircache_enclookup sample_platform sample_pd (entry_encname e) m ≠ Ok 1.
Proof.
  intros m. eexists _, _.
  split; [apply sample_after_ok; reflexivity|].
  split; [vm_compute; reflexivity|]. split; [vm_compute; reflexivity|].
  split; [vm_compute; reflexivity|]. split; [vm_compute; reflexivity|].
  split; [vm_compute; reflexivity|]. split; [vm_compute; reflexivity|].
  vm_compute. discriminate.
Qed.

Lemma enclookup_ignores_generation_witness :
  let m := sample_after [BeginUpdate sample_pd 7; Insert sample_pd sample_key foo ABC;
                         EndUpdate sample_pd; BeginUpdate sample_pd 9;
                         Insert sample_pd sample_key bar ABC] in
  (∃ c, @cache sample_platform m sample_pd = Some c ∧ updating c = true ∧
        pd_gen c = 9 ∧ pde_gen sample_entry = 7) ∧
  ∃ c pool b pre p' post e',
    @cache sample_platform m sample_pd = Some c ∧ pools m !! pd_pool c = Some pool ∧
    bucket (pdp_enctbl pool) (@DIRCACHE_TBL sample_platform m (pde_encnamehash sample_entry))
    = Ok b ∧
    1 ∈ b ∧ b = pre ++ p' :: post ∧
    @pefs_dircache_enclookup sample_platform sample_pd (entry_encname sample_entry) m
    = Ok p' ∧ p' ≠ NULL ∧
    @entry sample_platform m p' = Some e' ∧ pde_dircache e' = sample_pd ∧
    entry_encname e' = entry_encname sample_entry ∧
    (∀ q e2, q ∈ pre -> @entry sample_platform m q = Some e2 ->
             pde_dircache e2 = sample_pd ->
             entry_encname e2 ≠ entry_encname sample_entry) ∧
    ((∀ q e2, @entry sample_platform m q = Some e2 -> pde_dircache e2 = sample_pd ->
              entry_encname e2 = entry_encname sample_entry -> q = 1) ->
     p' = 1).
Proof.
  intros m. split.
  { eexists. split; [vm_compute; reflexivity|]. split; [vm_compute; reflexivity|].
    split; [vm_compute; reflexivity|]. reflexivity. }
  apply (@enclookup_ignores_generation sample_platform m sample_pd 1 sample_entry).
  - apply sample_after_ok. reflexivity.
  - apply sample_after_hashed. reflexivity.
  - vm_compute. reflexivity.
  - reflexivity.
Defined.

(** C9 as stated fails: with 100 buckets configured and
    [desiredvnodes = 80000] the table has [2^14] buckets, not the 512 that
    clamping to the minimum and rounding gives; with nothing configured
    and [desiredvnodes = 800] it has 128, below the minimum; and with
    [2^60] buckets configured the byte count of a table of [2^61] list
    heads wraps and no table of that size is allocated, while [2^63]
    buckets ask for the undefined shift [1ULL << 64]. *)
Lemma pool_table_size_counterexample :
  (∃ m, @pefs_dircache_init sample_platform (Some 100) None 80000 100 sample_boot = Ok m ∧
        tbl_size m = 16384 ∧ spec_tbl_size 100 = 512 ∧ tbl_size m ≠ spec_tbl_size 100) ∧
  (∃ m, @pefs_dircache_init sample_platform None None 800 100 sample_boot = Ok m ∧
        tbl_size m = 128 ∧ tbl_size m < DIRCACHE_SIZE_MIN) ∧
  is_fatal (@pefs_dircache_init sample_platform (Some (2 ^ 60)) None 800 100 sample_boot)
  = true ∧
  is_fatal (@pefs_dircache_init sample_platform (Some (2 ^ 63)) None 800 100 sample_boot)
  = true.
Proof.
  split; [|split; [|split]].
  - eexists. split; [apply (ok_after _ sample_boot); vm_compute; reflexivity|].
    split; [vm_compute; reflexivity|]. split; [vm_compute; reflexivity|].
    vm_compute. discriminate.
  - eexists. split; [apply (ok_after _ sample_boot); vm_compute; reflexivity|].
    split; vm_compute; reflexivity.
  - vm_compute. reflexivity.
  - vm_compute. reflexivity.
Qed.

Lemma pool_table_size_witness :
  ∃ m, @pefs_dircache_init sample_platform (Some 600) None 80000 100 sample_boot = Ok m ∧
       dircache_buckets m = 600 ∧ tbl_size m = 1024 ∧ DIRCACHE_SIZE_MIN < tbl_size m ∧
       pools m !! 100 = Some {| pdp_tbl := Some (replicate 1024 []);
                                pdp_enctbl := Some (replicate 1024 []) |}.
Proof.
  destruct (@pool_table_size sample_platform (Some 600) None 80000 100 ∅)
    as (_ & _ & m & Hinit & Hb & Hsize & _ & _ & Hmin & Hpool & _).
  { vm_compute. split; [discriminate|reflexivity]. }
  { vm_compute. reflexivity. }
  exists m. split; [exact Hinit|]. split; [exact Hb|]. split; [exact Hsize|].
  split; [apply Hmin; vm_compute; discriminate|].
  rewrite (Hpool ltac:(discriminate)). change (2 ^ flsl _) with 1024 in Hsize.
  by rewrite Hsize.
Defined.

(** * The further properties on the sample stores *)

Lemma sample_two_ok :
  @wf sample_platform sample_two ∧ @dircache_inv sample_platform sample_two.
Proof.
  destruct sample_fresh_ok as [W I].
  apply (@create_step sample_platform sample_fresh 100 W I).
  apply (@pool_ok_frame sample_platform sample_init); try reflexivity.
  exact (proj2 (proj2 sample_init_ok)).
Qed.

Lemma sample_two_after_ok os :
  forallb (fun o => negb (is_create o)) os = true ->
  @wf sample_platform (sample_two_after os) ∧
  @dircache_inv sample_platform (sample_two_after os).
Proof.
  intros Hos. unfold sample_two_after.
  destruct (@run_ops sample_platform os sample_two) as [m|err] eqn:Hrun.
  - destruct sample_two_ok as [W I].
    exact (@run_ops_steps sample_platform os sample_two m W I
             (ops_pre_no_create os Hos sample_two) Hrun).
  - exact sample_two_ok.
Qed.

Lemma lookup_sound_witness :
  let m := sample_after [BeginUpdate sample_pd 7; Insert sample_pd sample_key foo ABC;
                         EndUpdate sample_pd] in
  ∃ c pool e,
    @cache sample_platform m sample_pd = Some c ∧ pools m !! pd_pool c = Some pool ∧
    in_tbl (pdp_tbl pool) 1 ∧ @entry sample_platform m 1 = Some e ∧
    pde_dircache e = sample_pd ∧ pde_gen e = pd_gen c ∧
    pde_namelen e = length foo ∧ entry_name e = foo.
Proof.
  intros m. apply (@lookup_sound sample_platform m sample_pd foo 1).
  - vm_compute. reflexivity.
  - discriminate.
Defined.

Lemma enclookup_sound_witness :
  let m := sample_after [BeginUpdate sample_pd 7; Insert sample_pd sample_key foo ABC] in
  ∃ c pool e,
    @cache sample_platform m sample_pd = Some c ∧ pools m !! pd_pool c = Some pool ∧
    in_tbl (pdp_enctbl pool) 1 ∧ @entry sample_platform m 1 = Some e ∧
    pde_dircache e = sample_pd ∧
    pde_encnamelen e = length ABC ∧ entry_encname e = ABC.
Proof.
  intros m. apply (@enclookup_sound sample_platform m sample_pd ABC 1).
  - vm_compute. reflexivity.
  - discriminate.
Defined.

Lemma insert_then_enclookup_witness :
  let m := sample_after [BeginUpdate sample_pd 7; Insert sample_pd sample_key foo ABC] in
  ∃ m' pde, @pefs_dircache_insert sample_platform sample_pd sample_key bar ABC m = Ok (m', pde) ∧
            @pefs_dircache_enclookup sample_platform sample_pd ABC m' = Ok pde.
Proof.
  intros m.
  apply (@insert_then_enclookup sample_platform m sample_pd
           {| pd_heads0 := [1]; pd_heads1 := []; pd_gen := 7; pd_flags := 1;
              pd_pool := 100 |} sample_key bar ABC).
  - apply sample_after_ok. reflexivity.
  - vm_compute. reflexivity.
  - simpl. lia.
  - simpl. lia.
  - right. discriminate.
Defined.

Lemma insert_then_commit_witness :
  let m := sample_after [BeginUpdate sample_pd 7; Insert sample_pd sample_key foo ABC] in
  ∃ m1 pde m2,
    @pefs_dircache_insert sample_platform sample_pd sample_key foo ABC m = Ok (m1, pde) ∧
    @pefs_dircache_endupdate sample_platform sample_pd m1 = Ok m2 ∧
    @pefs_dircache_lookup sample_platform sample_pd foo m2 = Ok pde ∧
    @pefs_dircache_enclookup sample_platform sample_pd ABC m2 = Ok pde.
Proof.
  intros m.
  apply (@insert_then_commit sample_platform m sample_pd
           {| pd_heads0 := [1]; pd_heads1 := []; pd_gen := 7; pd_flags := 1;
              pd_pool := 100 |} sample_key foo ABC).
  - apply sample_after_ok. reflexivity.
  - vm_compute. reflexivity.
  - vm_compute. reflexivity.
  - simpl. lia.
  - simpl. lia.
  - right. discriminate.
Defined.

Lemma insert_outside_pass_witness :
  let m := sample_after [BeginUpdate sample_pd 7; Insert sample_pd sample_key foo ABC;
                         EndUpdate sample_pd] in
  let c := {| pd_heads0 := [1]; pd_heads1 := []; pd_gen := 7; pd_flags := 0;
              pd_pool := 100 |} in
  ∃ m' pde e c',
    @pefs_dircache_insert sample_platform sample_pd sample_key bar ABC m = Ok (m', pde) ∧
    @entry sample_platform m' pde = Some e ∧ pde_gen e = 0 ∧
    @cache sample_platform m' sample_pd = Some c' ∧ updating c' = false ∧ pd_gen c' = 0 ∧
    active c' = [] ∧ (∀ q, q ∈ stale c' ↔ q = pde ∨ on_dir c q) ∧
    (∀ q, is_Some (@entry sample_platform m q) -> is_Some (@entry sample_platform m' q)) ∧
    (@INVARIANTS sample_platform = true ->
     ∀ n, @pefs_dircache_lookup sample_platform sample_pd n m' = Err Panic).
Proof.
  intros m c.
  apply (@insert_outside_pass sample_platform m sample_pd c sample_key bar ABC).
  - apply sample_after_ok. reflexivity.
  - vm_compute. reflexivity.
  - vm_compute. reflexivity.
  - simpl. lia.
  - simpl. lia.
  - right. discriminate.
Defined.

Lemma sample_entry_cached :
  @cached sample_platform
    (sample_after [BeginUpdate sample_pd 7; Insert sample_pd sample_key foo ABC;
                   EndUpdate sample_pd]) sample_pd 1 sample_entry.
Proof.
  split.
  - vm_compute. reflexivity.
  - reflexivity.
  - vm_compute. reflexivity.
  - vm_compute. reflexivity.
  - simpl. lia.
  - eexists _, _, _. split; [vm_compute; reflexivity|].
    split; [vm_compute; reflexivity|]. split; [vm_compute; reflexivity|].
    apply list_elem_of_here.
  - eexists _, _, _. split; [vm_compute; reflexivity|].
    split; [vm_compute; reflexivity|]. split; [vm_compute; reflexivity|].
    apply list_elem_of_here.
Qed.

Lemma reconfirmed_entry_survives_witness :
  let m := sample_after [BeginUpdate sample_pd 7; Insert sample_pd sample_key foo ABC;
                         EndUpdate sample_pd] in
  ∃ m1 m2 m3,
    @pefs_dircache_beginupdate sample_platform sample_pd 9 m = Ok m1 ∧
    @pefs_dircache_update sample_platform 1 m1 = Ok m2 ∧
    @pefs_dircache_endupdate sample_platform sample_pd m2 = Ok m3 ∧
    @entry sample_platform m3 1 = Some (set_pde_gen 9 sample_entry) ∧
    (∀ q, on_dir {| pd_heads0 := [1]; pd_heads1 := []; pd_gen := 7; pd_flags := 0;
                    pd_pool := 100 |} q -> q ≠ 1 -> @entry sample_platform m3 q = None) ∧
    @pefs_dircache_lookup sample_platform sample_pd (entry_name sample_entry) m3 = Ok 1.
Proof.
  intros m.
  apply (@reconfirmed_entry_survives sample_platform m sample_pd
           {| pd_heads0 := [1]; pd_heads1 := []; pd_gen := 7; pd_flags := 0;
              pd_pool := 100 |} 1 sample_entry 9).
  - apply sample_after_ok. reflexivity.
  - vm_compute. reflexivity.
  - vm_compute. reflexivity.
  - vm_compute. reflexivity.
  - exact sample_entry_cached.
  - discriminate.
  - discriminate.
Defined.

Lemma update_outside_pass_witness :
  let m := sample_after [BeginUpdate sample_pd 7; Insert sample_pd sample_key foo ABC;
                         EndUpdate sample_pd] in
  @pefs_dircache_update sample_platform 1 m = Ok m.
Proof.
  intros m.
  apply (@update_outside_pass sample_platform m 1 sample_entry
           {| pd_heads0 := [1]; pd_heads1 := []; pd_gen := 7; pd_flags := 0;
              pd_pool := 100 |}).
  - apply sample_after_ok. reflexivity.
  - vm_compute. reflexivity.
  - vm_compute. reflexivity.
  - vm_compute. reflexivity.
  - discriminate.
  - reflexivity.
Defined.

Lemma create_then_lookup_witness :
  sample_pd2 ≠ NULL ∧ @cache sample_platform sample_fresh sample_pd2 = None ∧
  @wf sample_platform sample_two ∧
  (∀ pd', pd' ≠ sample_pd2 ->
          @cache sample_platform sample_two pd' = @cache sample_platform sample_fresh pd') ∧
  (∀ q, @entry sample_platform sample_two q = @entry sample_platform sample_fresh q) ∧
  ∀ name, @pefs_dircache_lookup sample_platform sample_pd2 name sample_two = Ok NULL ∧
          @pefs_dircache_enclookup sample_platform sample_pd2 name sample_two = Ok NULL.
Proof.
  apply (@create_then_lookup sample_platform sample_fresh 100).
  - exact (proj1 sample_fresh_ok).
  - apply (@pool_ok_frame sample_platform sample_init); try reflexivity.
    exact (proj2 (proj2 sample_init_ok)).
Defined.

Lemma free_releases_cache_witness :
  let m := sample_two_after [BeginUpdate sample_pd 7; Insert sample_pd sample_key foo ABC;
                             BeginUpdate sample_pd2 3;
                             Insert sample_pd2 sample_key foo ABC] in
  let c := {| pd_heads0 := [1]; pd_heads1 := []; pd_gen := 7; pd_flags := 1;
              pd_pool := 100 |} in
  ∃ m', @pefs_dircache_free sample_platform sample_pd m = Ok m' ∧
        @wf sample_platform m' ∧ @cache sample_platform m' sample_pd = None ∧
        (∀ q, on_dir c q ->
              @entry sample_platform m' q = None ∧
              ∀ pdp pool, pools m' !! pdp = Some pool ->
                          ¬ in_tbl (pdp_tbl pool) q ∧ ¬ in_tbl (pdp_enctbl pool) q) ∧
        (∀ q e, @entry sample_platform m q = Some e -> pde_dircache e ≠ sample_pd ->
                @entry sample_platform m' q = Some e) ∧
        (∀ pd', pd' ≠ sample_pd ->
                @cache sample_platform m' pd' = @cache sample_platform m pd').
Proof.
  intros m c. apply (@free_releases_cache sample_platform m sample_pd c).
  - apply sample_two_after_ok. reflexivity.
  - vm_compute. reflexivity.
Defined.

Lemma caches_isolated_witness :
  let m := sample_two_after [BeginUpdate sample_pd 7; Insert sample_pd sample_key foo ABC;
                             EndUpdate sample_pd; BeginUpdate sample_pd2 3] in
  let m' := sample_two_after [BeginUpdate sample_pd 7; Insert sample_pd sample_key foo ABC;
                              EndUpdate sample_pd; BeginUpdate sample_pd2 3;
                              Insert sample_pd2 sample_key foo ABC] in
  @cache sample_platform m' sample_pd = @cache sample_platform m sample_pd ∧
  (∀ q e, @entry sample_platform m q = Some e -> pde_dircache e = sample_pd ->
          @entry sample_platform m' q = Some e) ∧
  ∀ name,
    @pefs_dircache_lookup sample_platform sample_pd name m'
    = @pefs_dircache_lookup sample_platform sample_pd name m ∧
    @pefs_dircache_enclookup sample_platform sample_pd name m'
    = @pefs_dircache_enclookup sample_platform sample_pd name m.
Proof.
  intros m m'.
  apply (@caches_isolated sample_platform (Insert sample_pd2 sample_key foo ABC) m m').
  - apply sample_two_after_ok. reflexivity.
  - apply sample_two_after_ok. reflexivity.
  - exact I.
  - apply (@step_after sample_platform sample_two
             [BeginUpdate sample_pd 7; Insert sample_pd sample_key foo ABC;
              EndUpdate sample_pd; BeginUpdate sample_pd2 3]
             (Insert sample_pd2 sample_key foo ABC)).
    vm_compute. reflexivity.
  - vm_compute. discriminate.
Defined.

Lemma operations_panic_or_return_witness :
  let m := sample_after [BeginUpdate sample_pd 7; Insert sample_pd sample_key foo ABC] in
  @run_op sample_platform (Lookup sample_pd foo) m = Err Panic ∧
  ∃ m', @run_op sample_platform (EncLookup sample_pd ABC) m = Ok m'.
Proof.
  intros m.
  assert (@wf sample_platform m) as W by (apply sample_after_ok; reflexivity).
  split.
  - apply (@operations_panic_or_return sample_platform (Lookup sample_pd foo) m W).
    eexists. vm_compute. reflexivity.
  - apply (@operations_panic_or_return sample_platform (EncLookup sample_pd ABC) m W).
    eexists. vm_compute. reflexivity.
Defined.

Lemma links_stay_valid_witness :
  let m' := sample_after [BeginUpdate sample_pd 7; Insert sample_pd sample_key foo ABC;
                          EndUpdate sample_pd] in
  (∀ pd c p, @cache sample_platform m' pd = Some c -> on_dir c p ->
             ∃ e, @entry sample_platform m' p = Some e ∧ pde_dircache e = pd) ∧
  (∀ pdp pool p, pools m' !! pdp = Some pool ->
                 in_tbl (pdp_tbl pool) p ∨ in_tbl (pdp_enctbl pool) p ->
                 is_Some (@entry sample_platform m' p)) ∧
  (∀ p e, @entry sample_platform m' p = Some e ->
          ∃ c, @cache sample_platform m' (pde_dircache e) = Some c ∧ on_dir c p) ∧
  (∀ pd c, @cache sample_platform m' pd = Some c -> @pool_ok sample_platform m' (pd_pool c)).
Proof.
  intros m'.
  apply (@links_stay_valid sample_platform
           [BeginUpdate sample_pd 7; Insert sample_pd sample_key foo ABC; EndUpdate sample_pd]
           sample_fresh m').
  - exact (proj1 sample_fresh_ok).
  - exact (proj2 sample_fresh_ok).
  - apply ops_pre_no_create. reflexivity.
  - apply (@run_after sample_platform sample_fresh). vm_compute. reflexivity.
Defined.

Lemma every_entry_is_found_witness :
  let m' := sample_after [BeginUpdate sample_pd 7; Insert sample_pd sample_key foo ABC;
                          EndUpdate sample_pd; BeginUpdate sample_pd 9] in
  @hashed sample_platform m' ∧
  ∀ p e, @entry sample_platform m' p = Some e ->
    ∃ p' e', @pefs_dircache_enclookup sample_platform (pde_dircache e) (entry_encname e) m'
             = Ok p' ∧
             p' ≠ NULL ∧ @entry sample_platform m' p' = Some e' ∧
             pde_dircache e' = pde_dircache e ∧ entry_encname e' = entry_encname e.
Proof.
  intros m'.
  apply (@every_entry_is_found sample_platform
           [BeginUpdate sample_pd 7; Insert sample_pd sample_key foo ABC;
            EndUpdate sample_pd; BeginUpdate sample_pd 9] sample_fresh m').
  - exact (proj1 sample_fresh_ok).
  - exact (proj2 sample_fresh_ok).
  - exact (proj1 sample_fresh_hashed).
  - apply ops_pre_no_create. reflexivity.
  - apply (@run_after sample_platform sample_fresh). vm_compute. reflexivity.
Defined.

Lemma committed_entry_is_found_witness :
  let m := sample_after [BeginUpdate sample_pd 7; Insert sample_pd sample_key foo ABC;
                         EndUpdate sample_pd] in
  ∃ p' e', @pefs_dircache_lookup sample_platform sample_pd (entry_name sample_entry) m
           = Ok p' ∧ p' ≠ NULL ∧
           @entry sample_platform m p' = Some e' ∧ pde_dircache e' = sample_pd ∧
           pde_gen e' = 7 ∧ entry_name e' = entry_name sample_entry ∧
           ((∀ q e2, @entry sample_platform m q = Some e2 -> pde_dircache e2 = sample_pd ->
                     pde_gen e2 = 7 -> entry_name e2 = entry_name sample_entry -> q = 1) ->
            p' = 1).
Proof.
  intros m.
  apply (@committed_entry_is_found sample_platform m sample_pd
           {| pd_heads0 := [1]; pd_heads1 := []; pd_gen := 7; pd_flags := 0;
              pd_pool := 100 |} 1 sample_entry).
  - apply sample_after_ok. reflexivity.
  - apply sample_after_hashed. reflexivity.
  - vm_compute. reflexivity.
  - vm_compute. reflexivity.
  - vm_compute. reflexivity.
  - vm_compute. reflexivity.
  - reflexivity.
  - reflexivity.
Defined.

Lemma entries_counter_exact_witness :
  let m' := sample_after [BeginUpdate sample_pd 7; Insert sample_pd sample_key foo ABC;
                          Insert sample_pd sample_key bar ABC; Purge sample_pd] in
  @entries_counted sample_platform m'.
Proof.
  intros m'.
  apply (@entries_counter_exact sample_platform
           [BeginUpdate sample_pd 7; Insert sample_pd sample_key foo ABC;
            Insert sample_pd sample_key bar ABC; Purge sample_pd] sample_fresh m').
  - exact (proj2 sample_fresh_hashed).
  - apply (@run_after sample_platform sample_fresh). vm_compute. reflexivity.
Defined.

Lemma sample_refs_ref k ks k' :
  sample_refs (@pefs_key_ref sample_platform k ks) k'
  = sample_refs ks k' + (if decide (k = k') then 1 else 0).
Proof.
  unfold sample_refs. simpl. destruct (decide (k = k')) as [<-|Hne].
  - by rewrite lookup_insert_eq.
  - rewrite lookup_insert_ne by exact Hne. lia.
Qed.

Lemma sample_refs_release k ks k' :
  sample_refs (@pefs_key_release sample_platform k ks) k'
  = sample_refs ks k' - (if decide (k = k') then 1 else 0).
Proof.
  unfold sample_refs. simpl. destruct (decide (k = k')) as [<-|Hne].
  - by rewrite lookup_insert_eq.
  - rewrite lookup_insert_ne by exact Hne. lia.
Qed.

Lemma key_references_balanced_witness :
  let m' := sample_after [BeginUpdate sample_pd 7; Insert sample_pd sample_key foo ABC;
                          Insert sample_pd sample_key bar ABC; EndUpdate sample_pd] in
  @refs_balanced sample_platform sample_refs (fun _ => 0) m' ∧
  sample_refs (keys m') 55 = 2.
Proof.
  intros m'. split; [|vm_compute; reflexivity].
  apply (@key_references_balanced sample_platform sample_refs (fun _ => 0)
           [BeginUpdate sample_pd 7; Insert sample_pd sample_key foo ABC;
            Insert sample_pd sample_key bar ABC; EndUpdate sample_pd] sample_fresh m').
  - exact sample_refs_ref.
  - exact sample_refs_release.
  - intros k. reflexivity.
  - apply (@run_after sample_platform sample_fresh). vm_compute. reflexivity.
Defined.

Lemma endupdate_idempotent_witness :
  let m1 := sample_after [BeginUpdate sample_pd 7; Insert sample_pd sample_key foo ABC;
                          EndUpdate sample_pd] in
  @pefs_dircache_endupdate sample_platform sample_pd m1 = Ok m1.
Proof.
  intros m1.
  apply (@endupdate_idempotent sample_platform
           (sample_after [BeginUpdate sample_pd 7; Insert sample_pd sample_key foo ABC])
           sample_pd m1).
  apply (@step_after sample_platform sample_fresh
           [BeginUpdate sample_pd 7; Insert sample_pd sample_key foo ABC] (EndUpdate sample_pd)).
  vm_compute. reflexivity.
Defined.

Lemma abortupdate_idempotent_witness :
  let m1 := sample_after [BeginUpdate sample_pd 7; Insert sample_pd sample_key foo ABC;
                          AbortUpdate sample_pd] in
  @pefs_dircache_abortupdate sample_platform sample_pd m1 = Ok m1.
Proof.
  intros m1.
  apply (@abortupdate_idempotent sample_platform
           (sample_after [BeginUpdate sample_pd 7; Insert sample_pd sample_key foo ABC])
           sample_pd m1).
  apply (@step_after sample_platform sample_fresh
           [BeginUpdate sample_pd 7; Insert sample_pd sample_key foo ABC] (AbortUpdate sample_pd)).
  vm_compute. reflexivity.
Defined.

Lemma purge_idempotent_witness :
  let m1 := sample_after [BeginUpdate sample_pd 7; Insert sample_pd sample_key foo ABC;
                          Purge sample_pd] in
  @pefs_dircache_purge sample_platform sample_pd m1 = Ok m1.
Proof.
  intros m1.
  apply (@purge_idempotent sample_platform
           (sample_after [BeginUpdate sample_pd 7; Insert sample_pd sample_key foo ABC])
           sample_pd m1).
  apply (@step_after sample_platform sample_fresh
           [BeginUpdate sample_pd 7; Insert sample_pd sample_key foo ABC] (Purge sample_pd)).
  vm_compute. reflexivity.
Defined.

Lemma sample_private_Ok :
  @pefs_dircache_init sample_platform None (Some 0) 64 100 sample_boot = Ok sample_private.
Proof. apply (ok_after _ sample_boot). vm_compute. reflexivity. Qed.

Lemma pool_create_free_witness :
  (∃ m1 pdp,
     @pefs_dircache_pool_create sample_platform 100 sample_private = Ok (m1, pdp) ∧
     pdp ≠ NULL ∧ pdp ≠ 100 ∧ pools sample_private !! pdp = None ∧
     pools m1 = <[pdp := {| pdp_tbl := Some (replicate
                                           (Z.to_nat (@tbl_size sample_platform sample_private)) []);
                            pdp_enctbl := Some (replicate
                                           (Z.to_nat (@tbl_size sample_platform sample_private)) []) |}]>
                  (pools sample_private) ∧
     @pefs_dircache_pool_free sample_platform pdp m1 = Ok sample_private) ∧
  @tbl_size sample_platform sample_private = 16 ∧
  @pefs_dircache_pool_create sample_platform 100 sample_init = Ok (sample_init, 100) ∧
  ∀ x, @pefs_dircache_pool_free sample_platform x sample_init = Ok sample_init.
Proof.
  split; [|split].
  - apply (@pool_create_free sample_platform 100 sample_private).
    + reflexivity.
    + vm_compute. reflexivity.
  - vm_compute. reflexivity.
  - apply (@pool_create_free sample_platform 100 sample_init). discriminate.
Defined.

Lemma init_uninit_witness :
  ∃ m', @pefs_dircache_uninit sample_platform 100 sample_init = Ok m' ∧
        (∀ pdp pool, pools m' !! pdp = Some pool ->
                     pdp = 100 ∧ pdp_tbl pool = None ∧ pdp_enctbl pool = None) ∧
        dircache_zone m' = ∅ ∧ dircache_entry_zone m' = ∅.
Proof.
  destruct (@init_uninit sample_platform None None 64 100 ∅)
    as (m & m' & Hinit & Hrun & Hp & Hz & Hez).
  { vm_compute. split; [discriminate|reflexivity]. }
  { right. vm_compute. reflexivity. }
  assert (Ok m = Ok sample_init) as [= ->] by (rewrite <- Hinit; exact sample_init_Ok).
  exists m'. split; [exact Hrun|]. split; [|auto].
  intros pdp pool H. destruct (Hp pdp pool H) as (? & _ & ? & ?). auto.
Defined.

Lemma init_then_pool_create_witness :
  @pefs_dircache_pool_create sample_platform 100 sample_init = Ok (sample_init, 100) ∧
  @wf sample_platform sample_init ∧ @dircache_inv sample_platform sample_init ∧
  @hashed sample_platform sample_init ∧ @entries_counted sample_platform sample_init ∧
  @pool_ok sample_platform sample_init 100.
Proof.
  destruct (@init_then_pool_create sample_platform None None 64 100 ∅)
    as (m & m1 & pdp & Hinit & Hcreate & W & I & Hh & Hn & Hpool & Hglobal & _).
  { vm_compute. split; [discriminate|reflexivity]. }
  { vm_compute. reflexivity. }
  destruct Hglobal as [-> ->]; [discriminate|].
  assert (Ok m = Ok sample_init) as [= ->] by (rewrite <- Hinit; exact sample_init_Ok).
  split; [exact Hcreate|]. split; [exact W|]. split; [exact I|]. split; [exact Hh|].
  split; [exact Hn|exact Hpool].
Defined.

Lemma beginupdate_restarts_pass_witness :
  let m := sample_after [BeginUpdate sample_pd 7; Insert sample_pd sample_key foo ABC] in
  let c := {| pd_heads0 := [1]; pd_heads1 := []; pd_gen := 7; pd_flags := 1;
              pd_pool := 100 |} in
  ∃ m1 c1,
    @pefs_dircache_beginupdate sample_platform sample_pd 9 m = Ok m1 ∧
    @cache sample_platform m1 sample_pd = Some c1 ∧ updating c1 = true ∧ pd_gen c1 = 9 ∧
    active c1 = [] ∧ (∀ q, q ∈ stale c1 ↔ on_dir c q) ∧
    (∀ q, is_Some (@entry sample_platform m1 q) ↔ is_Some (@entry sample_platform m q)) ∧
    ∃ m2, @pefs_dircache_endupdate sample_platform sample_pd m1 = Ok m2 ∧
          ∀ q, on_dir c q -> @entry sample_platform m2 q = None.
Proof.
  intros m c.
  apply (@beginupdate_restarts_pass sample_platform m sample_pd c 9).
  - apply sample_after_ok. reflexivity.
  - vm_compute. reflexivity.
  - vm_compute. reflexivity.
  - right. right. vm_compute. reflexivity.
  - discriminate.
  - discriminate.
Defined.

Lemma sample_fresh_quiet :
  @stamped sample_platform sample_fresh ∧ @names_terminated sample_platform sample_fresh ∧
  @linked_once sample_platform sample_fresh ∧ @homed sample_platform sample_fresh.
Proof.
  destruct sample_init_empty as ((Hz & Hez & Hp) & _).
  destruct (@empty_store_quiet sample_platform _ Hz Hez Hp) as (Hs & Hn & [Hd Hb] & Hh).
  destruct sample_init_ok as (W & I & Hpool).
  split; [|split; [|split; [split|]]].
  - exact (@stamped_run_op sample_platform (Create 100) sample_init sample_fresh
             W I Hpool Hs eq_refl).
  - exact (@terminated_run_op sample_platform (Create 100) sample_init sample_fresh
             W Hn eq_refl).
  - exact (@dirs_once_run_op sample_platform (Create 100) sample_init sample_fresh
             W eq_refl Hd).
  - exact (@buckets_once_run_op sample_platform (Create 100) sample_init sample_fresh
             W eq_refl Hb).
  - exact (@homed_run_op sample_platform (Create 100) sample_init sample_fresh
             W eq_refl Hh).
Qed.

Lemma closed_pass_serves_every_entry_witness :
  let m' := sample_after [BeginUpdate sample_pd 7; Insert sample_pd sample_key foo ABC;
                          Insert sample_pd sample_key bar ABC; EndUpdate sample_pd] in
  @stamped sample_platform m' ∧
  ∀ pd c p e, @cache sample_platform m' pd = Some c -> updating c = false ->
    stale c = [] -> @entry sample_platform m' p = Some e -> pde_dircache e = pd ->
    p ∈ active c ∧ pde_gen e = pd_gen c ∧
    ∃ p' e', @pefs_dircache_lookup sample_platform pd (entry_name e) m' = Ok p' ∧
             p' ≠ NULL ∧ @entry sample_platform m' p' = Some e' ∧ pde_dircache e' = pd ∧
             pde_gen e' = pd_gen c ∧ entry_name e' = entry_name e.
Proof.
  intros m'.
  apply (@closed_pass_serves_every_entry sample_platform
           [BeginUpdate sample_pd 7; Insert sample_pd sample_key foo ABC;
            Insert sample_pd sample_key bar ABC; EndUpdate sample_pd] sample_fresh m').
  - exact (proj1 sample_fresh_ok).
  - exact (proj2 sample_fresh_ok).
  - exact (proj1 sample_fresh_hashed).
  - exact (proj1 sample_fresh_quiet).
  - apply ops_pre_no_create. reflexivity.
  - apply (@run_after sample_platform sample_fresh). vm_compute. reflexivity.
Defined.

Lemma names_stay_terminated_witness :
  @names_terminated sample_platform
    (sample_after [BeginUpdate sample_pd 7; Insert sample_pd sample_key foo ABC;
                   AbortUpdate sample_pd; Insert sample_pd sample_key bar ABC]).
Proof.
  apply (@names_stay_terminated sample_platform
           [BeginUpdate sample_pd 7; Insert sample_pd sample_key foo ABC;
            AbortUpdate sample_pd; Insert sample_pd sample_key bar ABC] sample_fresh).
  - exact (proj1 sample_fresh_ok).
  - exact (proj2 sample_fresh_ok).
  - exact (proj1 (proj2 sample_fresh_quiet)).
  - apply ops_pre_no_create. reflexivity.
  - apply (@run_after sample_platform sample_fresh). vm_compute. reflexivity.
Defined.

Lemma abortupdate_then_lookup_witness :
  let m := sample_after [BeginUpdate sample_pd 7; Insert sample_pd sample_key foo ABC;
                         EndUpdate sample_pd; BeginUpdate sample_pd 9;
                         Insert sample_pd sample_key bar ABC] in
  let e := @new_entry sample_platform sample_pd sample_key bar ABC 9 in
  ∃ m' c',
    @pefs_dircache_abortupdate sample_platform sample_pd m = Ok m' ∧
    @cache sample_platform m' sample_pd = Some c' ∧ updating c' = false ∧ pd_gen c' = 0 ∧
    2 ∈ stale c' ∧ @entry sample_platform m' 2 = Some (set_pde_gen 0 e) ∧
    if @INVARIANTS sample_platform
    then ∀ name, @pefs_dircache_lookup sample_platform sample_pd name m' = Err Panic
    else ∃ p' e', @pefs_dircache_lookup sample_platform sample_pd (entry_name e) m' = Ok p' ∧
                  p' ≠ NULL ∧ @entry sample_platform m' p' = Some e' ∧
                  pde_dircache e' = sample_pd ∧ pde_gen e' = 0 ∧
                  entry_name e' = entry_name e.
Proof.
  intros m e.
  apply (@abortupdate_then_lookup sample_platform m sample_pd
           {| pd_heads0 := [1]; pd_heads1 := [2]; pd_gen := 9; pd_flags := 3;
              pd_pool := 100 |} 2 e).
  - apply sample_after_ok. reflexivity.
  - apply sample_after_hashed. reflexivity.
  - vm_compute. reflexivity.
  - vm_compute. reflexivity.
  - vm_compute. discriminate.
  - vm_compute. apply list_elem_of_here.
  - vm_compute. reflexivity.
Defined.

Lemma entries_linked_once_witness :
  let m' := sample_after [BeginUpdate sample_pd 7; Insert sample_pd sample_key foo ABC;
                          EndUpdate sample_pd; BeginUpdate sample_pd 9;
                          Insert sample_pd sample_key bar ABC; Update 1] in
  @linked_once sample_platform m' ∧
  ∀ pd c q, @cache sample_platform m' pd = Some c -> q ∈ active c -> q ∉ stale c.
Proof.
  intros m'.
  apply (@entries_linked_once sample_platform
           [BeginUpdate sample_pd 7; Insert sample_pd sample_key foo ABC;
            EndUpdate sample_pd; BeginUpdate sample_pd 9;
            Insert sample_pd sample_key bar ABC; Update 1] sample_fresh m').
  - exact (proj1 sample_fresh_ok).
  - exact (proj2 sample_fresh_ok).
  - exact (proj1 (proj2 (proj2 sample_fresh_quiet))).
  - apply ops_pre_no_create. reflexivity.
  - apply (@run_after sample_platform sample_fresh). vm_compute. reflexivity.
Defined.

Lemma buckets_hold_their_own_witness :
  let m' := sample_after [BeginUpdate sample_pd 7; Insert sample_pd sample_key foo ABC;
                          Insert sample_pd sample_key bar ABC; EndUpdate sample_pd] in
  @homed sample_platform m' ∧
  ∀ pdp pool i pdp' pool' j q,
    pools m' !! pdp = Some pool -> pools m' !! pdp' = Some pool' ->
    (in_bucket (pdp_tbl pool) i q -> in_bucket (pdp_tbl pool') j q ->
     pdp = pdp' ∧ i = j) ∧
    (in_bucket (pdp_enctbl pool) i q -> in_bucket (pdp_enctbl pool') j q ->
     pdp = pdp' ∧ i = j).
Proof.
  intros m'.
  apply (@buckets_hold_their_own sample_platform
           [BeginUpdate sample_pd 7; Insert sample_pd sample_key foo ABC;
            Insert sample_pd sample_key bar ABC; EndUpdate sample_pd] sample_fresh m').
  - exact (proj1 sample_fresh_ok).
  - exact (proj2 sample_fresh_ok).
  - exact (proj2 (proj2 (proj2 sample_fresh_quiet))).
  - apply ops_pre_no_create. reflexivity.
  - apply (@run_after sample_platform sample_fresh). vm_compute. reflexivity.
Defined.

Lemma pass_flag_protocol_witness :
  let o := BeginUpdate sample_pd 7 in
  let c := {| pd_heads0 := []; pd_heads1 := []; pd_gen := 0; pd_flags := 0;
              pd_pool := 100 |} in
  let c' := {| pd_heads0 := []; pd_heads1 := []; pd_gen := 7; pd_flags := 1;
               pd_pool := 100 |} in
  pd_pool c' = pd_pool c ∧
  (updating c = false -> updating c' = true ->
   ∃ g, o = BeginUpdate sample_pd g ∧ g ≠ 0 ∧ pd_gen c' = g ∧ active c' = []) ∧
  (updating c = true -> updating c' = false ->
   o = AbortUpdate sample_pd ∨ o = EndUpdate sample_pd).
Proof.
  intros o c c'.
  apply (@pass_flag_protocol sample_platform o sample_fresh (sample_after [o]) sample_pd c c').
  - exact (proj1 sample_fresh_ok).
  - apply (@step_after sample_platform sample_fresh [] o). vm_compute. reflexivity.
  - vm_compute. reflexivity.
  - vm_compute. reflexivity.
Defined.
